(** * TP Compatibility Editor: the edit model and the persistence contract

    A shallow embedding of the script of [src/routes/+page.svelte]: the
    collection store ([items], [selectedItem], [currentFilePath]), the
    field and array update functions, and [loadJsonData] /
    [saveToCurrentPath], over a small model of the JavaScript store
    (objects and arrays are heap cells, so that sharing is visible) and of
    the JSON text the program reads and writes.

    Modelling boundary.
    - Numbers are the integers of magnitude at most 2^53 (the enumeration
      ordinals of the document format) and NaN; a JSON numeral with a
      fraction or an exponent, or beyond that range, is reported by the
      parser as [Unmodelled], never as a syntax error.
    - Strings are byte strings: the UTF-8 text of the file.  A [\u]
      escape of a code unit above 127 is [Unmodelled].
    - Property names range over data keys: the members of the built-in
      prototypes ([__proto__], [constructor], [length] of an array, ...)
      are not modelled.
    - [$state] proxies are transparent: reads and writes reach the
      underlying object. *)

From Stdlib Require Import ZArith NArith Ascii String List Lia Bool.
From Stdlib Require Import DecimalFacts DecimalN Sorting.Sorted Sorting.Permutation.
From stdpp Require Import base list.

Import ListNotations.
Local Open Scope string_scope.
Local Open Scope list_scope.
Local Open Scope Z_scope.

(** ** Outcomes *)

(** What a JavaScript evaluation can end in besides a value: the exception
    classes the program meets, and [Unmodelled] where the input leaves the
    modelling boundary. [Unmodelled] is not an exception: no [catch]
    handles it. *)
Inductive fault : Set := SyntaxError | TypeError | IOError | Unmodelled.

Inductive outcome (A : Type) : Type :=
| Ok (a : A)
| Err (e : fault).
Arguments Ok {A} a.
Arguments Err {A} e.

Definition obind {A B} (m : outcome A) (f : A -> outcome B) : outcome B :=
  match m with
  | Ok a => f a
  | Err e => Err e
  end.

Notation "'do' x <- m ; k" := (obind m (fun x => k))
  (at level 10, x pattern, m at level 100, k at level 200).

Fixpoint omap {A B} (f : A -> outcome B) (l : list A) : outcome (list B) :=
  match l with
  | [] => Ok []
  | x :: l' => do y <- f x; do ys <- omap f l'; Ok (y :: ys)
  end.

(** ** Characters *)

(** The double quote. *)
Definition dquote : ascii := "034".

Definition code (c : ascii) : N := N_of_ascii c.

Definition is_ws (c : ascii) : bool :=
  (code c =? 32)%N || (code c =? 9)%N || (code c =? 10)%N || (code c =? 13)%N.

Definition is_digit (c : ascii) : bool :=
  (48 <=? code c)%N && (code c <=? 57)%N.

Definition hex_digit (n : N) : ascii :=
  ascii_of_N (if (n <? 10)%N then 48 + n else 87 + n).

Definition hex_value (c : ascii) : option N :=
  let n := code c in
  if (48 <=? n)%N && (n <=? 57)%N then Some (n - 48)%N
  else if (97 <=? n)%N && (n <=? 102)%N then Some (n - 87)%N
  else if (65 <=? n)%N && (n <=? 70)%N then Some (n - 55)%N
  else None.

(** ** JSON documents *)

Unset Elimination Schemes.
Inductive json : Type :=
| JNull
| JBool (b : bool)
| JNum (n : Z)
| JStr (s : string)
| JArr (l : list json)
| JObj (m : list (string * json)).
Set Elimination Schemes.

Section JsonInduction.
Variable P : json -> Prop.
Hypothesis Hnull : P JNull.
Hypothesis Hbool : forall b, P (JBool b).
Hypothesis Hnum : forall n, P (JNum n).
Hypothesis Hstr : forall s, P (JStr s).
Hypothesis Harr : forall l, Forall P l -> P (JArr l).
Hypothesis Hobj : forall m, Forall (fun kv => P (snd kv)) m -> P (JObj m).

Fixpoint json_ind (j : json) : P j :=
  match j with
  | JNull => Hnull
  | JBool b => Hbool b
  | JNum n => Hnum n
  | JStr s => Hstr s
  | JArr l =>
      Harr l ((fix go (l : list json) : Forall P l :=
                 match l with
                 | [] => @List.Forall_nil _ _
                 | x :: l' => @List.Forall_cons _ _ _ _ (json_ind x) (go l')
                 end) l)
  | JObj m =>
      Hobj m ((fix go (m : list (string * json)) : Forall (fun kv => P (snd kv)) m :=
                 match m with
                 | [] => @List.Forall_nil _ _
                 | kv :: m' => @List.Forall_cons _ _ _ _ (json_ind (snd kv)) (go m')
                 end) m)
  end.
End JsonInduction.

(** ** Writing JSON text: [JSON.stringify(value, null, 2)] *)

(** Decimal digits, most significant first. *)
Fixpoint print_uint (u : Decimal.uint) (k : string) : string :=
  match u with
  | Decimal.Nil => k
  | Decimal.D0 u => String "0" (print_uint u k)
  | Decimal.D1 u => String "1" (print_uint u k)
  | Decimal.D2 u => String "2" (print_uint u k)
  | Decimal.D3 u => String "3" (print_uint u k)
  | Decimal.D4 u => String "4" (print_uint u k)
  | Decimal.D5 u => String "5" (print_uint u k)
  | Decimal.D6 u => String "6" (print_uint u k)
  | Decimal.D7 u => String "7" (print_uint u k)
  | Decimal.D8 u => String "8" (print_uint u k)
  | Decimal.D9 u => String "9" (print_uint u k)
  end.

(** Number::toString on an integer. *)
Definition print_Z (z : Z) (k : string) : string :=
  if z <? 0 then String "-" (print_uint (N.to_uint (Z.abs_N z)) k)
  else print_uint (N.to_uint (Z.abs_N z)) k.

(** QuoteJSONString: the two-character escapes, [\u00xx] for the other
    control characters, every other byte as it is. *)
Definition escape (c : ascii) (k : string) : string :=
  let n := code c in
  if (n =? 34)%N then String "\" (String dquote k)
  else if (n =? 92)%N then String "\" (String "\" k)
  else if (n =? 8)%N then String "\" (String "b" k)
  else if (n =? 9)%N then String "\" (String "t" k)
  else if (n =? 10)%N then String "\" (String "n" k)
  else if (n =? 12)%N then String "\" (String "f" k)
  else if (n =? 13)%N then String "\" (String "r" k)
  else if (n <? 32)%N then
    String "\" (String "u" (String "0" (String "0"
      (String (hex_digit (n / 16)) (String (hex_digit (n mod 16)) k)))))
  else String c k.

Fixpoint quote_chars (s : string) (k : string) : string :=
  match s with
  | EmptyString => String dquote k
  | String c s' => escape c (quote_chars s' k)
  end.

Definition quote (s : string) (k : string) : string :=
  String dquote (quote_chars s k).

Definition newline : ascii := ascii_of_N 10.

(** [indent lvl k]: [lvl] copies of the two-space gap. *)
Fixpoint indent (lvl : nat) (k : string) : string :=
  match lvl with
  | O => k
  | S lvl' => String " " (String " " (indent lvl' k))
  end.

(** SerializeJSONProperty / SerializeJSONArray / SerializeJSONObject with
    gap ["  "]; the text is built in front of the continuation [k]. *)
Definition print_elems (pr : json -> string -> string) (lvl : nat) (k : string) :=
  fix go (l : list json) : string :=
    match l with
    | [] => String newline (indent lvl (String "]" k))
    | y :: l' => String "," (String newline (indent (S lvl) (pr y (go l'))))
    end.

Definition print_members (pr : json -> string -> string) (lvl : nat) (k : string) :=
  fix go (m : list (string * json)) : string :=
    match m with
    | [] => String newline (indent lvl (String "}" k))
    | (key, y) :: m' =>
        String "," (String newline (indent (S lvl)
          (quote key (String ":" (String " " (pr y (go m')))))))
    end.

Fixpoint print (lvl : nat) (j : json) (k : string) : string :=
  match j with
  | JNull => String "n" (String "u" (String "l" (String "l" k)))
  | JBool true => String "t" (String "r" (String "u" (String "e" k)))
  | JBool false => String "f" (String "a" (String "l" (String "s" (String "e" k))))
  | JNum n => print_Z n k
  | JStr s => quote s k
  | JArr [] => String "[" (String "]" k)
  | JArr (x :: l) =>
      String "[" (String newline (indent (S lvl)
        (print (S lvl) x (print_elems (print (S lvl)) lvl k l))))
  | JObj [] => String "{" (String "}" k)
  | JObj ((key, x) :: m) =>
      String "{" (String newline (indent (S lvl)
        (quote key (String ":" (String " "
          (print (S lvl) x (print_members (print (S lvl)) lvl k m)))))))
  end.

Definition JSON_stringify (j : json) : string := print 0 j "".

(** ** Reading JSON text: [JSON.parse] *)

Fixpoint skip_ws (s : string) : string :=
  match s with
  | String c s' => if is_ws c then skip_ws s' else s
  | EmptyString => s
  end.

Fixpoint strip_prefix (p s : string) : option string :=
  match p with
  | EmptyString => Some s
  | String a p' =>
      match s with
      | String b s' => if Ascii.eqb a b then strip_prefix p' s' else None
      | EmptyString => None
      end
  end.

Definition digit_of (c : ascii) : option (Decimal.uint -> Decimal.uint) :=
  match code c with
  | 48%N => Some Decimal.D0 | 49%N => Some Decimal.D1 | 50%N => Some Decimal.D2
  | 51%N => Some Decimal.D3 | 52%N => Some Decimal.D4 | 53%N => Some Decimal.D5
  | 54%N => Some Decimal.D6 | 55%N => Some Decimal.D7 | 56%N => Some Decimal.D8
  | 57%N => Some Decimal.D9
  | _ => None
  end.

Fixpoint parse_uint (s : string) : Decimal.uint * string :=
  match s with
  | String c s' =>
      match digit_of c with
      | Some d => let (u, r) := parse_uint s' in (d u, r)
      | None => (Decimal.Nil, s)
      end
  | EmptyString => (Decimal.Nil, s)
  end.

(** The integers a double holds exactly and prints without an exponent. *)
Definition safe_bound : Z := 9007199254740992.

Definition starts_fraction (s : string) : bool :=
  match s with
  | String c _ => Ascii.eqb c "." || Ascii.eqb c "e" || Ascii.eqb c "E"
  | EmptyString => false
  end.

(** [int] of the JSON grammar: [0] or a digit sequence without a leading
    zero, that is, a sequence [unorm] leaves alone. *)
Definition parse_number (neg : bool) (s : string) : outcome (json * string) :=
  let (u, r) := parse_uint s in
  if Decimal.uint_eq_dec (Decimal.unorm u) u then
    if starts_fraction r then Err Unmodelled
    else
      let n := Z.of_N (N.of_uint u) in
      if n <=? safe_bound then Ok (JNum (if neg then - n else n), r)
      else Err Unmodelled
  else Err SyntaxError.

Definition unescape (e : ascii) : option ascii :=
  match code e with
  | 34%N => Some (ascii_of_N 34) | 92%N => Some (ascii_of_N 92)
  | 47%N => Some (ascii_of_N 47) | 98%N => Some (ascii_of_N 8)
  | 102%N => Some (ascii_of_N 12) | 110%N => Some (ascii_of_N 10)
  | 114%N => Some (ascii_of_N 13) | 116%N => Some (ascii_of_N 9)
  | _ => None
  end.

Definition hex4 (a b c d : ascii) : option N :=
  match hex_value a, hex_value b, hex_value c, hex_value d with
  | Some x, Some y, Some z, Some w => Some (((x * 16 + y) * 16 + z) * 16 + w)%N
  | _, _, _, _ => None
  end.

Definition cons_char (c : ascii) (r : outcome (string * string)) : outcome (string * string) :=
  do (s, rest) <- r; Ok (String c s, rest).

(** The characters of a string literal after its opening quote. *)
Fixpoint parse_chars (s : string) : outcome (string * string) :=
  match s with
  | EmptyString => Err SyntaxError
  | String c s' =>
      if Ascii.eqb c dquote then Ok (EmptyString, s')
      else if Ascii.eqb c "\" then
        match s' with
        | String e s'' =>
            if Ascii.eqb e "u" then
              match s'' with
              | String h1 (String h2 (String h3 (String h4 s5))) =>
                  match hex4 h1 h2 h3 h4 with
                  | Some n =>
                      if (n <? 128)%N then cons_char (ascii_of_N n) (parse_chars s5)
                      else Err Unmodelled
                  | None => Err SyntaxError
                  end
              | _ => Err SyntaxError
              end
            else
              match unescape e with
              | Some c' => cons_char c' (parse_chars s'')
              | None => Err SyntaxError
              end
        | EmptyString => Err SyntaxError
        end
      else if (code c <? 32)%N then Err SyntaxError
      else cons_char c (parse_chars s')
  end.

Definition parse_literal (s : string) : outcome (json * string) :=
  match strip_prefix "true" s with
  | Some r => Ok (JBool true, r)
  | None =>
      match strip_prefix "false" s with
      | Some r => Ok (JBool false, r)
      | None =>
          match strip_prefix "null" s with
          | Some r => Ok (JNull, r)
          | None => Err SyntaxError
          end
      end
  end.

(** Recursive descent on the text; the fuel bounds the number of nested
    calls and is never exhausted when it exceeds the length of the text. *)
Fixpoint parse_value (n : nat) (s : string) : outcome (json * string) :=
  match n with
  | O => Err Unmodelled
  | S n =>
      match s with
      | EmptyString => Err SyntaxError
      | String c s' =>
          if Ascii.eqb c "[" then
            match skip_ws s' with
            | String c2 s2 =>
                if Ascii.eqb c2 "]" then Ok (JArr [], s2)
                else do (l, r) <- parse_elems n (String c2 s2); Ok (JArr l, r)
            | EmptyString => Err SyntaxError
            end
          else if Ascii.eqb c "{" then
            match skip_ws s' with
            | String c2 s2 =>
                if Ascii.eqb c2 "}" then Ok (JObj [], s2)
                else do (m, r) <- parse_members n (String c2 s2); Ok (JObj m, r)
            | EmptyString => Err SyntaxError
            end
          else if Ascii.eqb c dquote then
            do (str, r) <- parse_chars s'; Ok (JStr str, r)
          else if Ascii.eqb c "-" then parse_number true s'
          else if is_digit c then parse_number false s
          else parse_literal s
      end
  end
with parse_elems (n : nat) (s : string) : outcome (list json * string) :=
  match n with
  | O => Err Unmodelled
  | S n =>
      do (v, r) <- parse_value n s;
      match skip_ws r with
      | String c r' =>
          if Ascii.eqb c "," then
            do (l, r'') <- parse_elems n (skip_ws r'); Ok (v :: l, r'')
          else if Ascii.eqb c "]" then Ok ([v], r')
          else Err SyntaxError
      | EmptyString => Err SyntaxError
      end
  end
with parse_members (n : nat) (s : string) : outcome (list (string * json) * string) :=
  match n with
  | O => Err Unmodelled
  | S n =>
      match s with
      | String c s' =>
          if Ascii.eqb c dquote then
            do (key, r) <- parse_chars s';
            match skip_ws r with
            | String c2 r2 =>
                if Ascii.eqb c2 ":" then
                  do (v, r3) <- parse_value n (skip_ws r2);
                  match skip_ws r3 with
                  | String c3 r4 =>
                      if Ascii.eqb c3 "," then
                        do (m, r5) <- parse_members n (skip_ws r4); Ok ((key, v) :: m, r5)
                      else if Ascii.eqb c3 "}" then Ok ([(key, v)], r4)
                      else Err SyntaxError
                  | EmptyString => Err SyntaxError
                  end
                else Err SyntaxError
            | EmptyString => Err SyntaxError
            end
          else Err SyntaxError
      | EmptyString => Err SyntaxError
      end
  end.

Definition JSON_parse (s : string) : outcome json :=
  do (j, r) <- parse_value (S (String.length s)) (skip_ws s);
  match skip_ws r with
  | EmptyString => Ok j
  | String _ _ => Err SyntaxError
  end.

(** ** Collation of names *)

(** [String.prototype.localeCompare] is the host's collation and stays a
    parameter of the sort below.  [ascii_collate] is the collation of the
    root locale on letters, digits and spaces: letters compare without
    regard to case first, and a lower-case letter precedes its upper-case
    form when nothing else separates two names. *)
Definition lower (c : ascii) : ascii :=
  let n := code c in
  if (65 <=? n)%N && (n <=? 90)%N then ascii_of_N (n + 32) else c.

Definition swap_case (c : ascii) : ascii :=
  let n := code c in
  if (65 <=? n)%N && (n <=? 90)%N then ascii_of_N (n + 32)
  else if (97 <=? n)%N && (n <=? 122)%N then ascii_of_N (n - 32)
  else c.

Fixpoint map_string (f : ascii -> ascii) (s : string) : string :=
  match s with
  | EmptyString => EmptyString
  | String c s' => String (f c) (map_string f s')
  end.

(** Case-insensitive lexicographic comparison. *)
Definition ci_compare (a b : string) : comparison :=
  String.compare (map_string lower a) (map_string lower b).

Definition ascii_collate (a b : string) : comparison :=
  match ci_compare a b with
  | Eq => String.compare (map_string swap_case a) (map_string swap_case b)
  | c => c
  end.

(** A collation that places punctuation and symbols before the digits
    and the digits before the letters, as the root collation of the
    host's library does (there ["_".localeCompare("1")] is negative),
    where the character codes have the underscore after the digits. *)
Definition collation_class (c : ascii) : N :=
  let n := code c in
  if (48 <=? n)%N && (n <=? 57)%N then 1%N
  else if ((65 <=? n)%N && (n <=? 90)%N) || ((97 <=? n)%N && (n <=? 122)%N) then 2%N
  else 0%N.

Definition collation_key (c : ascii) : N :=
  (256 * collation_class c + code (lower c))%N.

Fixpoint compare_keys (a b : string) : comparison :=
  match a, b with
  | EmptyString, EmptyString => Eq
  | EmptyString, String _ _ => Lt
  | String _ _, EmptyString => Gt
  | String x a', String y b' =>
      match N.compare (collation_key x) (collation_key y) with
      | Eq => compare_keys a' b'
      | c => c
      end
  end.

Definition symbols_first_collate (a b : string) : comparison :=
  match compare_keys a b with
  | Eq => String.compare (map_string swap_case a) (map_string swap_case b)
  | c => c
  end.

(** The names on which the root collation is [ascii_collate]. *)
Definition plain_char (c : ascii) : bool :=
  let n := code c in
  (n =? 32)%N || ((48 <=? n)%N && (n <=? 57)%N)
  || ((65 <=? n)%N && (n <=? 90)%N) || ((97 <=? n)%N && (n <=? 122)%N).

Fixpoint plain_name (s : string) : bool :=
  match s with
  | EmptyString => true
  | String c s' => plain_char c && plain_name s'
  end.

(** ** The JavaScript store *)

Abbreviation loc := nat.

Inductive value : Type :=
| VUndef
| VNull
| VBool (b : bool)
| VNum (n : Z)
| VNaN
| VStr (s : string)
| VRef (l : loc).

(** A heap cell: an array carries its elements ([elems = Some _]; a hole
    reads as [undefined] and is held as [VUndef]), and every object its
    named own properties in property order. *)
Record object : Type := Obj {
  elems : option (list value);
  props : list (string * value)
}.

Abbreviation heap := (list object).

(** *** Property keys *)

(** ToString of an integer, the key a numeric subscript stands for. *)
Definition key_of_number (i : Z) : string := print_Z i "".

(** An array index: a canonical numeral below 2^32 - 1. *)
Definition index_of_key (k : string) : option nat :=
  let (u, r) := parse_uint k in
  match r with
  | EmptyString =>
      if Decimal.uint_eq_dec (Decimal.unorm u) u then
        if (N.of_uint u <? 4294967295)%N then Some (N.to_nat (N.of_uint u)) else None
      else None
  | String _ _ => None
  end.

Definition object_members : list string :=
  ["__proto__"; "constructor"; "hasOwnProperty"; "isPrototypeOf";
   "propertyIsEnumerable"; "toLocaleString"; "toString"; "valueOf";
   "__defineGetter__"; "__defineSetter__"; "__lookupGetter__"; "__lookupSetter__"].

Definition array_members : list string :=
  ["length"; "at"; "concat"; "copyWithin"; "entries"; "every"; "fill"; "filter";
   "find"; "findIndex"; "findLast"; "findLastIndex"; "flat"; "flatMap"; "forEach";
   "includes"; "indexOf"; "join"; "keys"; "lastIndexOf"; "map"; "pop"; "push";
   "reduce"; "reduceRight"; "reverse"; "shift"; "slice"; "some"; "sort"; "splice";
   "toReversed"; "toSorted"; "toSpliced"; "unshift"; "values"; "with"].

Definition string_members : list string :=
  ["length"; "anchor"; "at"; "big"; "blink"; "bold"; "charAt"; "charCodeAt";
   "codePointAt"; "concat"; "endsWith"; "fixed"; "fontcolor"; "fontsize";
   "includes"; "indexOf"; "isWellFormed"; "italics"; "lastIndexOf"; "link";
   "localeCompare"; "match"; "matchAll"; "normalize"; "padEnd"; "padStart";
   "repeat"; "replace"; "replaceAll"; "search"; "slice"; "small"; "split";
   "startsWith"; "strike"; "sub"; "substr"; "substring"; "sup";
   "toLocaleLowerCase"; "toLocaleUpperCase"; "toLowerCase"; "toUpperCase";
   "toWellFormed"; "trim"; "trimEnd"; "trimLeft"; "trimRight"; "trimStart"].

Definition number_members : list string :=
  ["toExponential"; "toFixed"; "toPrecision"].

Definition mem (k : string) (l : list string) : bool :=
  existsb (String.eqb k) l.
Arguments mem : simpl never.

(** *** Own properties *)

Fixpoint lookup_prop {A} (k : string) (m : list (string * A)) : option A :=
  match m with
  | [] => None
  | (k', v) :: m' => if String.eqb k k' then Some v else lookup_prop k m'
  end.

Fixpoint replace_prop {A} (k : string) (v : A) (m : list (string * A)) : list (string * A) :=
  match m with
  | [] => []
  | (k', v') :: m' =>
      if String.eqb k k' then (k', v) :: m' else (k', v') :: replace_prop k v m'
  end.

(** Where a new integer-keyed property goes: integer keys come first, in
    ascending order. *)
Fixpoint insert_index {A} (n : nat) (k : string) (v : A) (m : list (string * A))
  : list (string * A) :=
  match m with
  | [] => [(k, v)]
  | (k', v') :: m' =>
      match index_of_key k' with
      | Some n' =>
          if (n' <? n)%nat then (k', v') :: insert_index n k v m'
          else (k, v) :: (k', v') :: m'
      | None => (k, v) :: (k', v') :: m'
      end
  end.

(** CreateDataProperty / an assignment on an ordinary object: an existing
    key keeps its place; a new integer key is placed among the integer keys;
    any other new key goes last. *)
Definition put_prop {A} (k : string) (v : A) (m : list (string * A)) : list (string * A) :=
  match lookup_prop k m with
  | Some _ => replace_prop k v m
  | None =>
      match index_of_key k with
      | Some n => insert_index n k v m
      | None => m ++ [(k, v)]
      end
  end.

(** An assignment to an element of an array; beyond the end the array
    grows and the positions in between are holes. *)
Definition put_elem (n : nat) (v : value) (es : list value) : list value :=
  if (n <? length es)%nat then <[n := v]> es
  else es ++ replicate (n - length es) VUndef ++ [v].

(** *** [[Get]] and [[Set]] *)

Definition h_get (h : heap) (v : value) (k : string) : outcome value :=
  match v with
  | VUndef | VNull => Err TypeError
  | VBool _ =>
      if mem k object_members then Err Unmodelled else Ok VUndef
  | VNum _ | VNaN =>
      if mem k object_members || mem k number_members then Err Unmodelled else Ok VUndef
  | VStr _ =>
      match index_of_key k with
      | Some _ => Err Unmodelled
      | None =>
          if mem k object_members || mem k string_members then Err Unmodelled
          else Ok VUndef
      end
  | VRef l =>
      match h !! l with
      | None => Err Unmodelled
      | Some (Obj None m) =>
          match lookup_prop k m with
          | Some x => Ok x
          | None => if mem k object_members then Err Unmodelled else Ok VUndef
          end
      | Some (Obj (Some es) m) =>
          match index_of_key k with
          | Some n => Ok (default VUndef (es !! n))
          | None =>
              if String.eqb k "length" then Ok (VNum (Z.of_nat (length es)))
              else
                match lookup_prop k m with
                | Some x => Ok x
                | None =>
                    if mem k object_members || mem k array_members then Err Unmodelled
                    else Ok VUndef
                end
          end
      end
  end.

(** The script is module code, hence strict: an assignment to a property
    of a primitive throws. *)
Definition h_set (h : heap) (v : value) (k : string) (x : value) : outcome heap :=
  match v with
  | VUndef | VNull => Err TypeError
  | VBool _ | VNum _ | VNaN | VStr _ =>
      if mem k object_members then Err Unmodelled else Err TypeError
  | VRef l =>
      match h !! l with
      | None => Err Unmodelled
      | Some (Obj None m) =>
          match lookup_prop k m with
          | Some _ => Ok (<[l := Obj None (replace_prop k x m)]> h)
          | None =>
              if mem k object_members then Err Unmodelled
              else Ok (<[l := Obj None (put_prop k x m)]> h)
          end
      | Some (Obj (Some es) m) =>
          match index_of_key k with
          | Some n => Ok (<[l := Obj (Some (put_elem n x es)) m]> h)
          | None =>
              match lookup_prop k m with
              | Some _ => Ok (<[l := Obj (Some es) (replace_prop k x m)]> h)
              | None =>
                  if mem k object_members || mem k array_members then Err Unmodelled
                  else Ok (<[l := Obj (Some es) (put_prop k x m)]> h)
              end
          end
      end
  end.

(** *** Array operations *)

(** The elements of an array value, for the built-ins that need one. A
    string is iterable too, by code point: [Unmodelled]. *)
Definition h_elems (h : heap) (v : value) : outcome (list value) :=
  match v with
  | VRef l =>
      match h !! l with
      | Some (Obj (Some es) _) => Ok es
      | Some (Obj None _) => Err TypeError
      | None => Err Unmodelled
      end
  | VStr _ => Err Unmodelled
  | _ => Err TypeError
  end.

(** [[...v]]: a new array with the elements of [v]. *)
Definition h_spread (h : heap) (v : value) : outcome (value * heap) :=
  do es <- h_elems h v;
  Ok (VRef (length h), h ++ [Obj (Some es) []]).

(** [v.push(x)]; on a string [push] is undefined and the call throws. *)
Definition h_push (h : heap) (v : value) (x : value) : outcome heap :=
  match v with
  | VRef l =>
      match h !! l with
      | Some (Obj (Some es) m) => Ok (<[l := Obj (Some (es ++ [x])) m]> h)
      | Some (Obj None _) => Err TypeError
      | None => Err Unmodelled
      end
  | _ => Err TypeError
  end.

(** The list left by [splice(start, 1)]. *)
Definition splice1 (start : Z) (es : list value) : list value :=
  let len := Z.of_nat (length es) in
  let from := if start <? 0 then Z.max (len + start) 0 else Z.min start len in
  let count := Z.min 1 (len - from) in
  take (Z.to_nat from) es ++ drop (Z.to_nat (from + count)) es.

Definition h_splice (h : heap) (v : value) (start : Z) : outcome heap :=
  match v with
  | VRef l =>
      match h !! l with
      | Some (Obj (Some es) m) => Ok (<[l := Obj (Some (splice1 start es)) m]> h)
      | Some (Obj None _) => Err TypeError
      | None => Err Unmodelled
      end
  | _ => Err TypeError
  end.

(** *** From a parsed document to the store and back *)

Definition build_list (bld : nat -> json -> value * list object) :=
  fix go (base : nat) (l : list json) : list value * list object :=
    match l with
    | [] => ([], [])
    | x :: l' =>
        let (v, b1) := bld base x in
        let (vs, b2) := go (base + length b1)%nat l' in
        (v :: vs, b1 ++ b2)
    end.

Definition build_members (bld : nat -> json -> value * list object) :=
  fix go (base : nat) (m : list (string * json)) : list (string * value) * list object :=
    match m with
    | [] => ([], [])
    | (k, x) :: m' =>
        let (v, b1) := bld base x in
        let (kvs, b2) := go (base + length b1)%nat m' in
        ((k, v) :: kvs, b1 ++ b2)
    end.

Definition put_all {A} (kvs : list (string * A)) : list (string * A) :=
  fold_left (fun acc kv => put_prop (fst kv) (snd kv) acc) kvs [].

(** The cells [JSON.parse] creates for a document when the heap holds
    [base] cells already, each object after its parts. Members are
    defined one by one in document order, so that a repeated key keeps
    its first place and its last value. *)
Fixpoint build (base : nat) (j : json) : value * list object :=
  match j with
  | JNull => (VNull, [])
  | JBool b => (VBool b, [])
  | JNum n => (VNum n, [])
  | JStr s => (VStr s, [])
  | JArr l =>
      let (vs, blk) := build_list build base l in
      (VRef (base + length blk)%nat, blk ++ [Obj (Some vs) []])
  | JObj m =>
      let (kvs, blk) := build_members build base m in
      (VRef (base + length blk)%nat, blk ++ [Obj None (put_all kvs)])
  end.

Fixpoint keep_defined (m : list (string * option json)) : list (string * json) :=
  match m with
  | [] => []
  | (k, Some j) :: m' => (k, j) :: keep_defined m'
  | (_, None) :: m' => keep_defined m'
  end.

(** SerializeJSONProperty over the store: [None] for a value that has no
    JSON text ([undefined]); NaN and an undefined element become [null];
    the fuel runs out only on a circular structure, which is a TypeError. *)
Fixpoint serialize (n : nat) (h : heap) (v : value) : outcome (option json) :=
  match v with
  | VUndef => Ok None
  | VNull => Ok (Some JNull)
  | VBool b => Ok (Some (JBool b))
  | VNum z => Ok (Some (JNum z))
  | VNaN => Ok (Some JNull)
  | VStr s => Ok (Some (JStr s))
  | VRef l =>
      match n with
      | O => Err TypeError
      | S n =>
          match h !! l with
          | None => Err Unmodelled
          | Some (Obj (Some es) _) =>
              do js <- omap (fun e => do r <- serialize n h e; Ok (default JNull r)) es;
              Ok (Some (JArr js))
          | Some (Obj None m) =>
              do ms <- omap (fun kv => do r <- serialize n h (snd kv); Ok (fst kv, r)) m;
              Ok (Some (JObj (keep_defined ms)))
          end
      end
  end.

(** ** The application state *)

Inductive toast_type : Set := success | error | info | warning.

(** A notification; its [id] is the clock reading and is left out. The
    list of toasts is kept as the log of what was shown. *)
Record Toast : Type := mkToast {
  message : string;
  type : toast_type;
  duration : Z
}.

(** The component's variables, and the host around it: the files by
    path, the paths that cannot be written, where the configuration file
    lives, and the answers the user will give to the open and save
    dialogs. *)
Record state : Type := mkState {
  store : heap;
  items : value;
  selectedItem : option Z;
  currentFilePath : option string;
  toasts : list Toast;
  files : list (string * string);
  readonly : list string;
  configPath : string;
  picks : list (option string);
  saves : list (option string)
}.

Definition set_store (h : heap) (s : state) : state :=
  mkState h (items s) (selectedItem s) (currentFilePath s) (toasts s)
          (files s) (readonly s) (configPath s) (picks s) (saves s).
Definition set_items (v : value) (s : state) : state :=
  mkState (store s) v (selectedItem s) (currentFilePath s) (toasts s)
          (files s) (readonly s) (configPath s) (picks s) (saves s).
Definition set_selectedItem (i : option Z) (s : state) : state :=
  mkState (store s) (items s) i (currentFilePath s) (toasts s)
          (files s) (readonly s) (configPath s) (picks s) (saves s).
Definition set_currentFilePath (p : option string) (s : state) : state :=
  mkState (store s) (items s) (selectedItem s) p (toasts s)
          (files s) (readonly s) (configPath s) (picks s) (saves s).
Definition set_toasts (t : list Toast) (s : state) : state :=
  mkState (store s) (items s) (selectedItem s) (currentFilePath s) t
          (files s) (readonly s) (configPath s) (picks s) (saves s).
Definition set_files (f : list (string * string)) (s : state) : state :=
  mkState (store s) (items s) (selectedItem s) (currentFilePath s) (toasts s)
          f (readonly s) (configPath s) (picks s) (saves s).
Definition set_picks (p : list (option string)) (s : state) : state :=
  mkState (store s) (items s) (selectedItem s) (currentFilePath s) (toasts s)
          (files s) (readonly s) (configPath s) p (saves s).
Definition set_saves (p : list (option string)) (s : state) : state :=
  mkState (store s) (items s) (selectedItem s) (currentFilePath s) (toasts s)
          (files s) (readonly s) (configPath s) (picks s) p.

(** [let items = $state([])] and its neighbours, on a given host. *)
Definition initial (fs : list (string * string)) (ro : list string)
    (cfg : string) (opens saves : list (option string)) : state :=
  mkState [Obj (Some []) []] (VRef 0%nat) None None [] fs ro cfg opens saves.

(** *** Stateful evaluation *)

(** An evaluation runs from a state to an outcome and the state it left:
    after a throw the state is the one the handler sees. *)
Definition M (A : Type) : Type := state -> outcome A * state.

Definition ret {A} (a : A) : M A := fun s => (Ok a, s).

Definition throw {A} (e : fault) : M A := fun s => (Err e, s).

Definition bind {A B} (m : M A) (f : A -> M B) : M B :=
  fun s =>
    match m s with
    | (Ok a, s') => f a s'
    | (Err e, s') => (Err e, s')
    end.

Notation "'let*' x ':=' m 'in' k" := (bind m (fun x => k))
  (at level 10, x name, m at level 100, k at level 200).

(** [try { m } catch { handler }] *)
Definition try_catch {A} (m : M A) (handler : M A) : M A :=
  fun s =>
    match m s with
    | (Ok a, s') => (Ok a, s')
    | (Err Unmodelled, s') => (Err Unmodelled, s')
    | (Err _, s') => handler s'
    end.

Definition lift {A} (o : outcome A) : M A := fun s => (o, s).

Definition read {A} (f : state -> A) : M A := fun s => (Ok (f s), s).

Definition write (f : state -> state) : M unit := fun s => (Ok tt, f s).

(** A read of the store. *)
Definition on_store {A} (f : heap -> outcome A) : M A :=
  fun s => (f (store s), s).

(** A step that changes the store. *)
Definition update_store (f : heap -> outcome heap) : M unit :=
  fun s =>
    match f (store s) with
    | Ok h => (Ok tt, set_store h s)
    | Err e => (Err e, s)
    end.

Definition alloc_store {A} (f : heap -> outcome (A * heap)) : M A :=
  fun s =>
    match f (store s) with
    | Ok (a, h) => (Ok a, set_store h s)
    | Err e => (Err e, s)
    end.

(** *** Toasts *)

Definition showToast (msg : string) (t : toast_type) : M unit :=
  write (fun s => set_toasts (toasts s ++ [mkToast msg t 6000]) s).

(** ** Selection and field updates *)

Definition selectItem (index : Z) : M unit :=
  write (set_selectedItem (Some index)).

(** [items[selectedItem]] *)
Definition selected_record (sel : Z) : M value :=
  let* its := read items in
  on_store (fun h => h_get h its (key_of_number sel)).

(** [items[selectedItem][field] = value].  The record is assigned to as
    an ordinary object: a member it has keeps its place, and a member
    new to it goes after the ones it has.  The page holds the record
    through the reactive proxy of [$state], which lists members added
    through it in the order in which they were first read or written;
    so the place of a second new member among the new ones can differ
    from the one given here, and the theorems on the saved document
    state the place of a member only when the record has it. *)
Definition updateField (field : string) (v : value) : M unit :=
  let* sel := read selectedItem in
  match sel with
  | Some i =>
      let* rec := selected_record i in
      update_store (fun h => h_set h rec field v)
  | None => ret tt
  end.

(** *** [parseInt] *)

Definition is_js_space (c : ascii) : bool :=
  let n := code c in (n =? 32)%N || ((9 <=? n)%N && (n <=? 13)%N).

Fixpoint trim_start (s : string) : string :=
  match s with
  | String c s' => if is_js_space c then trim_start s' else s
  | EmptyString => s
  end.

(** The value of the longest prefix of hexadecimal digits, if any. *)
Fixpoint parse_hex (s : string) (acc : option N) : option N :=
  match s with
  | String c s' =>
      match hex_value c with
      | Some d => parse_hex s' (Some (default 0%N acc * 16 + d)%N)
      | None => acc
      end
  | EmptyString => acc
  end.

Definition number_of (neg : bool) (n : N) : outcome value :=
  if Z.of_N n <=? safe_bound then Ok (VNum (if neg then - Z.of_N n else Z.of_N n))
  else Err Unmodelled.

(** What follows a leading [0x] or [0X]. *)
Definition hex_prefix (s : string) : option string :=
  match s with
  | String z (String x r) =>
      if Ascii.eqb z "0" && (Ascii.eqb x "x" || Ascii.eqb x "X") then Some r else None
  | _ => None
  end.

(** [parseInt(s)] without a radix: leading white space, a sign, an
    optional [0x], then the longest run of digits; NaN when there is
    none.  White space outside ASCII is [Unmodelled]. *)
Definition parseInt (s : string) : outcome value :=
  let s1 := trim_start s in
  match s1 with
  | EmptyString => Ok VNaN
  | String c r =>
      if (128 <=? code c)%N then Err Unmodelled
      else
        let (neg, s2) :=
          if Ascii.eqb c "-" then (true, r)
          else if Ascii.eqb c "+" then (false, r)
          else (false, s1) in
        match hex_prefix s2 with
        | Some digits =>
            match parse_hex digits None with
            | Some n => number_of neg n
            | None => Ok VNaN
            end
        | None =>
            match fst (parse_uint s2) with
            | Decimal.Nil => Ok VNaN
            | u => number_of neg (N.of_uint u)
            end
        end
  end.

(** [handleSelectChange(e, field)]: [target] is [e.target], absent or a
    select element with its [value]. *)
Definition handleSelectChange (target : option string) (field : string) : M unit :=
  match target with
  | Some v =>
      if String.eqb v "" then ret tt
      else
        let* n := lift (parseInt v) in
        updateField field n
  | None => ret tt
  end.

(** ** List fields *)

Definition addArrayItem (field : string) (template : value) : M unit :=
  let* sel := read selectedItem in
  match sel with
  | Some i =>
      let* rec := selected_record i in
      let* cur := on_store (fun h => h_get h rec field) in
      let* currentArray := alloc_store (fun h => h_spread h cur) in
      let* _ := update_store (fun h => h_push h currentArray template) in
      updateField field currentArray
  | None => ret tt
  end.

Definition removeArrayItem (field : string) (index : Z) : M unit :=
  let* sel := read selectedItem in
  match sel with
  | Some i =>
      let* rec := selected_record i in
      let* cur := on_store (fun h => h_get h rec field) in
      let* currentArray := alloc_store (fun h => h_spread h cur) in
      let* _ := update_store (fun h => h_splice h currentArray index) in
      updateField field currentArray
  | None => ret tt
  end.

Definition updateArrayItem (field : string) (index : Z) (v : value) : M unit :=
  let* sel := read selectedItem in
  match sel with
  | Some i =>
      let* rec := selected_record i in
      let* cur := on_store (fun h => h_get h rec field) in
      let* currentArray := alloc_store (fun h => h_spread h cur) in
      let* _ := update_store (fun h => h_set h currentArray (key_of_number index) v) in
      updateField field currentArray
  | None => ret tt
  end.

(** ** Bullet points of a setup detail *)

Definition updateBulletPoint (setupIndex bulletIndex : Z) (v : string) : M unit :=
  let* sel := read selectedItem in
  match sel with
  | Some i =>
      let* rec := selected_record i in
      let* cur := on_store (fun h => h_get h rec "SetupDetails") in
      let* setupDetails := alloc_store (fun h => h_spread h cur) in
      let* entry := on_store (fun h => h_get h setupDetails (key_of_number setupIndex)) in
      let* points := on_store (fun h => h_get h entry "BulletPoints") in
      let* bulletPoints := alloc_store (fun h => h_spread h points) in
      let* _ := update_store
                  (fun h => h_set h bulletPoints (key_of_number bulletIndex) (VStr v)) in
      let* entry' := on_store (fun h => h_get h setupDetails (key_of_number setupIndex)) in
      let* _ := update_store (fun h => h_set h entry' "BulletPoints" bulletPoints) in
      updateField "SetupDetails" setupDetails
  | None => ret tt
  end.

Definition addBulletPoint (setupIndex : Z) : M unit :=
  let* sel := read selectedItem in
  match sel with
  | Some i =>
      let* rec := selected_record i in
      let* cur := on_store (fun h => h_get h rec "SetupDetails") in
      let* setupDetails := alloc_store (fun h => h_spread h cur) in
      let* entry := on_store (fun h => h_get h setupDetails (key_of_number setupIndex)) in
      let* points := on_store (fun h => h_get h entry "BulletPoints") in
      let* _ := update_store (fun h => h_push h points (VStr "")) in
      updateField "SetupDetails" setupDetails
  | None => ret tt
  end.

Definition removeBulletPoint (setupIndex bulletIndex : Z) : M unit :=
  let* sel := read selectedItem in
  match sel with
  | Some i =>
      let* rec := selected_record i in
      let* cur := on_store (fun h => h_get h rec "SetupDetails") in
      let* setupDetails := alloc_store (fun h => h_spread h cur) in
      let* entry := on_store (fun h => h_get h setupDetails (key_of_number setupIndex)) in
      let* points := on_store (fun h => h_get h entry "BulletPoints") in
      let* _ := update_store (fun h => h_splice h points bulletIndex) in
      updateField "SetupDetails" setupDetails
  | None => ret tt
  end.

(** ** The host: files and dialogs *)

Definition write_file (p t : string) (fs : list (string * string)) : list (string * string) :=
  match lookup_prop p fs with
  | Some _ => replace_prop p t fs
  | None => fs ++ [(p, t)]
  end.

Definition readTextFile (p : string) : M string :=
  fun s =>
    match lookup_prop p (files s) with
    | Some t => (Ok t, s)
    | None => (Err IOError, s)
    end.

Definition writeTextFile (p t : string) : M unit :=
  fun s =>
    if mem p (readonly s) then (Err IOError, s)
    else (Ok tt, set_files (write_file p t (files s)) s).

(** [open({...})]: the next answer of the user, [None] for a cancel. *)
Definition open_dialog : M (option string) :=
  fun s =>
    match picks s with
    | [] => (Ok None, s)
    | a :: r => (Ok a, set_picks r s)
    end.

Definition save_dialog : M (option string) :=
  fun s =>
    match saves s with
    | [] => (Ok None, s)
    | a :: r => (Ok a, set_saves r s)
    end.

(** ** The configuration file *)

Definition loadAppConfig : M json :=
  try_catch
    (let* configPath := read configPath in
     let* configContent := readTextFile configPath in
     lift (JSON_parse configContent))
    (ret (JObj [])).

(** [saveAppConfig({ lastUsedPath })]; creating the directory is part of
    whether the path can be written. *)
Definition saveAppConfig (lastUsedPath : string) : M unit :=
  try_catch
    (let* configPath := read configPath in
     writeTextFile configPath (JSON_stringify (JObj [("lastUsedPath", JStr lastUsedPath)])))
    (ret tt).

(** The last member of that name: a later member overrides. *)
Fixpoint last_member (k : string) (m : list (string * json)) : option json :=
  match m with
  | [] => None
  | (k', v) :: m' =>
      match last_member k m' with
      | Some x => Some x
      | None => if String.eqb k k' then Some v else None
      end
  end.

(** [config.lastUsedPath] on what [JSON.parse] returned. *)
Definition config_lastUsedPath (config : json) : outcome (option json) :=
  match config with
  | JNull => Err TypeError
  | JObj m => Ok (last_member "lastUsedPath" m)
  | _ => Ok None
  end.

Definition json_truthy (j : option json) : bool :=
  match j with
  | None | Some JNull => false
  | Some (JBool b) => b
  | Some (JNum n) => negb (n =? 0)
  | Some (JStr s) => negb (String.eqb s "")
  | Some (JArr _) | Some (JObj _) => true
  end.

(** ** Saving *)

(** [JSON.stringify(items, null, 2)] *)
Definition stringify_items : M string :=
  let* its := read items in
  let* r := on_store (fun h => serialize (length h) h its) in
  match r with
  | Some j => ret (JSON_stringify j)
  | None => throw Unmodelled
  end.

Definition saveAsJsonData : M unit :=
  try_catch
    (let* jsonContent := stringify_items in
     let* selectedPath := save_dialog in
     match selectedPath with
     | Some p =>
         if String.eqb p "" then ret tt
         else
           let* _ := writeTextFile p jsonContent in
           let* _ := write (set_currentFilePath (Some p)) in
           let* _ := saveAppConfig p in
           showToast "Data saved successfully" success
     | None => ret tt
     end)
    (showToast "Failed to save data" error).

Definition saveToCurrentPath : M unit :=
  let* current := read currentFilePath in
  match current with
  | Some p =>
      if String.eqb p "" then saveAsJsonData
      else
        try_catch
          (let* jsonContent := stringify_items in
           let* _ := writeTextFile p jsonContent in
           showToast "Data saved successfully" success)
          (showToast "Failed to save data" error)
  | None => saveAsJsonData
  end.

Definition saveJsonData : M unit :=
  let* current := read currentFilePath in
  match current with
  | Some p => if String.eqb p "" then saveAsJsonData else saveToCurrentPath
  | None => saveAsJsonData
  end.

(** ** Loading *)

(** The callback of [parsedItems.forEach]. *)
Definition backfill (item : value) : M unit :=
  let* d := on_store (fun h => h_get h item "DevOnly") in
  match d with
  | VUndef => update_store (fun h => h_set h item "DevOnly" (VBool false))
  | _ => ret tt
  end.

Fixpoint for_each (f : value -> M unit) (l : list value) : M unit :=
  match l with
  | [] => ret tt
  | x :: l' => let* _ := f x in for_each f l'
  end.

(** [v.forEach(f)]: only an array has the method.  A hole is skipped and
    an undefined element is not; the two are one here, so the case is
    left [Unmodelled] ([JSON.parse] yields neither). *)
Definition array_forEach (v : value) (f : value -> M unit) : M unit :=
  let* es := on_store (fun h =>
               match v with
               | VRef l =>
                   match h !! l with
                   | Some (Obj (Some es) _) => Ok es
                   | Some (Obj None _) => Err TypeError
                   | None => Err Unmodelled
                   end
               | _ => Err TypeError
               end) in
  for_each (fun x => match x with VUndef => throw Unmodelled | _ => f x end) es.

(** ToString of a primitive. *)
Definition to_string (v : value) : outcome string :=
  match v with
  | VUndef => Ok "undefined"
  | VNull => Ok "null"
  | VBool true => Ok "true"
  | VBool false => Ok "false"
  | VNum n => Ok (key_of_number n)
  | VNaN => Ok "NaN"
  | VStr s => Ok s
  | VRef _ => Err Unmodelled
  end.

(** *** [Array.prototype.sort]

    The standard fixes the result for a consistent comparison (a stable
    sorted permutation, undefined elements last and never compared) and
    leaves the sequence of calls to the engine.  The load is therefore
    written for any sort ([loadJsonData_on] below), and what depends on
    the calls that are made is stated for every engine.  [sort_by] is
    one engine, the insertion sort: as in V8 on short arrays, the
    element being placed is the first argument of every comparison, and
    a sorted array is confirmed by comparing neighbours only.  For a
    consistent comparison that does not throw, every engine gives the
    result of [sort_by]. *)
Section InsertionSort.
Context {A : Type}.
Variable compare : A -> A -> outcome comparison.

(** [x] moves left past every element it precedes; [acc] is the sorted
    part, last element first. *)
Fixpoint insert_sorted (x : A) (acc : list A) : outcome (list A) :=
  match acc with
  | [] => Ok [x]
  | y :: acc' =>
      do c <- compare x y;
      match c with
      | Lt => do r <- insert_sorted x acc'; Ok (y :: r)
      | _ => Ok (x :: acc)
      end
  end.

Fixpoint sort_loop (l : list A) (acc : list A) : outcome (list A) :=
  match l with
  | [] => Ok (rev acc)
  | x :: l' => do acc' <- insert_sorted x acc; sort_loop l' acc'
  end.

Definition sort_by (l : list A) : outcome (list A) := sort_loop l [].
End InsertionSort.

Definition is_undef (v : value) : bool :=
  match v with VUndef => true | _ => false end.

(** The sort of an engine, on the elements that are not undefined. *)
Definition sorter : Type :=
  (value -> value -> outcome comparison) -> list value -> outcome (list value).

(** What is taken of the sort of an engine.  A sort throws only what a
    call of the comparison has thrown (the standard: the abrupt
    completion of a call is returned at once), and the comparison is
    called on the elements at two different places of the array, so
    that an array of one element is not compared. *)
Definition throws_from_comparison (sort : sorter) : Prop :=
  forall cmp l e,
    sort cmp l = Err e ->
    exists i j x y,
      i <> j /\ l !! i = Some x /\ l !! j = Some y /\ cmp x y = Err e.

(** A sort of two or more elements calls the comparison at least once:
    when every call on two elements of the array would throw, the sort
    throws. *)
Definition compares_elements (sort : sorter) : Prop :=
  forall cmp l,
    (2 <= length l)%nat ->
    (forall x y, x ∈ l -> y ∈ l -> exists e, cmp x y = Err e) ->
    exists e, sort cmp l = Err e.

Section Sorting.

(** The host's [String.prototype.localeCompare], by the sign of its
    result. *)
Variable localeCompare : string -> string -> comparison.

(** [(a, b) => a.Name.localeCompare(b.Name)]: the receiver [a.Name] has
    the method only when it is a string; the argument is converted to
    one. *)
Definition compare_names (h : heap) (a b : value) : outcome comparison :=
  do an <- h_get h a "Name";
  match an with
  | VStr s =>
      do bn <- h_get h b "Name";
      do t <- to_string bn;
      Ok (localeCompare s t)
  | _ => Err TypeError
  end.

(** [v.sort(compare_names)], in place, with the sort of the engine. *)
Definition array_sort_on (sort : sorter) (h : heap) (v : value) : outcome heap :=
  match v with
  | VRef l =>
      match h !! l with
      | Some (Obj (Some es) m) =>
          do sorted <- sort (compare_names h) (List.filter (fun x => negb (is_undef x)) es);
          Ok (<[l := Obj (Some (sorted ++ List.filter is_undef es)) m]> h)
      | Some (Obj None _) => Err TypeError
      | None => Err Unmodelled
      end
  | _ => Err TypeError
  end.

Definition array_sort : heap -> value -> outcome heap := array_sort_on sort_by.

Definition pick_and_read : M (option (string * string)) :=
  let* selected := open_dialog in
  match selected with
  | Some p =>
      if String.eqb p "" then ret None
      else
        let* jsonContent := readTextFile p in
        ret (Some (jsonContent, p))
  | None => ret None
  end.

(** The first part of [loadJsonData]: the text and the path it came
    from, or [None] when the user cancelled the dialog. A remembered
    path that is not a string cannot be read. *)
Definition resolve_source : M (option (string * string)) :=
  let* config := loadAppConfig in
  let* lastUsedPath := lift (config_lastUsedPath config) in
  if json_truthy lastUsedPath then
    try_catch
      (match lastUsedPath with
       | Some (JStr p) =>
           let* jsonContent := readTextFile p in
           ret (Some (jsonContent, p))
       | _ => throw IOError
       end)
      pick_and_read
  else pick_and_read.

(** [if (filePath) { currentFilePath = filePath; await saveAppConfig({ lastUsedPath: filePath }); }] *)
Definition remember_path (filePath : string) : M unit :=
  if String.eqb filePath "" then ret tt
  else
    let* _ := write (set_currentFilePath (Some filePath)) in
    saveAppConfig filePath.

(** [JSON.parse(jsonContent)]: the cells of the parsed value join the
    store. *)
Definition parse_into_store (jsonContent : string) : M value :=
  let* doc := lift (JSON_parse jsonContent) in
  alloc_store (fun h => let (v, blk) := build (length h) doc in Ok (v, h ++ blk)).

(** The [try] block of [loadJsonData]. *)
Definition load_steps_on (sort : sorter) : M unit :=
  let* source := resolve_source in
  match source with
  | None => ret tt
  | Some (jsonContent, filePath) =>
      let* _ := remember_path filePath in
      let* parsedItems := parse_into_store jsonContent in
      let* _ := array_forEach parsedItems backfill in
      let* _ := update_store (fun h => array_sort_on sort h parsedItems) in
      let* _ := write (set_items parsedItems) in
      showToast "Data loaded successfully" success
  end.

Definition loadJsonData_on (sort : sorter) : M unit :=
  try_catch (load_steps_on sort) (showToast "Failed to load data" error).

(** The load on the engine that sorts by insertion. *)
Definition load_steps : M unit := load_steps_on sort_by.

Definition loadJsonData : M unit :=
  try_catch load_steps (showToast "Failed to load data" error).

End Sorting.

(** ** The content of the collection *)

(** What [JSON.stringify] sees of the collection. *)
Definition snapshot (s : state) : outcome (option json) :=
  serialize (length (store s)) (store s) (items s).

(** The elements of the collection. *)
Definition records (s : state) : outcome (list value) :=
  h_elems (store s) (items s).

(** ** Loading, on documents

    The same steps as [loadJsonData] takes on the store, but on the
    document itself: what the parsed value is as a document once its
    members are in property order, what the callback of [forEach] makes
    of a record, and the comparison of two records.  The theorems below
    show that the store holds exactly this document after a load. *)

Fixpoint normalize (j : json) : json :=
  match j with
  | JArr l => JArr (map normalize l)
  | JObj m => JObj (put_all (map (fun kv => (fst kv, normalize (snd kv))) m))
  | _ => j
  end.

(** A record after the callback: an object gains [DevOnly] unless it has
    the member; an array takes it as a named property, which is no part
    of its content; nothing else can take it. *)
Definition backfilled (j : json) : outcome json :=
  match j with
  | JObj m =>
      match lookup_prop "DevOnly" m with
      | Some _ => Ok (JObj m)
      | None => Ok (JObj (m ++ [("DevOnly", JBool false)]))
      end
  | JArr l => Ok (JArr l)
  | _ => Err TypeError
  end.

(** [j.Name] *)
Definition doc_name (j : json) : outcome (option json) :=
  match j with
  | JNull => Err TypeError
  | JObj m => Ok (lookup_prop "Name" m)
  | _ => Ok None
  end.

Definition doc_to_string (j : option json) : outcome string :=
  match j with
  | None => Ok "undefined"
  | Some JNull => Ok "null"
  | Some (JBool true) => Ok "true"
  | Some (JBool false) => Ok "false"
  | Some (JNum n) => Ok (key_of_number n)
  | Some (JStr s) => Ok s
  | Some (JArr _) | Some (JObj _) => Err Unmodelled
  end.

Section Documents.
Variable localeCompare : string -> string -> comparison.

Definition compare_docs (a b : json) : outcome comparison :=
  do an <- doc_name a;
  match an with
  | Some (JStr s) =>
      do bn <- doc_name b;
      do t <- doc_to_string bn;
      Ok (localeCompare s t)
  | _ => Err TypeError
  end.

(** The collection a load of the document [doc] leaves. *)
Definition loaded (doc : json) : outcome json :=
  match normalize doc with
  | JArr recs =>
      do bs <- omap backfilled recs;
      do sorted <- sort_by compare_docs bs;
      Ok (JArr sorted)
  | _ => Err TypeError
  end.
End Documents.

(** The name a record carries, when it is a string. *)
Definition name_of (j : json) : option string :=
  match j with
  | JObj m =>
      match lookup_prop "Name" m with
      | Some (JStr s) => Some s
      | _ => None
      end
  | _ => None
  end.

Definition is_object (j : json) : bool :=
  match j with JObj _ => true | _ => false end.

(** ** Notions the theorems are stated with *)

(** A text that cannot continue a numeral. *)
Definition no_digit (k : string) : Prop :=
  match k with
  | EmptyString => True
  | String c _ => digit_of c = None
  end.

(** What follows a value in the text [print] writes: nothing, a comma or
    a line break. *)
Definition ends_value (k : string) : bool :=
  match k with
  | EmptyString => true
  | String c _ => Ascii.eqb c "," || Ascii.eqb c newline
  end.

(** Every number of the document is one the model holds. *)
Fixpoint safe (j : json) : bool :=
  match j with
  | JNum n => Z.abs n <=? safe_bound
  | JArr l => forallb safe l
  | JObj m => forallb (fun kv => safe (snd kv)) m
  | _ => true
  end.

(** Fuel that suffices to parse the text of a document. *)
Fixpoint need (j : json) : nat :=
  match j with
  | JArr l => S (list_sum (map (fun x => S (need x)) l))
  | JObj m => S (list_sum (map (fun kv => S (need (snd kv))) m))
  | _ => 1%nat
  end.

(** A printed value starts with a character of its own. *)
Definition opens_value (s : string) : Prop :=
  exists c r, s = String c r /\ is_ws c = false
              /\ Ascii.eqb c "]" = false /\ Ascii.eqb c "}" = false.

(** The text of [j] parses back to [j], whatever follows it. *)
Definition parses_back (j : json) : Prop :=
  forall lvl k n, (need j <= n)%nat -> ends_value k = true ->
    parse_value n (print lvl j k) = Ok (j, k).

(** ** Reading a field of a record *)

(** [items[i][field]] *)
Definition field_of (s : state) (i : Z) (field : string) : outcome value :=
  do r <- h_get (store s) (items s) (key_of_number i);
  h_get (store s) r field.

(** The elements of the list [items[i][field]]. *)
Definition list_of (s : state) (i : Z) (field : string) : outcome (list value) :=
  do v <- field_of s i field;
  h_elems (store s) v.

(** [items[i].SetupDetails[j].BulletPoints], the container. *)
Definition bullets_of (s : state) (i j : Z) : outcome value :=
  do v <- field_of s i "SetupDetails";
  do e <- h_get (store s) v (key_of_number j);
  h_get (store s) e "BulletPoints".

(** ** A sample session *)

(** JSON text written with single quotes for the double ones. *)
Definition requote (s : string) : string :=
  map_string (fun c => if Ascii.eqb c "'" then dquote else c) s.

Definition sample_document : string :=
  requote "[{'Id':'b','Name':'Banana','OverallStatus':1,
             'SetupDetails':[{'Category':'Setup','Details':'','BulletPoints':['one']},
                             {'Category':'More','Details':'','BulletPoints':['two']}],
             'FeaturesNotEmulated':['p','q'],'Extra':{'k':[1,2]}},
            {'Name':'apple','DevOnly':true},
            {'Name':'Cherry'}]".

Definition sample_host : state :=
  initial [("/data/games.json", sample_document)] [] "/config/config.json"
          [Some "/data/games.json"] [].

(** The state after the load at start-up, and after a click on the
    second entry of the list. *)
Definition sample : state := snd (loadJsonData ascii_collate sample_host).

Definition sample_selected : state := snd (selectItem 1 sample).

(** The edit from [s] to [s'] left the collection and the selection in
    place and put a new list, with the elements [sds], in the field
    [SetupDetails] of the record [sel]. *)
Definition setup_list_copied (s s' : state) (sel : Z) (sds : list value) : Prop :=
  items s' = items s /\ selectedItem s' = selectedItem s
  /\ field_of s' sel "SetupDetails" = Ok (VRef (length (store s)))
  /\ store s' !! length (store s) = Some (Obj (Some sds) []).

(** Every cell of [s] outside [cells] is the same in [s']. *)
Definition unchanged_except (cells : list nat) (s s' : state) : Prop :=
  forall l o, ~ In l cells -> store s !! l = Some o -> store s' !! l = Some o.

(** The collection of [s] is still there in [s']: the same array, the
    same selection, and every cell of [s] as it was. *)
Definition collection_kept (s s' : state) : Prop :=
  items s' = items s /\ selectedItem s' = selectedItem s
  /\ exists ext, store s' = store s ++ ext.

Definition load_failed : Toast := mkToast "Failed to load data" error 6000.

Definition load_succeeded : Toast := mkToast "Data loaded successfully" success 6000.

(** A value that is no cell below [n]. *)
Definition fresh_value (n : nat) (v : value) : Prop :=
  match v with
  | VRef l => (n <= l)%nat
  | _ => True
  end.

(** From [s] to [s'] the component's variables other than the path are
    the same, and so are the first [n] cells of the store. *)
Definition kept_below (n : nat) (s s' : state) : Prop :=
  items s' = items s /\ selectedItem s' = selectedItem s
  /\ toasts s' = toasts s /\ take n (store s') = take n (store s).

(** The selection is absent or an index into the collection. *)
Definition valid_selection (s : state) : Prop :=
  match selectedItem s with
  | None => True
  | Some i => exists es, records s = Ok es /\ 0 <= i < Z.of_nat (length es)
  end.

(** The sample session goes on: the third entry is selected, the file is
    replaced on disk by a document with one record, and the user asks for
    a reload. *)
Definition short_document : string := requote "[{'Name':'Only'}]".

Definition before_reload : state :=
  set_files (write_file "/data/games.json" short_document (files sample))
            (snd (selectItem 2 sample)).

(** A host whose only document is not JSON. *)
Definition broken_host : state :=
  initial [("/data/broken.json", "[{oops")] [] "/config/config.json"
          [Some "/data/broken.json"] [].

(** ** How the store holds a document *)

(** The nesting of a document: the fuel [serialize] needs. *)
Fixpoint depth (j : json) : nat :=
  match j with
  | JArr l => S (list_max (map depth l))
  | JObj m => S (list_max (map (fun kv => depth (snd kv)) m))
  | _ => 0%nat
  end.

(** A value and a document (or none) of the same kind, equal when they
    are primitive. *)
Inductive same_shape : value -> option json -> Prop :=
| shape_undefined : same_shape VUndef None
| shape_null : same_shape VNull (Some JNull)
| shape_bool b : same_shape (VBool b) (Some (JBool b))
| shape_num n : same_shape (VNum n) (Some (JNum n))
| shape_str s : same_shape (VStr s) (Some (JStr s))
| shape_arr l js : same_shape (VRef l) (Some (JArr js))
| shape_obj l ms : same_shape (VRef l) (Some (JObj ms)).

(** In the store [h] the value [v] stands for the document [j]. *)
Definition repr (h : heap) (v : value) (j : json) : Prop :=
  (forall n, (depth j <= n)%nat -> serialize n h v = Ok (Some j))
  /\ same_shape v (Some j).

(** The same, for a record about to be sorted: its [Name] reads the
    same in the store and in the document. *)
Definition record_repr (h : heap) (v : value) (j : json) : Prop :=
  repr h v j
  /\ exists x oj, h_get h v "Name" = Ok x /\ doc_name j = Ok oj /\ same_shape x oj.

(** Two keyed entries with the same key and related values. *)
Definition related {A B} (R : A -> B -> Prop) (a : string * A) (b : string * B) : Prop :=
  fst a = fst b /\ R (snd a) (snd b).

(** The cells of a record once the callback of [forEach] has run: the
    last cell, the record's own, has the property [DevOnly]. *)
Definition with_devonly (o : object) : object :=
  match lookup_prop "DevOnly" (props o) with
  | Some _ => o
  | None => Obj (elems o) (props o ++ [("DevOnly", VBool false)])
  end.

Definition backfilled_cells (blk : list object) : list object :=
  match rev blk with
  | [] => []
  | o :: before => rev before ++ [with_devonly o]
  end.

(** The callback as [array_forEach] runs it. *)
Definition each_record (x : value) : M unit :=
  match x with VUndef => throw Unmodelled | _ => backfill x end.

(** Two runs of a sort on lists related by [R] end alike. *)
Definition same_run {A B} (R : A -> B -> Prop)
    (r : outcome (list A)) (r' : outcome (list B)) : Prop :=
  match r, r' with
  | Ok l, Ok l' => Forall2 R l l'
  | Err e, Err e' => e = e'
  | _, _ => False
  end.

(** ** What a load promises *)

(** The text [Name] stands for in a comparison. *)
Definition name_key (j : json) : option string :=
  match doc_name j with
  | Ok oj =>
      match doc_to_string oj with
      | Ok t => Some t
      | Err _ => None
      end
  | Err _ => None
  end.

(** [a] does not come after [b] for the collation. *)
Definition name_le (localeCompare : string -> string -> comparison) (a b : json) : Prop :=
  exists ka kb, name_key a = Some ka /\ name_key b = Some kb /\ localeCompare ka kb <> Gt.

(** [a] does not come after [b] when case is ignored, for names of
    letters, digits and spaces. *)
Definition ci_le (a b : json) : Prop :=
  forall ka kb, name_key a = Some ka -> name_key b = Some kb ->
    plain_name ka = true -> plain_name kb = true -> ci_compare ka kb <> Gt.

(** The record [b] is the record [rec] with the default for [DevOnly]:
    the member is [false] when [rec] has none and is the one of [rec]
    otherwise, it comes last when it is new, and every other member is
    as in [rec]. *)
Definition devonly_defaulted (rec b : json) : Prop :=
  match rec with
  | JObj m =>
      exists m',
        b = JObj m'
        /\ lookup_prop "DevOnly" m'
           = Some (default (JBool false) (lookup_prop "DevOnly" m))
        /\ (forall k, k <> "DevOnly" -> lookup_prop k m' = lookup_prop k m)
        /\ (m' = m \/ m' = m ++ [("DevOnly", JBool false)])
  | _ => b = rec
  end.

(** A record whose [Name] is a string or is missing. *)
Definition simple_name (j : json) : bool :=
  match j with
  | JObj m =>
      match lookup_prop "Name" m with
      | Some (JStr _) | None => true
      | Some _ => false
      end
  | _ => false
  end.

(** A host whose document has a single record, without a name. *)
Definition nameless_document : string := requote "[{'Id':7}]".

Definition nameless_host : state :=
  initial [("/data/one.json", nameless_document)] [] "/config/config.json"
          [Some "/data/one.json"] [].

(** The sample session with the second record selected, when its file
    has been replaced by a document whose second record has no name, and
    by one whose two records have none. *)
Definition sample_before_unnamed : state :=
  set_files (write_file "/data/games.json" (requote "[{'Name':'a'},{'Id':7}]")
               (files sample)) sample_selected.

Definition sample_before_pair : state :=
  set_files (write_file "/data/games.json" (requote "[{'Id':1},{'Id':2}]")
               (files sample)) sample_selected.

(** A host whose document has a name that begins with an underscore
    after one that begins with a digit. *)
Definition symbols_host : state :=
  initial [("/data/symbols.json", requote "[{'Name':'1up'},{'Name':'_demo'}]")] []
          "/config/config.json" [Some "/data/symbols.json"] [].

(** The sample session with the second record selected, when the data
    file and the configuration file are gone from the disk and the user
    chooses a file that is no JSON, or one whose document is an object. *)
Definition sample_before_broken : state :=
  set_picks [Some "/data/broken.json"]
    (set_files [("/data/broken.json", "[{oops")] sample_selected).

Definition sample_before_object : state :=
  set_picks [Some "/data/object.json"]
    (set_files [("/data/object.json", requote "{'Name':'x'}")] sample_selected).

(** ** The order of own properties *)

(** The key [k] goes last when it is added to an object with the keys
    [ks]: it is new, and when it is an array index the keys are smaller
    indices. *)
Definition appendable (ks : list string) (k : string) : Prop :=
  ~ In k ks
  /\ match index_of_key k with
     | Some n =>
         Forall (fun k' => exists n', index_of_key k' = Some n' /\ (n' < n)%nat) ks
     | None => True
     end.

(** Each key of [m] goes last after [ks] and the keys before it. *)
Fixpoint ordered_from (ks : list string) (m : list string) : Prop :=
  match m with
  | [] => True
  | k :: m' => appendable ks k /\ ordered_from (ks ++ [k]) m'
  end.

(** A member list in the order of own properties. *)
Definition own_order {A} (m : list (string * A)) : Prop :=
  ordered_from [] (map fst m).

Definition save_succeeded : Toast := mkToast "Data saved successfully" success 6000.

(** ** Sample sessions *)

(** The own properties of the cell [l]. *)
Definition props_at (s : state) (l : loc) : list (string * value) :=
  match store s !! l with
  | Some o => props o
  | None => []
  end.

(** The records of the sample collection, as documents. *)
Definition sample_records : list json :=
  match snapshot sample with
  | Ok (Some (JArr T)) => T
  | _ => []
  end.

(** The sample session after a save. *)
Definition sample_saved : state := snd (saveJsonData sample).

(** A document whose first record has no name: the load, the save that
    follows, and the load after it. *)
Definition nameless_first_host : state :=
  initial [("/data/mixed.json", requote "[{'Id':7},{'Name':'a'}]")] []
          "/config/config.json" [Some "/data/mixed.json"] [].

Definition nameless_first_loaded : state :=
  snd (loadJsonData ascii_collate nameless_first_host).

Definition nameless_first_saved : state :=
  snd (saveJsonData nameless_first_loaded).

(** A host without a remembered path, whose user closes the dialog. *)
Definition cancelling_host : state :=
  initial [("/data/games.json", sample_document)] [] "/config/config.json" [None] [].

(** The sample document as [JSON.parse] returns it. *)
Definition sample_parsed : json :=
  match JSON_parse sample_document with
  | Ok doc => doc
  | Err _ => JNull
  end.

Definition save_failed : Toast := mkToast "Failed to save data" error 6000.

(** ** What the saves and the dialogs leave alone *)

(** From [s] to [s'] the store, the collection, the selection and the
    host's fixed parts are the same, and so are the answers still due to
    the open dialog. *)
Definition same_collection (s s' : state) : Prop :=
  store s' = store s /\ items s' = items s /\ selectedItem s' = selectedItem s
  /\ readonly s' = readonly s /\ configPath s' = configPath s /\ picks s' = picks s.

(** From [s] to [s'] only the store has changed. *)
Definition store_only (s s' : state) : Prop := s' = set_store (store s') s.

(** ** Records of the same name *)

(** The record [j] is compared under the name [k]. *)
Definition named (k : string) (j : json) : bool :=
  match name_key j with
  | Some k' => String.eqb k' k
  | None => false
  end.

(** A host whose document has two records of the same name. *)
Definition twins_host : state :=
  initial [("/data/twins.json",
            requote "[{'Name':'b','Id':1},{'Name':'a'},{'Name':'b','Id':2}]")] []
          "/config/config.json" [Some "/data/twins.json"] [].

(** ** Edits of a list field *)

(** The shape the three list functions share: copy the list of the
    field, change the copy, assign it to the field. *)
Definition edit_copy (field : string) (change : heap -> value -> outcome heap) : M unit :=
  let* sel := read selectedItem in
  match sel with
  | Some i =>
      let* rec := selected_record i in
      let* cur := on_store (fun h => h_get h rec field) in
      let* currentArray := alloc_store (fun h => h_spread h cur) in
      let* _ := update_store (fun h => change h currentArray) in
      updateField field currentArray
  | None => ret tt
  end.

(** The edit from [s] to [s'] assigned to [field] of the record [sel],
    whose cell is [r], and to nothing else: the collection and the
    selection are the same, every other field of the record reads the
    same, and every cell of [s] but [r] is as it was. *)
Definition field_edited (s s' : state) (sel : Z) (field : string) (r : loc) : Prop :=
  items s' = items s /\ selectedItem s' = selectedItem s
  /\ (forall f, f <> field -> field_of s' sel f = field_of s sel f)
  /\ unchanged_except [r] s s'.

(** The sample session after the reload that left the selection behind. *)
Definition after_reload : state := snd (loadJsonData ascii_collate before_reload).

(** ** The toasts on the screen

    [showToast] and [removeToast] with what the log above leaves out:
    the [id] of a toast, which is the clock reading [Date.now()] as text,
    and the timer that removes the toast after its duration.  The clock
    is an argument; [elapse] runs the timers that are due. *)
Module ToastBoard.

Record toast : Type := mkToast {
  id : string;
  message : string;
  type : toast_type;
  duration : Z
}.

(** The toasts on the screen and the timers not yet run, each with the
    time it is due and the [id] its callback removes. *)
Record board : Type := mkBoard {
  toasts : list toast;
  timers : list (Z * string)
}.

(** [toasts = toasts.filter((t) => t.id !== id)] *)
Definition removeToast (i : string) (b : board) : board :=
  mkBoard (List.filter (fun t => negb (String.eqb (id t) i)) (toasts b)) (timers b).

(** [showToast(message, type, duration)] when the clock reads [now]. *)
Definition showToast (now : Z) (msg : string) (ty : toast_type) (d : Z) (b : board)
  : board :=
  let i := key_of_number now in
  let t := mkToast i msg ty d in
  mkBoard (toasts b ++ [t])
          (if 0 <? d then timers b ++ [(now + d, i)] else timers b).

(** The timers due at [now] run, each calling [removeToast] with its
    [id]; the others stay. *)
Definition elapse (now : Z) (b : board) : board :=
  fold_left (fun b' tm => removeToast (snd tm) b')
            (List.filter (fun tm => fst tm <=? now) (timers b))
            (mkBoard (toasts b) (List.filter (fun tm => negb (fst tm <=? now)) (timers b))).

(** No toast on the screen and no timer has the [id] [i]. *)
Definition fresh (i : string) (b : board) : Prop :=
  Forall (fun t => id t <> i) (toasts b) /\ Forall (fun tm => snd tm <> i) (timers b).

End ToastBoard.

(** ** The name of the current file in the header

    [currentFilePath.split("/").pop() || currentFilePath.split("\\").pop()],
    shown when [currentFilePath] is not empty. *)

(** [s.split(sep)] for a separator of one character: the pieces between
    its occurrences, at least one. *)
Fixpoint split (sep : ascii) (s : string) : list string :=
  match s with
  | EmptyString => [EmptyString]
  | String c s' =>
      if Ascii.eqb c sep then EmptyString :: split sep s'
      else
        match split sep s' with
        | seg :: segs => String c seg :: segs
        | [] => [String c EmptyString]
        end
  end.

(** [s.split(sep).pop()]: the last piece. *)
Definition last_segment (sep : ascii) (s : string) : string :=
  List.last (split sep s) EmptyString.

(** [a || b] on strings: the empty string is falsy. *)
Definition file_label (p : string) : string :=
  let a := last_segment "/" p in
  if String.eqb a "" then last_segment "\" p else a.

(** [{#if currentFilePath} ... {/if}] *)
Definition header_label (cur : option string) : option string :=
  match cur with
  | Some p => if String.eqb p "" then None else Some (file_label p)
  | None => None
  end.

(** The character [c] occurs in [s]. *)
Fixpoint occurs (c : ascii) (s : string) : bool :=
  match s with
  | EmptyString => false
  | String c' s' => Ascii.eqb c' c || occurs c s'
  end.

(** ** More sample sessions *)

(** The sample session with a path chosen in the next save dialog. *)
Definition sample_save_as : state := set_saves [Some "/data/copy.json"] sample.

(** The sample session on a host where the data file cannot be
    written; the user will choose the same file in the save dialog. *)
Definition locked_sample : state :=
  mkState (store sample) (items sample) (selectedItem sample) (currentFilePath sample)
          (toasts sample) (files sample) ["/data/games.json"] (configPath sample)
          (picks sample) [Some "/data/games.json"].

(** The state after the load on [twins_host]. *)
Definition twins : state := snd (loadJsonData ascii_collate twins_host).

(** No toast on the screen. *)
Definition no_toasts : ToastBoard.board := ToastBoard.mkBoard [] [].

(** ** The collection as a tree

    What [JSON.stringify] writes is a tree; the store is a graph.  The
    two agree as long as no object is used in two places of the
    collection.  The definitions below say so, and the theorems on them
    give the saved document after each edit. *)

(** The cells [JSON.stringify] visits from [v], in the order of the
    visit. *)
Fixpoint reach (n : nat) (h : heap) (v : value) : list loc :=
  match v with
  | VRef l =>
      match n with
      | O => []
      | S n =>
          l :: match h !! l with
               | Some (Obj (Some es) _) => flat_map (reach n h) es
               | Some (Obj None m) => flat_map (fun kv => reach n h (snd kv)) m
               | None => []
               end
      end
  | _ => []
  end.

Fixpoint distinct (l : list nat) : bool :=
  match l with
  | [] => true
  | x :: l' => negb (existsb (Nat.eqb x) l') && distinct l'
  end.

(** No object or array is in two places of the collection. *)
Definition unshared (s : state) : bool :=
  distinct (reach (length (store s)) (store s) (items s)).

(** No property of an object holds [undefined]. *)
Definition defined_props (h : heap) : bool :=
  forallb (fun o => forallb (fun kv => negb (is_undef (snd kv))) (props o)) h.

Definition tidy (s : state) : bool := unshared s && defined_props (store s).

(** The document of a value that is no object. *)
Definition prim_doc (v : value) : option json :=
  match v with
  | VNull | VNaN => Some JNull
  | VBool b => Some (JBool b)
  | VNum z => Some (JNum z)
  | VStr s => Some (JStr s)
  | VUndef | VRef _ => None
  end.

(** What [JSON.stringify] writes for an element of an array. *)
Definition elem_doc (n : nat) (h : heap) (e : value) (j : json) : Prop :=
  exists r, serialize n h e = Ok r /\ j = default JNull r.

(** ... and for the value of a member that is written. *)
Definition member_doc (n : nat) (h : heap) (v : value) (j : json) : Prop :=
  serialize n h v = Ok (Some j).

(** In [h'] the value [v'] has the document [j'], and it uses, each
    once, only cells that [v] used in [h] and the new cells [N]. *)
Definition renewed (h : heap) (n : nat) (v : value)
    (h' : heap) (m : nat) (v' : value) (j' : json) (N : list loc) : Prop :=
  serialize m h' v' = Ok (Some j')
  /\ NoDup (reach m h' v')
  /\ forall c, c ∈ reach m h' v' -> c ∈ reach n h v \/ c ∈ N.

(** The document a save writes from [s'] is [T] with the list [js'] as
    the member [field] of the record [sel], and the collection is a tree. *)
Definition list_saved (s' : state) (T : list json) (sel : Z)
    (M : list (string * json)) (field : string) (js' : list json) : Prop :=
  snapshot s'
  = Ok (Some (JArr (<[Z.to_nat sel := JObj (replace_prop field (JArr js') M)]> T)))
  /\ tidy s' = true.

(** The document a save writes from [s'] is [T] with the list [B'] as
    the bullet points of the setup detail [si] of the record [sel], and
    the collection is a tree. *)
Definition bullets_saved (s' : state) (T : list json) (sel : Z)
    (M : list (string * json)) (SD : list json) (si : Z)
    (ME : list (string * json)) (B' : list json) : Prop :=
  snapshot s'
  = Ok (Some (JArr (<[Z.to_nat sel :=
       JObj (replace_prop "SetupDetails"
               (JArr (<[Z.to_nat si :=
                  JObj (replace_prop "BulletPoints" (JArr B') ME)]> SD)) M)]> T)))
  /\ tidy s' = true.

(** ** The sample record, as a document *)

Definition banana_first_setup : list (string * json) :=
  [("Category", JStr "Setup"); ("Details", JStr ""); ("BulletPoints", JArr [JStr "one"])].

Definition banana_setups : list json :=
  [JObj banana_first_setup;
   JObj [("Category", JStr "More"); ("Details", JStr "");
         ("BulletPoints", JArr [JStr "two"])]].

(** The second record of the sample collection. *)
Definition banana : list (string * json) :=
  [("Id", JStr "b"); ("Name", JStr "Banana"); ("OverallStatus", JNum 1);
   ("SetupDetails", JArr banana_setups);
   ("FeaturesNotEmulated", JArr [JStr "p"; JStr "q"]);
   ("Extra", JObj [("k", JArr [JNum 1; JNum 2])]);
   ("DevOnly", JBool false)].

(** A document with one record that has a common issue, loaded, and
    after a click on the record. *)
Definition issues_host : state :=
  initial [("/data/issues.json",
            requote "[{'Name':'Cherry','CommonIssues':[{'Question':'why','Answer':'so'}]}]")]
          [] "/config/config.json" [Some "/data/issues.json"] [].

Definition issues_selected : state :=
  snd (selectItem 0 (snd (loadJsonData ascii_collate issues_host))).

Definition cherry_issue : list (string * json) :=
  [("Question", JStr "why"); ("Answer", JStr "so")].

Definition cherry : list (string * json) :=
  [("Name", JStr "Cherry"); ("CommonIssues", JArr [JObj cherry_issue]);
   ("DevOnly", JBool false)].

(** ** The handlers of the template

    The buttons and the inputs of a setup detail and of an issue call
    the list functions with objects made on the spot. *)

(** [{ ...v }]: a new object with the own properties of [v], in their
    order.  An array or a string with characters has integer keys to
    copy: [Unmodelled]. *)
Definition h_copy_object (h : heap) (v : value) : outcome (value * heap) :=
  match v with
  | VRef l =>
      match h !! l with
      | Some (Obj None m) => Ok (VRef (length h), h ++ [Obj None (put_all m)])
      | Some (Obj (Some _) _) => Err Unmodelled
      | None => Err Unmodelled
      end
  | VStr t =>
      if String.eqb t "" then Ok (VRef (length h), h ++ [Obj None []])
      else Err Unmodelled
  | _ => Ok (VRef (length h), h ++ [Obj None []])
  end.

(** The [onchange] handlers of the inputs [Category] and [Details] of a
    setup detail and [Question] and [Answer] of an issue:
    [const updated = { ...entry, [member]: value };
     updateArrayItem(field, index, updated)],
    where [entry] is the item of the [each] block, the element [index]
    of [items[selectedItem][field]].  The block is there only with a
    selection. *)
Definition setEntryMember (field : string) (index : Z) (member text : string) : M unit :=
  let* sel := read selectedItem in
  match sel with
  | Some i =>
      let* rec := selected_record i in
      let* list := on_store (fun h => h_get h rec field) in
      let* entry := on_store (fun h => h_get h list (key_of_number index)) in
      let* updated := alloc_store (fun h => h_copy_object h entry) in
      let* _ := update_store (fun h => h_set h updated member (VStr text)) in
      updateArrayItem field index updated
  | None => throw Unmodelled
  end.

(** [{ Category: "", Details: "", BulletPoints: [] }]: the object, then
    the array in it. *)
Definition setup_template (base : nat) : list object :=
  [Obj None [("Category", VStr ""); ("Details", VStr "");
             ("BulletPoints", VRef (S base))];
   Obj (Some []) []].

(** [{ Question: "", Answer: "" }] *)
Definition issue_template : list object :=
  [Obj None [("Question", VStr ""); ("Answer", VStr "")]].

(** [addArrayItem(field, template)] with the cells of a template made
    for the call; the template is the first of them. *)
Definition add_template (field : string) (cells : nat -> list object) : M unit :=
  let* template :=
    alloc_store (fun h => Ok (VRef (length h), h ++ cells (length h))) in
  addArrayItem field template.

(** The button "Add Setup Detail". *)
Definition addSetupDetail : M unit := add_template "SetupDetails" setup_template.

(** The button "Add Issue". *)
Definition addIssue : M unit := add_template "CommonIssues" (fun _ => issue_template).

(** The documents of the two templates. *)
Definition setup_template_doc : json :=
  JObj [("Category", JStr ""); ("Details", JStr ""); ("BulletPoints", JArr [])].

Definition issue_template_doc : json :=
  JObj [("Question", JStr ""); ("Answer", JStr "")].

(** * Properties of the JSON text *)

(** ** Strings *)

Lemma parse_chars_escape (c : ascii) (k : string) :
  parse_chars (escape c k) = cons_char c (parse_chars k).
Proof.
  destruct c as [[] [] [] [] [] [] [] []];
    cbv [escape code N_of_ascii N_of_digits dquote]; cbn; reflexivity.
Qed.

Lemma parse_chars_quote_chars (s k : string) :
  parse_chars (quote_chars s k) = Ok (s, k).
Proof.
  induction s as [|c s IH]; simpl.
  - reflexivity.
  - rewrite parse_chars_escape, IH. reflexivity.
Qed.

(** ** Numerals *)

Lemma parse_uint_no_digit (k : string) :
  no_digit k -> parse_uint k = (Decimal.Nil, k).
Proof.
  destruct k as [|c k]; simpl; [reflexivity|].
  intros ->. reflexivity.
Qed.

Lemma parse_uint_print_uint (u : Decimal.uint) (k : string) :
  no_digit k -> parse_uint (print_uint u k) = (u, k).
Proof.
  intros Hk. induction u; simpl; try rewrite IHu; try reflexivity.
  apply parse_uint_no_digit, Hk.
Qed.

Lemma unorm_to_uint (n : N) : Decimal.unorm (N.to_uint n) = N.to_uint n.
Proof.
  rewrite <- (DecimalN.Unsigned.of_to n) at 2.
  symmetry. apply DecimalN.Unsigned.to_of.
Qed.

Lemma to_uint_not_nil (n : N) : N.to_uint n <> Decimal.Nil.
Proof.
  rewrite <- unorm_to_uint. apply unorm_nonnil.
Qed.

Lemma ends_value_no_digit (k : string) : ends_value k = true -> no_digit k.
Proof.
  destruct k as [|c k]; simpl; [trivial|].
  intros H. apply orb_true_iff in H as [H|H];
    apply Ascii.eqb_eq in H; subst c; reflexivity.
Qed.

Lemma ends_value_no_fraction (k : string) :
  ends_value k = true -> starts_fraction k = false.
Proof.
  destruct k as [|c k]; simpl; [trivial|].
  intros H. apply orb_true_iff in H as [H|H];
    apply Ascii.eqb_eq in H; subst c; reflexivity.
Qed.

Lemma parse_number_print (neg : bool) (n : N) (k : string) :
  ends_value k = true ->
  Z.of_N n <= safe_bound ->
  parse_number neg (print_uint (N.to_uint n) k)
  = Ok (JNum (if neg then - Z.of_N n else Z.of_N n), k).
Proof.
  intros Hk Hn. unfold parse_number.
  rewrite parse_uint_print_uint by (apply ends_value_no_digit, Hk).
  destruct (Decimal.uint_eq_dec _ _) as [_|Hne].
  - rewrite ends_value_no_fraction by exact Hk.
    rewrite DecimalN.Unsigned.of_to.
    apply Z.leb_le in Hn. rewrite Hn. reflexivity.
  - exfalso. apply Hne, unorm_to_uint.
Qed.

Lemma parse_value_digits (u : Decimal.uint) (k : string) (n : nat) :
  u <> Decimal.Nil ->
  parse_value (S n) (print_uint u k) = parse_number false (print_uint u k).
Proof.
  destruct u; intros Hu; try congruence; reflexivity.
Qed.

Lemma parse_value_print_Z (z : Z) (k : string) (n : nat) :
  ends_value k = true ->
  Z.abs z <= safe_bound ->
  parse_value (S n) (print_Z z k) = Ok (JNum z, k).
Proof.
  intros Hk Hz. unfold print_Z.
  assert (Habs : Z.of_N (Z.abs_N z) = Z.abs z) by apply N2Z.inj_abs_N.
  destruct (Z.ltb_spec z 0) as [Hneg|Hpos].
  - change (parse_value (S n) (String "-" ?s)) with (parse_number true s).
    rewrite parse_number_print; [|exact Hk|lia].
    rewrite Habs. replace (- Z.abs z) with z by lia. reflexivity.
  - rewrite parse_value_digits by apply to_uint_not_nil.
    rewrite parse_number_print; [|exact Hk|lia].
    rewrite Habs. replace (Z.abs z) with z by lia. reflexivity.
Qed.

(** ** White space *)

Lemma skip_ws_indent (lvl : nat) (k : string) : skip_ws (indent lvl k) = skip_ws k.
Proof. induction lvl as [|lvl IH]; simpl; [reflexivity | exact IH]. Qed.

Lemma skip_ws_break (lvl : nat) (k : string) :
  skip_ws (String newline (indent lvl k)) = skip_ws k.
Proof. simpl. apply skip_ws_indent. Qed.

Lemma skip_ws_space (k : string) : skip_ws (String " " k) = skip_ws k.
Proof. reflexivity. Qed.

Lemma skip_ws_comma (k : string) : skip_ws (String "," k) = String "," k.
Proof. reflexivity. Qed.

Lemma skip_ws_colon (k : string) : skip_ws (String ":" k) = String ":" k.
Proof. reflexivity. Qed.

Lemma skip_ws_quote (k : string) : skip_ws (String dquote k) = String dquote k.
Proof. reflexivity. Qed.

Lemma print_opens_value (j : json) (lvl : nat) (k : string) :
  opens_value (print lvl j k).
Proof.
  unfold opens_value.
  destruct j as [|[]|z|s|[|x l]|[|[key x] m]]; simpl;
    try (eexists _, _; repeat split; reflexivity).
  unfold print_Z. destruct (z <? 0).
  - eexists _, _; repeat split; reflexivity.
  - pose proof (to_uint_not_nil (Z.abs_N z)) as Hu.
    destruct (N.to_uint (Z.abs_N z)); try congruence; simpl;
      eexists _, _; repeat split; reflexivity.
Qed.

Lemma skip_ws_opens (s : string) : opens_value s -> skip_ws s = s.
Proof.
  intros (c & r & -> & Hc & _). simpl. rewrite Hc. reflexivity.
Qed.

Lemma skip_ws_print (j : json) (lvl : nat) (k : string) :
  skip_ws (print lvl j k) = print lvl j k.
Proof. apply skip_ws_opens, print_opens_value. Qed.

(** ** Documents *)

Lemma parse_elems_print (l : list json) :
  Forall parses_back l ->
  forall x lvl k n,
    parses_back x ->
    (S (need x) + list_sum (map (fun y => S (need y)) l) <= n)%nat ->
    ends_value k = true ->
    parse_elems n (print (S lvl) x (print_elems (print (S lvl)) lvl k l))
    = Ok (x :: l, k).
Proof.
  induction 1 as [|y l Hy Hl IH]; intros x lvl k n Hx Hn Hk;
    (destruct n as [|n]; [simpl in Hn; lia|]); simpl in Hn;
    cbn [parse_elems print_elems];
    rewrite Hx by (simpl; auto; lia); cbn [obind].
  - rewrite skip_ws_break. reflexivity.
  - rewrite skip_ws_comma. cbv beta iota. rewrite Ascii.eqb_refl.
    rewrite skip_ws_break, skip_ws_print.
    rewrite (IH y lvl k n Hy) by (auto; lia).
    reflexivity.
Qed.

Lemma parse_members_print (m : list (string * json)) :
  Forall (fun kv => parses_back (snd kv)) m ->
  forall key x lvl k n,
    parses_back x ->
    (S (need x) + list_sum (map (fun kv => S (need (snd kv))) m) <= n)%nat ->
    ends_value k = true ->
    parse_members n
      (quote key (String ":" (String " "
         (print (S lvl) x (print_members (print (S lvl)) lvl k m)))))
    = Ok ((key, x) :: m, k).
Proof.
  induction 1 as [|[key' y] m Hy Hm IH]; intros key x lvl k n Hx Hn Hk;
    (destruct n as [|n]; [simpl in Hn; lia|]); simpl in Hn;
    unfold quote; cbn [parse_members print_members];
    rewrite Ascii.eqb_refl, parse_chars_quote_chars; cbn [obind];
    rewrite skip_ws_colon; cbv beta iota; rewrite Ascii.eqb_refl;
    rewrite skip_ws_space, skip_ws_print;
    rewrite Hx by (simpl; auto; lia); cbn [obind].
  - rewrite skip_ws_break. reflexivity.
  - rewrite skip_ws_comma. cbv beta iota. rewrite Ascii.eqb_refl.
    rewrite skip_ws_break.
    change (skip_ws (quote key' ?s)) with (quote key' s).
    simpl in Hy.
    rewrite (IH key' y lvl k n Hy) by (auto; lia).
    reflexivity.
Qed.

Lemma parse_value_print (j : json) : safe j = true -> parses_back j.
Proof.
  induction j as [|b|z|s|l IH|m IH] using json_ind; intros Hs lvl k n Hn Hk;
    (destruct n as [|n]; [simpl in Hn; lia|]).
  - reflexivity.
  - destruct b; reflexivity.
  - apply parse_value_print_Z; [exact Hk|]. simpl in Hs. lia.
  - simpl. rewrite parse_chars_quote_chars. reflexivity.
  - destruct l as [|x l]; [reflexivity|].
    simpl in Hs. apply andb_true_iff in Hs as [Hx Hl].
    inversion IH as [|? ? IHx IHl]; subst.
    cbn [print parse_value].
    change (Ascii.eqb "[" "[") with true. cbv beta iota.
    rewrite skip_ws_break, skip_ws_print.
    destruct (print_opens_value x (S lvl) (print_elems (print (S lvl)) lvl k l))
      as (c & r & E & _ & Hc & _).
    rewrite E, Hc, <- E.
    rewrite parse_elems_print; [reflexivity| |auto|simpl in Hn; lia|exact Hk].
    clear -IHl Hl. induction IHl as [|y l Hy _ IH]; constructor.
    + simpl in Hl. apply andb_true_iff in Hl as [Hy' _]. auto.
    + simpl in Hl. apply andb_true_iff in Hl as [_ Hl']. auto.
  - destruct m as [|[key x] m]; [reflexivity|].
    simpl in Hs. apply andb_true_iff in Hs as [Hx Hm].
    inversion IH as [|? ? IHx IHm]; subst. simpl in IHx.
    cbn [print parse_value].
    change (Ascii.eqb "{" "[") with false.
    change (Ascii.eqb "{" "{") with true. cbv beta iota.
    rewrite skip_ws_break. unfold quote at 1. rewrite skip_ws_quote.
    change (Ascii.eqb dquote "}") with false. cbv beta iota.
    change (String dquote (quote_chars key ?s)) with (quote key s).
    rewrite parse_members_print; [reflexivity| |auto|simpl in Hn; lia|exact Hk].
    clear -IHm Hm. induction IHm as [|y m Hy _ IH]; constructor.
    + simpl in Hm. apply andb_true_iff in Hm as [Hy' _]. auto.
    + simpl in Hm. apply andb_true_iff in Hm as [_ Hm']. auto.
Qed.

(** ** The fuel of [JSON_parse] suffices *)

Lemma length_indent (lvl : nat) (k : string) :
  (String.length k <= String.length (indent lvl k))%nat.
Proof. induction lvl; simpl; lia. Qed.

Lemma length_print_uint (u : Decimal.uint) (k : string) :
  u <> Decimal.Nil -> (S (String.length k) <= String.length (print_uint u k))%nat.
Proof.
  assert (H : forall u, (String.length k <= String.length (print_uint u k))%nat).
  { induction u0; simpl; lia. }
  destruct u; intros Hu; try congruence; simpl; specialize (H u); lia.
Qed.

Lemma length_escape (c : ascii) (k : string) :
  (S (String.length k) <= String.length (escape c k))%nat.
Proof.
  unfold escape.
  repeat match goal with
         | |- context [if ?b then _ else _] => destruct b
         end; simpl; lia.
Qed.

Lemma length_quote_chars (s k : string) :
  (S (String.length k) <= String.length (quote_chars s k))%nat.
Proof.
  induction s as [|c s IH]; simpl; [lia|].
  pose proof (length_escape c (quote_chars s k)). lia.
Qed.

Lemma length_print (j : json) :
  forall lvl k, (need j + String.length k <= String.length (print lvl j k))%nat.
Proof.
  induction j as [|b|z|s|l IH|m IH] using json_ind; intros lvl k.
  - simpl. lia.
  - destruct b; simpl; lia.
  - simpl. unfold print_Z.
    pose proof (length_print_uint _ k (to_uint_not_nil (Z.abs_N z))).
    destruct (z <? 0); simpl; lia.
  - simpl. pose proof (length_quote_chars s k). lia.
  - destruct l as [|x l]; [simpl; lia|].
    inversion IH as [|? ? IHx IHl]; subst.
    assert (Hrest : (list_sum (map (fun y => S (need y)) l) + String.length k
                     <= String.length (print_elems (print (S lvl)) lvl k l))%nat).
    { clear -IHl. induction IHl as [|y l Hy _ IH]; simpl.
      - pose proof (length_indent lvl (String "]" k)). simpl in *. lia.
      - pose proof (length_indent (S lvl)
          (print (S lvl) y (print_elems (print (S lvl)) lvl k l))).
        specialize (Hy (S lvl) (print_elems (print (S lvl)) lvl k l)).
        simpl in *. lia. }
    cbn [print need map list_sum String.length].
    pose proof (length_indent (S lvl)
      (print (S lvl) x (print_elems (print (S lvl)) lvl k l))).
    specialize (IHx (S lvl) (print_elems (print (S lvl)) lvl k l)).
    simpl in *. lia.
  - destruct m as [|[key x] m]; [simpl; lia|].
    inversion IH as [|? ? IHx IHm]; subst. simpl in IHx.
    assert (Hrest : (list_sum (map (fun kv => S (need (snd kv))) m) + String.length k
                     <= String.length (print_members (print (S lvl)) lvl k m))%nat).
    { clear -IHm. induction IHm as [|[key y] m Hy _ IH]; simpl.
      - pose proof (length_indent lvl (String "}" k)). simpl in *. lia.
      - simpl in Hy.
        specialize (Hy (S lvl) (print_members (print (S lvl)) lvl k m)).
        pose proof (length_quote_chars key (String ":" (String " "
          (print (S lvl) y (print_members (print (S lvl)) lvl k m))))).
        pose proof (length_indent (S lvl) (quote key (String ":" (String " "
          (print (S lvl) y (print_members (print (S lvl)) lvl k m)))))).
        unfold quote in *. simpl in *. lia. }
    cbn [print need map list_sum String.length snd].
    specialize (IHx (S lvl) (print_members (print (S lvl)) lvl k m)).
    pose proof (length_quote_chars key (String ":" (String " "
      (print (S lvl) x (print_members (print (S lvl)) lvl k m))))).
    pose proof (length_indent (S lvl) (quote key (String ":" (String " "
      (print (S lvl) x (print_members (print (S lvl)) lvl k m)))))).
    unfold quote in *. simpl in *. lia.
Qed.

(** Reading back what was written: [JSON.parse(JSON.stringify(j, null, 2))]
    is [j]. *)
Theorem JSON_parse_stringify (j : json) :
  safe j = true -> JSON_parse (JSON_stringify j) = Ok j.
Proof.
  intros Hs. unfold JSON_parse, JSON_stringify.
  rewrite skip_ws_print.
  rewrite (parse_value_print j Hs 0%nat EmptyString); [reflexivity| |reflexivity].
  pose proof (length_print j 0 EmptyString). simpl in *. lia.
Qed.

(** * Properties of the store *)

(** ** Numeric subscripts *)

Lemma index_of_key_number (i : Z) :
  0 <= i < 4294967295 -> index_of_key (key_of_number i) = Some (Z.to_nat i).
Proof.
  intros Hi. unfold index_of_key, key_of_number, print_Z.
  destruct (Z.ltb_spec i 0) as [?|_]; [lia|].
  rewrite parse_uint_print_uint by exact I.
  destruct (Decimal.uint_eq_dec _ _) as [_|Hne].
  - rewrite DecimalN.Unsigned.of_to.
    destruct (N.ltb_spec (Z.abs_N i) 4294967295) as [_|?]; [|lia].
    f_equal. lia.
  - exfalso. apply Hne, unorm_to_uint.
Qed.

Lemma index_of_key_negative (i : Z) :
  i < 0 -> index_of_key (key_of_number i) = None.
Proof.
  intros Hi. unfold index_of_key, key_of_number, print_Z.
  destruct (Z.ltb_spec i 0) as [_|?]; [|lia].
  reflexivity.
Qed.

(** ** Cells *)

Lemma lookup_snoc_old {A} (h : list A) (x : A) (l : nat) (o : A) :
  h !! l = Some o -> (h ++ [x]) !! l = Some o.
Proof.
  intros H. rewrite lookup_app_l; [exact H|].
  apply lookup_lt_Some in H. exact H.
Qed.

Lemma lookup_snoc_new {A} (h : list A) (x : A) :
  (h ++ [x]) !! length h = Some x.
Proof. apply list_lookup_middle. reflexivity. Qed.

Lemma splice1_beyond (start : Z) (es : list value) :
  Z.of_nat (length es) <= start -> splice1 start es = es.
Proof.
  intros H. unfold splice1.
  destruct (Z.ltb_spec start 0) as [?|_]; [lia|].
  rewrite Z.min_r by lia.
  replace (Z.of_nat (length es) - Z.of_nat (length es)) with 0 by lia.
  rewrite Z.min_r by lia. rewrite Z.add_0_r, Nat2Z.id.
  rewrite take_ge, drop_ge by lia. apply app_nil_r.
Qed.

(** ** Own properties *)

Lemma lookup_replace_eq {A} (k : string) (v x : A) (m : list (string * A)) :
  lookup_prop k m = Some x -> lookup_prop k (replace_prop k v m) = Some v.
Proof.
  induction m as [|[k' v'] m IH]; simpl; [discriminate|].
  destruct (String.eqb k k') eqn:E; simpl; rewrite E; auto.
Qed.

Lemma lookup_replace_ne {A} (k k' : string) (v : A) (m : list (string * A)) :
  k <> k' -> lookup_prop k' (replace_prop k v m) = lookup_prop k' m.
Proof.
  intros Hne. induction m as [|[k0 v0] m IH]; simpl; [reflexivity|].
  destruct (String.eqb_spec k k0) as [->|E]; simpl.
  - destruct (String.eqb_spec k' k0); [congruence|reflexivity].
  - rewrite IH. reflexivity.
Qed.

Lemma lookup_insert_index_eq {A} (n : nat) (k : string) (v : A) (m : list (string * A)) :
  lookup_prop k m = None -> lookup_prop k (insert_index n k v m) = Some v.
Proof.
  induction m as [|[k' v'] m IH]; simpl.
  - rewrite String.eqb_refl. reflexivity.
  - destruct (String.eqb k k') eqn:E; [discriminate|]. intros Hm.
    destruct (index_of_key k') as [n'|]; [destruct (n' <? n)%nat|]; simpl;
      rewrite ?E, ?String.eqb_refl; auto.
Qed.

Lemma lookup_insert_index_ne {A} (n : nat) (k k' : string) (v : A) (m : list (string * A)) :
  k <> k' -> lookup_prop k' (insert_index n k v m) = lookup_prop k' m.
Proof.
  intros Hne. apply not_eq_sym, String.eqb_neq in Hne.
  induction m as [|[k0 v0] m IH]; simpl.
  - rewrite Hne. reflexivity.
  - destruct (index_of_key k0) as [n'|]; [destruct (n' <? n)%nat|]; simpl;
      rewrite ?Hne, ?IH; reflexivity.
Qed.

Lemma lookup_snoc_eq {A} (k : string) (v : A) (m : list (string * A)) :
  lookup_prop k m = None -> lookup_prop k (m ++ [(k, v)]) = Some v.
Proof.
  induction m as [|[k' v'] m IH]; simpl.
  - rewrite String.eqb_refl. reflexivity.
  - destruct (String.eqb k k'); [discriminate|auto].
Qed.

Lemma lookup_snoc_ne {A} (k k' : string) (v : A) (m : list (string * A)) :
  k <> k' -> lookup_prop k' (m ++ [(k, v)]) = lookup_prop k' m.
Proof.
  intros Hne. apply not_eq_sym, String.eqb_neq in Hne.
  induction m as [|[k0 v0] m IH]; simpl.
  - rewrite Hne. reflexivity.
  - rewrite IH. reflexivity.
Qed.

Lemma lookup_put_eq {A} (k : string) (v : A) (m : list (string * A)) :
  lookup_prop k (put_prop k v m) = Some v.
Proof.
  unfold put_prop. destruct (lookup_prop k m) eqn:E.
  - eapply lookup_replace_eq, E.
  - destruct (index_of_key k).
    + apply lookup_insert_index_eq, E.
    + apply lookup_snoc_eq, E.
Qed.

Lemma lookup_put_ne {A} (k k' : string) (v : A) (m : list (string * A)) :
  k <> k' -> lookup_prop k' (put_prop k v m) = lookup_prop k' m.
Proof.
  intros Hne. unfold put_prop. destruct (lookup_prop k m).
  - apply lookup_replace_ne, Hne.
  - destruct (index_of_key k).
    + apply lookup_insert_index_ne, Hne.
    + apply lookup_snoc_ne, Hne.
Qed.

(** * List fields of the selected record *)

Section ListField.

Variable s : state.
Variables (L r a : loc) (sel : Z) (field : string).
Variables (recs es : list value) (pm pa : list (string * value)).
Variable m : list (string * value).

(** The collection is an array, its selected element a record, and the
    named field of the record a list. *)
Hypothesis Hitems : items s = VRef L.
Hypothesis Hcoll : store s !! L = Some (Obj (Some recs) pm).
Hypothesis Hsel : selectedItem s = Some sel.
Hypothesis Hrange : 0 <= sel < 4294967295.
Hypothesis Hrec : recs !! Z.to_nat sel = Some (VRef r).
Hypothesis Hcell : store s !! r = Some (Obj None m).
Hypothesis Hfield : lookup_prop field m = Some (VRef a).
Hypothesis Hlist : store s !! a = Some (Obj (Some es) pa).

Lemma list_of_selected : list_of s sel field = Ok es.
Proof.
  unfold list_of, field_of. rewrite Hitems. simpl.
  rewrite Hcoll, index_of_key_number by exact Hrange.
  rewrite Hrec. simpl. rewrite Hcell, Hfield. simpl. rewrite Hlist. reflexivity.
Qed.

End ListField.

(** ** Reads and writes through a reference *)

Lemma h_get_element (h : heap) (l : loc) (es : list value) (p : list (string * value)) (i : Z) :
  h !! l = Some (Obj (Some es) p) ->
  0 <= i < 4294967295 ->
  h_get h (VRef l) (key_of_number i) = Ok (default VUndef (es !! Z.to_nat i)).
Proof.
  intros Hl Hi. unfold h_get. rewrite Hl, index_of_key_number by exact Hi.
  reflexivity.
Qed.

Lemma h_get_own (h : heap) (l : loc) (m : list (string * value)) (k : string) (x : value) :
  h !! l = Some (Obj None m) ->
  lookup_prop k m = Some x ->
  h_get h (VRef l) k = Ok x.
Proof. intros Hl Hk. unfold h_get. rewrite Hl, Hk. reflexivity. Qed.

Lemma h_set_own (h : heap) (l : loc) (m : list (string * value)) (k : string) (x0 x : value) :
  h !! l = Some (Obj None m) ->
  lookup_prop k m = Some x0 ->
  h_set h (VRef l) k x = Ok (<[l := Obj None (replace_prop k x m)]> h).
Proof. intros Hl Hk. unfold h_set. rewrite Hl, Hk. reflexivity. Qed.

Lemma h_set_plain (h : heap) (l : loc) (m : list (string * value)) (k : string) (x : value) :
  h !! l = Some (Obj None m) ->
  mem k object_members = false ->
  h_set h (VRef l) k x = Ok (<[l := Obj None (put_prop k x m)]> h).
Proof.
  intros Hl Hk. unfold h_set, put_prop. rewrite Hl, Hk.
  destruct (lookup_prop k m); reflexivity.
Qed.

(** ** [parseInt] on a numeral *)

Lemma hex_prefix_print_uint (u : Decimal.uint) : hex_prefix (print_uint u "") = None.
Proof.
  destruct u as [|u|u|u|u|u|u|u|u|u|u]; try reflexivity;
    destruct u; reflexivity.
Qed.

Lemma print_uint_starts (u : Decimal.uint) :
  u <> Decimal.Nil ->
  exists c r, print_uint u "" = String c r
    /\ is_js_space c = false /\ (128 <=? code c)%N = false
    /\ Ascii.eqb c "-" = false /\ Ascii.eqb c "+" = false.
Proof.
  destruct u; intros Hu; try congruence; simpl;
    eexists _, _; repeat split; reflexivity.
Qed.

Lemma parseInt_numeral (n : Z) :
  0 <= n <= safe_bound -> parseInt (key_of_number n) = Ok (VNum n).
Proof.
  intros Hn. unfold key_of_number, print_Z.
  destruct (Z.ltb_spec n 0) as [?|_]; [lia|].
  pose proof (to_uint_not_nil (Z.abs_N n)) as Hnil.
  pose proof (hex_prefix_print_uint (N.to_uint (Z.abs_N n))) as Hhex.
  pose proof (parse_uint_print_uint (N.to_uint (Z.abs_N n)) "" I) as Hparse.
  pose proof (DecimalN.Unsigned.of_to (Z.abs_N n)) as Hof.
  destruct (print_uint_starts _ Hnil) as (c & r & E & Hsp & Hc & Hminus & Hplus).
  unfold parseInt. rewrite E in *.
  cbn [trim_start]. rewrite Hsp, Hc, Hminus, Hplus, Hhex, Hparse.
  cbn [fst].
  destruct (N.to_uint (Z.abs_N n)) eqn:Eu; try congruence;
    rewrite Hof; unfold number_of;
    (destruct (Z.leb_spec (Z.of_N (Z.abs_N n)) safe_bound); [|lia]);
    do 2 f_equal; lia.
Qed.

(** * Scalar fields of the selected record *)

Section SelectedRecord.

Variable s : state.
Variables (L r : loc) (sel : Z).
Variables (recs : list value) (pm m : list (string * value)).

(** The collection is an array and its selected element a record. *)
Hypothesis Hitems : items s = VRef L.
Hypothesis Hcoll : store s !! L = Some (Obj (Some recs) pm).
Hypothesis Hsel : selectedItem s = Some sel.
Hypothesis Hrange : 0 <= sel < 4294967295.
Hypothesis Hrec : recs !! Z.to_nat sel = Some (VRef r).
Hypothesis Hcell : store s !! r = Some (Obj None m).

Lemma selected_record_at_cell : selected_record sel s = (Ok (VRef r), s).
Proof.
  unfold selected_record, bind, read, on_store. rewrite Hitems.
  rewrite (h_get_element _ _ _ _ _ Hcoll Hrange), Hrec. reflexivity.
Qed.

Lemma field_of_selected (field : string) :
  field_of s sel field = h_get (store s) (VRef r) field.
Proof.
  unfold field_of. rewrite Hitems.
  rewrite (h_get_element _ _ _ _ _ Hcoll Hrange), Hrec. reflexivity.
Qed.

Lemma updateField_selected (field : string) (v : value) :
  mem field object_members = false ->
  updateField field v s
  = (Ok tt, set_store (<[r := Obj None (put_prop field v m)]> (store s)) s).
Proof.
  intros Hk. unfold updateField, bind, read, update_store.
  rewrite Hsel, selected_record_at_cell.
  rewrite (h_set_plain _ _ _ _ _ Hcell Hk). reflexivity.
Qed.

Lemma field_of_updated (field f : string) (v : value) :
  field_of (set_store (<[r := Obj None (put_prop field v m)]> (store s)) s) sel f
  = if String.eqb field f then Ok v else field_of s sel f.
Proof.
  assert (HLr : L <> r) by (intros ->; rewrite Hcoll in Hcell; discriminate).
  assert (Hr : (r < length (store s))%nat) by (eapply lookup_lt_Some, Hcell).
  rewrite field_of_selected.
  unfold field_of. destruct s as [h its seli cur ts fs ro cfg pk sv]; simpl in *.
  subst its. unfold h_get at 1.
  rewrite list_lookup_insert_ne by exact (not_eq_sym HLr).
  rewrite Hcoll, index_of_key_number by exact Hrange.
  rewrite Hrec. simpl.
  rewrite list_lookup_insert_eq by exact Hr. rewrite Hcell.
  destruct (String.eqb_spec field f) as [->|Hne].
  - rewrite lookup_put_eq. reflexivity.
  - rewrite lookup_put_ne by exact Hne. reflexivity.
Qed.

(** C2, as amended.  An event without a target or with an empty value
    changes nothing.  Any other value is handed to [parseInt] and the
    result is stored in the field, whatever it is: the ordinal when the
    text is a numeral, NaN when the text holds no integer.  No other
    field of the record changes, and neither does the selection. *)
Theorem handleSelectChange_forwards (field : string) :
  mem field object_members = false ->
  handleSelectChange None field s = (Ok tt, s)
  /\ handleSelectChange (Some "") field s = (Ok tt, s)
  /\ (forall raw v, raw <> "" -> parseInt raw = Ok v ->
        exists s',
          handleSelectChange (Some raw) field s = (Ok tt, s')
          /\ field_of s' sel field = Ok v
          /\ (forall f, f <> field -> field_of s' sel f = field_of s sel f)
          /\ items s' = items s /\ selectedItem s' = selectedItem s)
  /\ (forall n, 0 <= n <= safe_bound -> parseInt (key_of_number n) = Ok (VNum n)).
Proof.
  intros Hk. repeat split; try reflexivity.
  - intros raw v Hraw Hv. eexists. split; [|split; [|split; [|split]]].
    + unfold handleSelectChange.
      destruct (String.eqb_spec raw "") as [?|_]; [contradiction|].
      unfold bind, lift. rewrite Hv.
      apply updateField_selected, Hk.
    + rewrite field_of_updated, String.eqb_refl. reflexivity.
    + intros f Hf. rewrite field_of_updated.
      destruct (String.eqb_spec field f); [congruence|reflexivity].
    + reflexivity.
    + reflexivity.
  - apply parseInt_numeral.
Qed.

End SelectedRecord.

(** * Bullet points of a setup detail *)

Section Bullets.

Variable s : state.
Variables (L r a e b : loc) (sel si : Z).
Variables (recs sds bps : list value).
Variables (pm pa pb m me : list (string * value)).

(** The collection is an array; its selected element is a record whose
    [SetupDetails] is a list; the entry [si] of that list is an object
    whose [BulletPoints] is a list. The record is not its own setup
    detail, and the bullet list is not the collection. *)
Hypothesis Hitems : items s = VRef L.
Hypothesis Hcoll : store s !! L = Some (Obj (Some recs) pm).
Hypothesis Hsel : selectedItem s = Some sel.
Hypothesis Hrange : 0 <= sel < 4294967295.
Hypothesis Hrec : recs !! Z.to_nat sel = Some (VRef r).
Hypothesis Hcell : store s !! r = Some (Obj None m).
Hypothesis Hsetups : lookup_prop "SetupDetails" m = Some (VRef a).
Hypothesis Hlist : store s !! a = Some (Obj (Some sds) pa).
Hypothesis Hsi : 0 <= si < 4294967295.
Hypothesis Hentry : sds !! Z.to_nat si = Some (VRef e).
Hypothesis Hdetail : store s !! e = Some (Obj None me).
Hypothesis Hpoints : lookup_prop "BulletPoints" me = Some (VRef b).
Hypothesis Hbullets : store s !! b = Some (Obj (Some bps) pb).
Hypothesis Hre : r <> e.
Hypothesis HLb : L <> b.

Lemma addBulletPoint_store :
  addBulletPoint si s
  = (Ok tt,
     set_store
       (<[r := Obj None (replace_prop "SetupDetails" (VRef (length (store s))) m)]>
          (<[b := Obj (Some (bps ++ [VStr ""])) pb]>
             (store s ++ [Obj (Some sds) []]))) s).
Proof.
  assert (Hr : (r < length (store s))%nat) by (eapply lookup_lt_Some, Hcell).
  assert (Hb : (b < length (store s))%nat) by (eapply lookup_lt_Some, Hbullets).
  assert (Hrb : r <> b) by (intros ->; rewrite Hcell in Hbullets; discriminate).
  unfold addBulletPoint, bind, read. rewrite Hsel.
  rewrite (selected_record_at_cell s L r sel recs pm) by assumption.
  unfold on_store at 1. rewrite (h_get_own _ _ _ _ _ Hcell Hsetups).
  unfold alloc_store, h_spread, h_elems. rewrite Hlist. cbn [obind].
  unfold on_store; cbn [store set_store].
  rewrite (h_get_element _ _ _ _ _ (lookup_snoc_new (store s) _) Hsi), Hentry.
  cbn [default from_option id].
  rewrite (h_get_own _ _ _ _ _ (lookup_snoc_old _ _ _ _ Hdetail) Hpoints).
  unfold update_store at 1, h_push; cbn [store set_store].
  rewrite (lookup_snoc_old _ _ _ _ Hbullets).
  unfold updateField, bind, read; cbn [selectedItem set_store].
  rewrite Hsel.
  erewrite (selected_record_at_cell _ L r sel recs pm); cbn [items store set_store];
    try reflexivity; try assumption.
  2: { rewrite list_lookup_insert_ne by exact (not_eq_sym HLb).
       apply lookup_snoc_old, Hcoll. }
  unfold update_store; cbn [store set_store].
  erewrite h_set_own; [reflexivity| |exact Hsetups].
  rewrite list_lookup_insert_ne by exact (not_eq_sym Hrb).
  apply lookup_snoc_old, Hcell.
Qed.

Lemma removeBulletPoint_store (bi : Z) :
  removeBulletPoint si bi s
  = (Ok tt,
     set_store
       (<[r := Obj None (replace_prop "SetupDetails" (VRef (length (store s))) m)]>
          (<[b := Obj (Some (splice1 bi bps)) pb]>
             (store s ++ [Obj (Some sds) []]))) s).
Proof.
  assert (Hr : (r < length (store s))%nat) by (eapply lookup_lt_Some, Hcell).
  assert (Hb : (b < length (store s))%nat) by (eapply lookup_lt_Some, Hbullets).
  assert (Hrb : r <> b) by (intros ->; rewrite Hcell in Hbullets; discriminate).
  unfold removeBulletPoint, bind, read. rewrite Hsel.
  rewrite (selected_record_at_cell s L r sel recs pm) by assumption.
  unfold on_store at 1. rewrite (h_get_own _ _ _ _ _ Hcell Hsetups).
  unfold alloc_store, h_spread, h_elems. rewrite Hlist. cbn [obind].
  unfold on_store; cbn [store set_store].
  rewrite (h_get_element _ _ _ _ _ (lookup_snoc_new (store s) _) Hsi), Hentry.
  cbn [default from_option id].
  rewrite (h_get_own _ _ _ _ _ (lookup_snoc_old _ _ _ _ Hdetail) Hpoints).
  unfold update_store at 1, h_splice; cbn [store set_store].
  rewrite (lookup_snoc_old _ _ _ _ Hbullets).
  unfold updateField, bind, read; cbn [selectedItem set_store].
  rewrite Hsel.
  erewrite (selected_record_at_cell _ L r sel recs pm); cbn [items store set_store];
    try reflexivity; try assumption.
  2: { rewrite list_lookup_insert_ne by exact (not_eq_sym HLb).
       apply lookup_snoc_old, Hcoll. }
  unfold update_store; cbn [store set_store].
  erewrite h_set_own; [reflexivity| |exact Hsetups].
  rewrite list_lookup_insert_ne by exact (not_eq_sym Hrb).
  apply lookup_snoc_old, Hcell.
Qed.

Lemma updateBulletPoint_store (bi : Z) (v : string) :
  0 <= bi < 4294967295 ->
  updateBulletPoint si bi v s
  = (Ok tt,
     set_store
       (<[r := Obj None (replace_prop "SetupDetails" (VRef (length (store s))) m)]>
          (<[e := Obj None (replace_prop "BulletPoints" (VRef (S (length (store s)))) me)]>
             (<[S (length (store s)) := Obj (Some (put_elem (Z.to_nat bi) (VStr v) bps)) []]>
                ((store s ++ [Obj (Some sds) []]) ++ [Obj (Some bps) []])))) s).
Proof.
  intros Hbi.
  assert (Hr : (r < length (store s))%nat) by (eapply lookup_lt_Some, Hcell).
  assert (He : (e < length (store s))%nat) by (eapply lookup_lt_Some, Hdetail).
  assert (HL : (L < length (store s))%nat) by (eapply lookup_lt_Some, Hcoll).
  assert (HLe : L <> e) by (intros ->; rewrite Hcoll in Hdetail; discriminate).
  assert (Hlen : length (store s ++ [Obj (Some sds) []]) = S (length (store s)))
    by (rewrite length_app; simpl; lia).
  unfold updateBulletPoint, bind, read. rewrite Hsel.
  rewrite (selected_record_at_cell s L r sel recs pm) by assumption.
  unfold on_store at 1. rewrite (h_get_own _ _ _ _ _ Hcell Hsetups).
  unfold alloc_store at 1, h_spread, h_elems. rewrite Hlist. cbn [obind].
  unfold on_store at 1; cbn [store set_store].
  rewrite (h_get_element _ _ _ _ _ (lookup_snoc_new (store s) _) Hsi), Hentry.
  cbn [default from_option id].
  unfold on_store at 1; cbn [store set_store].
  rewrite (h_get_own _ _ _ _ _ (lookup_snoc_old _ _ _ _ Hdetail) Hpoints).
  unfold alloc_store; cbn [store set_store].
  rewrite (lookup_snoc_old _ _ _ _ Hbullets). cbn [obind].
  unfold update_store at 1; cbn [store set_store].
  unfold h_set at 1. rewrite lookup_snoc_new.
  rewrite index_of_key_number by exact Hbi.
  unfold on_store; cbn [store set_store].
  rewrite !Hlen.
  erewrite (h_get_element _ (length (store s)) sds []); [|
    rewrite list_lookup_insert_ne by lia;
    apply lookup_snoc_old, lookup_snoc_new | exact Hsi].
  rewrite Hentry. cbn [default from_option id].
  unfold update_store at 1; cbn [store set_store].
  erewrite h_set_own; [| |exact Hpoints].
  2: { rewrite list_lookup_insert_ne by lia.
       apply lookup_snoc_old, lookup_snoc_old, Hdetail. }
  unfold updateField, bind, read; cbn [selectedItem set_store].
  rewrite Hsel.
  erewrite (selected_record_at_cell _ L r sel recs pm); cbn [items store set_store];
    try reflexivity; try assumption.
  2: { rewrite list_lookup_insert_ne by exact (not_eq_sym HLe).
       rewrite list_lookup_insert_ne by lia.
       apply lookup_snoc_old, lookup_snoc_old, Hcoll. }
  unfold update_store; cbn [store set_store].
  erewrite h_set_own; [reflexivity| |exact Hsetups].
  rewrite list_lookup_insert_ne by exact (not_eq_sym Hre).
  rewrite list_lookup_insert_ne by lia.
  apply lookup_snoc_old, lookup_snoc_old, Hcell.
Qed.

Lemma field_of_setups_after (h : heap) :
  h !! L = Some (Obj (Some recs) pm) ->
  h !! r = Some (Obj None (replace_prop "SetupDetails" (VRef (length (store s))) m)) ->
  field_of (set_store h s) sel "SetupDetails" = Ok (VRef (length (store s))).
Proof.
  intros HL Hr. unfold field_of; cbn [store items set_store]. rewrite Hitems.
  rewrite (h_get_element _ _ _ _ _ HL Hrange), Hrec. cbn [default from_option id obind].
  apply (h_get_own _ _ _ _ _ Hr).
  eapply lookup_replace_eq, Hsetups.
Qed.

(** The bullet list of the entry after an edit that kept the entry: the
    new setup list holds the entry, and the entry its list. *)
Lemma bullets_of_kept (h : heap) :
  h !! L = Some (Obj (Some recs) pm) ->
  h !! r = Some (Obj None (replace_prop "SetupDetails" (VRef (length (store s))) m)) ->
  h !! length (store s) = Some (Obj (Some sds) []) ->
  h !! e = Some (Obj None me) ->
  bullets_of (set_store h s) sel si = Ok (VRef b).
Proof.
  intros HL Hr Hnew He. unfold bullets_of.
  rewrite (field_of_setups_after h HL Hr). cbn [obind store set_store].
  rewrite (h_get_element _ _ _ _ _ Hnew Hsi), Hentry.
  cbn [default from_option id obind].
  apply (h_get_own _ _ _ _ _ He Hpoints).
Qed.

(** C3, as amended.  Each bullet-point operation copies the setup-details
    list: the record gets a new list that holds the same SetupDetail
    objects, written back through [updateField].  Appending or removing a
    bullet point changes the bullet list of the entry in place: the
    entry holds the same list as before, which has the empty string at
    its end, or is without the element [splice] removes; no cell of the
    store besides the record and that list changes.  Setting a bullet
    point gives the entry, which is the object the old setup list holds
    too, a new list with the element replaced; the old bullet list is as
    it was, and no cell besides the record and the entry changes.  No
    bullet point of another setup detail or of another record is
    altered. *)
Theorem bullet_edits_copy_setup_list (bi : Z) (v : string) :
  0 <= bi < 4294967295 ->
  (exists s', addBulletPoint si s = (Ok tt, s')
     /\ setup_list_copied s s' sel sds /\ unchanged_except [r; b] s s'
     /\ bullets_of s' sel si = Ok (VRef b)
     /\ store s' !! b = Some (Obj (Some (bps ++ [VStr ""])) pb))
  /\ (exists s', removeBulletPoint si bi s = (Ok tt, s')
     /\ setup_list_copied s s' sel sds /\ unchanged_except [r; b] s s'
     /\ bullets_of s' sel si = Ok (VRef b)
     /\ store s' !! b = Some (Obj (Some (splice1 bi bps)) pb))
  /\ (exists s', updateBulletPoint si bi v s = (Ok tt, s')
     /\ setup_list_copied s s' sel sds /\ unchanged_except [r; e] s s'
     /\ bullets_of s' sel si = Ok (VRef (S (length (store s))))
     /\ store s' !! S (length (store s))
        = Some (Obj (Some (put_elem (Z.to_nat bi) (VStr v) bps)) [])
     /\ store s' !! e
        = Some (Obj None (replace_prop "BulletPoints" (VRef (S (length (store s)))) me))
     /\ store s' !! b = Some (Obj (Some bps) pb)).
Proof.
  intros Hbi.
  assert (Hr : (r < length (store s))%nat) by (eapply lookup_lt_Some, Hcell).
  assert (Hb : (b < length (store s))%nat) by (eapply lookup_lt_Some, Hbullets).
  assert (He : (e < length (store s))%nat) by (eapply lookup_lt_Some, Hdetail).
  assert (HL : (L < length (store s))%nat) by (eapply lookup_lt_Some, Hcoll).
  assert (Hrb : r <> b) by (intros ->; rewrite Hcell in Hbullets; discriminate).
  assert (Heb : e <> b) by (intros ->; rewrite Hdetail in Hbullets; discriminate).
  assert (HLr : L <> r) by (intros ->; rewrite Hcoll in Hcell; discriminate).
  assert (HLe : L <> e) by (intros ->; rewrite Hcoll in Hdetail; discriminate).
  assert (Hlen : length (store s ++ [Obj (Some sds) []]) = S (length (store s)))
    by (rewrite length_app; simpl; lia).
  assert (Hin_place : forall bps',
    let h' := <[r := Obj None (replace_prop "SetupDetails" (VRef (length (store s))) m)]>
                (<[b := Obj (Some bps') pb]> (store s ++ [Obj (Some sds) []])) in
    setup_list_copied s (set_store h' s) sel sds
    /\ unchanged_except [r; b] s (set_store h' s)
    /\ bullets_of (set_store h' s) sel si = Ok (VRef b)
    /\ store (set_store h' s) !! b = Some (Obj (Some bps') pb)).
  { intros bps' h'.
    assert (H1 : h' !! L = Some (Obj (Some recs) pm)).
    { unfold h'. rewrite !list_lookup_insert_ne by congruence.
      apply lookup_snoc_old, Hcoll. }
    assert (H2 : h' !! r
                 = Some (Obj None (replace_prop "SetupDetails"
                                     (VRef (length (store s))) m))).
    { unfold h'. apply list_lookup_insert_eq. rewrite length_insert, Hlen. lia. }
    assert (H3 : h' !! length (store s) = Some (Obj (Some sds) [])).
    { unfold h'. rewrite !list_lookup_insert_ne by lia. apply lookup_snoc_new. }
    assert (H4 : h' !! e = Some (Obj None me)).
    { unfold h'. rewrite !list_lookup_insert_ne by congruence.
      apply lookup_snoc_old, Hdetail. }
    split; [|split; [|split]].
    - repeat split; [apply field_of_setups_after; assumption|exact H3].
    - intros l o Hl Ho. cbn [store set_store]. unfold h'.
      rewrite !list_lookup_insert_ne by (intros ->; apply Hl; simpl; auto).
      apply lookup_snoc_old, Ho.
    - apply bullets_of_kept; assumption.
    - cbn [store set_store]. unfold h'.
      rewrite list_lookup_insert_ne by exact Hrb.
      apply list_lookup_insert_eq. rewrite Hlen. lia. }
  split; [|split].
  - eexists. split; [apply addBulletPoint_store|]. apply Hin_place.
  - eexists. split; [apply removeBulletPoint_store|]. apply Hin_place.
  - eexists. split; [apply updateBulletPoint_store, Hbi|].
    assert (Hcell' :
      (<[r := Obj None (replace_prop "SetupDetails" (VRef (length (store s))) m)]>
         (<[e := Obj None (replace_prop "BulletPoints" (VRef (S (length (store s)))) me)]>
            (<[S (length (store s)) := Obj (Some (put_elem (Z.to_nat bi) (VStr v) bps)) []]>
               ((store s ++ [Obj (Some sds) []]) ++ [Obj (Some bps) []])))) !! r
      = Some (Obj None (replace_prop "SetupDetails" (VRef (length (store s))) m))).
    { apply list_lookup_insert_eq.
      rewrite !length_insert, length_app, Hlen. simpl. lia. }
    assert (HcellL :
      (<[r := Obj None (replace_prop "SetupDetails" (VRef (length (store s))) m)]>
         (<[e := Obj None (replace_prop "BulletPoints" (VRef (S (length (store s)))) me)]>
            (<[S (length (store s)) := Obj (Some (put_elem (Z.to_nat bi) (VStr v) bps)) []]>
               ((store s ++ [Obj (Some sds) []]) ++ [Obj (Some bps) []])))) !! L
      = Some (Obj (Some recs) pm)).
    { rewrite !list_lookup_insert_ne by (congruence || lia).
      apply lookup_snoc_old, lookup_snoc_old, Hcoll. }
    split; [|split; [|split; [|split; [|split]]]].
    + repeat split.
      * apply field_of_setups_after; assumption.
      * cbn [store set_store].
        rewrite !list_lookup_insert_ne by lia.
        apply lookup_snoc_old, lookup_snoc_new.
    + intros l o Hl Ho. cbn [store set_store].
      assert (l < length (store s))%nat by (eapply lookup_lt_Some, Ho).
      rewrite !list_lookup_insert_ne
        by (first [lia | intros ->; apply Hl; simpl; auto]).
      apply lookup_snoc_old, lookup_snoc_old, Ho.
    + unfold bullets_of. rewrite field_of_setups_after by assumption.
      cbn [obind store set_store].
      erewrite (h_get_element _ (length (store s)) sds []); [| |exact Hsi].
      2: { rewrite !list_lookup_insert_ne by lia.
           apply lookup_snoc_old, lookup_snoc_new. }
      rewrite Hentry. cbn [default from_option id obind].
      eapply h_get_own.
      * rewrite list_lookup_insert_ne by exact Hre.
        apply list_lookup_insert_eq.
        rewrite length_insert, length_app, Hlen. simpl. lia.
      * eapply lookup_replace_eq, Hpoints.
    + cbn [store set_store].
      rewrite !list_lookup_insert_ne by lia.
      apply list_lookup_insert_eq. rewrite length_app, Hlen. simpl. lia.
    + cbn [store set_store].
      rewrite list_lookup_insert_ne by exact Hre.
      apply list_lookup_insert_eq.
      rewrite length_insert, length_app, Hlen. simpl. lia.
    + cbn [store set_store].
      rewrite !list_lookup_insert_ne by (congruence || lia).
      apply lookup_snoc_old, lookup_snoc_old, Hbullets.
Qed.

End Bullets.

(** * Running the steps of a load *)

Lemma bind_inv {A B} (m : M A) (f : A -> M B) (s s' : state) (r : outcome B) :
  bind m f s = (r, s') ->
  (exists a s1, m s = (Ok a, s1) /\ f a s1 = (r, s'))
  \/ (exists e, m s = (Err e, s') /\ r = Err e).
Proof.
  unfold bind. destruct (m s) as [[a|e] s1]; intros H.
  - left. eauto.
  - right. inversion H; subst. eauto.
Qed.

Lemma try_catch_inv {A} (m handler : M A) (s s' : state) (r : outcome A) :
  try_catch m handler s = (r, s') ->
  (exists a, m s = (Ok a, s') /\ r = Ok a)
  \/ (m s = (Err Unmodelled, s') /\ r = Err Unmodelled)
  \/ (exists e s1, m s = (Err e, s1) /\ e <> Unmodelled /\ handler s1 = (r, s')).
Proof.
  unfold try_catch. destruct (m s) as [[a|e] s1]; intros H.
  - left. inversion H; subst. eauto.
  - destruct e; try (right; right; eexists _, _; repeat split; [discriminate|exact H]).
    right; left. inversion H; subst. auto.
Qed.

(** ** The steps that leave the component's variables alone *)

Lemma readTextFile_state (p : string) (s s' : state) (r : outcome string) :
  readTextFile p s = (r, s') -> s' = s.
Proof.
  unfold readTextFile. destruct (lookup_prop p (files s)); intros H; inversion H; auto.
Qed.

Lemma loadAppConfig_state (s s' : state) (r : outcome json) :
  loadAppConfig s = (r, s') -> s' = s.
Proof.
  unfold loadAppConfig, try_catch, bind, read, lift, ret.
  destruct (readTextFile (configPath s) s) as [[t|e] s1] eqn:E;
    apply readTextFile_state in E; subst s1.
  - destruct (JSON_parse t) as [j|[]]; intros H; inversion H; auto.
  - destruct e; intros H; inversion H; auto.
Qed.

Lemma pick_and_read_state (s s' : state) (r : outcome (option (string * string))) :
  pick_and_read s = (r, s') -> s' = set_picks (picks s') s.
Proof.
  unfold pick_and_read, bind, open_dialog, ret.
  destruct s as [h its seli cur ts fs ro cfg pk sv]; simpl.
  destruct pk as [|[p|] pk]; simpl; try (intros H; inversion H; reflexivity).
  destruct (String.eqb p ""); [intros H; inversion H; reflexivity|].
  unfold readTextFile; simpl.
  destruct (lookup_prop p fs); intros H; inversion H; reflexivity.
Qed.

Lemma set_picks_twice (p q : list (option string)) (s : state) :
  set_picks p (set_picks q s) = set_picks p s.
Proof. reflexivity. Qed.

Lemma set_picks_same (s : state) : set_picks (picks s) s = s.
Proof. destruct s; reflexivity. Qed.

(** Resolving the source only consumes answers of the dialog. *)
Lemma read_remembered_state (last : option json) (s s' : state)
    (r : outcome (option (string * string))) :
  match last with
  | Some (JStr p) =>
      let* jsonContent := readTextFile p in
      ret (Some (jsonContent, p))
  | _ => throw IOError
  end s = (r, s') -> s' = s.
Proof.
  destruct last as [[| | |p| |]|]; try (intros H; inversion H; reflexivity).
  intros H. apply bind_inv in H as [(t & s2 & H1 & H)|(e & H1 & _)];
    apply readTextFile_state in H1; subst; [inversion H|]; reflexivity.
Qed.

Lemma resolve_source_state (s s' : state) (r : outcome (option (string * string))) :
  resolve_source s = (r, s') -> s' = set_picks (picks s') s.
Proof.
  unfold resolve_source. intros H.
  apply bind_inv in H as [(config & s1 & H1 & H)|(e & H1 & _)];
    apply loadAppConfig_state in H1; subst; [|symmetry; apply set_picks_same].
  apply bind_inv in H as [(last & s2 & H1 & H)|(e & H1 & _)];
    unfold lift in H1; inversion H1; subst; [|symmetry; apply set_picks_same].
  clear H1. destruct (json_truthy last).
  - apply try_catch_inv in H as [(a & H & _)|[(H & _)|(e & s3 & H & _ & Hh)]];
      apply read_remembered_state in H; subst.
    + symmetry; apply set_picks_same.
    + symmetry; apply set_picks_same.
    + apply pick_and_read_state in Hh; exact Hh.
  - apply pick_and_read_state in H. exact H.
Qed.

(** A resolved path is never empty. *)
Lemma pick_and_read_path (s s' : state) (t p : string) :
  pick_and_read s = (Ok (Some (t, p)), s') -> p <> "" /\ lookup_prop p (files s) = Some t.
Proof.
  unfold pick_and_read, bind, open_dialog, ret.
  destruct (picks s) as [|[q|] pk]; try discriminate.
  destruct (String.eqb_spec q ""); [discriminate|].
  unfold readTextFile; simpl.
  destruct (lookup_prop q (files s)) eqn:E; [|discriminate].
  intros H; inversion H; subst. auto.
Qed.

Lemma resolve_source_path (s s' : state) (t p : string) :
  resolve_source s = (Ok (Some (t, p)), s') ->
  p <> "" /\ lookup_prop p (files s) = Some t.
Proof.
  unfold resolve_source. intros H.
  apply bind_inv in H as [(config & s1 & H1 & H)|(e & H1 & ?)]; [|discriminate].
  apply loadAppConfig_state in H1; subst s1.
  apply bind_inv in H as [(last & s1 & H1 & H)|(e & H1 & ?)]; [|discriminate].
  unfold lift in H1; inversion H1; subst s1; clear H1.
  destruct (json_truthy last) eqn:Ht.
  - apply try_catch_inv in H as [(a & H & Ha)|[(H & ?)|(e & s2 & H & _ & Hh)]];
      [|discriminate|].
    + inversion Ha; subst.
      destruct last as [[| | |q| |]|]; try discriminate.
      apply bind_inv in H as [(t' & s2 & H1 & H)|(e & H1 & ?)]; [|discriminate].
      unfold readTextFile in H1.
      destruct (lookup_prop q (files s)) eqn:E; [|discriminate].
      inversion H1; subst. inversion H; subst.
      simpl in Ht. destruct (String.eqb_spec p ""); [discriminate|]. auto.
    + apply read_remembered_state in H; subst.
      eapply pick_and_read_path, Hh.
  - eapply pick_and_read_path, H.
Qed.

(** ** Remembering the path, parsing *)

Lemma saveAppConfig_result (p : string) (s : state) :
  saveAppConfig p s
  = (Ok tt,
     if mem (configPath s) (readonly s) then s
     else set_files (write_file (configPath s)
                       (JSON_stringify (JObj [("lastUsedPath", JStr p)])) (files s)) s).
Proof.
  unfold saveAppConfig, try_catch, bind, read, writeTextFile, ret.
  destruct (mem (configPath s) (readonly s)); reflexivity.
Qed.

Lemma remember_path_result (p : string) (s : state) :
  p <> "" ->
  remember_path p s
  = (Ok tt,
     if mem (configPath s) (readonly s) then set_currentFilePath (Some p) s
     else set_files (write_file (configPath s)
                       (JSON_stringify (JObj [("lastUsedPath", JStr p)])) (files s))
            (set_currentFilePath (Some p) s)).
Proof.
  intros Hp. unfold remember_path.
  destruct (String.eqb_spec p ""); [contradiction|].
  unfold bind, write. rewrite saveAppConfig_result. reflexivity.
Qed.

Lemma remember_path_kept (p : string) (s s' : state) (r : outcome unit) (n : nat) :
  remember_path p s = (r, s') ->
  r = Ok tt /\ kept_below n s s' /\ store s' = store s.
Proof.
  unfold remember_path. destruct (String.eqb p "").
  - intros H; inversion H; subst. repeat split.
  - unfold bind, write. rewrite saveAppConfig_result.
    intros H; inversion H; subst.
    destruct (mem _ _); repeat split.
Qed.

Lemma parse_into_store_result (t : string) (s : state) :
  parse_into_store t s
  = match JSON_parse t with
    | Ok doc =>
        (Ok (fst (build (length (store s)) doc)),
         set_store (store s ++ snd (build (length (store s)) doc)) s)
    | Err e => (Err e, s)
    end.
Proof.
  unfold parse_into_store, bind, lift, alloc_store.
  destruct (JSON_parse t) as [doc|e]; [|reflexivity].
  destruct (build (length (store s)) doc). reflexivity.
Qed.

(** ** The cells of a parsed document *)

Lemma build_list_fresh (bld : nat -> json -> value * list object) (l : list json) :
  Forall (fun j => forall base, fresh_value base (fst (bld base j))) l ->
  forall base, Forall (fresh_value base) (fst (build_list bld base l)).
Proof.
  induction 1 as [|j l Hj _ IH]; intros base; simpl; [constructor|].
  specialize (Hj base). destruct (bld base j) as [v b1].
  specialize (IH (base + length b1)%nat).
  destruct (build_list bld (base + length b1) l) as [vs b2]. simpl in *.
  constructor; [exact Hj|].
  eapply Forall_impl; [exact IH|].
  intros x Hx; destruct x; simpl in *; auto; lia.
Qed.

Lemma build_fresh (j : json) (base : nat) : fresh_value base (fst (build base j)).
Proof.
  destruct j as [|b|z|s|l|m]; simpl; auto.
  - destruct (build_list build base l). simpl. lia.
  - destruct (build_members build base m). simpl. lia.
Qed.

Lemma build_elems_fresh (l : list json) (base : nat) :
  Forall (fresh_value base) (fst (build_list build base l)).
Proof.
  apply build_list_fresh. apply Forall_forall. intros j _ b. apply build_fresh.
Qed.

(** The cell of a parsed array or object is the last of its block. *)
Lemma build_root (doc : json) (base : nat) (h : heap) (l : loc) :
  length h = base ->
  fst (build base doc) = VRef l ->
  (h ++ snd (build base doc)) !! l
  = match doc with
    | JArr ls => Some (Obj (Some (fst (build_list build base ls))) [])
    | JObj ms => Some (Obj None (put_all (fst (build_members build base ms))))
    | _ => None
    end.
Proof.
  intros Hh. destruct doc as [|b|z|s|ls|ms]; simpl; try discriminate.
  - destruct (build_list build base ls) as [vs blk]. simpl.
    intros Hl; inversion Hl; subst.
    rewrite app_assoc. apply list_lookup_middle. rewrite length_app. reflexivity.
  - destruct (build_members build base ms) as [kvs blk]. simpl.
    intros Hl; inversion Hl; subst.
    rewrite app_assoc. apply list_lookup_middle. rewrite length_app. reflexivity.
Qed.

(** ** Writes to new cells *)

Lemma h_set_take (n : nat) (h h' : heap) (v x : value) (k : string) :
  h_set h v k x = Ok h' -> fresh_value n v -> take n h' = take n h.
Proof.
  unfold h_set. destruct v as [| | | | | |l]; try discriminate;
    try (destruct (mem k object_members); discriminate).
  intros H Hl. simpl in Hl.
  destruct (h !! l) as [[[es|] m]|]; [| |discriminate].
  - destruct (index_of_key k); [|destruct (lookup_prop k m);
      [|destruct (mem k object_members || mem k array_members); [discriminate|]]];
      inversion H; subst; apply take_insert_ge, Hl.
  - destruct (lookup_prop k m); [|destruct (mem k object_members); [discriminate|]];
      inversion H; subst; apply take_insert_ge, Hl.
Qed.

Lemma kept_below_refl (n : nat) (s : state) : kept_below n s s.
Proof. repeat split. Qed.

Lemma kept_below_trans (n : nat) (s1 s2 s3 : state) :
  kept_below n s1 s2 -> kept_below n s2 s3 -> kept_below n s1 s3.
Proof.
  intros (A1 & B1 & C1 & D1) (A2 & B2 & C2 & D2).
  repeat split; congruence.
Qed.

Lemma backfill_kept (n : nat) (item : value) (s s' : state) (r : outcome unit) :
  fresh_value n item -> backfill item s = (r, s') -> kept_below n s s'.
Proof.
  intros Hf. unfold backfill, bind, on_store, update_store, ret.
  destruct (h_get (store s) item "DevOnly") as [d|e].
  - destruct d;
      try solve [intros H; inversion H; subst; apply kept_below_refl].
    destruct (h_set (store s) item "DevOnly" (VBool false)) as [h'|e] eqn:E;
      intros H; inversion H; subst; try apply kept_below_refl.
    repeat split. simpl. eapply h_set_take; eauto.
  - intros H; inversion H; subst; apply kept_below_refl.
Qed.

Lemma for_each_backfill_kept (n : nat) (vs : list value) :
  Forall (fresh_value n) vs ->
  forall s s' r,
    for_each (fun x => match x with VUndef => throw Unmodelled | _ => backfill x end) vs s
    = (r, s') ->
    kept_below n s s'.
Proof.
  induction 1 as [|v vs Hv _ IH]; intros s s' r H.
  - inversion H; subst. apply kept_below_refl.
  - simpl in H. apply bind_inv in H as [(a & s1 & H1 & H)|(e & H1 & _)].
    + eapply kept_below_trans; [|eapply IH, H].
      destruct v; try solve [eapply backfill_kept; eauto].
      inversion H1.
    + destruct v; try solve [eapply backfill_kept; eauto].
      inversion H1; subst. apply kept_below_refl.
Qed.

Lemma array_forEach_kept (n : nat) (v : value) (s s' : state) (r : outcome unit) :
  (forall l es m, v = VRef l -> store s !! l = Some (Obj (Some es) m) ->
                  Forall (fresh_value n) es) ->
  array_forEach v backfill s = (r, s') -> kept_below n s s'.
Proof.
  intros Hes H. unfold array_forEach in H.
  apply bind_inv in H as [(es & s1 & H1 & H)|(e & H1 & _)];
    unfold on_store in H1; inversion H1; subst; [|apply kept_below_refl].
  eapply for_each_backfill_kept, H.
  destruct v as [| | | | | |l]; try discriminate.
  destruct (store s1 !! l) as [[[es'|] m]|] eqn:E; try discriminate.
  inversion H2; subst. eapply Hes; eauto.
Qed.

Lemma array_sort_on_take (lc : string -> string -> comparison) (sort : sorter)
    (n : nat) (h h' : heap) (v : value) :
  array_sort_on lc sort h v = Ok h' -> fresh_value n v -> take n h' = take n h.
Proof.
  unfold array_sort_on. destruct v as [| | | | | |l]; try discriminate.
  destruct (h !! l) as [[[es|] m]|]; try discriminate.
  destruct (sort _ _) as [sorted|e]; [|discriminate].
  intros H Hl. inversion H; subst. apply take_insert_ge, Hl.
Qed.

Lemma array_sort_take (lc : string -> string -> comparison) (n : nat)
    (h h' : heap) (v : value) :
  array_sort lc h v = Ok h' -> fresh_value n v -> take n h' = take n h.
Proof. apply array_sort_on_take. Qed.

(** ** The [try] block as a whole *)

(** When the block throws, the collection is as it was and the store has
    only grown; when it returns, it has shown at most the success toast. *)
Lemma load_steps_on_outcome (lc : string -> string -> comparison) (sort : sorter)
    (s s1 : state) (r : outcome unit) :
  load_steps_on lc sort s = (r, s1) ->
  match r with
  | Err _ => kept_below (length (store s)) s s1
  | Ok _ => toasts s1 = toasts s \/ toasts s1 = toasts s ++ [load_succeeded]
  end.
Proof.
  unfold load_steps_on. intros H.
  apply bind_inv in H as [(source & sa & Ha & H)|(e & Ha & ->)];
    apply resolve_source_state in Ha.
  2: { rewrite Ha. repeat split. }
  assert (Hsa : kept_below (length (store s)) s sa /\ store sa = store s)
    by (rewrite Ha; repeat split).
  clear Ha. destruct Hsa as [Ksa Esa].
  destruct source as [[t p]|].
  2: { inversion H; subst. left. apply Ksa. }
  apply bind_inv in H as [([] & sb & Hb & H)|(e & Hb & ->)];
    apply (remember_path_kept _ _ _ _ (length (store s))) in Hb
      as (Hr & Ksb & Esb); [|discriminate].
  assert (Ks : kept_below (length (store s)) s sb)
    by (eapply kept_below_trans; eassumption).
  assert (Hbase : length (store sb) = length (store s)) by congruence.
  clear Ksa Ksb Esa Esb Hr sa.
  apply bind_inv in H as [(v & sc & Hc & H)|(e & Hc & ->)];
    rewrite parse_into_store_result in Hc;
    destruct (JSON_parse t) as [doc|e0]; inversion Hc; subst; clear Hc;
    try exact Ks.
  set (base := length (store sb)) in *.
  set (sc := set_store (store sb ++ snd (build base doc)) sb) in *.
  assert (Ksc : kept_below (length (store s)) s sc).
  { eapply kept_below_trans; [eassumption|].
    repeat split. unfold sc; simpl.
    rewrite take_app_le by lia. reflexivity. }
  assert (Hv : fresh_value (length (store s)) (fst (build base doc)))
    by (rewrite <- Hbase; apply build_fresh).
  assert (Hes : forall l es m, fst (build base doc) = VRef l ->
                 store sc !! l = Some (Obj (Some es) m) ->
                 Forall (fresh_value (length (store s))) es).
  { intros l es m Hl Hcell. unfold sc in Hcell; simpl in Hcell.
    rewrite (build_root doc base (store sb) l eq_refl Hl) in Hcell.
    destruct doc; try discriminate. inversion Hcell; subst.
    rewrite <- Hbase. apply build_elems_fresh. }
  apply bind_inv in H as [([] & sd & Hd & H)|(e' & Hd & ->)];
    apply (array_forEach_kept (length (store s))) in Hd; try exact Hes.
  2: { eapply kept_below_trans; eassumption. }
  assert (Ksd : kept_below (length (store s)) s sd)
    by (eapply kept_below_trans; eassumption).
  apply bind_inv in H as [([] & se & He & H)|(e' & He & ->)];
    unfold update_store in He;
    destruct (array_sort_on lc sort (store sd) (fst (build base doc))) as [h'|e''] eqn:Es;
    inversion He; subst; clear He; try exact Ksd.
  apply bind_inv in H as [([] & sf & Hf & H)|(e' & Hf & ->)];
    unfold write in Hf; inversion Hf; subst; clear Hf.
  unfold showToast, write in H. inversion H; subst. right. simpl.
  destruct Ksd as (_ & _ & -> & _). reflexivity.
Qed.

Lemma load_steps_outcome (lc : string -> string -> comparison)
    (s s1 : state) (r : outcome unit) :
  load_steps lc s = (r, s1) ->
  match r with
  | Err _ => kept_below (length (store s)) s s1
  | Ok _ => toasts s1 = toasts s \/ toasts s1 = toasts s ++ [load_succeeded]
  end.
Proof. apply load_steps_on_outcome. Qed.

(** * A load that fails *)

Lemma load_exception_on (lc : string -> string -> comparison) (sort : sorter)
    (s s1 : state) (e : fault) :
  load_steps_on lc sort s = (Err e, s1) ->
  e <> Unmodelled ->
  loadJsonData_on lc sort s = (Ok tt, set_toasts (toasts s1 ++ [load_failed]) s1)
  /\ collection_kept s (set_toasts (toasts s1 ++ [load_failed]) s1)
  /\ toasts s1 = toasts s.
Proof.
  intros H He. pose proof (load_steps_on_outcome _ _ _ _ _ H) as (Hi & Hs & Ht & Hh).
  split; [|split].
  - unfold loadJsonData_on, try_catch. rewrite H.
    destruct e; try reflexivity. contradiction.
  - repeat split; simpl; try assumption.
    exists (drop (length (store s)) (store s1)).
    rewrite <- (take_drop (length (store s)) (store s1)) at 1.
    rewrite Hh, take_ge by lia. reflexivity.
  - exact Ht.
Qed.

Lemma load_exception (lc : string -> string -> comparison)
    (s s1 : state) (e : fault) :
  load_steps lc s = (Err e, s1) ->
  e <> Unmodelled ->
  loadJsonData lc s = (Ok tt, set_toasts (toasts s1 ++ [load_failed]) s1)
  /\ collection_kept s (set_toasts (toasts s1 ++ [load_failed]) s1)
  /\ toasts s1 = toasts s.
Proof. apply load_exception_on. Qed.

Lemma load_steps_unreadable (lc : string -> string -> comparison) (s s1 : state) :
  resolve_source s = (Err IOError, s1) -> load_steps lc s = (Err IOError, s1).
Proof. intros H. unfold load_steps, load_steps_on, bind. rewrite H. reflexivity. Qed.

Lemma load_steps_syntax_error (lc : string -> string -> comparison)
    (s s1 : state) (t p : string) :
  resolve_source s = (Ok (Some (t, p)), s1) ->
  JSON_parse t = Err SyntaxError ->
  load_steps lc s = (Err SyntaxError, snd (remember_path p s1)).
Proof.
  intros H Ht. unfold load_steps, load_steps_on, bind at 1. rewrite H.
  unfold bind at 1.
  destruct (remember_path p s1) as [r s2] eqn:E.
  destruct (remember_path_kept _ _ _ _ 0%nat E) as (-> & _ & _).
  unfold bind at 1. rewrite parse_into_store_result, Ht. reflexivity.
Qed.

Lemma load_steps_not_an_array (lc : string -> string -> comparison)
    (s s1 : state) (t p : string) (doc : json) :
  resolve_source s = (Ok (Some (t, p)), s1) ->
  JSON_parse t = Ok doc ->
  (forall l, doc <> JArr l) ->
  exists s2, load_steps lc s = (Err TypeError, s2).
Proof.
  intros H Ht Hdoc. unfold load_steps, load_steps_on, bind at 1. rewrite H.
  unfold bind at 1.
  destruct (remember_path p s1) as [r s2] eqn:E.
  destruct (remember_path_kept _ _ _ _ 0%nat E) as (-> & _ & _).
  unfold bind at 1. rewrite parse_into_store_result, Ht.
  unfold bind at 1, array_forEach, bind at 1, on_store.
  cbn [store set_store].
  destruct (fst (build (length (store s2)) doc)) as [| | | | | |l] eqn:Ev;
    try (eexists; reflexivity).
  rewrite (build_root doc _ (store s2) l eq_refl Ev).
  destruct doc; try discriminate; try (eexists; reflexivity).
  exfalso. eapply Hdoc. reflexivity.
Qed.

(** C7.  A load that cannot read its file, or whose text is not JSON or
    is not an array, reports the failure and leaves the collection where
    it was: the same array, the same selection, every cell of the store
    untouched. *)
Theorem failed_load_keeps_collection (lc : string -> string -> comparison)
    (s : state) :
  (exists s1, resolve_source s = (Err IOError, s1))
  \/ (exists t p s1,
        resolve_source s = (Ok (Some (t, p)), s1)
        /\ (JSON_parse t = Err SyntaxError
            \/ exists doc, JSON_parse t = Ok doc /\ forall l, doc <> JArr l)) ->
  exists s',
    loadJsonData lc s = (Ok tt, s')
    /\ collection_kept s s'
    /\ toasts s' = toasts s ++ [load_failed].
Proof.
  intros [(s1 & H)|(t & p & s1 & H & [Ht|(doc & Ht & Hdoc)])].
  - apply (load_steps_unreadable lc) in H.
    destruct (load_exception _ _ _ _ H) as (Hl & Hk & Ht); [discriminate|].
    eexists. split; [exact Hl|]. split; [exact Hk|]. simpl. rewrite Ht. reflexivity.
  - pose proof (load_steps_syntax_error lc _ _ _ _ H Ht) as H'.
    destruct (load_exception _ _ _ _ H') as (Hl & Hk & Ht'); [discriminate|].
    eexists. split; [exact Hl|]. split; [exact Hk|]. simpl. rewrite Ht'. reflexivity.
  - destruct (load_steps_not_an_array lc _ _ _ _ _ H Ht Hdoc) as (s2 & H').
    destruct (load_exception _ _ _ _ H') as (Hl & Hk & Ht'); [discriminate|].
    eexists. split; [exact Hl|]. split; [exact Hk|]. simpl. rewrite Ht'. reflexivity.
Qed.

(** * The path a failed load leaves behind *)

Lemma lookup_write_file (p t : string) (fs : list (string * string)) :
  lookup_prop p (write_file p t fs) = Some t.
Proof.
  unfold write_file. destruct (lookup_prop p fs) eqn:E.
  - eapply lookup_replace_eq, E.
  - apply lookup_snoc_eq, E.
Qed.

Lemma lookup_write_file_ne (p q t : string) (fs : list (string * string)) :
  p <> q -> lookup_prop q (write_file p t fs) = lookup_prop q fs.
Proof.
  intros Hne. unfold write_file. destruct (lookup_prop p fs).
  - apply lookup_replace_ne, Hne.
  - apply lookup_snoc_ne, Hne.
Qed.

(** * The store holds the document that was parsed *)

(** ** Keyed lists *)

Lemma related_lookup {A B} (R : A -> B -> Prop) (k : string)
    (l : list (string * A)) (l' : list (string * B)) :
  Forall2 (related R) l l' ->
  match lookup_prop k l, lookup_prop k l' with
  | Some a, Some b => R a b
  | None, None => True
  | _, _ => False
  end.
Proof.
  induction 1 as [|[k1 a] [k2 b] l l' [Hk Hab] _ IH]; simpl; [exact I|].
  simpl in Hk, Hab. subst k2. destruct (String.eqb k k1); [exact Hab|exact IH].
Qed.

Lemma related_replace {A B} (R : A -> B -> Prop) (k : string) (a : A) (b : B)
    (l : list (string * A)) (l' : list (string * B)) :
  R a b -> Forall2 (related R) l l' ->
  Forall2 (related R) (replace_prop k a l) (replace_prop k b l').
Proof.
  intros Hab. induction 1 as [|[k1 a1] [k2 b1] l l' [Hk H1] Hl IH]; simpl;
    [constructor|].
  simpl in Hk, H1. subst k2.
  destruct (String.eqb k k1); constructor; try assumption; split; assumption || reflexivity.
Qed.

Lemma related_insert_index {A B} (R : A -> B -> Prop) (n : nat) (k : string)
    (a : A) (b : B) (l : list (string * A)) (l' : list (string * B)) :
  R a b -> Forall2 (related R) l l' ->
  Forall2 (related R) (insert_index n k a l) (insert_index n k b l').
Proof.
  intros Hab. induction 1 as [|[k1 a1] [k2 b1] l l' [Hk H1] Hl IH]; simpl.
  - constructor; [split; [reflexivity|exact Hab]|constructor].
  - simpl in Hk, H1. subst k2.
    destruct (index_of_key k1) as [n'|]; [destruct (n' <? n)%nat|];
      repeat (constructor; try assumption; try (split; assumption || reflexivity)).
Qed.

Lemma related_put {A B} (R : A -> B -> Prop) (k : string) (a : A) (b : B)
    (l : list (string * A)) (l' : list (string * B)) :
  R a b -> Forall2 (related R) l l' ->
  Forall2 (related R) (put_prop k a l) (put_prop k b l').
Proof.
  intros Hab Hl. unfold put_prop.
  pose proof (related_lookup R k l l' Hl) as Hk.
  destruct (lookup_prop k l), (lookup_prop k l'); try contradiction.
  - apply related_replace; assumption.
  - destruct (index_of_key k).
    + apply related_insert_index; assumption.
    + apply Forall2_app; [assumption|].
      constructor; [split; [reflexivity|exact Hab]|constructor].
Qed.

Lemma related_put_all {A B} (R : A -> B -> Prop)
    (l : list (string * A)) (l' : list (string * B)) :
  Forall2 (related R) l l' -> Forall2 (related R) (put_all l) (put_all l').
Proof.
  unfold put_all. intros H.
  assert (G : forall acc acc', Forall2 (related R) acc acc' ->
            Forall2 (related R)
              (fold_left (fun acc kv => put_prop (fst kv) (snd kv) acc) l acc)
              (fold_left (fun acc kv => put_prop (fst kv) (snd kv) acc) l' acc')).
  { induction H as [|[k1 a] [k2 b] l l' [Hk Hab] _ IH]; intros acc acc' Hacc; simpl;
      [exact Hacc|].
    simpl in Hk, Hab. subst k2. apply IH, related_put; assumption. }
  apply G. constructor.
Qed.

(** ** Lists of outcomes *)

Lemma omap_Forall2 {A B} (f : A -> outcome B) (l : list A) (l' : list B) :
  Forall2 (fun a b => f a = Ok b) l l' -> omap f l = Ok l'.
Proof.
  induction 1 as [|a b l l' Hab _ IH]; simpl; [reflexivity|].
  rewrite Hab, IH. reflexivity.
Qed.

Lemma keep_defined_some (m : list (string * json)) :
  keep_defined (map (fun kj => (fst kj, Some (snd kj))) m) = m.
Proof.
  induction m as [|[k j] m IH]; simpl; [reflexivity|]. rewrite IH. reflexivity.
Qed.

(** ** A parsed document in the store *)

Lemma build_list_repr (l : list json) :
  Forall (fun j => forall base pre post, length pre = base ->
            repr (pre ++ snd (build base j) ++ post) (fst (build base j)) (normalize j)) l ->
  forall base pre post, length pre = base ->
    Forall2 (repr (pre ++ snd (build_list build base l) ++ post))
            (fst (build_list build base l)) (map normalize l).
Proof.
  induction 1 as [|x l Hx _ IH]; intros base pre post Hpre; simpl; [constructor|].
  specialize (Hx base pre). destruct (build base x) as [v b1]. simpl in Hx.
  specialize (IH (base + length b1)%nat (pre ++ b1)).
  destruct (build_list build (base + length b1) l) as [vs b2]. simpl in *.
  constructor.
  - rewrite <- app_assoc. apply Hx, Hpre.
  - rewrite <- app_assoc, (app_assoc pre b1). apply IH.
    rewrite length_app. lia.
Qed.

Lemma build_members_repr (m : list (string * json)) :
  Forall (fun kv => forall base pre post, length pre = base ->
            repr (pre ++ snd (build base (snd kv)) ++ post)
                 (fst (build base (snd kv))) (normalize (snd kv))) m ->
  forall base pre post, length pre = base ->
    Forall2 (related (repr (pre ++ snd (build_members build base m) ++ post)))
            (fst (build_members build base m))
            (map (fun kv => (fst kv, normalize (snd kv))) m).
Proof.
  induction 1 as [|[k x] m Hx _ IH]; intros base pre post Hpre; simpl; [constructor|].
  simpl in Hx. specialize (Hx base pre). destruct (build base x) as [v b1]. simpl in Hx.
  specialize (IH (base + length b1)%nat (pre ++ b1)).
  destruct (build_members build (base + length b1) m) as [kvs b2]. simpl in *.
  constructor.
  - split; [reflexivity|]. simpl. rewrite <- app_assoc. apply Hx, Hpre.
  - rewrite <- app_assoc, (app_assoc pre b1). apply IH.
    rewrite length_app. lia.
Qed.

Lemma list_max_bound (l : list nat) (n x : nat) :
  (list_max l <= n)%nat -> In x l -> (x <= n)%nat.
Proof.
  intros H Hx. apply list_max_le in H.
  rewrite List.Forall_forall in H. apply H, Hx.
Qed.

(** How an array cell and an object cell serialize. *)
Lemma serialize_array (h : heap) (l : loc) (vs : list value) (p : list (string * value))
    (js : list json) (n : nat) :
  h !! l = Some (Obj (Some vs) p) ->
  Forall2 (repr h) vs js ->
  (S (list_max (map depth js)) <= n)%nat ->
  serialize n h (VRef l) = Ok (Some (JArr js)).
Proof.
  intros Hl Hvs Hn. destruct n as [|n]; [lia|]. simpl. rewrite Hl.
  rewrite (omap_Forall2 _ vs js); [reflexivity|].
  assert (Hd : forall j, In j js -> (depth j <= n)%nat).
  { intros j Hj. eapply list_max_bound; [|apply in_map, Hj]. lia. }
  clear Hn Hl. induction Hvs as [|v j vs js [Hv _] _ IH]; constructor.
  - rewrite Hv by (apply Hd; left; reflexivity). reflexivity.
  - apply IH. intros j' Hj'. apply Hd. right. exact Hj'.
Qed.

Lemma serialize_object (h : heap) (l : loc) (kvs : list (string * value))
    (ms : list (string * json)) (n : nat) :
  h !! l = Some (Obj None kvs) ->
  Forall2 (related (repr h)) kvs ms ->
  (S (list_max (map (fun kv => depth (snd kv)) ms)) <= n)%nat ->
  serialize n h (VRef l) = Ok (Some (JObj ms)).
Proof.
  intros Hl Hvs Hn. destruct n as [|n]; [lia|]. simpl. rewrite Hl.
  rewrite (omap_Forall2 _ kvs (map (fun kj => (fst kj, Some (snd kj))) ms)).
  - simpl. rewrite keep_defined_some. reflexivity.
  - assert (Hd : forall kj, In kj ms -> (depth (snd kj) <= n)%nat).
    { intros kj Hj. eapply list_max_bound; [|apply (in_map (fun kv => depth (snd kv))), Hj]. lia. }
    clear Hn Hl. induction Hvs as [|[k v] [k' j] kvs ms [Hk [Hv _]] _ IH]; constructor.
    + simpl in *. subst k'. rewrite Hv by (apply (Hd (k, j)); left; reflexivity).
      reflexivity.
    + apply IH. intros kj Hj. apply Hd. right. exact Hj.
Qed.

Lemma build_repr (j : json) :
  forall base pre post, length pre = base ->
    repr (pre ++ snd (build base j) ++ post) (fst (build base j)) (normalize j).
Proof.
  induction j as [|b|z|s|l IH|m IH] using json_ind; intros base pre post Hpre;
    try (split; [intros n _; destruct n; reflexivity|constructor]).
  - pose proof (build_list_repr l IH base pre ([Obj (Some (fst (build_list build base l))) []] ++ post) Hpre) as Hl.
    simpl. destruct (build_list build base l) as [vs blk]. simpl in *.
    rewrite <- app_assoc. split; [|constructor].
    intros n Hn. eapply serialize_array; [|exact Hl|exact Hn].
    rewrite app_assoc. apply list_lookup_middle. rewrite length_app. lia.
  - pose proof (build_members_repr m IH base pre
      ([Obj None (put_all (fst (build_members build base m)))] ++ post) Hpre) as Hm.
    simpl. destruct (build_members build base m) as [kvs blk]. simpl in *.
    rewrite <- app_assoc. split; [|constructor].
    intros n Hn. eapply serialize_object; [|apply related_put_all, Hm|exact Hn].
    rewrite app_assoc. apply list_lookup_middle. rewrite length_app. lia.
Qed.

(** ** The callback of [forEach] on one record *)

Lemma set_store_same (s : state) : set_store (store s) s = s.
Proof. destruct s; reflexivity. Qed.

Lemma set_store_twice (h h' : heap) (s : state) :
  set_store h (set_store h' s) = set_store h s.
Proof. reflexivity. Qed.

Lemma backfilled_cells_snoc (blk : list object) (o : object) :
  backfilled_cells (blk ++ [o]) = blk ++ [with_devonly o].
Proof.
  unfold backfilled_cells. rewrite rev_app_distr. simpl.
  rewrite rev_involutive. reflexivity.
Qed.

Lemma length_backfilled_cells (blk : list object) :
  length (backfilled_cells blk) = length blk.
Proof.
  destruct (rev blk) as [|o before] eqn:E; unfold backfilled_cells; rewrite E.
  - apply (f_equal (@rev _)) in E. rewrite rev_involutive in E. subst. reflexivity.
  - apply (f_equal (@rev _)) in E. rewrite rev_involutive in E. subst. simpl.
    rewrite !length_app. reflexivity.
Qed.

Lemma same_shape_defined (v : value) (j : json) : same_shape v (Some j) -> v <> VUndef.
Proof. intros H E. subst. inversion H. Qed.

Lemma related_shape_lookup (h : heap) (k : string)
    (kvs : list (string * value)) (ms : list (string * json)) :
  Forall2 (related (repr h)) kvs ms ->
  match lookup_prop k kvs with
  | Some x => exists j, lookup_prop k ms = Some j /\ same_shape x (Some j)
  | None => lookup_prop k ms = None
  end.
Proof.
  intros H. pose proof (related_lookup (repr h) k kvs ms H) as Hk.
  destruct (lookup_prop k kvs), (lookup_prop k ms); try contradiction; auto.
  destruct Hk as [_ Hs]. eauto.
Qed.

Lemma depth_with_member (ms : list (string * json)) (k : string) (b : bool) :
  depth (JObj (ms ++ [(k, JBool b)])) = depth (JObj ms).
Proof.
  simpl. rewrite map_app, list_max_app. simpl. f_equal. lia.
Qed.

Lemma insert_block_last (pre blk post : list object) (x y : object) (n : nat) :
  n = (length pre + length blk)%nat ->
  <[n:=y]> (pre ++ (blk ++ [x]) ++ post) = pre ++ (blk ++ [y]) ++ post.
Proof.
  intros ->.
  replace (pre ++ (blk ++ [x]) ++ post) with ((pre ++ blk) ++ x :: post)
    by (rewrite <- !app_assoc; reflexivity).
  replace (pre ++ (blk ++ [y]) ++ post) with ((pre ++ blk) ++ y :: post)
    by (rewrite <- !app_assoc; reflexivity).
  rewrite <- length_app, <- (Nat.add_0_r (length (pre ++ blk))), insert_app_r.
  reflexivity.
Qed.

Lemma lookup_block_last (pre blk post : list object) (x : object) (n : nat) :
  n = (length pre + length blk)%nat ->
  (pre ++ (blk ++ [x]) ++ post) !! n = Some x.
Proof.
  intros ->.
  replace (pre ++ (blk ++ [x]) ++ post) with ((pre ++ blk) ++ x :: post)
    by (rewrite <- !app_assoc; reflexivity).
  apply list_lookup_middle. rewrite length_app. lia.
Qed.

Lemma backfill_object (ms : list (string * json)) (base : nat)
    (pre post : list object) (s : state) :
  length pre = base ->
  store s = pre ++ snd (build base (JObj ms)) ++ post ->
  exists b,
    backfilled (normalize (JObj ms)) = Ok b
    /\ depth b = depth (normalize (JObj ms))
    /\ backfill (fst (build base (JObj ms))) s
       = (Ok tt, set_store (pre ++ backfilled_cells (snd (build base (JObj ms))) ++ post) s)
    /\ forall post',
         record_repr (pre ++ backfilled_cells (snd (build base (JObj ms))) ++ post')
                     (fst (build base (JObj ms))) b.
Proof.
  intros Hpre Hstore.
  pose proof (fun post' => build_members_repr ms
    (proj2 (List.Forall_forall _ _) (fun kv _ => build_repr (snd kv))) base pre post' Hpre)
    as Hm.
  simpl in *. destruct (build_members build base ms) as [kvs blk]. simpl in *.
  set (M := put_all (map (fun kv => (fst kv, normalize (snd kv))) ms)).
  set (P := put_all kvs) in *.
  assert (Hroot : forall cell post', (pre ++ (blk ++ [cell]) ++ post') !! (base + length blk)%nat
                                     = Some cell).
  { intros cell post'.
    replace (pre ++ (blk ++ [cell]) ++ post') with ((pre ++ blk) ++ cell :: post')
      by (rewrite <- !app_assoc; reflexivity).
    apply list_lookup_middle. rewrite length_app. lia. }
  assert (HPM : forall post', Forall2 (related (repr (pre ++ blk ++ post'))) P M)
    by (intros post'; apply related_put_all, Hm).
  rewrite backfilled_cells_snoc.
  unfold backfill, bind, on_store, h_get. rewrite Hstore, Hroot.
  unfold with_devonly. cbn [props elems].
  pose proof (related_shape_lookup _ "DevOnly" P M (HPM post)) as Hdev.
  pose proof (related_shape_lookup _ "Name" P M (HPM post)) as Hname.
  destruct (lookup_prop "DevOnly" P) as [d|] eqn:Ed.
  - destruct Hdev as (jd & Hjd & Hshape). rewrite Hjd.
    exists (JObj M). split; [reflexivity|]. split; [reflexivity|]. split.
    + rewrite <- Hstore, set_store_same.
      inversion Hshape; subst; reflexivity.
    + intros post'. split; [split|].
      * intros n Hn. eapply serialize_object; [apply Hroot| |exact Hn].
        rewrite <- app_assoc. apply HPM.
      * constructor.
      * unfold h_get. rewrite Hroot.
        destruct (lookup_prop "Name" P) as [x|].
        -- destruct Hname as (j & Hj & Hs). exists x, (Some j). simpl.
           rewrite Hj. auto.
        -- exists VUndef, None. simpl. rewrite Hname.
           repeat split. constructor.
  - rewrite Hdev.
    exists (JObj (M ++ [("DevOnly", JBool false)])).
    split; [reflexivity|]. split; [apply depth_with_member|]. split.
    + change (mem "DevOnly" object_members) with false. cbn beta iota.
      unfold update_store, h_set. rewrite Hstore, Hroot, Ed.
      change (mem "DevOnly" object_members) with false. cbn beta iota.
      unfold put_prop. rewrite Ed.
      change (index_of_key "DevOnly") with (@None nat). cbn beta iota.
      f_equal. f_equal.
      apply insert_block_last. lia.
    + intros post'. split; [split|].
      * intros n Hn. eapply serialize_object; [apply Hroot| |exact Hn].
        rewrite <- app_assoc. apply Forall2_app; [apply HPM|].
        constructor; [|constructor]. split; [reflexivity|].
        split; [intros k _; destruct k; reflexivity|constructor].
      * constructor.
      * unfold h_get. rewrite Hroot.
        rewrite (lookup_snoc_ne "DevOnly" "Name") by discriminate.
        destruct (lookup_prop "Name" P) as [x|].
        -- destruct Hname as (j & Hj & Hs). exists x, (Some j). simpl.
           rewrite (lookup_snoc_ne "DevOnly" "Name") by discriminate.
           rewrite Hj. auto.
        -- exists VUndef, None. simpl.
           rewrite (lookup_snoc_ne "DevOnly" "Name") by discriminate.
           rewrite Hname. repeat split. constructor.
Qed.

Lemma backfill_array (l : list json) (base : nat)
    (pre post : list object) (s : state) :
  length pre = base ->
  store s = pre ++ snd (build base (JArr l)) ++ post ->
  backfill (fst (build base (JArr l))) s
  = (Ok tt, set_store (pre ++ backfilled_cells (snd (build base (JArr l))) ++ post) s)
  /\ forall post',
       record_repr (pre ++ backfilled_cells (snd (build base (JArr l))) ++ post')
                   (fst (build base (JArr l))) (normalize (JArr l)).
Proof.
  intros Hpre Hstore.
  pose proof (fun post' => build_list_repr l
    (proj2 (List.Forall_forall _ _) (fun j _ => build_repr j)) base pre post' Hpre)
    as Hl.
  simpl in *. destruct (build_list build base l) as [vs blk]. simpl in *.
  rewrite backfilled_cells_snoc. unfold with_devonly. cbn [props elems lookup_prop].
  split.
  - unfold backfill, bind, on_store, h_get.
    rewrite Hstore, lookup_block_last by lia.
    change (index_of_key "DevOnly") with (@None nat).
    change ("DevOnly" =? "length")%string with false.
    change (mem "DevOnly" object_members || mem "DevOnly" array_members) with false.
    cbn [lookup_prop]. cbn beta iota.
    unfold update_store, h_set. rewrite Hstore, lookup_block_last by lia.
    change (index_of_key "DevOnly") with (@None nat).
    change (mem "DevOnly" object_members || mem "DevOnly" array_members) with false.
    cbn [lookup_prop]. cbn beta iota.
    do 2 f_equal. apply insert_block_last. lia.
  - intros post'. split; [split|].
    + intros n Hn. eapply serialize_array; [apply lookup_block_last; lia| |exact Hn].
      rewrite <- app_assoc. apply Hl.
    + constructor.
    + exists VUndef, None. split; [|split; [reflexivity|constructor]].
      unfold h_get. rewrite lookup_block_last by lia. reflexivity.
Qed.

(** What the callback does to the record built from [rec], and what it
    makes of the document. *)
Lemma backfill_record (rec : json) (base : nat) (pre post : list object) (s : state) :
  length pre = base ->
  store s = pre ++ snd (build base rec) ++ post ->
  match backfilled (normalize rec) with
  | Ok b =>
      depth b = depth (normalize rec)
      /\ backfill (fst (build base rec)) s
         = (Ok tt, set_store (pre ++ backfilled_cells (snd (build base rec)) ++ post) s)
      /\ forall post',
           record_repr (pre ++ backfilled_cells (snd (build base rec)) ++ post')
                       (fst (build base rec)) b
  | Err e => backfill (fst (build base rec)) s = (Err e, s)
  end.
Proof.
  intros Hpre Hstore. destruct rec as [| b | n | t | l | ms].
  1-4: reflexivity.
  - destruct (backfill_array l base pre post s Hpre Hstore) as [Hrun Hrep].
    change (backfilled (normalize (JArr l))) with (Ok (A:=json) (normalize (JArr l))).
    cbv beta iota. split; [reflexivity|split; assumption].
  - destruct (backfill_object ms base pre post s Hpre Hstore)
      as (b & -> & Hd & Hrun & Hrep). split; [exact Hd|split; assumption].
Qed.

(** ** Properties of the members that survive [put_all] *)

Section Members.
Context {A : Type} (P : A -> Prop).

Lemma Forall_replace_prop (k : string) (v : A) (m : list (string * A)) :
  P v -> Forall (fun kv => P (snd kv)) m ->
  Forall (fun kv => P (snd kv)) (replace_prop k v m).
Proof.
  intros Hv. induction 1 as [|[k' v'] m Hx Hm IH]; simpl; [constructor|].
  destruct (k =? k')%string; constructor; auto.
Qed.

Lemma Forall_insert_index (n : nat) (k : string) (v : A) (m : list (string * A)) :
  P v -> Forall (fun kv => P (snd kv)) m ->
  Forall (fun kv => P (snd kv)) (insert_index n k v m).
Proof.
  intros Hv. induction 1 as [|[k' v'] m Hx Hm IH]; simpl.
  - repeat constructor. exact Hv.
  - destruct (index_of_key k') as [n'|]; [destruct (n' <? n)%nat|];
      repeat (constructor; auto).
Qed.

Lemma Forall_put_prop (k : string) (v : A) (m : list (string * A)) :
  P v -> Forall (fun kv => P (snd kv)) m ->
  Forall (fun kv => P (snd kv)) (put_prop k v m).
Proof.
  intros Hv Hm. unfold put_prop.
  destruct (lookup_prop k m); [apply Forall_replace_prop; auto|].
  destruct (index_of_key k); [apply Forall_insert_index; auto|].
  apply Forall_app. split; [exact Hm|]. repeat constructor. exact Hv.
Qed.

Lemma Forall_put_all (m : list (string * A)) :
  Forall (fun kv => P (snd kv)) m ->
  Forall (fun kv => P (snd kv)) (put_all m).
Proof.
  unfold put_all. generalize (@nil (string * A)) (@List.Forall_nil _ (fun kv : string * A => P (snd kv))).
  induction m as [|[k v] m IH]; intros acc Hacc Hm; simpl; [exact Hacc|].
  inversion Hm; subst. apply IH; [|assumption].
  apply Forall_put_prop; assumption.
Qed.
End Members.

(** ** The nesting of a document and the cells it takes *)

Lemma depth_build_list (l : list json) :
  Forall (fun j => forall base, (depth (normalize j) <= length (snd (build base j)))%nat) l ->
  forall base,
    Forall (fun j => (depth j <= length (snd (build_list build base l)))%nat)
           (map normalize l).
Proof.
  induction 1 as [|x l Hx _ IH]; intros base; simpl; [constructor|].
  specialize (Hx base). destruct (build base x) as [v b1]. simpl in Hx.
  specialize (IH (base + length b1)%nat).
  destruct (build_list build (base + length b1) l) as [vs b2]. simpl in *.
  rewrite length_app. constructor; [lia|].
  eapply List.Forall_impl; [|exact IH]. simpl. intros; lia.
Qed.

Lemma depth_build_members (m : list (string * json)) :
  Forall (fun kv => forall base,
            (depth (normalize (snd kv)) <= length (snd (build base (snd kv))))%nat) m ->
  forall base,
    Forall (fun kv => (depth (snd kv) <= length (snd (build_members build base m)))%nat)
           (map (fun kv => (fst kv, normalize (snd kv))) m).
Proof.
  induction 1 as [|[k x] m Hx _ IH]; intros base; simpl; [constructor|].
  simpl in Hx. specialize (Hx base). destruct (build base x) as [v b1]. simpl in Hx.
  specialize (IH (base + length b1)%nat).
  destruct (build_members build (base + length b1) m) as [kvs b2]. simpl in *.
  rewrite length_app. constructor; [simpl; lia|].
  eapply List.Forall_impl; [|exact IH]. simpl. intros; lia.
Qed.

Lemma depth_build (j : json) :
  forall base, (depth (normalize j) <= length (snd (build base j)))%nat.
Proof.
  induction j as [| b | n | t | l IH | m IH] using json_ind; intros base;
    try (simpl; lia).
  - pose proof (depth_build_list l IH base) as H. simpl.
    destruct (build_list build base l) as [vs blk]. simpl in *.
    rewrite length_app. simpl.
    assert (list_max (map depth (map normalize l)) <= length blk)%nat; [|lia].
    apply list_max_le. apply List.Forall_map. rewrite List.Forall_map in H.
    rewrite List.Forall_map. exact H.
  - pose proof (depth_build_members m IH base) as H. simpl.
    destruct (build_members build base m) as [kvs blk]. simpl in *.
    rewrite length_app. simpl.
    assert (list_max (map (fun kv => depth (snd kv))
                          (put_all (map (fun kv => (fst kv, normalize (snd kv))) m)))
            <= length blk)%nat; [|lia].
    apply list_max_le. apply List.Forall_map.
    apply (Forall_put_all (fun j => (depth j <= length blk)%nat)). exact H.
Qed.

Lemma build_defined (j : json) (base : nat) : fst (build base j) <> VUndef.
Proof.
  destruct j as [| b | n | t | l | m]; simpl; try discriminate.
  - destruct (build_list build base l); discriminate.
  - destruct (build_members build base m); discriminate.
Qed.

(** * Loading, on the store and on the document *)

(** ** The [forEach] loop *)

Lemma each_record_built (j : json) (base : nat) :
  each_record (fst (build base j)) = backfill (fst (build base j)).
Proof.
  pose proof (build_defined j base) as H. unfold each_record.
  destruct (fst (build base j)); try reflexivity. contradiction.
Qed.

Lemma backfill_records (recs : list json) :
  forall base pre post s,
    length pre = base ->
    store s = pre ++ snd (build_list build base recs) ++ post ->
    match omap backfilled (map normalize recs) with
    | Ok bs =>
        exists blk',
          length blk' = length (snd (build_list build base recs))
          /\ for_each each_record (fst (build_list build base recs)) s
             = (Ok tt, set_store (pre ++ blk' ++ post) s)
          /\ Forall2 (fun v b => (depth b <= length blk')%nat
                                 /\ forall post', record_repr (pre ++ blk' ++ post') v b)
                     (fst (build_list build base recs)) bs
    | Err e =>
        exists s', for_each each_record (fst (build_list build base recs)) s = (Err e, s')
    end.
Proof.
  induction recs as [|x recs IH]; intros base pre post s Hpre Hstore.
  - simpl in *. exists []. simpl. repeat split; [|constructor].
    rewrite <- Hstore, set_store_same. reflexivity.
  - simpl in *.
    pose proof (backfill_record x base pre
                  (snd (build_list build (base + length (snd (build base x))) recs) ++ post) s Hpre)
      as Hx.
    pose proof (each_record_built x base) as Hw.
    pose proof (depth_build x base) as Hd.
    destruct (build base x) as [v b1]. simpl in *.
    specialize (IH (base + length b1)%nat (pre ++ backfilled_cells b1) post).
    destruct (build_list build (base + length b1) recs) as [vs b2]. simpl in *.
    rewrite <- app_assoc in Hstore. specialize (Hx Hstore).
    destruct (backfilled (normalize x)) as [b|e]; simpl.
    + destruct Hx as (Hdb & Hrun & Hrep).
      specialize (IH (set_store (pre ++ backfilled_cells b1 ++ b2 ++ post) s)).
      rewrite length_app, length_backfilled_cells, Hpre in IH.
      specialize (IH eq_refl). simpl in IH. rewrite <- app_assoc in IH.
      specialize (IH eq_refl).
      destruct (omap backfilled (map normalize recs)) as [bs|e]; simpl.
      * destruct IH as (blk2 & Hlen & Hloop & Hall).
        exists (backfilled_cells b1 ++ blk2). split; [|split].
        -- rewrite !length_app, length_backfilled_cells. lia.
        -- unfold bind. rewrite Hw, Hrun, Hloop. simpl.
           rewrite <- !app_assoc. reflexivity.
        -- constructor.
           ++ split; [rewrite length_app, length_backfilled_cells; lia|].
              intros post'. rewrite <- app_assoc. apply Hrep.
           ++ eapply Forall2_impl; [exact Hall|]. simpl.
              intros v' b' [Hdepth Hr]. split; [rewrite length_app; lia|].
              intros post'. specialize (Hr post').
              rewrite <- !app_assoc in Hr. rewrite <- !app_assoc. exact Hr.
      * destruct IH as (s' & Hloop). exists s'.
        unfold bind. rewrite Hw, Hrun. exact Hloop.
    + exists s. unfold bind. rewrite Hw, Hx. reflexivity.
Qed.

(** ** Insertion sort with a comparison that may throw *)

Lemma Forall2_rev {A B} (R : A -> B -> Prop) (l : list A) (l' : list B) :
  Forall2 R l l' -> Forall2 R (rev l) (rev l').
Proof.
  induction 1; simpl; [constructor|].
  apply Forall2_app; [assumption|]. repeat constructor. assumption.
Qed.

Section SortTransfer.
Context {A B : Type} (R : A -> B -> Prop).
Variable cmpA : A -> A -> outcome comparison.
Variable cmpB : B -> B -> outcome comparison.
Hypothesis same_comparison :
  forall a a' b b', R a b -> R a' b' -> cmpA a a' = cmpB b b'.

Lemma insert_sorted_transfer (x : A) (y : B) (acc : list A) (acc' : list B) :
  R x y -> Forall2 R acc acc' ->
  same_run R (insert_sorted cmpA x acc) (insert_sorted cmpB y acc').
Proof.
  intros Hxy. induction 1 as [|a b acc acc' Hab Hacc IH]; simpl.
  - repeat constructor. exact Hxy.
  - rewrite (same_comparison x a y b Hxy Hab).
    destruct (cmpB y b) as [[| |]|e]; simpl; try reflexivity;
      try (repeat constructor; assumption).
    unfold same_run in IH.
    destruct (insert_sorted cmpA x acc), (insert_sorted cmpB y acc'); simpl;
      try contradiction; try exact IH.
    constructor; assumption.
Qed.

Lemma sort_loop_transfer (l : list A) (l' : list B) :
  Forall2 R l l' ->
  forall acc acc', Forall2 R acc acc' ->
    same_run R (sort_loop cmpA l acc) (sort_loop cmpB l' acc').
Proof.
  induction 1 as [|x y l l' Hxy Hl IH]; intros acc acc' Hacc; simpl.
  - apply Forall2_rev. exact Hacc.
  - pose proof (insert_sorted_transfer x y acc acc' Hxy Hacc) as Hi.
    unfold same_run in Hi.
    destruct (insert_sorted cmpA x acc), (insert_sorted cmpB y acc'); simpl;
      try contradiction; [apply IH; exact Hi|exact Hi].
Qed.

Lemma sort_by_transfer (l : list A) (l' : list B) :
  Forall2 R l l' -> same_run R (sort_by cmpA l) (sort_by cmpB l').
Proof. intros H. apply sort_loop_transfer; [exact H|constructor]. Qed.
End SortTransfer.

Section SortResult.
Context {A : Type}.
Variable cmp : A -> A -> outcome comparison.

Lemma insert_sorted_Permutation (x : A) (acc r : list A) :
  insert_sorted cmp x acc = Ok r -> Permutation (x :: acc) r.
Proof.
  revert r. induction acc as [|y acc IH]; simpl; intros r H.
  - inversion H. reflexivity.
  - destruct (cmp x y) as [[| |]|e]; simpl in H; try discriminate;
      try (inversion H; reflexivity).
    destruct (insert_sorted cmp x acc) as [r'|e]; simpl in H; [|discriminate].
    inversion H; subst. rewrite perm_swap. constructor. apply IH. reflexivity.
Qed.

Lemma sort_loop_Permutation (l : list A) :
  forall acc r, sort_loop cmp l acc = Ok r -> Permutation (l ++ acc) r.
Proof.
  induction l as [|x l IH]; simpl; intros acc r H.
  - inversion H. apply Permutation_rev.
  - destruct (insert_sorted cmp x acc) as [acc'|e] eqn:E; simpl in H; [|discriminate].
    apply IH in H. apply insert_sorted_Permutation in E.
    rewrite <- H. rewrite <- E. apply Permutation_middle.
Qed.

Lemma sort_by_Permutation (l r : list A) :
  sort_by cmp l = Ok r -> Permutation l r.
Proof.
  intros H. apply sort_loop_Permutation in H. rewrite app_nil_r in H. exact H.
Qed.

(** The result is in order for any transitive relation the comparison
    decides. *)
Variable le : A -> A -> Prop.
Hypothesis le_trans : forall a b c, le a b -> le b c -> le a c.
Hypothesis before : forall a b, cmp a b = Ok Lt -> le a b.
Hypothesis not_before : forall a b c, cmp a b = Ok c -> c <> Lt -> le b a.

Lemma insert_sorted_descending (x : A) (acc r : list A) :
  StronglySorted (fun a b => le b a) acc ->
  insert_sorted cmp x acc = Ok r ->
  StronglySorted (fun a b => le b a) r.
Proof.
  revert r. induction acc as [|y acc IH]; simpl; intros r Hacc H.
  - inversion H. repeat constructor.
  - inversion Hacc as [|? ? Hs Hy]; subst.
    destruct (cmp x y) as [c|e] eqn:E; simpl in H; [|discriminate].
    assert (Hfront : c <> Lt -> StronglySorted (fun a b => le b a) (x :: y :: acc)).
    { intros Hc. pose proof (not_before x y c E Hc) as Hyx.
      constructor; [exact Hacc|]. constructor; [exact Hyx|].
      eapply List.Forall_impl; [|exact Hy]. simpl. intros z Hz.
      eapply le_trans; eauto. }
    destruct c; try (inversion H; subst; apply Hfront; discriminate).
    destruct (insert_sorted cmp x acc) as [r'|e] eqn:Er; simpl in H; [|discriminate].
    inversion H; subst. constructor; [apply IH; auto|].
    apply insert_sorted_Permutation in Er.
    eapply Permutation_Forall; [exact Er|].
    constructor; [apply before; exact E|exact Hy].
Qed.

Lemma sort_loop_descending (l : list A) :
  forall acc r,
    StronglySorted (fun a b => le b a) acc ->
    sort_loop cmp l acc = Ok r ->
    StronglySorted (fun a b => le b a) (rev r).
Proof.
  induction l as [|x l IH]; simpl; intros acc r Hacc H.
  - inversion H. rewrite rev_involutive. exact Hacc.
  - destruct (insert_sorted cmp x acc) as [acc'|e] eqn:E; simpl in H; [|discriminate].
    eapply IH; [|exact H]. eapply insert_sorted_descending; eauto.
Qed.
End SortResult.

Lemma StronglySorted_app {A} (R : A -> A -> Prop) (l1 l2 : list A) :
  StronglySorted R l1 -> StronglySorted R l2 ->
  (forall x y, In x l1 -> In y l2 -> R x y) ->
  StronglySorted R (l1 ++ l2).
Proof.
  induction 1 as [|a l1 Hs IH Ha]; intros H2 Hx; simpl; [exact H2|].
  constructor.
  - apply IH; [exact H2|]. intros x y Hx1 Hy. apply Hx; [right|]; assumption.
  - apply List.Forall_app. split; [exact Ha|].
    apply List.Forall_forall. intros y Hy. apply Hx; [left; reflexivity|exact Hy].
Qed.

Lemma StronglySorted_rev {A} (R : A -> A -> Prop) (l : list A) :
  StronglySorted R l -> StronglySorted (fun a b => R b a) (rev l).
Proof.
  induction 1 as [|a l Hs IH Ha]; simpl; [constructor|].
  apply StronglySorted_app; [exact IH|repeat constructor|].
  intros x y Hx [<-|[]]. apply in_rev in Hx.
  rewrite List.Forall_forall in Ha. apply Ha, Hx.
Qed.

Lemma sort_by_sorted {A} (cmp : A -> A -> outcome comparison) (le : A -> A -> Prop) :
  (forall a b c, le a b -> le b c -> le a c) ->
  (forall a b, cmp a b = Ok Lt -> le a b) ->
  (forall a b c, cmp a b = Ok c -> c <> Lt -> le b a) ->
  forall l r, sort_by cmp l = Ok r -> StronglySorted le r.
Proof.
  intros Ht Hb Hn l r H.
  pose proof (sort_loop_descending cmp le Ht Hb Hn l [] r (SSorted_nil _) H) as Hs.
  apply StronglySorted_rev in Hs. rewrite rev_involutive in Hs. exact Hs.
Qed.

(** ** The comparison, on the store and on the documents *)

Lemma to_string_same_shape (x : value) (oj : option json) :
  same_shape x oj -> to_string x = doc_to_string oj.
Proof. destruct 1; reflexivity. Qed.

Lemma compare_names_docs (lc : string -> string -> comparison) (h : heap)
    (a b : value) (ja jb : json) :
  record_repr h a ja -> record_repr h b jb ->
  compare_names lc h a b = compare_docs lc ja jb.
Proof.
  intros [_ (x & oj & Hx & Hj & Hs)] [_ (y & oj' & Hy & Hj' & Hs')].
  unfold compare_names, compare_docs. rewrite Hx, Hj. simpl.
  destruct Hs; try reflexivity.
  rewrite Hy, Hj'. simpl. rewrite (to_string_same_shape _ _ Hs'). reflexivity.
Qed.

(** ** The whole load *)

Lemma lookup_block_end (pre blk : list object) (x : object) (n : nat) :
  n = (length pre + length blk)%nat -> (pre ++ blk ++ [x]) !! n = Some x.
Proof.
  intros Hn. pose proof (lookup_block_last pre blk [] x n Hn) as H.
  rewrite app_nil_r in H. exact H.
Qed.

Lemma insert_block_end (pre blk : list object) (x y : object) (n : nat) :
  n = (length pre + length blk)%nat ->
  <[n:=y]> (pre ++ blk ++ [x]) = pre ++ blk ++ [y].
Proof.
  intros Hn. pose proof (insert_block_last pre blk [] x y n Hn) as H.
  rewrite !app_nil_r in H. exact H.
Qed.

Lemma filter_defined (vs : list value) :
  Forall (fun v => v <> VUndef) vs ->
  List.filter (fun x => negb (is_undef x)) vs = vs /\ List.filter is_undef vs = [].
Proof.
  induction 1 as [|v vs Hv _ [IH1 IH2]]; simpl; [auto|].
  destruct v; try contradiction; simpl; rewrite IH1, IH2; auto.
Qed.

Lemma normalize_array (doc : json) (recs : list json) :
  normalize doc = JArr recs -> exists l, doc = JArr l /\ recs = map normalize l.
Proof.
  destruct doc; simpl; try discriminate. intros H; inversion H. eauto.
Qed.

(** The steps of the [try] block up to the sort, on any engine: the
    array that is sorted holds the records of the document with their
    default for [DevOnly], the sort is called on it with the comparison
    of names, and the load ends as the sort does. *)
Lemma load_steps_on_sort (lc : string -> string -> comparison) (sort : sorter)
    (s s1 : state) (t p : string) (recs : list json) :
  resolve_source s = (Ok (Some (t, p)), s1) ->
  JSON_parse t = Ok (JArr recs) ->
  match omap backfilled (map normalize recs) with
  | Ok bs =>
      exists h vs,
        Forall2 (record_repr h) vs bs
        /\ match sort (compare_names lc h) vs with
           | Ok sorted =>
               exists s',
                 load_steps_on lc sort s = (Ok tt, s')
                 /\ toasts s' = toasts s ++ [load_succeeded]
                 /\ selectedItem s' = selectedItem s
                 /\ currentFilePath s' = Some p
           | Err e => exists s', load_steps_on lc sort s = (Err e, s')
           end
  | Err e => exists s', load_steps_on lc sort s = (Err e, s')
  end.
Proof.
  intros Hres Hparse.
  destruct (resolve_source_path _ _ _ _ Hres) as [Hp _].
  pose proof (resolve_source_state _ _ _ Hres) as Hs1.
  destruct (load_steps_on lc sort s) as [r sf] eqn:Hrun.
  unfold load_steps_on, bind at 1 in Hrun. rewrite Hres in Hrun. unfold bind at 1 in Hrun.
  rewrite (remember_path_result p s1 Hp) in Hrun.
  set (s2 := if mem (configPath s1) (readonly s1) then _ else _) in Hrun.
  assert (Hs2 : store s2 = store s /\ toasts s2 = toasts s
                 /\ selectedItem s2 = selectedItem s /\ currentFilePath s2 = Some p).
  { subst s2. destruct (mem (configPath s1) (readonly s1)); rewrite Hs1; repeat split. }
  clearbody s2. destruct Hs2 as (Hst & Hto & Hsel & Hcur).
  unfold bind at 1 in Hrun. rewrite parse_into_store_result, Hparse in Hrun.
  set (h := store s2) in *.
  pose proof (backfill_records recs (length h) h
                [Obj (Some (fst (build_list build (length h) recs))) []]) as Hloop.
  simpl in Hrun. destruct (build_list build (length h) recs) as [vs blk]. simpl in *.
  set (s3 := set_store _ s2) in Hrun.
  specialize (Hloop s3 eq_refl).
  assert (Hs3 : store s3 = h ++ blk ++ [Obj (Some vs) []]) by reflexivity.
  specialize (Hloop Hs3).
  unfold bind at 1, array_forEach, bind at 1, on_store in Hrun.
  rewrite Hs3 in Hrun at 1.
  rewrite lookup_block_end in Hrun by reflexivity.
  change (for_each _ vs s3) with (for_each each_record vs s3) in Hrun.
  destruct (omap backfilled (map normalize recs)) as [bs|e]; simpl.
  2: { destruct Hloop as (s' & Hl). rewrite Hl in Hrun. inversion Hrun.
       eexists; reflexivity. }
  destruct Hloop as (blk' & Hlen & Hl & Hall). rewrite Hl in Hrun.
  set (s4 := set_store _ s3) in Hrun.
  assert (Hdef : Forall (fun v => v <> VUndef) vs).
  { clear -Hall. induction Hall as [|v b vs bs [_ Hr] _ IH]; constructor; [|exact IH].
    destruct (Hr []) as [[_ Hshape] _]. eapply same_shape_defined, Hshape. }
  destruct (filter_defined vs Hdef) as [Hf1 Hf2].
  exists (h ++ blk' ++ [Obj (Some vs) []]), vs. split.
  { eapply Forall2_impl; [exact Hall|]. simpl. intros v b [_ Hr]. apply Hr. }
  unfold bind at 1, update_store, array_sort_on in Hrun.
  assert (Hs4 : store s4 = h ++ blk' ++ [Obj (Some vs) []]) by reflexivity.
  rewrite Hs4 in Hrun.
  rewrite lookup_block_end in Hrun by lia.
  rewrite Hf1, Hf2 in Hrun.
  destruct (sort (compare_names lc (h ++ blk' ++ [Obj (Some vs) []])) vs) as [sorted|e];
    simpl in Hrun.
  2: { inversion Hrun. eexists; reflexivity. }
  inversion Hrun; subst r sf; clear Hrun.
  eexists. split; [reflexivity|]. simpl.
  rewrite Hto, Hsel, Hcur. repeat split.
Qed.

(** The steps of the [try] block on the text [t] of the path [p], when
    the text is that of the document [doc]: they end as [loaded] says,
    and the collection is then the document [loaded] gives. *)
Lemma load_steps_refines (lc : string -> string -> comparison)
    (s s1 : state) (t p : string) (doc : json) :
  resolve_source s = (Ok (Some (t, p)), s1) ->
  JSON_parse t = Ok doc ->
  match loaded lc doc with
  | Ok T =>
      exists s',
        load_steps lc s = (Ok tt, s')
        /\ snapshot s' = Ok (Some T)
        /\ toasts s' = toasts s ++ [load_succeeded]
        /\ selectedItem s' = selectedItem s
        /\ currentFilePath s' = Some p
  | Err e => exists s', load_steps lc s = (Err e, s')
  end.
Proof.
  intros Hres Hparse.
  destruct (resolve_source_path _ _ _ _ Hres) as [Hp _].
  pose proof (resolve_source_state _ _ _ Hres) as Hs1.
  unfold loaded.
  destruct (normalize doc) as [| b | n | str | nrecs | m] eqn:Hn.
  1-4, 6: apply (load_steps_not_an_array lc s s1 t p doc Hres Hparse);
    intros l ->; discriminate.
  apply normalize_array in Hn as (recs & -> & ->).
  destruct (load_steps lc s) as [r sf] eqn:Hrun.
  unfold load_steps, load_steps_on, bind at 1 in Hrun. rewrite Hres in Hrun. unfold bind at 1 in Hrun.
  rewrite (remember_path_result p s1 Hp) in Hrun.
  set (s2 := if mem (configPath s1) (readonly s1) then _ else _) in Hrun.
  assert (Hs2 : store s2 = store s /\ toasts s2 = toasts s
                 /\ selectedItem s2 = selectedItem s /\ currentFilePath s2 = Some p).
  { subst s2. destruct (mem (configPath s1) (readonly s1)); rewrite Hs1; repeat split. }
  clearbody s2. destruct Hs2 as (Hst & Hto & Hsel & Hcur).
  unfold bind at 1 in Hrun. rewrite parse_into_store_result, Hparse in Hrun.
  set (h := store s2) in *.
  pose proof (backfill_records recs (length h) h
                [Obj (Some (fst (build_list build (length h) recs))) []]) as Hloop.
  simpl in Hrun. destruct (build_list build (length h) recs) as [vs blk]. simpl in *.
  set (s3 := set_store _ s2) in Hrun.
  specialize (Hloop s3 eq_refl).
  assert (Hs3 : store s3 = h ++ blk ++ [Obj (Some vs) []]) by reflexivity.
  specialize (Hloop Hs3).
  unfold bind at 1, array_forEach, bind at 1, on_store in Hrun.
  rewrite Hs3 in Hrun at 1.
  rewrite lookup_block_end in Hrun by reflexivity.
  change (for_each _ vs s3) with (for_each each_record vs s3) in Hrun.
  destruct (omap backfilled (map normalize recs)) as [bs|e]; simpl.
  2: { destruct Hloop as (s' & Hl). rewrite Hl in Hrun. inversion Hrun.
       eexists; reflexivity. }
  destruct Hloop as (blk' & Hlen & Hl & Hall). rewrite Hl in Hrun.
  set (s4 := set_store _ s3) in Hrun.
  assert (Hdef : Forall (fun v => v <> VUndef) vs).
  { clear -Hall. induction Hall as [|v b vs bs [_ Hr] _ IH]; constructor; [|exact IH].
    destruct (Hr []) as [[_ Hshape] _]. eapply same_shape_defined, Hshape. }
  destruct (filter_defined vs Hdef) as [Hf1 Hf2].
  pose proof (sort_by_transfer
                (fun v b => (depth b <= length blk')%nat
                            /\ forall post', record_repr (h ++ blk' ++ post') v b)
                (compare_names lc (h ++ blk' ++ [Obj (Some vs) []])) (compare_docs lc)) as Hsort.
  specialize (Hsort (fun a a' b b' Ha Hb =>
                       compare_names_docs lc _ a a' b b' (proj2 Ha _) (proj2 Hb _))
                    vs bs Hall).
  unfold bind at 1, update_store, array_sort, array_sort_on in Hrun.
  assert (Hs4 : store s4 = h ++ blk' ++ [Obj (Some vs) []]) by reflexivity.
  rewrite Hs4 in Hrun.
  rewrite lookup_block_end in Hrun by lia.
  rewrite Hf1, Hf2 in Hrun. unfold same_run in Hsort.
  destruct (sort_by (compare_names lc (h ++ blk' ++ [Obj (Some vs) []])) vs) as [sorted|e];
    destruct (sort_by (compare_docs lc) bs) as [T|e'] eqn:ET; try contradiction; simpl.
  2: { subst e'. simpl in Hrun. inversion Hrun. eexists; reflexivity. }
  simpl in Hrun. rewrite insert_block_end in Hrun by lia.
  inversion Hrun; subst r sf; clear Hrun.
  eexists. split; [reflexivity|]. simpl.
  split; [|rewrite Hto, Hsel, Hcur; repeat split].
  unfold snapshot. simpl.
  eapply serialize_array.
  - apply lookup_block_end. lia.
  - rewrite app_nil_r. eapply Forall2_impl; [exact Hsort|]. simpl. intros v b [_ Hr].
    apply Hr.
  - rewrite !length_app. simpl.
    assert (list_max (map depth T) <= length blk')%nat; [|lia].
    apply list_max_le, List.Forall_map.
    clear -Hsort. induction Hsort as [|v b ? ? [Hd _] _ IH]; constructor; assumption.
Qed.

Lemma toasts_not_extended (l : list Toast) (x : Toast) : l <> l ++ [x].
Proof.
  intros H. apply (f_equal (@length _)) in H. rewrite length_app in H. simpl in H. lia.
Qed.

Lemma load_steps_parse_error (lc : string -> string -> comparison)
    (s s1 : state) (t p : string) (e : fault) :
  resolve_source s = (Ok (Some (t, p)), s1) ->
  JSON_parse t = Err e ->
  load_steps lc s = (Err e, snd (remember_path p s1)).
Proof.
  intros H Ht. unfold load_steps, load_steps_on, bind at 1. rewrite H.
  unfold bind at 1.
  destruct (remember_path p s1) as [r s2] eqn:E.
  destruct (remember_path_kept _ _ _ _ 0%nat E) as (-> & _ & _).
  unfold bind at 1. rewrite parse_into_store_result, Ht. reflexivity.
Qed.

(** A load that shows the success message has read a document, and the
    collection is what [loaded] makes of it. *)
Lemma load_success_inv (lc : string -> string -> comparison)
    (s s' : state) (r : outcome unit) :
  loadJsonData lc s = (r, s') ->
  toasts s' = toasts s ++ [load_succeeded] ->
  exists t p s1 doc T,
    resolve_source s = (Ok (Some (t, p)), s1)
    /\ JSON_parse t = Ok doc
    /\ loaded lc doc = Ok T
    /\ snapshot s' = Ok (Some T)
    /\ r = Ok tt
    /\ selectedItem s' = selectedItem s
    /\ currentFilePath s' = Some p.
Proof.
  intros Hload Htoast.
  destruct (load_steps lc s) as [[[]|e] s2] eqn:Hrun.
  2: { exfalso. pose proof (load_steps_outcome _ _ _ _ Hrun) as (_ & _ & Ht & _).
       unfold loadJsonData, try_catch in Hload. rewrite Hrun in Hload.
       destruct e; inversion Hload; subst; simpl in Htoast;
         try (rewrite Ht in Htoast; apply app_inj_tail in Htoast as [_ Hx];
              discriminate Hx).
       rewrite Ht in Htoast. eapply toasts_not_extended, Htoast. }
  assert (Hs' : r = Ok tt /\ s' = s2).
  { unfold loadJsonData, try_catch in Hload. rewrite Hrun in Hload.
    inversion Hload; auto. }
  destruct Hs' as [-> ->].
  destruct (resolve_source s) as [[[[t p]|]|e] s1] eqn:Hres.
  - destruct (JSON_parse t) as [doc|e] eqn:Hparse.
    + pose proof (load_steps_refines lc s s1 t p doc Hres Hparse) as H.
      destruct (loaded lc doc) as [T|e] eqn:HT.
      * destruct H as (sx & Hx & Hsnap & _ & Hsel & Hcur).
        rewrite Hrun in Hx. inversion Hx; subst sx.
        exists t, p, s1, doc, T. repeat split; assumption.
      * destruct H as (sx & Hx). rewrite Hrun in Hx. discriminate Hx.
    + rewrite (load_steps_parse_error lc s s1 t p e Hres Hparse) in Hrun.
      discriminate Hrun.
  - exfalso. unfold load_steps, load_steps_on, bind in Hrun. rewrite Hres in Hrun.
    inversion Hrun; subst. apply resolve_source_state in Hres.
    rewrite Hres in Htoast. simpl in Htoast. eapply toasts_not_extended, Htoast.
  - unfold load_steps, load_steps_on, bind in Hrun. rewrite Hres in Hrun. discriminate Hrun.
Qed.

(** * What a successful load leaves *)

Lemma omap_inv {A B} (f : A -> outcome B) (l : list A) :
  forall l', omap f l = Ok l' -> Forall2 (fun a b => f a = Ok b) l l'.
Proof.
  induction l as [|a l IH]; simpl; intros l' H.
  - inversion H. constructor.
  - destruct (f a) as [b|e] eqn:E; simpl in H; [|discriminate].
    destruct (omap f l) as [bs|e]; simpl in H; [|discriminate].
    inversion H. constructor; auto.
Qed.

Lemma loaded_inv (lc : string -> string -> comparison) (doc T : json) :
  loaded lc doc = Ok T ->
  exists recs bs sorted,
    doc = JArr recs
    /\ omap backfilled (map normalize recs) = Ok bs
    /\ sort_by (compare_docs lc) bs = Ok sorted
    /\ T = JArr sorted.
Proof.
  unfold loaded. destruct (normalize doc) as [| | | |nrecs|] eqn:Hn; try discriminate.
  apply normalize_array in Hn as (recs & -> & ->).
  destruct (omap backfilled (map normalize recs)) as [bs|e] eqn:Eb; [|discriminate].
  simpl. destruct (sort_by (compare_docs lc) bs) as [sorted|e] eqn:Es; [|discriminate].
  simpl. intros H; inversion H. exists recs, bs, sorted. repeat split; reflexivity || assumption.
Qed.

Lemma backfilled_defaulted (rec b : json) :
  backfilled rec = Ok b -> devonly_defaulted rec b.
Proof.
  destruct rec as [| | | | l | m]; simpl; try discriminate.
  - intros H; inversion H; reflexivity.
  - destruct (lookup_prop "DevOnly" m) as [v|] eqn:E; intros H; inversion H; subst.
    + exists m. rewrite E. auto.
    + exists (m ++ [("DevOnly", JBool false)]). split; [reflexivity|].
      split; [apply lookup_snoc_eq, E|]. split; [|auto].
      intros k Hk. apply lookup_snoc_ne. congruence.
Qed.

(** C8.  After a load that shows the success message, the collection
    holds the records of the document, each with the default for
    [DevOnly]: a record without the member has it with the value
    [false], a record with the member keeps its value, and every other
    member of every record is as the document has it. The records are
    those of the document as [JSON.parse] returns them, in the order the
    sort gives them. *)
Theorem load_backfills_DevOnly (lc : string -> string -> comparison)
    (s s' : state) (r : outcome unit) :
  loadJsonData lc s = (r, s') ->
  toasts s' = toasts s ++ [load_succeeded] ->
  exists t p s1 recs bs T,
    resolve_source s = (Ok (Some (t, p)), s1)
    /\ JSON_parse t = Ok (JArr recs)
    /\ Forall2 devonly_defaulted (map normalize recs) bs
    /\ Permutation bs T
    /\ snapshot s' = Ok (Some (JArr T)).
Proof.
  intros Hload Htoast.
  destruct (load_success_inv lc s s' r Hload Htoast)
    as (t & p & s1 & doc & T & Hres & Hparse & HT & Hsnap & _).
  apply loaded_inv in HT as (recs & bs & sorted & -> & Hbs & Hsort & ->).
  exists t, p, s1, recs, bs, sorted. repeat split; try assumption.
  - apply omap_inv in Hbs. eapply Forall2_impl; [exact Hbs|].
    apply backfilled_defaulted.
  - eapply sort_by_Permutation, Hsort.
Qed.

(** ** The order of the collection *)

Lemma compare_docs_keys (lc : string -> string -> comparison) (a b : json)
    (c : comparison) :
  compare_docs lc a b = Ok c ->
  exists ka kb, name_key a = Some ka /\ name_key b = Some kb /\ c = lc ka kb.
Proof.
  unfold compare_docs, name_key.
  destruct (doc_name a) as [[[| | |sa| |]|]|e]; simpl; try discriminate.
  destruct (doc_name b) as [ob|e]; simpl; [|discriminate].
  destruct (doc_to_string ob) as [tb|e]; simpl; [|discriminate].
  intros H; inversion H. eauto.
Qed.

Section Collation.
Variable lc : string -> string -> comparison.
Hypothesis lc_antisym : forall a b, lc b a = CompOpp (lc a b).
Hypothesis lc_trans : forall a b c, lc a b <> Gt -> lc b c <> Gt -> lc a c <> Gt.

Lemma name_le_trans (a b c : json) : name_le lc a b -> name_le lc b c -> name_le lc a c.
Proof.
  intros (ka & kb & Ha & Hb & Hab) (kb' & kc & Hb' & Hc & Hbc).
  rewrite Hb in Hb'. inversion Hb'; subst kb'.
  exists ka, kc. repeat split; try assumption. eapply lc_trans; eauto.
Qed.

Lemma sorted_by_name (l r : list json) :
  sort_by (compare_docs lc) l = Ok r -> StronglySorted (name_le lc) r.
Proof.
  apply sort_by_sorted.
  - apply name_le_trans.
  - intros a b H. apply compare_docs_keys in H as (ka & kb & Ha & Hb & Hc).
    exists ka, kb. repeat split; try assumption. rewrite <- Hc. discriminate.
  - intros a b c H Hc. apply compare_docs_keys in H as (ka & kb & Ha & Hb & ->).
    exists kb, ka. repeat split; try assumption.
    rewrite lc_antisym. destruct (lc ka kb); simpl; try discriminate. contradiction.
Qed.

Hypothesis lc_ignores_case :
  forall a b, plain_name a = true -> plain_name b = true ->
    ci_compare a b = Lt -> lc a b = Lt.

Lemma name_le_ci (a b : json) : name_le lc a b -> ci_le a b.
Proof.
  intros (ka & kb & Ha & Hb & Hab) ka' kb' Ha' Hb' Hpa Hpb Hgt.
  rewrite Ha in Ha'. rewrite Hb in Hb'. inversion Ha'; inversion Hb'; subst.
  apply Hab. rewrite lc_antisym.
  rewrite (lc_ignores_case kb' ka' Hpb Hpa); [reflexivity|].
  unfold ci_compare in *. rewrite String.compare_antisym, Hgt. reflexivity.
Qed.

End Collation.

(** ** Records without a name *)

Lemma compare_docs_simple (lc : string -> string -> comparison) (a b : json) :
  simple_name a = true -> simple_name b = true ->
  match name_of a with
  | Some _ => exists c, compare_docs lc a b = Ok c
  | None => compare_docs lc a b = Err TypeError
  end.
Proof.
  unfold simple_name, name_of, compare_docs.
  destruct a as [| | | | |ma]; try discriminate.
  destruct b as [| | | | |mb]; try discriminate. simpl.
  destruct (lookup_prop "Name" ma) as [[| | |sa| |]|]; try discriminate;
    intros _; [|reflexivity].
  destruct (lookup_prop "Name" mb) as [[| | |sb| |]|]; try discriminate;
    intros _; simpl; eauto.
Qed.

Lemma insert_sorted_named (lc : string -> string -> comparison) (x : json)
    (acc : list json) :
  Forall (fun j => simple_name j = true) acc ->
  simple_name x = true -> name_of x <> None ->
  exists r, insert_sorted (compare_docs lc) x acc = Ok r.
Proof.
  intros Hacc Hx Hn. induction Hacc as [|y acc Hy _ IH]; simpl; [eauto|].
  pose proof (compare_docs_simple lc x y Hx Hy) as Hc.
  destruct (name_of x); [|contradiction].
  destruct Hc as [c ->]. simpl. destruct IH as [r ->]. destruct c; simpl; eauto.
Qed.

Lemma backfilled_simple (j : json) :
  simple_name j = true ->
  exists b, backfilled j = Ok b /\ simple_name b = true /\ name_of b = name_of j.
Proof.
  destruct j as [| | | | |m]; try discriminate. simpl.
  destruct (lookup_prop "DevOnly" m); intros H; eexists; split; try reflexivity; simpl.
  - auto.
  - rewrite (lookup_snoc_ne "DevOnly" "Name") by discriminate. auto.
Qed.

Lemma backfilled_all_simple (l : list json) :
  Forall (fun j => simple_name j = true) l ->
  exists bs,
    omap backfilled l = Ok bs
    /\ Forall2 (fun j b => simple_name b = true /\ name_of b = name_of j) l bs.
Proof.
  induction 1 as [|j l Hj _ (bs & Hbs & Hall)]; simpl; [exists []; split; constructor|].
  destruct (backfilled_simple j Hj) as (b & -> & Hb). simpl. rewrite Hbs. simpl.
  exists (b :: bs). split; [reflexivity|]. constructor; assumption.
Qed.

(** ** The calls of the insertion sort *)

Section SortThrows.
Context {A : Type}.
Variable cmp : A -> A -> outcome comparison.

Lemma insert_sorted_throws (x : A) (acc : list A) (e : fault) :
  insert_sorted cmp x acc = Err e -> exists y, y ∈ acc /\ cmp x y = Err e.
Proof.
  induction acc as [|y acc IH]; simpl; [discriminate|].
  destruct (cmp x y) as [c|e0] eqn:E; simpl.
  - destruct c; try discriminate.
    destruct (insert_sorted cmp x acc) as [r|e1]; simpl; [discriminate|].
    intros H. inversion H; subst. destruct IH as (z & Hz & Hc); [reflexivity|].
    exists z. split; [right; exact Hz|exact Hc].
  - intros H. inversion H; subst. exists y. split; [left|exact E].
Qed.

Lemma sort_loop_throws (l : list A) :
  forall acc placed e,
    Permutation acc placed ->
    sort_loop cmp l acc = Err e ->
    exists i j x y,
      i <> j /\ (placed ++ l) !! i = Some x /\ (placed ++ l) !! j = Some y
      /\ cmp x y = Err e.
Proof.
  induction l as [|x l IH]; simpl; intros acc placed e Hp H; [discriminate|].
  destruct (insert_sorted cmp x acc) as [acc'|e0] eqn:E; simpl in H.
  - destruct (IH acc' (placed ++ [x]) e) as (i & j & a & b & Hij & Hi & Hj & Hc);
      [|exact H|].
    + apply insert_sorted_Permutation in E. rewrite <- E, Hp.
      apply Permutation_cons_append.
    + rewrite <- app_assoc in Hi, Hj. eauto 10.
  - inversion H; subst e0. apply insert_sorted_throws in E as (y & Hy & Hc).
    rewrite Hp in Hy. apply list_elem_of_lookup in Hy as [j Hj].
    exists (length placed), j, x, y. repeat split.
    + apply lookup_lt_Some in Hj. lia.
    + rewrite lookup_app_r by lia. rewrite Nat.sub_diag. reflexivity.
    + apply lookup_app_l_Some, Hj.
    + exact Hc.
Qed.
End SortThrows.

(** The insertion sort throws only what a comparison of two elements
    throws, and it compares the second element with the first. *)
Lemma sort_by_throws : throws_from_comparison sort_by.
Proof.
  intros cmp l e H. apply (sort_loop_throws cmp l [] [] e); [reflexivity|exact H].
Qed.

Lemma sort_by_compares : compares_elements sort_by.
Proof.
  intros cmp [|x [|y l]] Hlen Hall; simpl in Hlen; try lia.
  destruct (Hall y x) as [e He]; [right; left|left|].
  exists e. unfold sort_by. simpl. rewrite He. reflexivity.
Qed.

(** C10, as amended.  The load checks no name: it fails where a
    comparison [a.Name.localeCompare(b.Name)] throws, which is when the
    receiver [a] has no [Name]; and which comparisons are made is the
    engine's matter.  So, on every engine, for a document that is an
    array of objects whose [Name] is a string or is missing: the load
    either shows the success message, or it shows the failure message
    and leaves the collection and the selection as they were, and then
    some record has no [Name]; it succeeds when every record has a
    [Name]; it succeeds when the document has a single record, whatever
    its [Name], since nothing is compared; and it fails when the
    document has two records or more and none has a [Name]. *)
Theorem nameless_receiver_fails_load (lc : string -> string -> comparison)
    (sort : sorter) (s s1 : state) (t p : string) (recs : list json) :
  throws_from_comparison sort ->
  compares_elements sort ->
  resolve_source s = (Ok (Some (t, p)), s1) ->
  JSON_parse t = Ok (JArr recs) ->
  Forall (fun r => simple_name (normalize r) = true) recs ->
  exists s',
    loadJsonData_on lc sort s = (Ok tt, s')
    /\ (toasts s' = toasts s ++ [load_succeeded]
        \/ (toasts s' = toasts s ++ [load_failed]
            /\ collection_kept s s'
            /\ Exists (fun r => name_of (normalize r) = None) recs))
    /\ (Forall (fun r => name_of (normalize r) <> None) recs ->
        toasts s' = toasts s ++ [load_succeeded])
    /\ ((length recs <= 1)%nat -> toasts s' = toasts s ++ [load_succeeded])
    /\ ((2 <= length recs)%nat ->
        Forall (fun r => name_of (normalize r) = None) recs ->
        toasts s' = toasts s ++ [load_failed]).
Proof.
  intros Hsort Hcalls Hres Hparse Hsimple.
  pose proof (load_steps_on_sort lc sort s s1 t p recs Hres Hparse) as H.
  apply (proj2 (List.Forall_map normalize (fun j => simple_name j = true) _)) in Hsimple.
  destruct (backfilled_all_simple _ Hsimple) as (bs & Hbs & Hall).
  rewrite Hbs in H. destruct H as (h & vs & Hrepr & H).
  assert (Hlen : length vs = length recs).
  { rewrite (Forall2_length _ _ _ Hrepr), <- (Forall2_length _ _ _ Hall).
    apply length_map. }
  (* a comparison throws when, and only when, its receiver has no name *)
  assert (Hcmp : forall i j x y,
            vs !! i = Some x -> vs !! j = Some y ->
            exists r,
              recs !! i = Some r
              /\ match name_of (normalize r) with
                 | Some _ => exists c, compare_names lc h x y = Ok c
                 | None => compare_names lc h x y = Err TypeError
                 end).
  { intros i j x y Hi Hj.
    destruct (Forall2_lookup_l _ _ _ _ _ Hrepr Hi) as (bx & Hbx & Rx).
    destruct (Forall2_lookup_l _ _ _ _ _ Hrepr Hj) as (by' & Hby & Ry).
    destruct (Forall2_lookup_r _ _ _ _ _ Hall Hbx) as (nx & Hnx & Sx & Nx).
    destruct (Forall2_lookup_r _ _ _ _ _ Hall Hby) as (ny & Hny & Sy & Ny).
    rewrite (compare_names_docs lc h x y bx by' Rx Ry).
    pose proof (compare_docs_simple lc bx by' Sx Sy) as Hd.
    rewrite list_lookup_fmap in Hnx.
    destruct (recs !! i) as [r|] eqn:Er; [|discriminate].
    simpl in Hnx. inversion Hnx; subst nx. exists r. split; [reflexivity|].
    rewrite <- Nx. exact Hd. }
  destruct (sort (compare_names lc h) vs) as [sorted|e] eqn:Es.
  - destruct H as (s' & Hrun & Ht & _).
    exists s'. split; [unfold loadJsonData_on, try_catch; rewrite Hrun; reflexivity|].
    split; [left; exact Ht|]. split; [intros _; exact Ht|].
    split; [intros _; exact Ht|].
    intros Htwo Hnone. exfalso.
    destruct (Hcalls (compare_names lc h) vs) as [e He]; [lia| |congruence].
    intros x y Hx Hy.
    apply list_elem_of_lookup in Hx as [i Hi]. apply list_elem_of_lookup in Hy as [j Hj].
    destruct (Hcmp i j x y Hi Hj) as (r & Hr & Hc).
    rewrite List.Forall_forall in Hnone. rewrite Hnone in Hc.
    + eauto.
    + apply list_elem_of_In. eapply list_elem_of_lookup_2, Hr.
  - destruct H as (s2 & Hrun).
    destruct (Hsort _ _ _ Es) as (i & j & x & y & Hij & Hi & Hj & Hc).
    destruct (Hcmp i j x y Hi Hj) as (r & Hr & Hd).
    assert (Hn : name_of (normalize r) = None /\ e = TypeError).
    { destruct (name_of (normalize r)); [destruct Hd as [c Hd]|]; split; congruence. }
    destruct Hn as [Hn ->].
    destruct (load_exception_on lc sort s s2 TypeError Hrun) as (Hload & Hkept & Htoast);
      [discriminate|].
    eexists. split; [exact Hload|]. cbn [toasts set_toasts]. rewrite Htoast.
    split; [|split; [|split]].
    + right. split; [reflexivity|]. split; [exact Hkept|].
      apply List.Exists_exists. exists r. split; [|exact Hn].
      apply list_elem_of_In. eapply list_elem_of_lookup_2, Hr.
    + intros Hnames. exfalso.
      rewrite List.Forall_forall in Hnames. apply (Hnames r); [|exact Hn].
      apply list_elem_of_In. eapply list_elem_of_lookup_2, Hr.
    + intros Hone. exfalso.
      apply lookup_lt_Some in Hi, Hj. lia.
    + intros _ _. reflexivity.
Qed.

(** * Saving and loading again *)

(** ** The documents [JSON.parse] returns *)

Lemma parse_number_safe (neg : bool) (s : string) (j : json) (k : string) :
  parse_number neg s = Ok (j, k) -> safe j = true.
Proof.
  unfold parse_number. destruct (parse_uint s) as [u r].
  destruct (Decimal.uint_eq_dec _ _); [|discriminate].
  destruct (starts_fraction r); [discriminate|].
  destruct (Z.of_N (N.of_uint u) <=? safe_bound) eqn:E; [|discriminate].
  intros H; inversion H; subst. simpl. apply Z.leb_le in E. apply Z.leb_le.
  destruct neg; lia.
Qed.

Lemma parse_literal_safe (s : string) (j : json) (k : string) :
  parse_literal s = Ok (j, k) -> safe j = true.
Proof.
  unfold parse_literal.
  destruct (strip_prefix "true" s); [intros H; inversion H; reflexivity|].
  destruct (strip_prefix "false" s); [intros H; inversion H; reflexivity|].
  destruct (strip_prefix "null" s); [intros H; inversion H; reflexivity|discriminate].
Qed.

Lemma parse_safe (n : nat) :
  (forall s j k, parse_value n s = Ok (j, k) -> safe j = true)
  /\ (forall s l k, parse_elems n s = Ok (l, k) -> forallb safe l = true)
  /\ (forall s m k, parse_members n s = Ok (m, k) ->
        forallb (fun kv => safe (snd kv)) m = true).
Proof.
  induction n as [|n (IHv & IHe & IHm)]; [repeat split; discriminate|].
  split; [|split].
  - intros s j k. cbn [parse_value]. destruct s as [|c s']; [discriminate|].
    destruct (Ascii.eqb c "[").
    { destruct (skip_ws s') as [|c2 s2]; [discriminate|].
      destruct (Ascii.eqb c2 "]"); [intros H; inversion H; reflexivity|].
      destruct (parse_elems n (String c2 s2)) as [[l r]|e] eqn:E; [|discriminate].
      simpl. intros H; inversion H; subst. simpl. eapply IHe, E. }
    destruct (Ascii.eqb c "{").
    { destruct (skip_ws s') as [|c2 s2]; [discriminate|].
      destruct (Ascii.eqb c2 "}"); [intros H; inversion H; reflexivity|].
      destruct (parse_members n (String c2 s2)) as [[m r]|e] eqn:E; [|discriminate].
      simpl. intros H; inversion H; subst. simpl. eapply IHm, E. }
    destruct (Ascii.eqb c dquote).
    { destruct (parse_chars s') as [[str r]|e]; [|discriminate].
      simpl. intros H; inversion H; reflexivity. }
    destruct (Ascii.eqb c "-"); [apply parse_number_safe|].
    destruct (is_digit c); [apply parse_number_safe|apply parse_literal_safe].
  - intros s l k. cbn [parse_elems].
    destruct (parse_value n s) as [[v r]|e] eqn:Ev; [|discriminate]. simpl.
    apply IHv in Ev.
    destruct (skip_ws r) as [|c r']; [discriminate|].
    destruct (Ascii.eqb c ",").
    { destruct (parse_elems n (skip_ws r')) as [[l' r'']|e] eqn:E; [|discriminate].
      simpl. intros H; inversion H; subst. simpl. rewrite Ev. eapply IHe, E. }
    destruct (Ascii.eqb c "]"); [|discriminate].
    intros H; inversion H; subst. simpl. rewrite Ev. reflexivity.
  - intros s m k. cbn [parse_members]. destruct s as [|c s']; [discriminate|].
    destruct (Ascii.eqb c dquote); [|discriminate].
    destruct (parse_chars s') as [[key r]|e]; [|discriminate]. simpl.
    destruct (skip_ws r) as [|c2 r2]; [discriminate|].
    destruct (Ascii.eqb c2 ":"); [|discriminate].
    destruct (parse_value n (skip_ws r2)) as [[v r3]|e] eqn:Ev; [|discriminate]. simpl.
    apply IHv in Ev.
    destruct (skip_ws r3) as [|c3 r4]; [discriminate|].
    destruct (Ascii.eqb c3 ",").
    { destruct (parse_members n (skip_ws r4)) as [[m' r5]|e] eqn:E; [|discriminate].
      simpl. intros H; inversion H; subst. simpl. rewrite Ev. eapply IHm, E. }
    destruct (Ascii.eqb c3 "}"); [|discriminate].
    intros H; inversion H; subst. simpl. rewrite Ev. reflexivity.
Qed.

Lemma JSON_parse_safe (t : string) (doc : json) :
  JSON_parse t = Ok doc -> safe doc = true.
Proof.
  unfold JSON_parse.
  destruct (parse_value _ _) as [[j r]|e] eqn:E; [|discriminate]. simpl.
  destruct (skip_ws r); [|discriminate]. intros H; inversion H; subst.
  eapply (proj1 (parse_safe _)), E.
Qed.

(** ** Array indices are canonical numerals *)

Lemma digit_of_print (c : ascii) (d : Decimal.uint -> Decimal.uint) :
  digit_of c = Some d -> forall u k, print_uint (d u) k = String c (print_uint u k).
Proof.
  destruct c as [[] [] [] [] [] [] [] []]; cbv [digit_of code N_of_ascii N_of_digits];
    cbn; intros H; try discriminate H; inversion H; reflexivity.
Qed.

Lemma parse_uint_print (k : string) :
  forall u r, parse_uint k = (u, r) -> k = print_uint u r.
Proof.
  induction k as [|c k IH]; simpl; intros u r H.
  - inversion H. reflexivity.
  - destruct (digit_of c) as [d|] eqn:Ed.
    + destruct (parse_uint k) as [u' r'] eqn:E. inversion H; subst.
      rewrite (digit_of_print c d Ed). f_equal. apply IH. reflexivity.
    + inversion H. reflexivity.
Qed.

Lemma index_of_key_inj (k k' : string) (n : nat) :
  index_of_key k = Some n -> index_of_key k' = Some n -> k = k'.
Proof.
  unfold index_of_key.
  destruct (parse_uint k) as [u r] eqn:E. destruct (parse_uint k') as [u' r'] eqn:E'.
  destruct r; [|discriminate]. destruct r'; [|intros _; discriminate].
  destruct (Decimal.uint_eq_dec (Decimal.unorm u) u) as [Hu|]; [|discriminate].
  destruct (Decimal.uint_eq_dec (Decimal.unorm u') u') as [Hu'|]; [|intros _; discriminate].
  destruct (N.of_uint u <? 4294967295)%N; [|discriminate].
  destruct (N.of_uint u' <? 4294967295)%N; [|intros _; discriminate].
  intros H H'. inversion H; inversion H'; subst.
  assert (Hn : N.of_uint u = N.of_uint u') by lia.
  apply DecimalN.Unsigned.of_inj in Hn. rewrite Hu, Hu' in Hn. subst u'.
  apply parse_uint_print in E, E'. congruence.
Qed.

(** ** Member lists in the order of own properties *)

Lemma appendable_ext (ks ks' : list string) (k : string) :
  (forall x, In x ks <-> In x ks') -> appendable ks k -> appendable ks' k.
Proof.
  intros Hext [Hnew Hidx]. split; [rewrite <- Hext; exact Hnew|].
  destruct (index_of_key k); [|exact I].
  rewrite List.Forall_forall in *. intros x Hx. apply Hidx, Hext, Hx.
Qed.

Lemma ordered_from_ext (m : list string) :
  forall ks ks', (forall x, In x ks <-> In x ks') ->
    ordered_from ks m -> ordered_from ks' m.
Proof.
  induction m as [|k m IH]; simpl; intros ks ks' Hext; [auto|].
  intros [Hk Hm]. split; [eapply appendable_ext; eauto|].
  eapply IH; [|exact Hm]. intros x. rewrite !in_app_iff, Hext. reflexivity.
Qed.

Lemma ordered_from_app (m1 m2 : list string) :
  forall ks, ordered_from ks (m1 ++ m2) <-> ordered_from ks m1 /\ ordered_from (ks ++ m1) m2.
Proof.
  induction m1 as [|k m1 IH]; simpl; intros ks.
  - rewrite app_nil_r. tauto.
  - rewrite IH, <- app_assoc. simpl. tauto.
Qed.

Lemma ordered_from_smaller (m : list string) :
  forall ks k n, ordered_from ks m -> In k m -> index_of_key k = Some n ->
    Forall (fun k' => exists n', index_of_key k' = Some n' /\ (n' < n)%nat) ks.
Proof.
  induction m as [|k0 m IH]; simpl; intros ks k n Hm Hin Hk; [contradiction|].
  destruct Hm as [[_ H0] Hm]. destruct Hin as [->|Hin].
  - rewrite Hk in H0. exact H0.
  - specialize (IH _ _ _ Hm Hin Hk). apply List.Forall_app in IH. apply IH.
Qed.

Lemma ordered_from_extra (k : string) (m : list string) :
  forall ks,
    ordered_from ks m -> ~ In k m ->
    (forall k2 n2, In k2 m -> index_of_key k2 = Some n2 ->
                   exists n, index_of_key k = Some n /\ (n < n2)%nat) ->
    ordered_from (ks ++ [k]) m.
Proof.
  induction m as [|k2 m IH]; simpl; intros ks Hm Hk Hidx; [exact I|].
  destruct Hm as [[Hnew H2] Hm]. split.
  - split.
    + rewrite in_app_iff. simpl. intros [?|[?|[]]]; [contradiction|]. apply Hk. auto.
    + destruct (index_of_key k2) as [n2|] eqn:E2; [|exact I].
      apply List.Forall_app. split; [exact H2|]. repeat constructor.
      apply (Hidx k2 n2); auto.
  - apply (ordered_from_ext m ((ks ++ [k2]) ++ [k])).
    + intros x. rewrite !in_app_iff. simpl. tauto.
    + apply IH; [exact Hm|tauto|]. intros k3 n3 H3. apply Hidx. auto.
Qed.

Lemma lookup_prop_None {A} (k : string) (m : list (string * A)) :
  lookup_prop k m = None <-> ~ In k (map fst m).
Proof.
  induction m as [|[k' v] m IH]; simpl; [tauto|].
  destruct (String.eqb_spec k k') as [->|Hne].
  - split; [discriminate|]. intros H. exfalso. apply H. auto.
  - rewrite IH. split; [intros H [?|?]; [congruence|contradiction]|tauto].
Qed.

Lemma keys_replace_prop {A} (k : string) (v : A) (m : list (string * A)) :
  map fst (replace_prop k v m) = map fst m.
Proof.
  induction m as [|[k' v'] m IH]; simpl; [reflexivity|].
  destruct (k =? k')%string; simpl; [reflexivity|]. rewrite IH. reflexivity.
Qed.

Lemma insert_index_ordered {A} (n : nat) (k : string) (v : A) (m : list (string * A)) :
  index_of_key k = Some n ->
  forall ks,
    ordered_from ks (map fst m) ->
    Forall (fun k' => exists n', index_of_key k' = Some n' /\ (n' < n)%nat) ks ->
    ~ In k ks -> ~ In k (map fst m) ->
    ordered_from ks (map fst (insert_index n k v m)).
Proof.
  intros Hk. induction m as [|[k' v'] m IH]; simpl; intros ks Hm Hks Hnew Hnew'.
  - split; [|exact I]. split; [exact Hnew|]. rewrite Hk. exact Hks.
  - assert (Hfront : (forall n', index_of_key k' = Some n' -> (n <= n')%nat) ->
                     ordered_from ks (k :: k' :: map fst m)).
    { intros Hge. simpl. split; [split; [exact Hnew|rewrite Hk; exact Hks]|].
      apply (ordered_from_extra k (k' :: map fst m)); [exact Hm|exact Hnew'|].
      intros k2 n2 [<-|Hin] H2; exists n; split; try exact Hk.
      - pose proof (Hge _ H2) as Hle.
        assert (n <> n2); [|lia]. intros ->.
        apply Hnew'. left. eapply index_of_key_inj; eauto.
      - destruct Hm as [_ Hm].
        pose proof (ordered_from_smaller _ _ _ _ Hm Hin H2) as Hs.
        apply List.Forall_app in Hs as [_ Hs]. inversion Hs as [|? ? (n' & Hn' & Hlt)]; subst.
        specialize (Hge _ Hn'). lia. }
    destruct (index_of_key k') as [n'|] eqn:E'; [|apply Hfront; discriminate].
    destruct (Nat.ltb_spec n' n) as [Hlt|Hge];
      [|apply Hfront; intros ? H; inversion H; subst; exact Hge].
    simpl. destruct Hm as [H' Hm]. split; [exact H'|].
    apply IH; [exact Hm| | |tauto].
    + apply List.Forall_app. split; [exact Hks|]. repeat constructor. eauto.
    + rewrite in_app_iff. simpl. intros [?|[?|[]]]; [contradiction|]. apply Hnew'. auto.
Qed.

Lemma put_prop_ordered {A} (k : string) (v : A) (m : list (string * A)) :
  own_order m -> own_order (put_prop k v m).
Proof.
  unfold own_order, put_prop. intros Hm.
  destruct (lookup_prop k m) eqn:E; [rewrite keys_replace_prop; exact Hm|].
  apply lookup_prop_None in E.
  destruct (index_of_key k) as [n|] eqn:Ek.
  - apply insert_index_ordered; auto.
  - rewrite map_app. apply ordered_from_app. split; [exact Hm|].
    simpl. split; [|exact I]. split; [exact E|]. rewrite Ek. exact I.
Qed.

Lemma put_all_ordered {A} (m : list (string * A)) : own_order (put_all m).
Proof.
  unfold put_all. assert (H : own_order (@nil (string * A))) by exact I.
  revert H. generalize (@nil (string * A)).
  induction m as [|[k v] m IH]; simpl; intros acc Hacc; [exact Hacc|].
  apply IH, put_prop_ordered, Hacc.
Qed.

Lemma insert_index_last {A} (n : nat) (k : string) (v : A) (m : list (string * A)) :
  Forall (fun k' => exists n', index_of_key k' = Some n' /\ (n' < n)%nat) (map fst m) ->
  insert_index n k v m = m ++ [(k, v)].
Proof.
  induction m as [|[k' v'] m IH]; simpl; intros H; [reflexivity|].
  inversion H as [|x l (n' & Hn' & Hlt) Hm]; subst. rewrite Hn'.
  destruct (Nat.ltb_spec n' n); [|lia]. rewrite IH by exact Hm. reflexivity.
Qed.

Lemma put_prop_appendable {A} (k : string) (v : A) (m : list (string * A)) :
  appendable (map fst m) k -> put_prop k v m = m ++ [(k, v)].
Proof.
  intros [Hnew Hidx]. unfold put_prop.
  apply lookup_prop_None in Hnew. rewrite Hnew.
  destruct (index_of_key k); [apply insert_index_last, Hidx|reflexivity].
Qed.

Lemma put_all_own_order {A} (m : list (string * A)) : own_order m -> put_all m = m.
Proof.
  unfold own_order, put_all.
  change m with ([] ++ m) at 3. change (@nil string) with (map fst (@nil (string * A))).
  generalize (@nil (string * A)).
  induction m as [|[k v] m IH]; simpl; intros acc H; [rewrite app_nil_r; reflexivity|].
  destruct H as [Hk Hm]. rewrite put_prop_appendable by exact Hk.
  rewrite IH; [rewrite <- app_assoc; reflexivity|].
  rewrite map_app. exact Hm.
Qed.

(** ** What is saved is a document as [JSON.parse] returns it *)

Lemma map_members_id (f : json -> json) (m : list (string * json)) :
  Forall (fun kv => f (snd kv) = snd kv) m ->
  map (fun kv => (fst kv, f (snd kv))) m = m.
Proof.
  induction 1 as [|[k v] m Hx _ IH]; simpl; [reflexivity|].
  simpl in Hx. rewrite Hx, IH. reflexivity.
Qed.

Lemma normalize_idem (j : json) : normalize (normalize j) = normalize j.
Proof.
  induction j as [| b | n | t | l IH | m IH] using json_ind; try reflexivity.
  - simpl. f_equal. rewrite map_map. apply map_ext_Forall. exact IH.
  - simpl. f_equal.
    set (M := map (fun kv => (fst kv, normalize (snd kv))) m).
    rewrite map_members_id.
    + apply put_all_own_order, put_all_ordered.
    + apply (Forall_put_all (fun v => normalize v = v)).
      subst M. apply List.Forall_map. simpl. exact IH.
Qed.

Lemma forallb_Forall {A} (f : A -> bool) (l : list A) :
  forallb f l = true <-> Forall (fun x => f x = true) l.
Proof.
  rewrite forallb_forall, List.Forall_forall. reflexivity.
Qed.

Lemma safe_normalize (j : json) : safe j = true -> safe (normalize j) = true.
Proof.
  induction j as [| b | n | t | l IH | m IH] using json_ind; simpl; auto.
  - rewrite !forallb_Forall. intros H. apply List.Forall_map.
    rewrite List.Forall_forall in *. auto.
  - rewrite !forallb_Forall. intros H.
    apply (Forall_put_all (fun v => safe v = true)), List.Forall_map. simpl.
    rewrite List.Forall_forall in *. auto.
Qed.

Lemma backfilled_safe (j b : json) :
  backfilled j = Ok b -> safe j = true -> safe b = true.
Proof.
  destruct j as [| | | | l | m]; simpl; try discriminate.
  - intros H; inversion H; auto.
  - destruct (lookup_prop "DevOnly" m); intros H; inversion H; subst; auto.
    simpl. rewrite forallb_app. intros ->. reflexivity.
Qed.

Lemma put_all_snoc {A} (m : list (string * A)) (k : string) (v : A) :
  put_all (m ++ [(k, v)]) = put_prop k v (put_all m).
Proof. unfold put_all. rewrite fold_left_app. reflexivity. Qed.

Lemma backfilled_normal (j b : json) :
  backfilled j = Ok b -> normalize j = j -> normalize b = b /\ backfilled b = Ok b.
Proof.
  destruct j as [| | | | l | m]; simpl; try discriminate.
  - intros H; inversion H; subst. auto.
  - destruct (lookup_prop "DevOnly" m) eqn:E; intros H; inversion H; subst; simpl.
    + rewrite E. auto.
    + intros Hm. inversion Hm as [Hm']. rewrite Hm'. rewrite lookup_snoc_eq by exact E.
      split; [|reflexivity]. f_equal.
      rewrite map_app. simpl. rewrite put_all_snoc, Hm'.
      unfold put_prop. rewrite E. reflexivity.
Qed.

(** The collection a load leaves is its own normal form: loading it
    again only sorts it again. *)
Lemma loaded_normal (lc : string -> string -> comparison) (doc : json) (T : list json) :
  loaded lc doc = Ok (JArr T) ->
  safe doc = true ->
  safe (JArr T) = true
  /\ loaded lc (JArr T) = (do sorted <- sort_by (compare_docs lc) T; Ok (JArr sorted)).
Proof.
  intros H Hsafe.
  apply loaded_inv in H as (recs & bs & sorted & -> & Hbs & Hsort & HT).
  inversion HT; subst sorted; clear HT.
  apply omap_inv in Hbs. apply sort_by_Permutation in Hsort.
  assert (Hall : Forall (fun b => safe b = true /\ normalize b = b /\ backfilled b = Ok b) bs).
  { simpl in Hsafe. apply forallb_Forall in Hsafe. clear -Hbs Hsafe.
    remember (map normalize recs) as ns eqn:En. revert recs En Hsafe.
    induction Hbs as [|n b ns bs Hb _ IH]; intros recs En Hsafe; [constructor|].
    destruct recs as [|x recs]; [discriminate|]. inversion En; subst.
    inversion Hsafe; subst. constructor; [|eapply IH; eauto].
    split; [eapply backfilled_safe; [exact Hb|apply safe_normalize; assumption]|].
    eapply backfilled_normal; [exact Hb|apply normalize_idem]. }
  eapply Permutation_Forall in Hall; [|exact Hsort]. clear -Hall.
  split.
  - simpl. apply forallb_Forall. eapply List.Forall_impl; [|exact Hall]. simpl. tauto.
  - unfold loaded. simpl.
    assert (Hmap : map normalize T = T).
    { clear -Hall. induction Hall as [|b T (_ & Hb & _) _ IH]; simpl; [reflexivity|].
      rewrite Hb, IH. reflexivity. }
    rewrite Hmap.
    assert (Hbf : omap backfilled T = Ok T).
    { apply omap_Forall2. clear -Hall.
      induction Hall as [|b T (_ & _ & Hb) _ IH]; constructor; assumption. }
    rewrite Hbf. reflexivity.
Qed.

(** ** Saving *)

Lemma save_result (s : state) (p : string) (J : json) :
  currentFilePath s = Some p -> p <> "" ->
  snapshot s = Ok (Some J) ->
  mem p (readonly s) = false ->
  saveJsonData s
  = (Ok tt, set_toasts (toasts s ++ [save_succeeded])
              (set_files (write_file p (JSON_stringify J) (files s)) s)).
Proof.
  intros Hcur Hp Hsnap Hw. apply String.eqb_neq in Hp.
  unfold saveJsonData, bind at 1, read. rewrite Hcur, Hp.
  unfold saveToCurrentPath, bind at 1, read. rewrite Hcur, Hp.
  unfold try_catch, bind at 1, stringify_items, bind at 1, read.
  unfold bind at 1, on_store. unfold snapshot in Hsnap. rewrite Hsnap.
  unfold ret, bind at 1, writeTextFile. rewrite Hw. reflexivity.
Qed.

(** ** Records with a name sort without a throw *)

Lemma named_simple (j : json) : name_of j <> None -> simple_name j = true.
Proof.
  unfold name_of, simple_name. destruct j as [| | | | |m]; try congruence.
  destruct (lookup_prop "Name" m) as [[| | | | |]|]; congruence.
Qed.

Lemma sort_loop_named (lc : string -> string -> comparison) (l : list json) :
  forall acc,
    Forall (fun j => name_of j <> None) l ->
    Forall (fun j => simple_name j = true) acc ->
    exists r, sort_loop (compare_docs lc) l acc = Ok r.
Proof.
  induction l as [|x l IH]; simpl; intros acc Hl Hacc; [eauto|].
  inversion Hl as [|? ? Hx Hl']; subst.
  destruct (insert_sorted_named lc x acc Hacc (named_simple x Hx) Hx) as [r Hr].
  rewrite Hr. simpl. apply IH; [exact Hl'|].
  eapply Permutation_Forall; [eapply insert_sorted_Permutation, Hr|].
  constructor; [apply named_simple, Hx|exact Hacc].
Qed.

(** C1, as amended.  Take a collection a load has left, in which every
    record carries a string [Name], and save it when its file can be
    written: the file then holds the text of the collection, records and
    members in their current order, as [JSON.stringify] with an
    indentation of two spaces writes it; and a load that reads this file
    succeeds, with the success message, and leaves the same records,
    every member of every record as it was, in the order the sort gives
    them.  (No comparison throws here, so the engine does not matter.) *)
Theorem save_then_load (lc : string -> string -> comparison)
    (s0 s1 s3 : state) (r1 : outcome unit) (p t : string) (T : list json) :
  loadJsonData lc s0 = (r1, s1) ->
  toasts s1 = toasts s0 ++ [load_succeeded] ->
  snapshot s1 = Ok (Some (JArr T)) ->
  Forall (fun r => name_of r <> None) T ->
  currentFilePath s1 = Some p ->
  mem p (readonly s1) = false ->
  resolve_source (snd (saveJsonData s1)) = (Ok (Some (t, p)), s3) ->
  exists s2 s4 T',
    saveJsonData s1 = (Ok tt, s2)
    /\ lookup_prop p (files s2) = Some (JSON_stringify (JArr T))
    /\ loadJsonData lc s2 = (Ok tt, s4)
    /\ toasts s4 = toasts s2 ++ [load_succeeded]
    /\ snapshot s4 = Ok (Some (JArr T'))
    /\ sort_by (compare_docs lc) T = Ok T'
    /\ Permutation T T'.
Proof.
  intros Hload Htoast Hsnap Hnames Hcur Hw Hres.
  destruct (load_success_inv lc s0 s1 r1 Hload Htoast)
    as (t0 & p0 & s0' & doc & T0 & Hres0 & Hparse0 & HT0 & Hsnap0 & _ & _ & Hcur0).
  rewrite Hsnap in Hsnap0. inversion Hsnap0; subst T0; clear Hsnap0.
  rewrite Hcur in Hcur0. inversion Hcur0; subst p0; clear Hcur0.
  destruct (resolve_source_path _ _ _ _ Hres0) as [Hp _].
  destruct (loaded_normal lc doc T HT0 (JSON_parse_safe _ _ Hparse0)) as [Hsafe Hagain].
  rewrite (save_result s1 p (JArr T) Hcur Hp Hsnap Hw) in Hres |- *.
  simpl in Hres.
  set (s2 := set_toasts _ _) in *.
  destruct (resolve_source_path _ _ _ _ Hres) as [_ Hfile].
  assert (Hfile2 : lookup_prop p (files s2) = Some (JSON_stringify (JArr T)))
    by apply lookup_write_file.
  rewrite Hfile2 in Hfile. inversion Hfile; subst t; clear Hfile.
  pose proof (load_steps_refines lc s2 s3 _ p (JArr T) Hres
                (JSON_parse_stringify _ Hsafe)) as Hrun.
  rewrite Hagain in Hrun.
  destruct (sort_loop_named lc T [] Hnames (List.Forall_nil _)) as [T' HT'].
  unfold sort_by in Hrun. rewrite HT' in Hrun. simpl in Hrun.
  destruct Hrun as (s4 & Hrun & Hsnap4 & Htoast4 & _).
  exists s2, s4, T'. repeat split; try assumption.
  - unfold loadJsonData, try_catch. rewrite Hrun. reflexivity.
  - eapply sort_by_Permutation, HT'.
Qed.

(** * The root collation on plain names *)

Lemma ascii_compare_refl (c : ascii) : Ascii.compare c c = Eq.
Proof. unfold Ascii.compare. apply N.compare_refl. Qed.

Lemma ascii_compare_trans (a b c : ascii) :
  Ascii.compare a b = Lt -> Ascii.compare b c = Lt -> Ascii.compare a c = Lt.
Proof.
  unfold Ascii.compare. rewrite !N.compare_lt_iff. lia.
Qed.

Lemma string_compare_refl (a : string) : String.compare a a = Eq.
Proof.
  induction a as [|c a IH]; simpl; [reflexivity|].
  rewrite ascii_compare_refl. exact IH.
Qed.

Lemma string_compare_trans (a : string) :
  forall b c, String.compare a b = Lt -> String.compare b c = Lt ->
    String.compare a c = Lt.
Proof.
  induction a as [|x a IH]; intros [|y b] [|z c]; simpl; try discriminate; auto.
  destruct (Ascii.compare x y) eqn:Exy; try discriminate;
    destruct (Ascii.compare y z) eqn:Eyz; try discriminate.
  - apply Ascii.compare_eq_iff in Exy, Eyz. subst.
    rewrite ascii_compare_refl. apply IH.
  - apply Ascii.compare_eq_iff in Exy. subst. rewrite Eyz. auto.
  - apply Ascii.compare_eq_iff in Eyz. subst. rewrite Exy. auto.
  - rewrite (ascii_compare_trans x y z Exy Eyz). auto.
Qed.

Lemma string_compare_le_trans (a b c : string) :
  String.compare a b <> Gt -> String.compare b c <> Gt -> String.compare a c <> Gt.
Proof.
  destruct (String.compare a b) eqn:Eab; [| |congruence];
    destruct (String.compare b c) eqn:Ebc; try congruence; intros _ _.
  - apply String.compare_eq_iff in Eab, Ebc. subst.
    rewrite string_compare_refl. discriminate.
  - apply String.compare_eq_iff in Eab. subst. rewrite Ebc. discriminate.
  - apply String.compare_eq_iff in Ebc. subst. rewrite Eab. discriminate.
  - rewrite (string_compare_trans a b c Eab Ebc). discriminate.
Qed.

Lemma ascii_collate_antisym (a b : string) :
  ascii_collate b a = CompOpp (ascii_collate a b).
Proof.
  unfold ascii_collate, ci_compare.
  rewrite (String.compare_antisym (map_string lower a) (map_string lower b)).
  destruct (String.compare (map_string lower b) (map_string lower a)); simpl;
    try reflexivity.
  apply String.compare_antisym.
Qed.

Lemma ascii_collate_trans (a b c : string) :
  ascii_collate a b <> Gt -> ascii_collate b c <> Gt -> ascii_collate a c <> Gt.
Proof.
  unfold ascii_collate, ci_compare.
  destruct (String.compare (map_string lower a) (map_string lower b)) eqn:Eab;
    [| |congruence];
    destruct (String.compare (map_string lower b) (map_string lower c)) eqn:Ebc;
    try congruence.
  - apply String.compare_eq_iff in Eab, Ebc. rewrite Eab, Ebc, string_compare_refl.
    apply string_compare_le_trans.
  - apply String.compare_eq_iff in Eab. rewrite Eab, Ebc. discriminate.
  - apply String.compare_eq_iff in Ebc. rewrite <- Ebc, Eab. discriminate.
  - rewrite (string_compare_trans _ _ _ Eab Ebc). discriminate.
Qed.

Lemma ascii_collate_ignores_case (a b : string) :
  plain_name a = true -> plain_name b = true ->
  ci_compare a b = Lt -> ascii_collate a b = Lt.
Proof. intros _ _ H. unfold ascii_collate. rewrite H. reflexivity. Qed.

(** * The sample sessions, evaluated *)

Ltac evaluate :=
  first [ lia | discriminate | reflexivity | vm_compute; reflexivity
        | vm_compute; lia | vm_compute; discriminate ].

(** A negative index removes from the end, and an assignment beyond the
    end makes the list longer. *)
Lemma out_of_bounds_edits_change_the_list :
  list_of sample_selected 1 "FeaturesNotEmulated" = Ok [VStr "p"; VStr "q"]
  /\ list_of (snd (removeArrayItem "FeaturesNotEmulated" (-1) sample_selected))
             1 "FeaturesNotEmulated" = Ok [VStr "p"]
  /\ list_of (snd (updateArrayItem "FeaturesNotEmulated" 3 (VStr "z") sample_selected))
             1 "FeaturesNotEmulated" = Ok [VStr "p"; VStr "q"; VUndef; VStr "z"].
Proof. repeat split; vm_compute; reflexivity. Qed.

Lemma handleSelectChange_forwards_sample :
  handleSelectChange None "OverallStatus" sample_selected = (Ok tt, sample_selected)
  /\ handleSelectChange (Some "") "OverallStatus" sample_selected = (Ok tt, sample_selected)
  /\ (forall raw v,
        raw <> "" -> parseInt raw = Ok v ->
        exists s',
          handleSelectChange (Some raw) "OverallStatus" sample_selected = (Ok tt, s')
          /\ field_of s' 1 "OverallStatus" = Ok v
          /\ (forall f, f <> "OverallStatus" -> field_of s' 1 f = field_of sample_selected 1 f)
          /\ items s' = items sample_selected
          /\ selectedItem s' = selectedItem sample_selected)
  /\ (forall n, 0 <= n <= safe_bound -> parseInt (key_of_number n) = Ok (VNum n)).
Proof.
  apply (handleSelectChange_forwards sample_selected 12%nat 9%nat 1
           [VRef 10%nat; VRef 9%nat; VRef 11%nat] [] (props_at sample_selected 9));
    evaluate.
Defined.

(** Text that holds no integer is stored as NaN. *)
Lemma handleSelectChange_stores_NaN :
  field_of sample_selected 1 "OverallStatus" = Ok (VNum 1)
  /\ fst (handleSelectChange (Some "not-a-number") "OverallStatus" sample_selected) = Ok tt
  /\ field_of (snd (handleSelectChange (Some "not-a-number") "OverallStatus" sample_selected))
              1 "OverallStatus" = Ok VNaN.
Proof. repeat split; vm_compute; reflexivity. Qed.

Lemma bullet_edits_copy_setup_list_sample :
  (exists s',
     addBulletPoint 0 sample_selected = (Ok tt, s')
     /\ setup_list_copied sample_selected s' 1 [VRef 2%nat; VRef 4%nat]
     /\ unchanged_except [9%nat; 1%nat] sample_selected s'
     /\ bullets_of s' 1 0 = Ok (VRef 1%nat)
     /\ store s' !! 1%nat = Some (Obj (Some ([VStr "one"] ++ [VStr ""])) []))
  /\ (exists s',
        removeBulletPoint 0 0 sample_selected = (Ok tt, s')
        /\ setup_list_copied sample_selected s' 1 [VRef 2%nat; VRef 4%nat]
        /\ unchanged_except [9%nat; 1%nat] sample_selected s'
        /\ bullets_of s' 1 0 = Ok (VRef 1%nat)
        /\ store s' !! 1%nat = Some (Obj (Some (splice1 0 [VStr "one"])) []))
  /\ (exists s',
        updateBulletPoint 0 0 "x" sample_selected = (Ok tt, s')
        /\ setup_list_copied sample_selected s' 1 [VRef 2%nat; VRef 4%nat]
        /\ unchanged_except [9%nat; 2%nat] sample_selected s'
        /\ bullets_of s' 1 0 = Ok (VRef (S (length (store sample_selected))))
        /\ store s' !! S (length (store sample_selected))
           = Some (Obj (Some (put_elem (Z.to_nat 0) (VStr "x") [VStr "one"])) [])
        /\ store s' !! 2%nat
           = Some (Obj None
                     (replace_prop "BulletPoints"
                        (VRef (S (length (store sample_selected))))
                        (props_at sample_selected 2)))
        /\ store s' !! 1%nat = Some (Obj (Some [VStr "one"]) [])).
Proof.
  apply (bullet_edits_copy_setup_list sample_selected 12%nat 9%nat 5%nat 2%nat 1%nat 1 0
           [VRef 10%nat; VRef 9%nat; VRef 11%nat] [VRef 2%nat; VRef 4%nat] [VStr "one"]
           [] [] [] (props_at sample_selected 9) (props_at sample_selected 2));
    evaluate.
Defined.

(** Appending a bullet point changes the bullet list in place: the entry
    holds the same list before and after, and so does the other entry. *)
Lemma addBulletPoint_keeps_the_container :
  bullets_of sample_selected 1 0 = Ok (VRef 1%nat)
  /\ bullets_of (snd (addBulletPoint 0 sample_selected)) 1 0 = Ok (VRef 1%nat)
  /\ store sample_selected !! 1%nat = Some (Obj (Some [VStr "one"]) [])
  /\ store (snd (addBulletPoint 0 sample_selected)) !! 1%nat
     = Some (Obj (Some [VStr "one"; VStr ""]) [])
  /\ bullets_of sample_selected 1 1 = Ok (VRef 3%nat)
  /\ bullets_of (snd (addBulletPoint 0 sample_selected)) 1 1 = Ok (VRef 3%nat).
Proof. repeat split; vm_compute; reflexivity. Qed.

(** ** Loads *)

Lemma failed_load_keeps_collection_broken :
  exists s',
    loadJsonData ascii_collate broken_host = (Ok tt, s')
    /\ collection_kept broken_host s'
    /\ toasts s' = toasts broken_host ++ [load_failed].
Proof.
  apply (failed_load_keeps_collection ascii_collate broken_host).
  right. exists "[{oops", "/data/broken.json", (snd (resolve_source broken_host)).
  split; [vm_compute; reflexivity|]. left. vm_compute. reflexivity.
Defined.

Lemma load_backfills_DevOnly_sample :
  exists t p s1 recs bs T,
    resolve_source sample_host = (Ok (Some (t, p)), s1)
    /\ JSON_parse t = Ok (JArr recs)
    /\ Forall2 devonly_defaulted (map normalize recs) bs
    /\ Permutation bs T
    /\ snapshot sample = Ok (Some (JArr T)).
Proof.
  apply (load_backfills_DevOnly ascii_collate sample_host sample (Ok tt)); evaluate.
Defined.


Lemma nameless_receiver_fails_load_second :
  (exists s',
     loadJsonData_on ascii_collate sort_by sample_before_unnamed = (Ok tt, s')
     /\ (toasts s' = toasts sample_before_unnamed ++ [load_succeeded]
         \/ (toasts s' = toasts sample_before_unnamed ++ [load_failed]
             /\ collection_kept sample_before_unnamed s'
             /\ Exists (fun r => name_of (normalize r) = None)
                       [JObj [("Name", JStr "a")]; JObj [("Id", JNum 7)]]))
     /\ (Forall (fun r => name_of (normalize r) <> None)
                [JObj [("Name", JStr "a")]; JObj [("Id", JNum 7)]] ->
         toasts s' = toasts sample_before_unnamed ++ [load_succeeded])
     /\ ((length [JObj [("Name", JStr "a")]; JObj [("Id", JNum 7)]] <= 1)%nat ->
         toasts s' = toasts sample_before_unnamed ++ [load_succeeded])
     /\ ((2 <= length [JObj [("Name", JStr "a")]; JObj [("Id", JNum 7)]])%nat ->
         Forall (fun r => name_of (normalize r) = None)
                [JObj [("Name", JStr "a")]; JObj [("Id", JNum 7)]] ->
         toasts s' = toasts sample_before_unnamed ++ [load_failed]))
  /\ (exists s',
        loadJsonData_on ascii_collate sort_by sample_before_pair = (Ok tt, s')
        /\ toasts s' = toasts sample_before_pair ++ [load_failed]).
Proof.
  split.
  - apply (nameless_receiver_fails_load ascii_collate sort_by sample_before_unnamed
             (snd (resolve_source sample_before_unnamed))
             (requote "[{'Name':'a'},{'Id':7}]") "/data/games.json"
             [JObj [("Name", JStr "a")]; JObj [("Id", JNum 7)]]).
    + exact sort_by_throws.
    + exact sort_by_compares.
    + vm_compute. reflexivity.
    + vm_compute. reflexivity.
    + repeat constructor.
  - destruct (nameless_receiver_fails_load ascii_collate sort_by sample_before_pair
                (snd (resolve_source sample_before_pair))
                (requote "[{'Id':1},{'Id':2}]") "/data/games.json"
                [JObj [("Id", JNum 1)]; JObj [("Id", JNum 2)]])
      as (s' & Hload & _ & _ & _ & Hfail).
    + exact sort_by_throws.
    + exact sort_by_compares.
    + vm_compute. reflexivity.
    + vm_compute. reflexivity.
    + repeat constructor.
    + exists s'. split; [exact Hload|]. apply Hfail; [simpl; lia|repeat constructor].
Defined.

(** A document whose only record has no name loads, and shows the
    success message. *)
Lemma nameless_single_record_loads :
  JSON_parse nameless_document = Ok (JArr [JObj [("Id", JNum 7)]])
  /\ fst (loadJsonData ascii_collate nameless_host) = Ok tt
  /\ toasts (snd (loadJsonData ascii_collate nameless_host)) = [load_succeeded]
  /\ snapshot (snd (loadJsonData ascii_collate nameless_host))
     = Ok (Some (JArr [JObj [("Id", JNum 7); ("DevOnly", JBool false)]])).
Proof. repeat split; vm_compute; reflexivity. Qed.

Lemma save_then_load_sample :
  exists s2 s4 T',
    saveJsonData sample = (Ok tt, s2)
    /\ lookup_prop "/data/games.json" (files s2)
       = Some (JSON_stringify (JArr sample_records))
    /\ loadJsonData ascii_collate s2 = (Ok tt, s4)
    /\ toasts s4 = toasts s2 ++ [load_succeeded]
    /\ snapshot s4 = Ok (Some (JArr T'))
    /\ sort_by (compare_docs ascii_collate) sample_records = Ok T'
    /\ Permutation sample_records T'.
Proof.
  apply (save_then_load ascii_collate sample_host sample
           (snd (resolve_source sample_saved)) (Ok tt)
           "/data/games.json" (JSON_stringify (JArr sample_records)) sample_records).
  - vm_compute. reflexivity.
  - vm_compute. reflexivity.
  - vm_compute. reflexivity.
  - vm_compute. repeat constructor; discriminate.
  - vm_compute. reflexivity.
  - vm_compute. reflexivity.
  - vm_compute. reflexivity.
Defined.

(** The load of a document whose first record has no name succeeds and
    sorts that record behind the named one; the save succeeds; and the
    load of the file just saved fails. *)
Lemma reload_fails_after_save :
  toasts nameless_first_loaded = [load_succeeded]
  /\ snapshot nameless_first_loaded
     = Ok (Some (JArr [JObj [("Name", JStr "a"); ("DevOnly", JBool false)];
                       JObj [("Id", JNum 7); ("DevOnly", JBool false)]]))
  /\ toasts nameless_first_saved = [load_succeeded; save_succeeded]
  /\ toasts (snd (loadJsonData ascii_collate nameless_first_saved))
     = [load_succeeded; save_succeeded; load_failed].
Proof. repeat split; vm_compute; reflexivity. Qed.

(** C4.  The load keeps the selection: with the third record selected, a
    reload of a file that now holds one record succeeds and leaves the
    selection at an index the collection does not have. *)
Theorem reload_keeps_stale_selection :
  valid_selection before_reload
  /\ toasts (snd (loadJsonData ascii_collate before_reload))
     = toasts before_reload ++ [load_succeeded]
  /\ selectedItem (snd (loadJsonData ascii_collate before_reload)) = Some 2
  /\ records (snd (loadJsonData ascii_collate before_reload)) = Ok [VRef 13%nat]
  /\ ~ valid_selection (snd (loadJsonData ascii_collate before_reload)).
Proof.
  split; [|split; [|split; [|split]]].
  - exists [VRef 10%nat; VRef 9%nat; VRef 11%nat]. split; [vm_compute; reflexivity|].
    simpl. lia.
  - vm_compute. reflexivity.
  - vm_compute. reflexivity.
  - vm_compute. reflexivity.
  - unfold valid_selection.
    replace (selectedItem (snd (loadJsonData ascii_collate before_reload))) with (Some 2)
      by (vm_compute; reflexivity).
    intros (es & Hes & Hrange).
    replace (records (snd (loadJsonData ascii_collate before_reload)))
      with (Ok (A:=list value) [VRef 13%nat]) in Hes by (vm_compute; reflexivity).
    inversion Hes; subst. simpl in Hrange. lia.
Qed.

(** ** The configuration file and the load, as a whole *)

(** X1.  The path [saveAppConfig] writes is the one [loadAppConfig] reads
    back: when the configuration file can be written, the configuration
    read after [saveAppConfig({ lastUsedPath: p })] is the object with
    that one member.  Nothing but the files has changed, and of the
    files none but the configuration file: every other path reads as
    before. *)
Theorem remembered_path_is_read_back (p : string) (s : state) :
  mem (configPath s) (readonly s) = false ->
  exists s1,
    saveAppConfig p s = (Ok tt, s1)
    /\ loadAppConfig s1 = (Ok (JObj [("lastUsedPath", JStr p)]), s1)
    /\ config_lastUsedPath (JObj [("lastUsedPath", JStr p)]) = Ok (Some (JStr p))
    /\ s1 = set_files (files s1) s
    /\ (forall q, q <> configPath s -> lookup_prop q (files s1) = lookup_prop q (files s)).
Proof.
  intros Hw. rewrite saveAppConfig_result, Hw.
  eexists. split; [reflexivity|]. split; [|split; [reflexivity|split; [reflexivity|]]].
  - unfold loadAppConfig, try_catch, bind, read, readTextFile, lift.
    cbn [configPath files set_files].
    rewrite lookup_write_file, JSON_parse_stringify by reflexivity.
    reflexivity.
  - intros q Hq. cbn [files set_files]. apply lookup_write_file_ne. congruence.
Qed.

Lemma remembered_path_is_read_back_sample :
  exists s1,
    saveAppConfig "/data/games.json" sample_host = (Ok tt, s1)
    /\ loadAppConfig s1 = (Ok (JObj [("lastUsedPath", JStr "/data/games.json")]), s1)
    /\ config_lastUsedPath (JObj [("lastUsedPath", JStr "/data/games.json")])
       = Ok (Some (JStr "/data/games.json"))
    /\ s1 = set_files (files s1) sample_host
    /\ (forall q, q <> configPath sample_host ->
          lookup_prop q (files s1) = lookup_prop q (files sample_host)).
Proof.
  apply (remembered_path_is_read_back "/data/games.json" sample_host). reflexivity.
Defined.

(** X2.  The load on the document it reads.  When the source resolves
    to the text of the document [doc], the load ends as [loaded] says:
    if [loaded] gives a collection, the load shows the success message
    and the store holds that collection, with the selection as before
    and the path remembered; if [loaded] throws, the load shows the
    failure message and the collection is the one from before. *)
Theorem load_refines (lc : string -> string -> comparison)
    (s s1 : state) (t p : string) (doc : json) :
  resolve_source s = (Ok (Some (t, p)), s1) ->
  JSON_parse t = Ok doc ->
  match loaded lc doc with
  | Ok T =>
      exists s',
        loadJsonData lc s = (Ok tt, s')
        /\ snapshot s' = Ok (Some T)
        /\ toasts s' = toasts s ++ [load_succeeded]
        /\ selectedItem s' = selectedItem s
        /\ currentFilePath s' = Some p
  | Err e =>
      e <> Unmodelled ->
      exists s',
        loadJsonData lc s = (Ok tt, s')
        /\ collection_kept s s'
        /\ toasts s' = toasts s ++ [load_failed]
  end.
Proof.
  intros Hres Hparse.
  pose proof (load_steps_refines lc s s1 t p doc Hres Hparse) as H.
  destruct (loaded lc doc) as [T|e].
  - destruct H as (s' & Hrun & Hrest). exists s'. split; [|exact Hrest].
    unfold loadJsonData, try_catch. rewrite Hrun. reflexivity.
  - intros He. destruct H as (s2 & Hrun).
    destruct (load_exception lc s s2 e Hrun He) as (Hload & Hkept & Htoast).
    eexists. split; [exact Hload|]. split; [exact Hkept|].
    simpl. rewrite Htoast. reflexivity.
Qed.

Lemma load_refines_sample :
  loaded ascii_collate sample_parsed = Ok (JArr sample_records)
  /\ exists s',
       loadJsonData ascii_collate sample_host = (Ok tt, s')
       /\ snapshot s' = Ok (Some (JArr sample_records))
       /\ toasts s' = toasts sample_host ++ [load_succeeded]
       /\ selectedItem s' = selectedItem sample_host
       /\ currentFilePath s' = Some "/data/games.json".
Proof.
  assert (HT : loaded ascii_collate sample_parsed = Ok (JArr sample_records))
    by (vm_compute; reflexivity).
  split; [exact HT|].
  assert (H1 : resolve_source sample_host
               = (Ok (Some (sample_document, "/data/games.json")),
                  snd (resolve_source sample_host))) by (vm_compute; reflexivity).
  assert (H2 : JSON_parse sample_document = Ok sample_parsed) by (vm_compute; reflexivity).
  generalize (load_refines ascii_collate sample_host _ _ _ _ H1 H2).
  rewrite HT. exact (fun H => H).
Defined.

(** X3.  When the dialog is closed without a choice the load returns at once:
    no message, and nothing of the state changes but the dialog's answer
    being used up. *)
Theorem cancelled_load_changes_nothing (lc : string -> string -> comparison)
    (s s1 : state) :
  resolve_source s = (Ok None, s1) ->
  loadJsonData lc s = (Ok tt, s1) /\ s1 = set_picks (picks s1) s.
Proof.
  intros H. split; [|eapply resolve_source_state, H].
  unfold loadJsonData, try_catch, load_steps, load_steps_on, bind. rewrite H. reflexivity.
Qed.

Lemma cancelled_load_changes_nothing_sample :
  loadJsonData ascii_collate cancelling_host = (Ok tt, set_picks [] cancelling_host)
  /\ set_picks [] cancelling_host = set_picks (picks (set_picks [] cancelling_host)) cancelling_host.
Proof.
  apply (cancelled_load_changes_nothing ascii_collate cancelling_host
           (set_picks [] cancelling_host)).
  vm_compute. reflexivity.
Defined.

(** * Saving *)

Lemma lookup_replace_other {A} (k k' : string) (v : A) (m : list (string * A)) :
  k <> k' -> lookup_prop k' (replace_prop k v m) = lookup_prop k' m.
Proof. apply lookup_replace_ne. Qed.

(** ** What a save leaves alone *)

Lemma same_collection_refl (s : state) : same_collection s s.
Proof. repeat split. Qed.

Lemma same_collection_trans (s1 s2 s3 : state) :
  same_collection s1 s2 -> same_collection s2 s3 -> same_collection s1 s3.
Proof.
  unfold same_collection. intros (A1 & B1 & C1 & D1 & E1 & F1) (A2 & B2 & C2 & D2 & E2 & F2).
  repeat split; congruence.
Qed.

Lemma stringify_items_state (s s' : state) (r : outcome string) :
  stringify_items s = (r, s') -> s' = s.
Proof.
  unfold stringify_items, bind, read, on_store.
  destruct (serialize _ _ _) as [[j|]|e]; intros H; inversion H; reflexivity.
Qed.

Lemma writeTextFile_same (p t : string) (s s' : state) (r : outcome unit) :
  writeTextFile p t s = (r, s') -> same_collection s s'.
Proof.
  unfold writeTextFile. destruct (mem p (readonly s)); intros H; inversion H;
    repeat split.
Qed.

Lemma saveAppConfig_same (p : string) (s s' : state) (r : outcome unit) :
  saveAppConfig p s = (r, s') -> same_collection s s'.
Proof.
  rewrite saveAppConfig_result. destruct (mem _ _); intros H; inversion H; repeat split.
Qed.

Lemma showToast_same (msg : string) (t : toast_type) (s s' : state) (r : outcome unit) :
  showToast msg t s = (r, s') -> same_collection s s'.
Proof. unfold showToast, write. intros H; inversion H; repeat split. Qed.

Lemma try_catch_same (m handler : M unit) (s s' : state) (r : outcome unit) :
  (forall s0 s1 r0, m s0 = (r0, s1) -> same_collection s0 s1) ->
  (forall s0 s1 r0, handler s0 = (r0, s1) -> same_collection s0 s1) ->
  try_catch m handler s = (r, s') -> same_collection s s'.
Proof.
  intros Hm Hh H.
  apply try_catch_inv in H as [(a & H & _)|[(H & _)|(e & s1 & H & _ & H')]].
  - eapply Hm, H.
  - eapply Hm, H.
  - eapply same_collection_trans; [eapply Hm, H|eapply Hh, H'].
Qed.

Lemma saveAsJsonData_same (s s' : state) (r : outcome unit) :
  saveAsJsonData s = (r, s') -> same_collection s s'.
Proof.
  unfold saveAsJsonData. apply try_catch_same; [|intros ? ? ?; apply showToast_same].
  clear. intros s s' r H.
  apply bind_inv in H as [(text & s1 & H1 & H)|(e & H1 & _)];
    apply stringify_items_state in H1; subst; [|apply same_collection_refl].
  apply bind_inv in H as [(choice & s1 & H1 & H)|(e & H1 & _)].
  2: { unfold save_dialog in H1. destruct (saves s); discriminate. }
  assert (Hd : same_collection s s1).
  { unfold save_dialog in H1. destruct (saves s); inversion H1; repeat split. }
  eapply same_collection_trans; [exact Hd|]. clear H1 Hd.
  destruct choice as [p|]; [|inversion H; apply same_collection_refl].
  destruct (String.eqb p ""); [inversion H; apply same_collection_refl|].
  apply bind_inv in H as [([] & s2 & H1 & H)|(e & H1 & _)];
    apply writeTextFile_same in H1; [|exact H1].
  eapply same_collection_trans; [exact H1|]. clear H1.
  apply bind_inv in H as [([] & s3 & H1 & H)|(e & H1 & _)];
    unfold write in H1; inversion H1; subst; clear H1.
  apply bind_inv in H as [([] & s4 & H1 & H)|(e & H1 & _)];
    apply saveAppConfig_same in H1.
  - apply showToast_same in H.
    eapply same_collection_trans; [|exact H].
    eapply same_collection_trans; [|exact H1]. repeat split.
  - eapply same_collection_trans; [|exact H1]. repeat split.
Qed.

Lemma saveToCurrentPath_same (s s' : state) (r : outcome unit) :
  saveToCurrentPath s = (r, s') -> same_collection s s'.
Proof.
  unfold saveToCurrentPath, bind at 1, read.
  destruct (currentFilePath s) as [p|]; [|apply saveAsJsonData_same].
  destruct (String.eqb p ""); [apply saveAsJsonData_same|].
  apply try_catch_same; [|intros ? ? ?; apply showToast_same].
  clear. intros s s' r H.
  apply bind_inv in H as [(text & s1 & H1 & H)|(e & H1 & _)];
    apply stringify_items_state in H1; subst; [|apply same_collection_refl].
  apply bind_inv in H as [([] & s2 & H1 & H)|(e & H1 & _)];
    apply writeTextFile_same in H1; [|exact H1].
  apply showToast_same in H. eapply same_collection_trans; eauto.
Qed.

(** X4.  No save touches the collection: whichever of the three entry points
    runs, and whether it writes, fails or is cancelled, the store, the
    collection, the selection and the answers still due to the open
    dialog are what they were. *)
Theorem save_keeps_collection (s : state) :
  same_collection s (snd (saveJsonData s))
  /\ same_collection s (snd (saveToCurrentPath s))
  /\ same_collection s (snd (saveAsJsonData s)).
Proof.
  split; [|split].
  - destruct (saveJsonData s) as [r s'] eqn:H. simpl.
    unfold saveJsonData, bind, read in H.
    destruct (currentFilePath s) as [p|]; [|eapply saveAsJsonData_same, H].
    destruct (String.eqb p ""); [eapply saveAsJsonData_same, H|].
    eapply saveToCurrentPath_same, H.
  - destruct (saveToCurrentPath s) as [r s'] eqn:H. eapply saveToCurrentPath_same, H.
  - destruct (saveAsJsonData s) as [r s'] eqn:H. eapply saveAsJsonData_same, H.
Qed.

(** ** Save As *)

Lemma stringify_items_result (s : state) (J : json) :
  snapshot s = Ok (Some J) -> stringify_items s = (Ok (JSON_stringify J), s).
Proof.
  unfold snapshot, stringify_items, bind, read, on_store. intros ->. reflexivity.
Qed.

(** X5.  Save As on a path that can be written: the file then holds the
    text of the collection, the path becomes the current one and the one
    the configuration file remembers, and the success message is shown.
    (A path that is the configuration file itself is overwritten by the
    configuration.) *)
Theorem saveAsJsonData_writes (s : state) (J : json) (p : string)
    (rest : list (option string)) :
  snapshot s = Ok (Some J) ->
  saves s = Some p :: rest ->
  p <> "" ->
  mem p (readonly s) = false ->
  exists s',
    saveAsJsonData s = (Ok tt, s')
    /\ currentFilePath s' = Some p
    /\ toasts s' = toasts s ++ [save_succeeded]
    /\ saves s' = rest
    /\ (p <> configPath s -> lookup_prop p (files s') = Some (JSON_stringify J))
    /\ (mem (configPath s) (readonly s) = false ->
        lookup_prop (configPath s) (files s')
        = Some (JSON_stringify (JObj [("lastUsedPath", JStr p)])))
    /\ (mem (configPath s) (readonly s) = true ->
        files s' = write_file p (JSON_stringify J) (files s))
    /\ (forall q, q <> p -> q <> configPath s ->
        lookup_prop q (files s') = lookup_prop q (files s)).
Proof.
  intros Hsnap Hsaves Hp Hw. apply String.eqb_neq in Hp.
  unfold saveAsJsonData, try_catch, bind at 1.
  rewrite (stringify_items_result s J Hsnap).
  unfold bind at 1, save_dialog. rewrite Hsaves, Hp.
  unfold bind at 1, writeTextFile. cbn [readonly set_saves]. rewrite Hw.
  unfold bind at 1, write. unfold bind at 1. rewrite saveAppConfig_result.
  cbn [configPath readonly set_files set_currentFilePath set_saves files].
  unfold showToast, write.
  destruct (mem (configPath s) (readonly s)) eqn:Hc; eexists; (split; [reflexivity|]);
    cbn [currentFilePath toasts saves files set_toasts set_files set_currentFilePath
           set_saves]; repeat split; try discriminate.
  - intros _. apply lookup_write_file.
  - intros q Hq _. apply lookup_write_file_ne. congruence.
  - intros Hpc. rewrite lookup_write_file_ne by congruence. apply lookup_write_file.
  - intros _. apply lookup_write_file.
  - intros q Hq Hqc. rewrite !lookup_write_file_ne by congruence. reflexivity.
Qed.

(** X6.  Save As when the dialog is closed without a path: nothing is
    written and no message is shown; only the dialog's answer is used
    up. *)
Theorem saveAsJsonData_cancelled (s : state) (J : json) :
  snapshot s = Ok (Some J) ->
  (saves s = [] \/ exists rest, saves s = None :: rest \/ saves s = Some "" :: rest) ->
  saveAsJsonData s = (Ok tt, set_saves (tl (saves s)) s).
Proof.
  intros Hsnap Hsaves.
  unfold saveAsJsonData, try_catch, bind at 1.
  rewrite (stringify_items_result s J Hsnap).
  unfold bind at 1, save_dialog.
  destruct Hsaves as [Hs|(rest & [Hs|Hs])]; rewrite Hs; simpl; try reflexivity.
  destruct s; simpl in *; subst; reflexivity.
Qed.

(** X7.  A save that cannot write its file shows the failure message and
    changes nothing else: no file, not the configuration, and not the
    current path, so that a failed Save As leaves the old path in
    place. *)
Theorem failed_save_changes_nothing (s : state) (J : json) (p : string) :
  snapshot s = Ok (Some J) ->
  p <> "" ->
  mem p (readonly s) = true ->
  (currentFilePath s = Some p ->
   saveToCurrentPath s = (Ok tt, set_toasts (toasts s ++ [save_failed]) s)
   /\ saveJsonData s = (Ok tt, set_toasts (toasts s ++ [save_failed]) s))
  /\ (forall rest, saves s = Some p :: rest ->
      saveAsJsonData s
      = (Ok tt, set_toasts (toasts s ++ [save_failed]) (set_saves rest s))).
Proof.
  intros Hsnap Hp Hro. apply String.eqb_neq in Hp. split.
  - intros Hcur.
    assert (H : saveToCurrentPath s = (Ok tt, set_toasts (toasts s ++ [save_failed]) s)).
    { unfold saveToCurrentPath, bind at 1, read. rewrite Hcur, Hp.
      unfold try_catch, bind at 1. rewrite (stringify_items_result s J Hsnap).
      unfold bind at 1, writeTextFile. rewrite Hro. reflexivity. }
    split; [exact H|].
    unfold saveJsonData, bind, read. rewrite Hcur, Hp. exact H.
  - intros rest Hsaves.
    unfold saveAsJsonData, try_catch, bind at 1.
    rewrite (stringify_items_result s J Hsnap).
    unfold bind at 1, save_dialog. rewrite Hsaves, Hp.
    unfold bind at 1, writeTextFile. cbn [readonly set_saves]. rewrite Hro.
    reflexivity.
Qed.

(** * Where a load reads from *)

(** ** The content of the collection in a larger store *)

Lemma omap_ok_ext {A B} (f g : A -> outcome B) (l : list A) :
  (forall x y, In x l -> f x = Ok y -> g x = Ok y) ->
  forall ys, omap f l = Ok ys -> omap g l = Ok ys.
Proof.
  induction l as [|x l IH]; simpl; intros Hfg ys H; [exact H|].
  destruct (f x) as [y|e] eqn:Ex; simpl in H; [|discriminate].
  rewrite (Hfg x y (or_introl eq_refl) Ex). simpl.
  destruct (omap f l) as [ys'|e] eqn:El; simpl in H; [|discriminate].
  rewrite (IH (fun x' y' Hx => Hfg x' y' (or_intror Hx)) ys' eq_refl). exact H.
Qed.

(** What [JSON.stringify] gives does not depend on the cells allocated
    later, nor on fuel to spare. *)
Lemma serialize_extend (n : nat) :
  forall h v r, serialize n h v = Ok r ->
    forall m ext, (n <= m)%nat -> serialize m (h ++ ext) v = Ok r.
Proof.
  induction n as [|n IH]; intros h v r H m ext Hm.
  - destruct v; try (destruct m; exact H). discriminate.
  - destruct v; try (destruct m; exact H).
    destruct m as [|m]; [lia|]. simpl in *.
    destruct (h !! l) as [[[es|] p]|] eqn:El; [| |discriminate];
      rewrite (lookup_app_l_Some _ _ _ _ El).
    + destruct (omap _ es) as [js|e] eqn:Es; [|discriminate].
      erewrite omap_ok_ext; [exact H| |exact Es].
      intros x y _ Hx. simpl in Hx.
      destruct (serialize n h x) as [rx|e] eqn:Ex; [|discriminate].
      rewrite (IH h x rx Ex m ext) by lia. exact Hx.
    + destruct (omap _ p) as [ms|e] eqn:Es; [|discriminate].
      erewrite omap_ok_ext; [exact H| |exact Es].
      intros x y _ Hx. simpl in Hx.
      destruct (serialize n h (snd x)) as [rx|e] eqn:Ex; [|discriminate].
      rewrite (IH h (snd x) rx Ex m ext) by lia. exact Hx.
Qed.

Lemma snapshot_kept (s s' : state) (J : option json) :
  collection_kept s s' -> snapshot s = Ok J -> snapshot s' = Ok J.
Proof.
  intros (Hi & _ & ext & Hst) H. unfold snapshot in *. rewrite Hi, Hst.
  apply serialize_extend with (n := length (store s)); [exact H|].
  rewrite length_app. lia.
Qed.

(** ** Steps on the store *)

Lemma store_only_refl (s : state) : store_only s s.
Proof. unfold store_only. destruct s; reflexivity. Qed.

Lemma store_only_trans (s1 s2 s3 : state) :
  store_only s1 s2 -> store_only s2 s3 -> store_only s1 s3.
Proof. unfold store_only. intros H1 H2. rewrite H2, H1. reflexivity. Qed.

Lemma update_store_only (f : heap -> outcome heap) (s s' : state) (r : outcome unit) :
  update_store f s = (r, s') -> store_only s s'.
Proof.
  unfold update_store. destruct (f (store s)); intros H; inversion H;
    [reflexivity|apply store_only_refl].
Qed.

Lemma alloc_store_only {A} (f : heap -> outcome (A * heap)) (s s' : state) (r : outcome A) :
  alloc_store f s = (r, s') -> store_only s s'.
Proof.
  unfold alloc_store. destruct (f (store s)) as [[a h]|e]; intros H; inversion H;
    [reflexivity|apply store_only_refl].
Qed.

Lemma backfill_store_only (item : value) (s s' : state) (r : outcome unit) :
  backfill item s = (r, s') -> store_only s s'.
Proof.
  unfold backfill. intros H.
  apply bind_inv in H as [(d & s1 & H1 & H)|(e & H1 & _)];
    unfold on_store in H1; inversion H1; subst; [|apply store_only_refl].
  destruct d; try (inversion H; apply store_only_refl).
  eapply update_store_only, H.
Qed.

Lemma for_each_store_only (f : value -> M unit) (vs : list value) :
  (forall v s s' r, f v s = (r, s') -> store_only s s') ->
  forall s s' r, for_each f vs s = (r, s') -> store_only s s'.
Proof.
  intros Hf. induction vs as [|v vs IH]; intros s s' r H; simpl in H.
  - inversion H. apply store_only_refl.
  - apply bind_inv in H as [(a & s1 & H1 & H)|(e & H1 & _)].
    + eapply store_only_trans; [eapply Hf, H1|eapply IH, H].
    + eapply Hf, H1.
Qed.

Lemma array_forEach_store_only (v : value) (s s' : state) (r : outcome unit) :
  array_forEach v backfill s = (r, s') -> store_only s s'.
Proof.
  unfold array_forEach. intros H.
  apply bind_inv in H as [(es & s1 & H1 & H)|(e & H1 & _)];
    unfold on_store in H1; inversion H1; subst; [|apply store_only_refl].
  eapply for_each_store_only; [|exact H].
  intros x s0 s0' r0 Hx. destruct x; try (eapply backfill_store_only, Hx).
  inversion Hx. apply store_only_refl.
Qed.

(** The host after the load of a resolved source: the files are those
    the remembered path left, and the path is the current one. *)
Lemma load_host (lc : string -> string -> comparison)
    (s s1 s' : state) (t p : string) (r : outcome unit) :
  resolve_source s = (Ok (Some (t, p)), s1) ->
  loadJsonData lc s = (r, s') ->
  files s' = files (snd (remember_path p s1))
  /\ readonly s' = readonly s /\ configPath s' = configPath s
  /\ picks s' = picks s1 /\ saves s' = saves s
  /\ currentFilePath s' = Some p.
Proof.
  intros Hres Hload.
  destruct (resolve_source_path _ _ _ _ Hres) as [Hp _].
  pose proof (resolve_source_state _ _ _ Hres) as Hs1.
  assert (Hsteps : exists s2 rr,
             load_steps lc s = (rr, s2)
             /\ (s' = s2 \/ s' = set_toasts (toasts s2 ++ [load_failed]) s2)).
  { unfold loadJsonData, try_catch in Hload.
    destruct (load_steps lc s) as [[a|e] s2]; [|destruct e];
      inversion Hload; subst; eexists _, _; (split; [reflexivity|]); auto. }
  destruct Hsteps as (s2 & rr & Hrun & Hs').
  assert (Hs2 : exists h v ts,
             s2 = set_toasts ts (set_items v (set_store h (snd (remember_path p s1))))).
  { clear Hs' Hload. unfold load_steps, load_steps_on, bind at 1 in Hrun. rewrite Hres in Hrun.
    unfold bind at 1 in Hrun. rewrite (remember_path_result p s1 Hp) in Hrun.
    cbn [snd]. rewrite (remember_path_result p s1 Hp). cbn [snd].
    set (sa := if mem (configPath s1) (readonly s1) then _ else _) in *.
    clearbody sa.
    assert (Hgen : forall sb, store_only sa sb ->
              exists h v ts, sb = set_toasts ts (set_items v (set_store h sa))).
    { intros sb Hsb. exists (store sb), (items sa), (toasts sa).
      rewrite Hsb. destruct sa; reflexivity. }
    apply bind_inv in Hrun as [(v & sb & H1 & Hrun)|(e & H1 & _)].
    2: { apply Hgen. rewrite parse_into_store_result in H1.
         destruct (JSON_parse t); inversion H1. apply store_only_refl. }
    assert (Hb : store_only sa sb).
    { rewrite parse_into_store_result in H1.
      destruct (JSON_parse t); inversion H1; reflexivity. }
    apply bind_inv in Hrun as [([] & sc & H2 & Hrun)|(e & H2 & _)];
      apply array_forEach_store_only in H2;
      pose proof (store_only_trans _ _ _ Hb H2) as Hc; [|apply Hgen, Hc].
    apply bind_inv in Hrun as [([] & sd & H3 & Hrun)|(e & H3 & _)];
      apply update_store_only in H3;
      pose proof (store_only_trans _ _ _ Hc H3) as Hd; [|apply Hgen, Hd].
    unfold bind, write, showToast in Hrun. inversion Hrun; subst s2.
    unfold store_only in Hd. revert Hd. generalize (store sd) as h. intros h ->.
    eexists h, v, _. destruct sa; reflexivity. }
  destruct Hs2 as (h & v & ts & Hs2).
  assert (Hcur : currentFilePath (snd (remember_path p s1)) = Some p
                 /\ readonly (snd (remember_path p s1)) = readonly s
                 /\ configPath (snd (remember_path p s1)) = configPath s
                 /\ picks (snd (remember_path p s1)) = picks s1
                 /\ saves (snd (remember_path p s1)) = saves s).
  { rewrite (remember_path_result p s1 Hp). cbn [snd].
    destruct (mem (configPath s1) (readonly s1)); rewrite Hs1; repeat split. }
  destruct Hcur as (C1 & C2 & C3 & C4 & C5).
  destruct Hs' as [->| ->]; rewrite Hs2; cbn; auto 10.
Qed.

(** ** The remembered path and the dialog *)

Lemma resolve_source_remembered (s : state) (cfg : json) (p t : string) :
  loadAppConfig s = (Ok cfg, s) ->
  config_lastUsedPath cfg = Ok (Some (JStr p)) ->
  p <> "" ->
  lookup_prop p (files s) = Some t ->
  resolve_source s = (Ok (Some (t, p)), s).
Proof.
  intros Hcfg Hlast Hp Ht. apply String.eqb_neq in Hp.
  unfold resolve_source, bind at 1. rewrite Hcfg.
  unfold bind at 1, lift. rewrite Hlast. cbn [json_truthy]. rewrite Hp. cbn [negb].
  unfold try_catch, bind, readTextFile. rewrite Ht. reflexivity.
Qed.

Lemma resolve_source_dialog (s : state) (cfg : json) (last : option json) :
  loadAppConfig s = (Ok cfg, s) ->
  config_lastUsedPath cfg = Ok last ->
  json_truthy last = false
  \/ (forall p, last = Some (JStr p) -> lookup_prop p (files s) = None) ->
  resolve_source s = pick_and_read s.
Proof.
  intros Hcfg Hlast Hcase.
  unfold resolve_source, bind at 1. rewrite Hcfg.
  unfold bind at 1, lift. rewrite Hlast.
  destruct (json_truthy last) eqn:Htr; [|reflexivity].
  destruct Hcase as [?|Hno]; [discriminate|].
  unfold try_catch.
  destruct last as [[| | |p| |]|]; try reflexivity.
  unfold bind, readTextFile. rewrite (Hno p eq_refl). reflexivity.
Qed.

(** X8.  Where a load reads from.  A remembered path that can be read is
    read without asking: no dialog is opened.  When no path is
    remembered, or the remembered one is not a string or cannot be read,
    the dialog is opened and the chosen file is read; a chosen file that
    cannot be read makes the load throw. *)
Theorem load_source (s : state) (cfg : json) (last : option json) :
  loadAppConfig s = (Ok cfg, s) ->
  config_lastUsedPath cfg = Ok last ->
  (forall p t, last = Some (JStr p) -> p <> "" -> lookup_prop p (files s) = Some t ->
               resolve_source s = (Ok (Some (t, p)), s))
  /\ (json_truthy last = false
      \/ (forall p, last = Some (JStr p) -> lookup_prop p (files s) = None) ->
      forall q rest, picks s = Some q :: rest -> q <> "" ->
        resolve_source s
        = match lookup_prop q (files s) with
          | Some t => (Ok (Some (t, q)), set_picks rest s)
          | None => (Err IOError, set_picks rest s)
          end).
Proof.
  intros Hcfg Hlast. split.
  - intros p t -> Hp Ht. eapply resolve_source_remembered; eauto.
  - intros Hcase q rest Hpicks Hq. apply String.eqb_neq in Hq.
    rewrite (resolve_source_dialog s cfg last Hcfg Hlast Hcase).
    unfold pick_and_read, bind at 1, open_dialog. rewrite Hpicks, Hq.
    unfold bind, readTextFile. cbn [files set_picks].
    destruct (lookup_prop q (files s)); reflexivity.
Qed.

Lemma loadAppConfig_written (s : state) (p : string) :
  lookup_prop (configPath s) (files s)
  = Some (JSON_stringify (JObj [("lastUsedPath", JStr p)])) ->
  loadAppConfig s = (Ok (JObj [("lastUsedPath", JStr p)]), s).
Proof.
  intros H. unfold loadAppConfig, try_catch, bind, read, readTextFile, lift.
  rewrite H, JSON_parse_stringify by reflexivity. reflexivity.
Qed.

(** The source of the load that follows a load from [p]. *)
Lemma next_source (lc : string -> string -> comparison)
    (s s1 s' : state) (t p : string) (r : outcome unit) :
  resolve_source s = (Ok (Some (t, p)), s1) ->
  mem (configPath s) (readonly s) = false ->
  p <> configPath s ->
  loadJsonData lc s = (r, s') ->
  resolve_source s' = (Ok (Some (t, p)), s').
Proof.
  intros Hres Hw Hpc Hload.
  destruct (resolve_source_path _ _ _ _ Hres) as [Hp Ht].
  pose proof (resolve_source_state _ _ _ Hres) as Hs1.
  destruct (load_host lc s s1 s' t p r Hres Hload) as (Hf & Hro & Hc & _).
  rewrite (remember_path_result p s1 Hp) in Hf. cbn [snd] in Hf.
  assert (E1 : configPath s1 = configPath s) by (rewrite Hs1; reflexivity).
  assert (E2 : readonly s1 = readonly s) by (rewrite Hs1; reflexivity).
  assert (E3 : files s1 = files s) by (rewrite Hs1; reflexivity).
  rewrite E1, E2, Hw in Hf. cbn [files set_files set_currentFilePath] in Hf.
  rewrite E3 in Hf.
  apply (resolve_source_remembered s' (JObj [("lastUsedPath", JStr p)]) p t).
  - apply loadAppConfig_written. rewrite Hc, Hf. apply lookup_write_file.
  - reflexivity.
  - exact Hp.
  - rewrite Hf, lookup_write_file_ne by congruence. exact Ht.
Qed.

(** X9.  The path a load has read is the one the next load reads,
    without asking, whether the first load succeeded or failed: it is
    the current path and the configuration file names it.  (The
    configuration file must be writable, and must not be the file that
    was read.) *)
Theorem chosen_path_is_remembered (lc : string -> string -> comparison)
    (s s1 s' : state) (t p : string) (r : outcome unit) :
  resolve_source s = (Ok (Some (t, p)), s1) ->
  mem (configPath s) (readonly s) = false ->
  p <> configPath s ->
  loadJsonData lc s = (r, s') ->
  currentFilePath s' = Some p
  /\ lookup_prop (configPath s') (files s')
     = Some (JSON_stringify (JObj [("lastUsedPath", JStr p)]))
  /\ lookup_prop p (files s') = Some t
  /\ resolve_source s' = (Ok (Some (t, p)), s').
Proof.
  intros Hres Hw Hpc Hload.
  pose proof (next_source lc s s1 s' t p r Hres Hw Hpc Hload) as Hnext.
  destruct (load_host lc s s1 s' t p r Hres Hload) as (Hf & _ & Hc & _ & _ & Hcur).
  destruct (resolve_source_path _ _ _ _ Hnext) as [_ Ht].
  split; [exact Hcur|]. split; [|split; assumption].
  destruct (resolve_source_path _ _ _ _ Hres) as [Hp _].
  pose proof (resolve_source_state _ _ _ Hres) as Hs1.
  rewrite (remember_path_result p s1 Hp) in Hf. cbn [snd] in Hf.
  rewrite Hc, Hf, Hs1. cbn [configPath readonly set_picks]. rewrite Hw.
  apply lookup_write_file.
Qed.

(** X10.  Loading again gives the same collection: after a load that
    shows the success message, a second load, with the file as it is,
    reads the same path without asking, succeeds, and leaves a
    collection with the same content.  (The configuration file must be
    writable, and must not be the file that was read: otherwise the
    path is not remembered, or the configuration has overwritten the
    data.) *)
Theorem reload_gives_same_collection (lc : string -> string -> comparison)
    (s s1 : state) (r : outcome unit) :
  loadJsonData lc s = (r, s1) ->
  toasts s1 = toasts s ++ [load_succeeded] ->
  mem (configPath s) (readonly s) = false ->
  currentFilePath s1 <> Some (configPath s) ->
  exists s2,
    loadJsonData lc s1 = (Ok tt, s2)
    /\ snapshot s2 = snapshot s1
    /\ toasts s2 = toasts s1 ++ [load_succeeded]
    /\ currentFilePath s2 = currentFilePath s1
    /\ picks s2 = picks s1.
Proof.
  intros Hload Htoast Hw Hcur.
  destruct (load_success_inv lc s s1 r Hload Htoast)
    as (t & p & s0 & doc & T & Hres & Hparse & HT & Hsnap & _ & _ & Hp).
  assert (Hpc : p <> configPath s) by (intros ->; apply Hcur, Hp).
  pose proof (next_source lc s s0 s1 t p r Hres Hw Hpc Hload) as Hnext.
  pose proof (load_steps_refines lc s1 s1 t p doc Hnext Hparse) as Hrun.
  rewrite HT in Hrun. destruct Hrun as (s2 & Hrun & Hsnap2 & Ht2 & _ & Hcur2).
  assert (Hl2 : loadJsonData lc s1 = (Ok tt, s2))
    by (unfold loadJsonData, try_catch; rewrite Hrun; reflexivity).
  exists s2. split; [exact Hl2|]. split; [congruence|]. split; [exact Ht2|].
  split; [congruence|].
  destruct (load_host lc s1 s1 s2 t p (Ok tt) Hnext Hl2) as (_ & _ & _ & Hpk & _).
  exact Hpk.
Qed.

Lemma saveAsJsonData_result (s : state) (J : json) (p : string)
    (rest : list (option string)) :
  snapshot s = Ok (Some J) ->
  saves s = Some p :: rest ->
  p <> "" ->
  mem p (readonly s) = false ->
  mem (configPath s) (readonly s) = false ->
  saveAsJsonData s
  = (Ok tt,
     set_toasts (toasts s ++ [save_succeeded])
       (set_files (write_file (configPath s)
                     (JSON_stringify (JObj [("lastUsedPath", JStr p)]))
                     (write_file p (JSON_stringify J) (files s)))
          (set_currentFilePath (Some p) (set_saves rest s)))).
Proof.
  intros Hsnap Hsaves Hp Hw Hc. apply String.eqb_neq in Hp.
  unfold saveAsJsonData, try_catch, bind at 1.
  rewrite (stringify_items_result s J Hsnap).
  unfold bind at 1, save_dialog. rewrite Hsaves, Hp.
  unfold bind at 1, writeTextFile. cbn [readonly set_saves]. rewrite Hw.
  unfold bind at 1, write. unfold bind at 1. rewrite saveAppConfig_result.
  cbn [configPath readonly set_files set_currentFilePath set_saves files].
  rewrite Hc. reflexivity.
Qed.

(** X11.  Save As, then load.  Let the chosen path and the configuration
    file both be writable and different, and the numbers of the
    collection be integers the text carries exactly ([safe]).  After
    the Save As the next load reads the chosen path without asking, the
    text it reads is the one just written, and it parses back to the
    collection that was saved; the load then ends as [loaded] says of
    that collection, on the engine [loaded] sorts with. *)
Theorem save_as_then_load (lc : string -> string -> comparison)
    (s : state) (J : json) (p : string) (rest : list (option string)) :
  snapshot s = Ok (Some J) ->
  safe J = true ->
  saves s = Some p :: rest ->
  p <> "" ->
  mem p (readonly s) = false ->
  mem (configPath s) (readonly s) = false ->
  p <> configPath s ->
  exists s1,
    saveAsJsonData s = (Ok tt, s1)
    /\ resolve_source s1 = (Ok (Some (JSON_stringify J, p)), s1)
    /\ JSON_parse (JSON_stringify J) = Ok J
    /\ match loaded lc J with
       | Ok T =>
           exists s2,
             loadJsonData lc s1 = (Ok tt, s2)
             /\ snapshot s2 = Ok (Some T)
             /\ toasts s2 = toasts s ++ [save_succeeded; load_succeeded]
       | Err e =>
           e <> Unmodelled ->
           exists s2,
             loadJsonData lc s1 = (Ok tt, s2)
             /\ snapshot s2 = Ok (Some J)
             /\ toasts s2 = toasts s ++ [save_succeeded; load_failed]
       end.
Proof.
  intros Hsnap Hsafe Hsaves Hp Hw Hc Hpc.
  rewrite (saveAsJsonData_result s J p rest Hsnap Hsaves Hp Hw Hc).
  set (s1 := set_toasts _ _).
  assert (Hres : resolve_source s1 = (Ok (Some (JSON_stringify J, p)), s1)).
  { apply (resolve_source_remembered s1 (JObj [("lastUsedPath", JStr p)]) p).
    - apply loadAppConfig_written. apply lookup_write_file.
    - reflexivity.
    - exact Hp.
    - subst s1. cbn [files set_toasts set_files].
      rewrite lookup_write_file_ne by congruence. apply lookup_write_file. }
  pose proof (JSON_parse_stringify J Hsafe) as Hparse.
  exists s1. split; [reflexivity|]. split; [exact Hres|]. split; [exact Hparse|].
  pose proof (load_steps_refines lc s1 s1 _ p J Hres Hparse) as Hrun.
  destruct (loaded lc J) as [T|e].
  - destruct Hrun as (s2 & Hrun & Hsnap2 & Ht2 & _).
    exists s2. split; [unfold loadJsonData, try_catch; rewrite Hrun; reflexivity|].
    split; [exact Hsnap2|]. rewrite Ht2. subst s1. cbn [toasts set_toasts].
    rewrite <- app_assoc. reflexivity.
  - intros He. destruct Hrun as (s2 & Hrun).
    destruct (load_exception lc s1 s2 e Hrun He) as (Hload & Hkept & Htoast).
    eexists. split; [exact Hload|]. split.
    + eapply snapshot_kept; [exact Hkept|]. exact Hsnap.
    + cbn [toasts set_toasts]. rewrite Htoast. subst s1. cbn [toasts set_toasts].
      rewrite <- app_assoc. reflexivity.
Qed.

(** * The sort keeps the order of equal names *)

Section Stable.
Context {A : Type}.
Variable cmp : A -> A -> outcome comparison.
Variable P : A -> bool.
Hypothesis never_before :
  forall x y, cmp x y = Ok Lt -> P x = true -> P y = true -> False.

Lemma insert_sorted_filter (x : A) (acc r : list A) :
  insert_sorted cmp x acc = Ok r ->
  List.filter P r = List.filter P [x] ++ List.filter P acc.
Proof.
  revert r. induction acc as [|y acc IH]; simpl; intros r H.
  - inversion H. simpl. destruct (P x); reflexivity.
  - destruct (cmp x y) as [c|e] eqn:E; simpl in H; [|discriminate].
    destruct c; try (inversion H; subst; simpl; destruct (P x), (P y); reflexivity).
    destruct (insert_sorted cmp x acc) as [r'|e] eqn:Er; simpl in H; [|discriminate].
    inversion H; subst. simpl. rewrite (IH r' eq_refl). simpl.
    destruct (P x) eqn:Px, (P y) eqn:Py; try reflexivity.
    exfalso. eapply never_before; eauto.
Qed.

Lemma sort_loop_filter (l : list A) :
  forall acc r, sort_loop cmp l acc = Ok r ->
    List.filter P r = rev (List.filter P acc) ++ List.filter P l.
Proof.
  induction l as [|x l IH]; simpl; intros acc r H.
  - inversion H. rewrite app_nil_r. apply List.filter_rev.
  - destruct (insert_sorted cmp x acc) as [acc'|e] eqn:E; simpl in H; [|discriminate].
    rewrite (IH _ _ H), (insert_sorted_filter _ _ _ E).
    simpl. destruct (P x); simpl; [|reflexivity].
    rewrite <- app_assoc. reflexivity.
Qed.

Lemma sort_by_filter (l r : list A) :
  sort_by cmp l = Ok r -> List.filter P r = List.filter P l.
Proof. intros H. apply sort_loop_filter in H. exact H. Qed.
End Stable.

(** X12.  The sort of a load is stable: the records compared under one
    name are, in the collection, in the order the document has them.
    (The comparison must not put a name before itself.) *)
Theorem load_keeps_order_of_equal_names (lc : string -> string -> comparison)
    (s s' : state) (r : outcome unit) :
  (forall a, lc a a <> Lt) ->
  loadJsonData lc s = (r, s') ->
  toasts s' = toasts s ++ [load_succeeded] ->
  exists t p s1 recs bs T,
    resolve_source s = (Ok (Some (t, p)), s1)
    /\ JSON_parse t = Ok (JArr recs)
    /\ Forall2 devonly_defaulted (map normalize recs) bs
    /\ snapshot s' = Ok (Some (JArr T))
    /\ forall k, List.filter (named k) T = List.filter (named k) bs.
Proof.
  intros Hirr Hload Htoast.
  destruct (load_success_inv lc s s' r Hload Htoast)
    as (t & p & s1 & doc & T & Hres & Hparse & HT & Hsnap & _).
  apply loaded_inv in HT as (recs & bs & sorted & -> & Hbs & Hsort & ->).
  exists t, p, s1, recs, bs, sorted. repeat split; try assumption.
  - apply omap_inv in Hbs. eapply Forall2_impl; [exact Hbs|].
    apply backfilled_defaulted.
  - intros k. eapply sort_by_filter; [|exact Hsort].
    intros x y Hlt Hx Hy.
    apply compare_docs_keys in Hlt as (ka & kb & Ha & Hb & Hc).
    unfold named in Hx, Hy. rewrite Ha in Hx. rewrite Hb in Hy.
    apply String.eqb_eq in Hx, Hy. subst. eapply Hirr. symmetry. exact Hc.
Qed.

(** * Adding, removing and replacing an element of a list field *)

Lemma insert_snoc {A} (h : list A) (x y : A) : <[length h := y]> (h ++ [x]) = h ++ [y].
Proof.
  rewrite <- (Nat.add_0_r (length h)), insert_app_r. reflexivity.
Qed.

Section ListEdit.

Variable s : state.
Variables (L r a : loc) (sel : Z) (field : string).
Variables (recs es : list value) (pm pa : list (string * value)).
Variable m : list (string * value).

Hypothesis Hitems : items s = VRef L.
Hypothesis Hcoll : store s !! L = Some (Obj (Some recs) pm).
Hypothesis Hsel : selectedItem s = Some sel.
Hypothesis Hrange : 0 <= sel < 4294967295.
Hypothesis Hrec : recs !! Z.to_nat sel = Some (VRef r).
Hypothesis Hcell : store s !! r = Some (Obj None m).
Hypothesis Hfield : lookup_prop field m = Some (VRef a).
Hypothesis Hlist : store s !! a = Some (Obj (Some es) pa).

(** The state a list edit leaves: a new cell for the changed copy, and
    the record's field referring to it. *)
Lemma edit_copy_result (change : heap -> value -> outcome heap)
    (g : list value -> list value) :
  (forall h l xs p, h !! l = Some (Obj (Some xs) p) ->
     change h (VRef l) = Ok (<[l := Obj (Some (g xs)) p]> h)) ->
  edit_copy field change s
  = (Ok tt,
     set_store (<[r := Obj None (replace_prop field (VRef (length (store s))) m)]>
                  (store s ++ [Obj (Some (g es)) []])) s).
Proof.
  intros Hchange.
  assert (Hr : (r < length (store s))%nat) by (eapply lookup_lt_Some, Hcell).
  assert (HL : (L < length (store s))%nat) by (eapply lookup_lt_Some, Hcoll).
  destruct s as [h its seli cur ts fs ro cfg pk sv]; simpl in *. subst its seli.
  unfold edit_copy, updateField, selected_record, bind, read, on_store,
    alloc_store, update_store, h_spread; simpl.
  rewrite Hcoll, index_of_key_number by exact Hrange.
  rewrite Hrec. simpl. rewrite Hcell, Hfield. simpl. rewrite Hlist. simpl.
  rewrite (Hchange _ _ es []) by apply lookup_snoc_new.
  rewrite insert_snoc. simpl.
  rewrite (lookup_snoc_old _ _ _ _ Hcoll).
  rewrite index_of_key_number by exact Hrange.
  rewrite Hrec. simpl.
  rewrite (lookup_snoc_old _ _ _ _ Hcell), Hfield. reflexivity.
Qed.

(** What that state shows of the record. *)
Lemma edit_copy_state (new : list value) :
  let s' := set_store (<[r := Obj None (replace_prop field (VRef (length (store s))) m)]>
                         (store s ++ [Obj (Some new) []])) s in
  list_of s' sel field = Ok new /\ field_edited s s' sel field r.
Proof.
  assert (Hr : (r < length (store s))%nat) by (eapply lookup_lt_Some, Hcell).
  assert (HL : (L < length (store s))%nat) by (eapply lookup_lt_Some, Hcoll).
  assert (HLr : L <> r) by (intros ->; rewrite Hcoll in Hcell; discriminate).
  assert (Hget : forall f,
    field_of (set_store (<[r := Obj None (replace_prop field (VRef (length (store s))) m)]>
                           (store s ++ [Obj (Some new) []])) s) sel f
    = Ok (default VUndef (lookup_prop f (replace_prop field (VRef (length (store s))) m)))
      \/ mem f object_members = true).
  { intros f. destruct (mem f object_members) eqn:Hm; [right; reflexivity|left].
    unfold field_of. cbn [store items set_store]. rewrite Hitems.
    rewrite (h_get_element _ L recs pm) by
      (try exact Hrange; rewrite list_lookup_insert_ne by exact (not_eq_sym HLr);
       apply lookup_snoc_old, Hcoll).
    rewrite Hrec. simpl. unfold h_get.
    rewrite list_lookup_insert_eq by (rewrite length_app; simpl; lia).
    rewrite Hm. destruct (lookup_prop f _); reflexivity. }
  cbn zeta. split; [|split; [reflexivity|split; [reflexivity|split]]].
  - unfold list_of. destruct (Hget field) as [->|Hm].
    + rewrite (lookup_replace_eq _ _ _ _ Hfield). simpl.
      rewrite list_lookup_insert_ne by lia. rewrite lookup_snoc_new. reflexivity.
    + unfold field_of. cbn [store items set_store]. rewrite Hitems.
      rewrite (h_get_element _ L recs pm) by
        (try exact Hrange; rewrite list_lookup_insert_ne by exact (not_eq_sym HLr);
         apply lookup_snoc_old, Hcoll).
      rewrite Hrec. simpl. unfold h_get.
      rewrite list_lookup_insert_eq by (rewrite length_app; simpl; lia).
      rewrite (lookup_replace_eq _ _ _ _ Hfield). simpl.
      rewrite list_lookup_insert_ne by lia. rewrite lookup_snoc_new. reflexivity.
  - intros f Hf. unfold field_of. cbn [store items set_store]. rewrite Hitems.
    rewrite (h_get_element _ L recs pm) by
      (try exact Hrange; rewrite list_lookup_insert_ne by exact (not_eq_sym HLr);
       apply lookup_snoc_old, Hcoll).
    rewrite (h_get_element _ L recs pm) by (try exact Hrange; exact Hcoll).
    rewrite Hrec. simpl. unfold h_get.
    rewrite list_lookup_insert_eq by (rewrite length_app; simpl; lia).
    rewrite Hcell. rewrite lookup_replace_ne by congruence. reflexivity.
  - intros l o Hl Ho. cbn [store set_store].
    rewrite list_lookup_insert_ne by (intros ->; apply Hl; left; reflexivity).
    apply lookup_snoc_old, Ho.
Qed.
End ListEdit.

Lemma splice1_inside (index : Z) (es : list value) :
  - Z.of_nat (length es) <= index < Z.of_nat (length es) ->
  splice1 index es
  = take (Z.to_nat (if index <? 0 then Z.of_nat (length es) + index else index)) es
    ++ drop (S (Z.to_nat (if index <? 0 then Z.of_nat (length es) + index else index))) es.
Proof.
  intros Hi. unfold splice1.
  destruct (Z.ltb_spec index 0) as [Hneg|Hpos].
  - rewrite Z.max_l by lia. rewrite Z.min_l by lia. do 2 f_equal. lia.
  - rewrite (Z.min_l index) by lia. rewrite Z.min_l by lia. do 2 f_equal. lia.
Qed.

Section ListFunctions.

Variable s : state.
Variables (L r a : loc) (sel : Z) (field : string).
Variables (recs es : list value) (pm pa : list (string * value)).
Variable m : list (string * value).

Hypothesis Hitems : items s = VRef L.
Hypothesis Hcoll : store s !! L = Some (Obj (Some recs) pm).
Hypothesis Hsel : selectedItem s = Some sel.
Hypothesis Hrange : 0 <= sel < 4294967295.
Hypothesis Hrec : recs !! Z.to_nat sel = Some (VRef r).
Hypothesis Hcell : store s !! r = Some (Obj None m).
Hypothesis Hfield : lookup_prop field m = Some (VRef a).
Hypothesis Hlist : store s !! a = Some (Obj (Some es) pa).

Lemma old_list_kept (s' : state) :
  field_edited s s' sel field r -> store s' !! a = Some (Obj (Some es) pa).
Proof.
  intros (_ & _ & _ & Hu). apply Hu; [|exact Hlist].
  intros [->|[]]. rewrite Hcell in Hlist. discriminate.
Qed.

(** X13.  [addArrayItem] puts the new element at the end of the list of
    the field: the field gets a new list, the old elements first and in
    their order.  The list the field had is not changed, and neither is
    any other field, record or cell. *)
Theorem addArrayItem_appends (template : value) :
  exists s',
    addArrayItem field template s = (Ok tt, s')
    /\ list_of s' sel field = Ok (es ++ [template])
    /\ field_edited s s' sel field r
    /\ store s' !! a = Some (Obj (Some es) pa).
Proof.
  eexists. split.
  - change (addArrayItem field template)
      with (edit_copy field (fun h c => h_push h c template)).
    apply (edit_copy_result s L r a sel field recs es pm pa m Hitems Hcoll Hsel Hrange
             Hrec Hcell Hfield Hlist _ (fun xs => xs ++ [template])).
    intros h l xs p Hl. unfold h_push. rewrite Hl. reflexivity.
  - destruct (edit_copy_state s L r a sel field recs pm m Hitems Hcoll Hrange Hrec Hcell
                Hfield (es ++ [template])) as [Hnew Hed].
    split; [exact Hnew|]. split; [exact Hed|]. apply old_list_kept, Hed.
Qed.

(** X14.  [removeArrayItem] at an index of the list removes that element
    and no other; a negative index counts from the end.  The field gets
    a new list, one element shorter, and the list it had is not
    changed. *)
Theorem removeArrayItem_removes (index : Z) :
  - Z.of_nat (length es) <= index < Z.of_nat (length es) ->
  exists s',
    removeArrayItem field index s = (Ok tt, s')
    /\ list_of s' sel field
       = Ok (take (Z.to_nat (if index <? 0 then Z.of_nat (length es) + index else index)) es
             ++ drop (S (Z.to_nat (if index <? 0 then Z.of_nat (length es) + index
                                   else index))) es)
    /\ field_edited s s' sel field r
    /\ store s' !! a = Some (Obj (Some es) pa).
Proof.
  intros Hi. eexists. split.
  - change (removeArrayItem field index)
      with (edit_copy field (fun h c => h_splice h c index)).
    apply (edit_copy_result s L r a sel field recs es pm pa m Hitems Hcoll Hsel Hrange
             Hrec Hcell Hfield Hlist _ (splice1 index)).
    intros h l xs p Hl. unfold h_splice. rewrite Hl. reflexivity.
  - destruct (edit_copy_state s L r a sel field recs pm m Hitems Hcoll Hrange Hrec Hcell
                Hfield (splice1 index es)) as [Hnew Hed].
    rewrite <- (splice1_inside index es Hi).
    split; [exact Hnew|]. split; [exact Hed|]. apply old_list_kept, Hed.
Qed.

(** X15.  [updateArrayItem] at an index of the list replaces that
    element and no other; at an index beyond the end it makes the list
    longer, with empty positions up to the new element.  The field gets
    a new list, and the list it had is not changed. *)
Theorem updateArrayItem_replaces (index : Z) (v : value) :
  0 <= index < 4294967295 ->
  exists s',
    updateArrayItem field index v s = (Ok tt, s')
    /\ list_of s' sel field
       = Ok (if index <? Z.of_nat (length es) then <[Z.to_nat index := v]> es
             else es ++ replicate (Z.to_nat index - length es) VUndef ++ [v])
    /\ field_edited s s' sel field r
    /\ store s' !! a = Some (Obj (Some es) pa).
Proof.
  intros Hi.
  assert (Hput : put_elem (Z.to_nat index) v es
                 = if index <? Z.of_nat (length es) then <[Z.to_nat index := v]> es
                   else es ++ replicate (Z.to_nat index - length es) VUndef ++ [v]).
  { unfold put_elem.
    destruct (Z.ltb_spec index (Z.of_nat (length es)));
      destruct (Nat.ltb_spec (Z.to_nat index) (length es)); try reflexivity; lia. }
  eexists. split.
  - change (updateArrayItem field index v)
      with (edit_copy field (fun h c => h_set h c (key_of_number index) v)).
    apply (edit_copy_result s L r a sel field recs es pm pa m Hitems Hcoll Hsel Hrange
             Hrec Hcell Hfield Hlist _ (put_elem (Z.to_nat index) v)).
    intros h l xs p Hl. unfold h_set. rewrite Hl, index_of_key_number by exact Hi.
    reflexivity.
  - destruct (edit_copy_state s L r a sel field recs pm m Hitems Hcoll Hrange Hrec Hcell
                Hfield (put_elem (Z.to_nat index) v es)) as [Hnew Hed].
    rewrite <- Hput.
    split; [exact Hnew|]. split; [exact Hed|]. apply old_list_kept, Hed.
Qed.
(** The field holds the new list, which is a cell the store did not
    have. *)
Lemma edit_copy_field (new : list value) :
  let s' := set_store (<[r := Obj None (replace_prop field (VRef (length (store s))) m)]>
                         (store s ++ [Obj (Some new) []])) s in
  field_of s' sel field = Ok (VRef (length (store s)))
  /\ store s' !! length (store s) = Some (Obj (Some new) []).
Proof.
  assert (Hr : (r < length (store s))%nat) by (eapply lookup_lt_Some, Hcell).
  assert (HLr : L <> r) by (intros ->; rewrite Hcoll in Hcell; discriminate).
  cbn zeta. split.
  - unfold field_of. cbn [store items set_store]. rewrite Hitems.
    rewrite (h_get_element _ L recs pm) by
      (try exact Hrange; rewrite list_lookup_insert_ne by exact (not_eq_sym HLr);
       apply lookup_snoc_old, Hcoll).
    rewrite Hrec. cbn [default from_option id obind].
    eapply h_get_own; [|eapply lookup_replace_eq, Hfield].
    apply list_lookup_insert_eq. rewrite length_app. simpl. lia.
  - cbn [store set_store]. rewrite list_lookup_insert_ne by lia.
    apply lookup_snoc_new.
Qed.

Lemma splice1_negative (index : Z) (xs : list value) :
  index < 0 ->
  splice1 index xs
  = take (Z.to_nat (Z.max (Z.of_nat (length xs) + index) 0)) xs
    ++ drop (S (Z.to_nat (Z.max (Z.of_nat (length xs) + index) 0))) xs.
Proof.
  intros Hi. unfold splice1.
  destruct (Z.ltb_spec index 0) as [_|]; [|lia].
  destruct xs as [|x xs]; [rewrite !take_nil, !drop_nil; reflexivity|].
  rewrite Z.min_l by (cbn [length]; lia). do 2 f_equal. lia.
Qed.

(** C5, as amended.  At an index at or beyond the end of the list,
    [removeArrayItem] leaves the elements of the list as they were, in
    the same order, and throws nothing: [splice] finds nothing to remove
    there.  The field gets a copy of the list, a new array with the same
    elements, and nothing else changes: not the array the field had, no
    other field, no other cell, not the collection nor the selection.
    That is the only index out of bounds that does nothing: at a
    negative index [removeArrayItem] removes an element (the one at that
    distance from the end, or the first when the index is below minus
    the length), and [updateArrayItem] at an index at or beyond the end
    makes the list longer, the new element last and empty positions
    before it. *)
Theorem list_edits_out_of_bounds (index : Z) (v : value) :
  (Z.of_nat (length es) <= index ->
   exists s',
     removeArrayItem field index s = (Ok tt, s')
     /\ list_of s' sel field = Ok es
     /\ field_of s' sel field = Ok (VRef (length (store s)))
     /\ store s' !! length (store s) = Some (Obj (Some es) [])
     /\ field_edited s s' sel field r
     /\ store s' !! a = Some (Obj (Some es) pa))
  /\ (index < 0 ->
      exists s',
        removeArrayItem field index s = (Ok tt, s')
        /\ list_of s' sel field
           = Ok (take (Z.to_nat (Z.max (Z.of_nat (length es) + index) 0)) es
                 ++ drop (S (Z.to_nat (Z.max (Z.of_nat (length es) + index) 0))) es)
        /\ field_edited s s' sel field r
        /\ store s' !! a = Some (Obj (Some es) pa))
  /\ (Z.of_nat (length es) <= index < 4294967295 ->
      exists s',
        updateArrayItem field index v s = (Ok tt, s')
        /\ list_of s' sel field
           = Ok (es ++ replicate (Z.to_nat index - length es) VUndef ++ [v])
        /\ field_edited s s' sel field r
        /\ store s' !! a = Some (Obj (Some es) pa)).
Proof.
  assert (Hremove : forall i,
    removeArrayItem field i s
    = (Ok tt,
       set_store (<[r := Obj None (replace_prop field (VRef (length (store s))) m)]>
                    (store s ++ [Obj (Some (splice1 i es)) []])) s)).
  { intros i.
    change (removeArrayItem field i)
      with (edit_copy field (fun h c => h_splice h c i)).
    apply (edit_copy_result s L r a sel field recs es pm pa m Hitems Hcoll Hsel Hrange
             Hrec Hcell Hfield Hlist _ (splice1 i)).
    intros h l xs p Hl. unfold h_splice. rewrite Hl. reflexivity. }
  split; [|split].
  - intros Hi. eexists. split; [apply Hremove|].
    rewrite splice1_beyond by exact Hi.
    destruct (edit_copy_state s L r a sel field recs pm m Hitems Hcoll Hrange Hrec Hcell
                Hfield es) as [Hnew Hed].
    destruct (edit_copy_field es) as [Hf Hc].
    split; [exact Hnew|]. split; [exact Hf|]. split; [exact Hc|].
    split; [exact Hed|]. apply old_list_kept, Hed.
  - intros Hi. eexists. split; [apply Hremove|].
    destruct (edit_copy_state s L r a sel field recs pm m Hitems Hcoll Hrange Hrec Hcell
                Hfield (splice1 index es)) as [Hnew Hed].
    rewrite <- (splice1_negative index es Hi).
    split; [exact Hnew|]. split; [exact Hed|]. apply old_list_kept, Hed.
  - intros Hi. eexists. split.
    + change (updateArrayItem field index v)
        with (edit_copy field (fun h c => h_set h c (key_of_number index) v)).
      apply (edit_copy_result s L r a sel field recs es pm pa m Hitems Hcoll Hsel Hrange
               Hrec Hcell Hfield Hlist _ (put_elem (Z.to_nat index) v)).
      intros h l xs p Hl. unfold h_set. rewrite Hl, index_of_key_number by lia.
      reflexivity.
    + destruct (edit_copy_state s L r a sel field recs pm m Hitems Hcoll Hrange Hrec Hcell
                  Hfield (put_elem (Z.to_nat index) v es)) as [Hnew Hed].
      assert (Hput : put_elem (Z.to_nat index) v es
                     = es ++ replicate (Z.to_nat index - length es) VUndef ++ [v]).
      { unfold put_elem.
        destruct (Nat.ltb_spec (Z.to_nat index) (length es)); [lia|reflexivity]. }
      rewrite <- Hput.
      split; [exact Hnew|]. split; [exact Hed|]. apply old_list_kept, Hed.
Qed.
End ListFunctions.

(** * Edits without a record to edit *)

Lemma selected_record_beyond (s : state) (L : loc) (recs : list value)
    (pm : list (string * value)) (sel : Z) :
  items s = VRef L ->
  store s !! L = Some (Obj (Some recs) pm) ->
  Z.of_nat (length recs) <= sel < 4294967295 ->
  selected_record sel s = (Ok VUndef, s).
Proof.
  intros Hitems Hcoll Hsel. unfold selected_record, bind, read, on_store.
  rewrite Hitems, (h_get_element _ L recs pm) by (try exact Hcoll; lia).
  rewrite lookup_ge_None_2 by lia. reflexivity.
Qed.

(** X16.  An edit needs a record.  Without a selection every edit
    function returns at once and changes nothing.  With the selection at
    an index beyond the end of the collection, as a load can leave it,
    every edit function throws a TypeError on [items[selectedItem]] and
    changes nothing. *)
Theorem edits_without_a_record (s : state) :
  (selectedItem s = None ->
   forall field v index si bi text,
     updateField field v s = (Ok tt, s)
     /\ addArrayItem field v s = (Ok tt, s)
     /\ removeArrayItem field index s = (Ok tt, s)
     /\ updateArrayItem field index v s = (Ok tt, s)
     /\ updateBulletPoint si bi text s = (Ok tt, s)
     /\ addBulletPoint si s = (Ok tt, s)
     /\ removeBulletPoint si bi s = (Ok tt, s))
  /\ (forall L recs pm sel,
        items s = VRef L ->
        store s !! L = Some (Obj (Some recs) pm) ->
        selectedItem s = Some sel ->
        Z.of_nat (length recs) <= sel < 4294967295 ->
        forall field v index si bi text,
          updateField field v s = (Err TypeError, s)
          /\ addArrayItem field v s = (Err TypeError, s)
          /\ removeArrayItem field index s = (Err TypeError, s)
          /\ updateArrayItem field index v s = (Err TypeError, s)
          /\ updateBulletPoint si bi text s = (Err TypeError, s)
          /\ addBulletPoint si s = (Err TypeError, s)
          /\ removeBulletPoint si bi s = (Err TypeError, s)).
Proof.
  split.
  - intros Hsel field v index si bi text.
    unfold updateField, addArrayItem, removeArrayItem, updateArrayItem,
      updateBulletPoint, addBulletPoint, removeBulletPoint, bind, read.
    rewrite Hsel. repeat split.
  - intros L recs pm sel Hitems Hcoll Hsel Hrange field v index si bi text.
    pose proof (selected_record_beyond s L recs pm sel Hitems Hcoll Hrange) as Hrec.
    repeat split;
      unfold updateField, addArrayItem, removeArrayItem, updateArrayItem,
        updateBulletPoint, addBulletPoint, removeBulletPoint, bind at 1, read;
      rewrite Hsel; unfold bind at 1; rewrite Hrec; reflexivity.
Qed.

Lemma edits_without_a_record_sample :
  selectedItem after_reload = Some 2
  /\ records after_reload = Ok [VRef 13%nat]
  /\ forall field v index si bi text,
       updateField field v after_reload = (Err TypeError, after_reload)
       /\ addArrayItem field v after_reload = (Err TypeError, after_reload)
       /\ removeArrayItem field index after_reload = (Err TypeError, after_reload)
       /\ updateArrayItem field index v after_reload = (Err TypeError, after_reload)
       /\ updateBulletPoint si bi text after_reload = (Err TypeError, after_reload)
       /\ addBulletPoint si after_reload = (Err TypeError, after_reload)
       /\ removeBulletPoint si bi after_reload = (Err TypeError, after_reload).
Proof.
  split; [vm_compute; reflexivity|]. split; [vm_compute; reflexivity|].
  apply (proj2 (edits_without_a_record after_reload) 14%nat [VRef 13%nat] [] 2).
  - vm_compute. reflexivity.
  - vm_compute. reflexivity.
  - vm_compute. reflexivity.
  - simpl. lia.
Defined.

(** * Toasts: the timer and the close button *)

Lemma key_of_number_inj (i j : Z) :
  0 <= i -> 0 <= j -> key_of_number i = key_of_number j -> i = j.
Proof.
  intros Hi Hj. unfold key_of_number, print_Z.
  destruct (Z.ltb_spec i 0) as [?|_]; [lia|]. destruct (Z.ltb_spec j 0) as [?|_]; [lia|].
  intros Hk. apply (f_equal parse_uint) in Hk.
  rewrite !parse_uint_print_uint in Hk by exact I.
  inversion Hk as [Hu]. apply (f_equal N.of_uint) in Hu.
  rewrite !DecimalN.Unsigned.of_to in Hu. lia.
Qed.

(** The toasts left when the timers [due] have run. *)
Lemma toasts_after_timers (due : list (Z * string)) :
  forall b,
    ToastBoard.toasts
      (fold_left (fun b' tm => ToastBoard.removeToast (snd tm) b') due b)
    = List.filter
        (fun t => forallb (fun tm => negb (String.eqb (ToastBoard.id t) (snd tm))) due)
        (ToastBoard.toasts b).
Proof.
  induction due as [|tm due IH]; intros b; simpl.
  - induction (ToastBoard.toasts b) as [|t l IHl]; simpl; [reflexivity|].
    rewrite <- IHl. reflexivity.
  - rewrite IH. simpl. clear IH.
    induction (ToastBoard.toasts b) as [|t l IHl]; simpl; [reflexivity|].
    destruct (negb (ToastBoard.id t =? snd tm)%string); simpl; rewrite IHl; reflexivity.
Qed.

Lemma toasts_elapse (now : Z) (b : ToastBoard.board) :
  ToastBoard.toasts (ToastBoard.elapse now b)
  = List.filter
      (fun t => forallb (fun tm => negb (String.eqb (ToastBoard.id t) (snd tm)))
                        (List.filter (fun tm => fst tm <=? now) (ToastBoard.timers b)))
      (ToastBoard.toasts b).
Proof. unfold ToastBoard.elapse. rewrite toasts_after_timers. reflexivity. Qed.

Lemma filter_all {A} (f : A -> bool) (l : list A) :
  Forall (fun x => f x = true) l -> List.filter f l = l.
Proof.
  induction 1 as [|x l Hx _ IH]; simpl; [reflexivity|]. rewrite Hx, IH. reflexivity.
Qed.

Lemma filter_same {A} (f g : A -> bool) (l : list A) :
  Forall (fun x => f x = g x) l -> List.filter f l = List.filter g l.
Proof.
  induction 1 as [|x l Hx _ IH]; simpl; [reflexivity|]. rewrite Hx, IH. reflexivity.
Qed.

Lemma no_timer_for (i : string) (tms : list (Z * string)) :
  Forall (fun tm => snd tm <> i) tms ->
  forallb (fun tm => negb (String.eqb i (snd tm))) tms = true.
Proof.
  induction 1 as [|tm tms Hx _ IH]; simpl; [reflexivity|].
  rewrite IH, andb_true_r. apply negb_true_iff, String.eqb_neq. congruence.
Qed.

(** X17.  A toast and its timer.  A toast shown with a positive duration
    stays on the screen until the duration has passed and is gone from
    then on; one shown with a duration that is not positive stays until
    it is closed.  The other toasts come and go as they would without
    it.  (No other toast or timer has the toast's [id], that is, none was
    shown in the same millisecond.) *)
Theorem toast_is_dismissed_when_due (now : Z) (msg : string) (ty : toast_type)
    (d : Z) (b : ToastBoard.board) :
  ToastBoard.fresh (key_of_number now) b ->
  forall t,
    ToastBoard.toasts (ToastBoard.elapse t (ToastBoard.showToast now msg ty d b))
    = if (0 <? d) && (now + d <=? t) then ToastBoard.toasts (ToastBoard.elapse t b)
      else ToastBoard.toasts (ToastBoard.elapse t b)
           ++ [ToastBoard.mkToast (key_of_number now) msg ty d].
Proof.
  intros [Hshown Htimers] t. rewrite !toasts_elapse.
  unfold ToastBoard.showToast. cbn [ToastBoard.toasts ToastBoard.timers].
  rewrite List.filter_app.
  assert (Hdue : Forall (fun tm => snd tm <> key_of_number now)
                   (List.filter (fun tm => fst tm <=? t) (ToastBoard.timers b))).
  { apply List.Forall_forall. intros tm Htm. apply List.filter_In in Htm as [Htm _].
    rewrite List.Forall_forall in Htimers. apply Htimers, Htm. }
  destruct (0 <? d) eqn:Hd; cbn [andb].
  - rewrite List.filter_app. cbn [List.filter fst].
    destruct (now + d <=? t) eqn:Ht.
    + rewrite forallb_app. cbn [forallb snd ToastBoard.id List.filter].
      rewrite String.eqb_refl. cbn [negb]. rewrite !andb_false_r, app_nil_r.
      apply filter_same. eapply List.Forall_impl; [|exact Hshown].
      cbn beta. intros x Hx. rewrite forallb_app. cbn [forallb snd].
      apply String.eqb_neq in Hx. rewrite Hx. cbn [negb]. rewrite !andb_true_r.
      reflexivity.
    + rewrite app_nil_r. cbn [List.filter ToastBoard.id].
      rewrite (no_timer_for _ _ Hdue). reflexivity.
  - cbn [List.filter ToastBoard.id]. rewrite (no_timer_for _ _ Hdue). reflexivity.
Qed.

(** X18.  Two toasts shown in the same millisecond have the same [id]
    and go together: the close button of either removes both, and when
    the timer of the first is due the second is removed with it, before
    its own, longer duration has passed. *)
Theorem toasts_of_one_millisecond_go_together (now : Z) (m1 m2 : string)
    (ty1 ty2 : toast_type) (d1 d2 : Z) (b : ToastBoard.board) :
  ToastBoard.fresh (key_of_number now) b ->
  ToastBoard.toasts
    (ToastBoard.removeToast (key_of_number now)
       (ToastBoard.showToast now m2 ty2 d2 (ToastBoard.showToast now m1 ty1 d1 b)))
  = ToastBoard.toasts b
  /\ (0 < d1 ->
      forall t, now + d1 <= t ->
        ToastBoard.toasts
          (ToastBoard.elapse t
             (ToastBoard.showToast now m2 ty2 d2 (ToastBoard.showToast now m1 ty1 d1 b)))
        = ToastBoard.toasts (ToastBoard.elapse t b)).
Proof.
  intros [Hshown Htimers]. split.
  - unfold ToastBoard.removeToast, ToastBoard.showToast.
    cbn [ToastBoard.toasts ToastBoard.timers ToastBoard.id].
    rewrite !List.filter_app. cbn [List.filter ToastBoard.id].
    rewrite String.eqb_refl. cbn [negb]. rewrite !app_nil_r.
    apply filter_all. eapply List.Forall_impl; [|exact Hshown].
    cbn beta. intros x Hx. apply negb_true_iff, String.eqb_neq, Hx.
  - intros Hd1 t Ht. rewrite !toasts_elapse.
    unfold ToastBoard.showToast. cbn [ToastBoard.toasts ToastBoard.timers].
    destruct (Z.ltb_spec 0 d1) as [_|?]; [|lia].
    set (i := key_of_number now).
    assert (Hdue : exists rest,
               List.filter (fun tm => fst tm <=? t)
                 (if 0 <? d2 then (ToastBoard.timers b ++ [(now + d1, i)]) ++ [(now + d2, i)]
                  else ToastBoard.timers b ++ [(now + d1, i)])
               = List.filter (fun tm => fst tm <=? t) (ToastBoard.timers b)
                 ++ (now + d1, i) :: rest
               /\ Forall (fun tm => snd tm = i) rest).
    { destruct (0 <? d2); rewrite !List.filter_app; cbn [List.filter fst];
        (destruct (Z.leb_spec (now + d1) t) as [_|?]; [|lia]).
      - destruct (now + d2 <=? t); rewrite <- app_assoc; eexists; split;
          try reflexivity; repeat constructor.
      - eexists; split; [reflexivity|constructor]. }
    destruct Hdue as (rest & -> & Hrest).
    rewrite !List.filter_app. cbn [List.filter ToastBoard.id].
    rewrite !forallb_app. cbn [forallb snd]. fold i.
    rewrite String.eqb_refl. cbn [negb andb]. rewrite !andb_false_r, !app_nil_r.
    apply filter_same. eapply List.Forall_impl; [|exact Hshown].
    cbn beta. intros x Hx. rewrite forallb_app. cbn [forallb snd].
    apply String.eqb_neq in Hx. fold i in Hx. rewrite Hx. cbn [negb andb].
    replace (forallb (fun tm => negb (ToastBoard.id x =? snd tm)%string) rest) with true.
    + rewrite andb_true_r. reflexivity.
    + symmetry. clear -Hrest Hx. induction Hrest as [|tm rest Htm _ IH]; [reflexivity|].
      simpl. rewrite Htm, Hx, IH. reflexivity.
Qed.

(** X19.  Toasts shown at different clock readings have different
    [id]s, and the close button of one leaves the other: whichever of
    two such toasts is closed, the other is still on the screen. *)
Theorem closing_a_toast_leaves_the_others (n1 n2 : Z) (m1 m2 : string)
    (ty1 ty2 : toast_type) (d1 d2 : Z) (b : ToastBoard.board) :
  0 <= n1 -> 0 <= n2 -> n1 <> n2 ->
  ToastBoard.fresh (key_of_number n1) b ->
  ToastBoard.fresh (key_of_number n2) b ->
  ToastBoard.toasts
    (ToastBoard.removeToast (key_of_number n1)
       (ToastBoard.showToast n2 m2 ty2 d2 (ToastBoard.showToast n1 m1 ty1 d1 b)))
  = ToastBoard.toasts b ++ [ToastBoard.mkToast (key_of_number n2) m2 ty2 d2]
  /\ ToastBoard.toasts
       (ToastBoard.removeToast (key_of_number n2)
          (ToastBoard.showToast n2 m2 ty2 d2 (ToastBoard.showToast n1 m1 ty1 d1 b)))
     = ToastBoard.toasts b ++ [ToastBoard.mkToast (key_of_number n1) m1 ty1 d1].
Proof.
  intros H1 H2 Hne [Hs1 _] [Hs2 _].
  assert (Hk : key_of_number n1 <> key_of_number n2)
    by (intros E; apply Hne, key_of_number_inj; assumption).
  unfold ToastBoard.removeToast, ToastBoard.showToast.
  cbn [ToastBoard.toasts ToastBoard.timers ToastBoard.id].
  rewrite !List.filter_app. cbn [List.filter ToastBoard.id].
  rewrite !String.eqb_refl. cbn [negb].
  rewrite (proj2 (String.eqb_neq _ _) Hk), (proj2 (String.eqb_neq _ _) (not_eq_sym Hk)).
  cbn [negb]. rewrite !app_nil_r. split; f_equal; apply filter_all.
  - eapply List.Forall_impl; [|exact Hs1].
    cbn beta. intros x Hx. apply negb_true_iff, String.eqb_neq, Hx.
  - eapply List.Forall_impl; [|exact Hs2].
    cbn beta. intros x Hx. apply negb_true_iff, String.eqb_neq, Hx.
Qed.

(** * The file name in the header *)

Lemma split_not_nil (sep : ascii) (s : string) : split sep s <> [].
Proof.
  destruct s as [|c s]; simpl; [discriminate|].
  destruct (Ascii.eqb c sep); [discriminate|].
  destruct (split sep s); discriminate.
Qed.

Lemma split_whole (sep : ascii) (s : string) :
  occurs sep s = false -> split sep s = [s].
Proof.
  induction s as [|c s IH]; simpl; [reflexivity|].
  intros H. apply orb_false_iff in H as [Hc Hs]. rewrite Hc, (IH Hs). reflexivity.
Qed.

Lemma last_cons_cons {A} (x : A) (l : list A) (d : A) :
  l <> [] -> List.last (x :: l) d = List.last l d.
Proof. destruct l; [contradiction|reflexivity]. Qed.

Lemma split_after (sep : ascii) (x y : string) :
  exists seg segs,
    split sep (x ++ String sep y)%string = seg :: segs
    /\ segs <> []
    /\ List.last segs EmptyString = last_segment sep y.
Proof.
  induction x as [|c x (seg & segs & IH & Hne & Hlast)]; simpl.
  - rewrite Ascii.eqb_refl. eexists _, _. split; [reflexivity|].
    split; [apply split_not_nil|reflexivity].
  - rewrite IH. destruct (Ascii.eqb c sep).
    + eexists _, _. split; [reflexivity|]. split; [discriminate|].
      rewrite last_cons_cons by exact Hne. exact Hlast.
    + eexists _, _. split; [reflexivity|]. split; [exact Hne|exact Hlast].
Qed.

Lemma last_segment_after (sep : ascii) (x y : string) :
  last_segment sep (x ++ String sep y)%string = last_segment sep y.
Proof.
  destruct (split_after sep x y) as (seg & segs & H & Hne & Hlast).
  unfold last_segment at 1. rewrite H, last_cons_cons by exact Hne. exact Hlast.
Qed.

Lemma last_segment_whole (sep : ascii) (s : string) :
  occurs sep s = false -> last_segment sep s = s.
Proof. intros H. unfold last_segment. rewrite split_whole by exact H. reflexivity. Qed.

(** A last piece is empty only for the empty string and for a string
    that ends with the separator. *)
Lemma last_segment_empty (sep : ascii) (s : string) :
  last_segment sep s = EmptyString ->
  s = EmptyString \/ exists x : string, s = (x ++ String sep EmptyString)%string.
Proof.
  induction s as [|c s IH]; [auto|]. right.
  unfold last_segment in *. simpl in *.
  destruct (Ascii.eqb_spec c sep) as [->|Hc].
  - destruct s as [|c' s'].
    + exists EmptyString. reflexivity.
    + rewrite last_cons_cons in H by apply split_not_nil.
      destruct (IH H) as [?|[x ->]]; [discriminate|].
      exists (String sep x). reflexivity.
  - destruct (split sep s) as [|seg segs] eqn:E; [discriminate|].
    destruct segs as [|seg' segs'].
    + simpl in H. discriminate.
    + rewrite last_cons_cons in H by discriminate.
      rewrite last_cons_cons in IH by discriminate.
      destruct (IH H) as [->|[x ->]]; [discriminate E|].
      exists (String c x). reflexivity.
Qed.

Lemma ends_with_one (a b : ascii) (x y : string) :
  (x ++ String a EmptyString)%string = (y ++ String b EmptyString)%string -> a = b.
Proof.
  revert y. induction x as [|c x IH]; intros [|d y] H; simpl in H; inversion H; auto.
  - destruct y; discriminate.
  - destruct x; discriminate.
  - eapply IH; eauto.
Qed.

(** X20.  The header shows the part of the current path after its last
    [/]; a path without [/] is shown whole, backslashes included, since
    the pieces between backslashes are only looked at when the path ends
    with [/].  What is shown is never empty. *)
Theorem header_shows_the_file_name :
  (forall dir name, occurs "/" name = false -> name <> EmptyString ->
     file_label (dir ++ String "/" name)%string = name)
  /\ (forall p, occurs "/" p = false -> file_label p = p)
  /\ (forall q, file_label (q ++ String "/" EmptyString)%string
                = last_segment "\" (q ++ String "/" EmptyString)%string)
  /\ (forall cur l, header_label cur = Some l -> l <> EmptyString).
Proof.
  split; [|split; [|split]].
  - intros dir name Hname Hne. unfold file_label.
    rewrite last_segment_after, last_segment_whole by exact Hname.
    destruct (String.eqb_spec name ""); [contradiction|reflexivity].
  - intros p Hp. unfold file_label. rewrite last_segment_whole by exact Hp.
    destruct (String.eqb_spec p "") as [->|]; reflexivity.
  - intros q. unfold file_label. rewrite last_segment_after. reflexivity.
  - intros [p|] l; simpl; [|discriminate].
    destruct (String.eqb_spec p "") as [|Hp]; [discriminate|].
    intros H; inversion H; subst l; clear H. unfold file_label.
    destruct (String.eqb_spec (last_segment "/" p) "") as [Ha|Ha]; [|exact Ha].
    intros Hb.
    apply last_segment_empty in Ha as [?|[x Hx]]; [contradiction|].
    apply last_segment_empty in Hb as [?|[y Hy]]; [contradiction|].
    rewrite Hx in Hy. apply ends_with_one in Hy. discriminate.
Qed.

(** * More of the sample sessions, evaluated *)

Ltac run :=
  first [vm_compute; reflexivity | vm_compute; discriminate | vm_compute; lia].

Lemma saveAsJsonData_writes_sample :
  exists s',
    saveAsJsonData sample_save_as = (Ok tt, s')
    /\ currentFilePath s' = Some "/data/copy.json"
    /\ toasts s' = toasts sample_save_as ++ [save_succeeded]
    /\ saves s' = []
    /\ ("/data/copy.json" <> configPath sample_save_as ->
        lookup_prop "/data/copy.json" (files s')
        = Some (JSON_stringify (JArr sample_records)))
    /\ (mem (configPath sample_save_as) (readonly sample_save_as) = false ->
        lookup_prop (configPath sample_save_as) (files s')
        = Some (JSON_stringify (JObj [("lastUsedPath", JStr "/data/copy.json")])))
    /\ (mem (configPath sample_save_as) (readonly sample_save_as) = true ->
        files s' = write_file "/data/copy.json" (JSON_stringify (JArr sample_records))
                     (files sample_save_as))
    /\ (forall q, q <> "/data/copy.json" -> q <> configPath sample_save_as ->
        lookup_prop q (files s') = lookup_prop q (files sample_save_as)).
Proof.
  apply (saveAsJsonData_writes sample_save_as (JArr sample_records) "/data/copy.json" []);
    evaluate.
Defined.

Lemma saveAsJsonData_cancelled_sample :
  saveAsJsonData sample = (Ok tt, set_saves (tl (saves sample)) sample).
Proof.
  apply (saveAsJsonData_cancelled sample (JArr sample_records)).
  - vm_compute. reflexivity.
  - left. vm_compute. reflexivity.
Defined.

Lemma failed_save_changes_nothing_sample :
  (currentFilePath locked_sample = Some "/data/games.json" ->
   saveToCurrentPath locked_sample
   = (Ok tt, set_toasts (toasts locked_sample ++ [save_failed]) locked_sample)
   /\ saveJsonData locked_sample
      = (Ok tt, set_toasts (toasts locked_sample ++ [save_failed]) locked_sample))
  /\ (forall rest, saves locked_sample = Some "/data/games.json" :: rest ->
      saveAsJsonData locked_sample
      = (Ok tt, set_toasts (toasts locked_sample ++ [save_failed])
                  (set_saves rest locked_sample))).
Proof.
  apply (failed_save_changes_nothing locked_sample (JArr sample_records)
           "/data/games.json"); evaluate.
Defined.

Lemma load_source_sample :
  resolve_source sample = (Ok (Some (sample_document, "/data/games.json")), sample)
  /\ resolve_source sample_host
     = (Ok (Some (sample_document, "/data/games.json")), set_picks [] sample_host).
Proof.
  split.
  - apply (proj1 (load_source sample (JObj [("lastUsedPath", JStr "/data/games.json")])
                   (Some (JStr "/data/games.json"))
                   ltac:(vm_compute; reflexivity) ltac:(reflexivity)));
      evaluate.
  - apply (proj2 (load_source sample_host (JObj []) None
                   ltac:(vm_compute; reflexivity) ltac:(reflexivity))
             (or_introl eq_refl) "/data/games.json" []); evaluate.
Defined.

Lemma chosen_path_is_remembered_sample :
  currentFilePath sample = Some "/data/games.json"
  /\ lookup_prop (configPath sample) (files sample)
     = Some (JSON_stringify (JObj [("lastUsedPath", JStr "/data/games.json")]))
  /\ lookup_prop "/data/games.json" (files sample) = Some sample_document
  /\ resolve_source sample = (Ok (Some (sample_document, "/data/games.json")), sample).
Proof.
  apply (chosen_path_is_remembered ascii_collate sample_host
           (snd (resolve_source sample_host)) sample sample_document
           "/data/games.json" (Ok tt)); run.
Defined.

Lemma reload_gives_same_collection_sample :
  exists s2,
    loadJsonData ascii_collate sample = (Ok tt, s2)
    /\ snapshot s2 = snapshot sample
    /\ toasts s2 = toasts sample ++ [load_succeeded]
    /\ currentFilePath s2 = currentFilePath sample
    /\ picks s2 = picks sample.
Proof.
  apply (reload_gives_same_collection ascii_collate sample_host sample (Ok tt));
    run.
Defined.

Lemma save_as_then_load_sample :
  loaded ascii_collate (JArr sample_records) = Ok (JArr sample_records)
  /\ exists s1,
       saveAsJsonData sample_save_as = (Ok tt, s1)
       /\ resolve_source s1
          = (Ok (Some (JSON_stringify (JArr sample_records), "/data/copy.json")), s1)
       /\ JSON_parse (JSON_stringify (JArr sample_records)) = Ok (JArr sample_records)
       /\ exists s2,
            loadJsonData ascii_collate s1 = (Ok tt, s2)
            /\ snapshot s2 = Ok (Some (JArr sample_records))
            /\ toasts s2 = toasts sample_save_as ++ [save_succeeded; load_succeeded].
Proof.
  assert (HT : loaded ascii_collate (JArr sample_records) = Ok (JArr sample_records))
    by (vm_compute; reflexivity).
  split; [exact HT|].
  generalize (save_as_then_load ascii_collate sample_save_as (JArr sample_records)
                "/data/copy.json" []
                ltac:(vm_compute; reflexivity) ltac:(vm_compute; reflexivity)
                ltac:(reflexivity) ltac:(discriminate) ltac:(reflexivity)
                ltac:(reflexivity) ltac:(discriminate)).
  rewrite HT. exact (fun H => H).
Defined.

Lemma ascii_collate_irrefl (a : string) : ascii_collate a a <> Lt.
Proof.
  pose proof (ascii_collate_antisym a a) as H.
  destruct (ascii_collate a a); simpl in H; discriminate.
Qed.

(** The two records named [b] keep the order of the document, after the
    record named [a]. *)
Lemma load_keeps_order_of_equal_names_sample :
  snapshot twins
  = Ok (Some (JArr [JObj [("Name", JStr "a"); ("DevOnly", JBool false)];
                    JObj [("Name", JStr "b"); ("Id", JNum 1); ("DevOnly", JBool false)];
                    JObj [("Name", JStr "b"); ("Id", JNum 2); ("DevOnly", JBool false)]]))
  /\ exists t p s1 recs bs T,
       resolve_source twins_host = (Ok (Some (t, p)), s1)
       /\ JSON_parse t = Ok (JArr recs)
       /\ Forall2 devonly_defaulted (map normalize recs) bs
       /\ snapshot twins = Ok (Some (JArr T))
       /\ forall k, List.filter (named k) T = List.filter (named k) bs.
Proof.
  split; [vm_compute; reflexivity|].
  apply (load_keeps_order_of_equal_names ascii_collate twins_host twins (Ok tt)
           ascii_collate_irrefl); vm_compute; reflexivity.
Defined.

Lemma addArrayItem_appends_sample :
  exists s',
    addArrayItem "FeaturesNotEmulated" (VStr "") sample_selected = (Ok tt, s')
    /\ list_of s' 1 "FeaturesNotEmulated" = Ok ([VStr "p"; VStr "q"] ++ [VStr ""])
    /\ field_edited sample_selected s' 1 "FeaturesNotEmulated" 9%nat
    /\ store s' !! 6%nat = Some (Obj (Some [VStr "p"; VStr "q"]) []).
Proof.
  apply (addArrayItem_appends sample_selected 12%nat 9%nat 6%nat 1 "FeaturesNotEmulated"
           [VRef 10%nat; VRef 9%nat; VRef 11%nat] [VStr "p"; VStr "q"]
           [] [] (props_at sample_selected 9)); evaluate.
Defined.

Lemma removeArrayItem_removes_sample :
  exists s',
    removeArrayItem "FeaturesNotEmulated" (-1) sample_selected = (Ok tt, s')
    /\ list_of s' 1 "FeaturesNotEmulated" = Ok [VStr "p"]
    /\ field_edited sample_selected s' 1 "FeaturesNotEmulated" 9%nat
    /\ store s' !! 6%nat = Some (Obj (Some [VStr "p"; VStr "q"]) []).
Proof.
  apply (removeArrayItem_removes sample_selected 12%nat 9%nat 6%nat 1
           "FeaturesNotEmulated"
           [VRef 10%nat; VRef 9%nat; VRef 11%nat] [VStr "p"; VStr "q"]
           [] [] (props_at sample_selected 9)); try evaluate.
  simpl. lia.
Defined.

Lemma updateArrayItem_replaces_sample :
  exists s',
    updateArrayItem "FeaturesNotEmulated" 0 (VStr "z") sample_selected = (Ok tt, s')
    /\ list_of s' 1 "FeaturesNotEmulated" = Ok [VStr "z"; VStr "q"]
    /\ field_edited sample_selected s' 1 "FeaturesNotEmulated" 9%nat
    /\ store s' !! 6%nat = Some (Obj (Some [VStr "p"; VStr "q"]) []).
Proof.
  apply (updateArrayItem_replaces sample_selected 12%nat 9%nat 6%nat 1
           "FeaturesNotEmulated"
           [VRef 10%nat; VRef 9%nat; VRef 11%nat] [VStr "p"; VStr "q"]
           [] [] (props_at sample_selected 9)); evaluate.
Defined.

Lemma toast_is_dismissed_when_due_sample :
  ToastBoard.toasts
    (ToastBoard.elapse 6999
       (ToastBoard.showToast 1000 "Data saved successfully" success 6000 no_toasts))
  = [ToastBoard.mkToast (key_of_number 1000) "Data saved successfully" success 6000]
  /\ ToastBoard.toasts
       (ToastBoard.elapse 7000
          (ToastBoard.showToast 1000 "Data saved successfully" success 6000 no_toasts))
     = [].
Proof.
  assert (H : ToastBoard.fresh (key_of_number 1000) no_toasts) by (split; constructor).
  exact (conj
           (toast_is_dismissed_when_due 1000 "Data saved successfully" success 6000
              no_toasts H 6999)
           (toast_is_dismissed_when_due 1000 "Data saved successfully" success 6000
              no_toasts H 7000)).
Defined.

Lemma toasts_of_one_millisecond_go_together_sample :
  ToastBoard.toasts
    (ToastBoard.removeToast (key_of_number 1000)
       (ToastBoard.showToast 1000 "two" error 9000
          (ToastBoard.showToast 1000 "one" success 6000 no_toasts)))
  = ToastBoard.toasts no_toasts
  /\ (0 < 6000 ->
      forall t, 1000 + 6000 <= t ->
        ToastBoard.toasts
          (ToastBoard.elapse t
             (ToastBoard.showToast 1000 "two" error 9000
                (ToastBoard.showToast 1000 "one" success 6000 no_toasts)))
        = ToastBoard.toasts (ToastBoard.elapse t no_toasts)).
Proof.
  apply (toasts_of_one_millisecond_go_together 1000 "one" "two" success error 6000 9000
           no_toasts).
  split; constructor.
Defined.

Lemma closing_a_toast_leaves_the_others_sample :
  ToastBoard.toasts
    (ToastBoard.removeToast (key_of_number 1000)
       (ToastBoard.showToast 1001 "two" error 6000
          (ToastBoard.showToast 1000 "one" success 6000 no_toasts)))
  = ToastBoard.toasts no_toasts ++ [ToastBoard.mkToast (key_of_number 1001) "two" error 6000]
  /\ ToastBoard.toasts
       (ToastBoard.removeToast (key_of_number 1001)
          (ToastBoard.showToast 1001 "two" error 6000
             (ToastBoard.showToast 1000 "one" success 6000 no_toasts)))
     = ToastBoard.toasts no_toasts
       ++ [ToastBoard.mkToast (key_of_number 1000) "one" success 6000].
Proof.
  apply (closing_a_toast_leaves_the_others 1000 1001 "one" "two" success error 6000 6000
           no_toasts); try lia; split; constructor.
Defined.

(** * The saved document after an edit *)

Lemma distinct_NoDup (l : list nat) : distinct l = true <-> NoDup l.
Proof.
  induction l as [|x l IH]; simpl.
  - split; [constructor|reflexivity].
  - rewrite andb_true_iff, negb_true_iff, IH, NoDup_cons.
    assert (H : existsb (Nat.eqb x) l = false <-> x ∉ l).
    { rewrite <- not_true_iff_false, existsb_exists. split.
      - intros H Hin. apply H. exists x. split; [apply list_elem_of_In, Hin|].
        apply Nat.eqb_refl.
      - intros H (y & Hy & E). apply Nat.eqb_eq in E. subst.
        apply H, list_elem_of_In, Hy. }
    rewrite H. reflexivity.
Qed.

Lemma reach_flat (n : nat) (h : heap) (v : value) :
  (forall l, v <> VRef l) -> reach n h v = [].
Proof. destruct n, v; intros H; try reflexivity; exfalso; eapply H; reflexivity. Qed.

Lemma serialize_flat (n : nat) (h : heap) (v : value) :
  (forall l, v <> VRef l) -> serialize n h v = Ok (prim_doc v).
Proof. destruct n, v; intros H; try reflexivity; exfalso; eapply H; reflexivity. Qed.

Lemma serialize_prim (n : nat) (h : heap) (v : value) (j : json) :
  prim_doc v = Some j -> serialize n h v = Ok (Some j) /\ reach n h v = [].
Proof. destruct n, v; simpl; intros H; try discriminate; inversion H; auto. Qed.

Lemma serialize_None (n : nat) (h : heap) (v : value) :
  serialize n h v = Ok None -> v = VUndef.
Proof.
  destruct n, v; simpl; try discriminate; try reflexivity.
  destruct (h !! l) as [[[es|] m]|]; try discriminate.
  - destruct (omap _ es); discriminate.
  - destruct (omap _ m); discriminate.
Qed.

Lemma flat_map_ext_elem {A B} (f g : A -> list B) (l : list A) :
  (forall x, x ∈ l -> f x = g x) -> flat_map f l = flat_map g l.
Proof.
  induction l as [|a l IH]; simpl; intros H; [reflexivity|].
  rewrite (H a), IH; [reflexivity| |]; [|constructor].
  intros x Hx. apply H. constructor. exact Hx.
Qed.

Lemma elem_of_flat_map {A B} (f : A -> list B) (l : list A) (y : B) :
  y ∈ flat_map f l <-> exists x, x ∈ l /\ y ∈ f x.
Proof.
  rewrite list_elem_of_In, in_flat_map. split; intros (x & Hx & Hy); exists x.
  - split; apply list_elem_of_In; assumption.
  - split; apply list_elem_of_In; assumption.
Qed.

(** [JSON.stringify] looks only at the cells it visits. *)
Lemma serialize_frame (n : nat) :
  forall h h' v x m,
    serialize n h v = Ok x ->
    (forall l, l ∈ reach n h v -> h' !! l = h !! l) ->
    (n <= m)%nat ->
    serialize m h' v = Ok x /\ reach m h' v = reach n h v.
Proof.
  induction n as [|n IH]; intros h h' v x m Hser Hsame Hnm.
  - destruct v; try (destruct m; simpl in *; (split; [exact Hser|reflexivity])).
    simpl in Hser. discriminate.
  - destruct v; try (destruct m; simpl in *; (split; [exact Hser|reflexivity])).
    destruct m as [|m]; [lia|]. simpl in *.
    rewrite (Hsame l) by constructor.
    destruct (h !! l) as [[[es|] ps]|]; [| |discriminate].
    + destruct (omap _ es) as [js|] eqn:Hjs; [|discriminate].
      assert (Hall : forall e, e ∈ es ->
                 (do r <- serialize m h' e; Ok (default JNull r))
                 = (do r <- serialize n h e; Ok (default JNull r))
                 /\ reach m h' e = reach n h e).
      { intros e He. apply omap_inv in Hjs.
        apply list_elem_of_lookup in He as [i Hi].
        destruct (Forall2_lookup_l _ _ _ _ _ Hjs Hi) as (j & _ & Hj).
        destruct (serialize n h e) as [r|] eqn:Hr; [|discriminate].
        destruct (IH h h' e r m Hr) as [H1 H2]; [|lia|].
        - intros c Hc. apply Hsame. right. apply elem_of_flat_map.
          exists e. split; [|exact Hc]. eapply list_elem_of_lookup_2, Hi.
        - rewrite H1. auto. }
      split.
      * assert (Hg : omap (fun e => do r <- serialize m h' e; Ok (default JNull r)) es
                     = Ok js).
        { eapply omap_ok_ext; [|exact Hjs]. intros e y He Hy. cbn beta.
          rewrite (proj1 (Hall e (proj2 (list_elem_of_In _ _) He))). exact Hy. }
        rewrite Hg. exact Hser.
      * f_equal. apply flat_map_ext_elem. intros e He. apply Hall, He.
    + destruct (omap _ ps) as [ms|] eqn:Hms; [|discriminate].
      assert (Hall : forall kv, kv ∈ ps ->
                 (do r <- serialize m h' (snd kv); Ok (fst kv, r))
                 = (do r <- serialize n h (snd kv); Ok (fst kv, r))
                 /\ reach m h' (snd kv) = reach n h (snd kv)).
      { intros kv He. apply omap_inv in Hms.
        apply list_elem_of_lookup in He as [i Hi].
        destruct (Forall2_lookup_l _ _ _ _ _ Hms Hi) as (j & _ & Hj).
        destruct (serialize n h (snd kv)) as [r|] eqn:Hr; [|discriminate].
        destruct (IH h h' (snd kv) r m Hr) as [H1 H2]; [|lia|].
        - intros c Hc. apply Hsame. right.
          apply (elem_of_flat_map (fun kv => reach n h (snd kv))).
          exists kv. split; [|exact Hc]. eapply list_elem_of_lookup_2, Hi.
        - rewrite H1. auto. }
      split.
      * assert (Hg : omap (fun kv => do r <- serialize m h' (snd kv); Ok (fst kv, r)) ps
                     = Ok ms).
        { eapply omap_ok_ext; [|exact Hms]. intros e y He Hy. cbn beta.
          rewrite (proj1 (Hall e (proj2 (list_elem_of_In _ _) He))). exact Hy. }
        rewrite Hg. exact Hser.
      * f_equal. apply flat_map_ext_elem. intros e He. apply Hall, He.
Qed.

Lemma reach_valid (n : nat) :
  forall h v x c, serialize n h v = Ok x -> c ∈ reach n h v -> (c < length h)%nat.
Proof.
  induction n as [|n IH]; intros h v x c Hser Hc;
    destruct v; simpl in *; try (inversion Hc; fail).
  destruct (h !! l) as [o|] eqn:Hl; [|discriminate].
  apply elem_of_cons in Hc as [->|Hc]; [eapply lookup_lt_Some, Hl|].
  destruct o as [[es|] ps].
  - destruct (omap _ es) as [js|] eqn:Hjs; [|discriminate].
    apply omap_inv in Hjs. apply elem_of_flat_map in Hc as (e & He & Hc).
    apply list_elem_of_lookup in He as [i Hi].
    destruct (Forall2_lookup_l _ _ _ _ _ Hjs Hi) as (j & _ & Hj).
    destruct (serialize n h e) as [r|] eqn:Hr; [|discriminate].
    eapply IH; eassumption.
  - destruct (omap _ ps) as [ms|] eqn:Hms; [|discriminate].
    apply omap_inv in Hms.
    apply (elem_of_flat_map (fun kv => reach n h (snd kv))) in Hc as (e & He & Hc).
    apply list_elem_of_lookup in He as [i Hi].
    destruct (Forall2_lookup_l _ _ _ _ _ Hms Hi) as (j & _ & Hj).
    destruct (serialize n h (snd e)) as [r|] eqn:Hr; [|discriminate].
    eapply IH; eassumption.
Qed.

(** ** Arrays and objects, from the store to the document and back *)

Lemma elems_docs (n : nat) (h : heap) (es : list value) (js : list json) :
  omap (fun e => do r <- serialize n h e; Ok (default JNull r)) es = Ok js ->
  Forall2 (elem_doc n h) es js.
Proof.
  intros H. apply omap_inv in H. eapply Forall2_impl; [exact H|].
  intros e j Hj. cbn beta in Hj.
  destruct (serialize n h e) as [r|] eqn:E; [|discriminate].
  inversion Hj. exists r. auto.
Qed.

Lemma docs_elems (n : nat) (h : heap) (es : list value) (js : list json) :
  Forall2 (elem_doc n h) es js ->
  omap (fun e => do r <- serialize n h e; Ok (default JNull r)) es = Ok js.
Proof.
  intros H. apply omap_Forall2. eapply Forall2_impl; [exact H|].
  intros e j (r & Hr & ->). cbn beta. rewrite Hr. reflexivity.
Qed.

Lemma members_docs (n : nat) (h : heap) (ps : list (string * value)) :
  forall ms,
    omap (fun kv => do r <- serialize n h (snd kv); Ok (fst kv, r)) ps = Ok ms ->
    forallb (fun kv => negb (is_undef (snd kv))) ps = true ->
    Forall2 (related (member_doc n h)) ps (keep_defined ms).
Proof.
  induction ps as [|[k v] ps IH]; simpl; intros ms H Hd.
  - inversion H. constructor.
  - destruct (serialize n h v) as [r|] eqn:E; [|discriminate]. simpl in H.
    destruct (omap _ ps) as [ms'|] eqn:E'; [|discriminate].
    inversion H; subst. apply andb_true_iff in Hd as [Hv Hd].
    destruct r as [j|].
    + simpl. constructor; [split; [reflexivity|exact E]|apply IH; auto].
    + apply serialize_None in E. subst. discriminate.
Qed.

Lemma docs_members (n : nat) (h : heap) (ps : list (string * value))
    (M : list (string * json)) :
  Forall2 (related (member_doc n h)) ps M ->
  omap (fun kv => do r <- serialize n h (snd kv); Ok (fst kv, r)) ps
  = Ok (map (fun kj => (fst kj, Some (snd kj))) M).
Proof.
  induction 1 as [|[k v] [k' j] ps M [Hk Hv] _ IH]; simpl in *; [reflexivity|].
  unfold member_doc in Hv. rewrite Hv. simpl. rewrite IH. simpl. subst. reflexivity.
Qed.

Lemma defined_props_lookup (h : heap) (l : loc) (o : object) :
  defined_props h = true -> h !! l = Some o ->
  forallb (fun kv => negb (is_undef (snd kv))) (props o) = true.
Proof.
  intros H Hl. unfold defined_props in H. rewrite forallb_forall in H.
  apply (H o). apply list_elem_of_In. eapply list_elem_of_lookup_2, Hl.
Qed.

Lemma serialize_JArr_inv (n : nat) (h : heap) (v : value) (js : list json) :
  serialize n h v = Ok (Some (JArr js)) ->
  exists n' l es p,
    n = S n' /\ v = VRef l /\ h !! l = Some (Obj (Some es) p)
    /\ Forall2 (elem_doc n' h) es js.
Proof.
  destruct n, v; simpl; try discriminate.
  destruct (h !! l) as [[[es|] ps]|] eqn:Hl; try discriminate.
  - destruct (omap _ es) as [js'|] eqn:Hjs; [|discriminate].
    intros H; inversion H; subst. exists n, l, es, ps.
    repeat split; [exact Hl|]. apply elems_docs, Hjs.
  - destruct (omap _ ps); discriminate.
Qed.

Lemma serialize_JObj_inv (n : nat) (h : heap) (v : value) (M : list (string * json)) :
  defined_props h = true ->
  serialize n h v = Ok (Some (JObj M)) ->
  exists n' l ps,
    n = S n' /\ v = VRef l /\ h !! l = Some (Obj None ps)
    /\ Forall2 (related (member_doc n' h)) ps M.
Proof.
  intros Hd. destruct n, v; simpl; try discriminate.
  destruct (h !! l) as [[[es|] ps]|] eqn:Hl; try discriminate.
  - destruct (omap _ es); discriminate.
  - destruct (omap _ ps) as [ms|] eqn:Hms; [|discriminate].
    intros H; inversion H; subst. exists n, l, ps.
    repeat split; [exact Hl|]. apply members_docs; [exact Hms|].
    apply (defined_props_lookup h l _ Hd Hl).
Qed.

Lemma serialize_array_intro (n : nat) (h : heap) (l : loc) (es : list value)
    (p : list (string * value)) (js : list json) :
  h !! l = Some (Obj (Some es) p) ->
  Forall2 (elem_doc n h) es js ->
  serialize (S n) h (VRef l) = Ok (Some (JArr js)).
Proof. intros Hl H. simpl. rewrite Hl, (docs_elems _ _ _ _ H). reflexivity. Qed.

Lemma serialize_object_intro (n : nat) (h : heap) (l : loc)
    (ps : list (string * value)) (M : list (string * json)) :
  h !! l = Some (Obj None ps) ->
  Forall2 (related (member_doc n h)) ps M ->
  serialize (S n) h (VRef l) = Ok (Some (JObj M)).
Proof.
  intros Hl H. simpl. rewrite Hl, (docs_members _ _ _ _ H). simpl.
  rewrite keep_defined_some. reflexivity.
Qed.

(** The element of an array that is written as an object or an array. *)
Lemma elem_doc_inv (n : nat) (h : heap) (es : list value) (js : list json)
    (i : nat) (j : json) :
  Forall2 (elem_doc n h) es js -> js !! i = Some j -> j <> JNull ->
  exists e, es !! i = Some e /\ serialize n h e = Ok (Some j).
Proof.
  intros H Hi Hj. destruct (Forall2_lookup_r _ _ _ _ _ H Hi) as (e & He & r & Hr & E).
  exists e. split; [exact He|]. destruct r as [j'|]; simpl in E; subst; [exact Hr|].
  contradiction.
Qed.

Lemma member_doc_inv (n : nat) (h : heap) (ps : list (string * value))
    (M : list (string * json)) (k : string) (j : json) :
  Forall2 (related (member_doc n h)) ps M -> lookup_prop k M = Some j ->
  exists v, lookup_prop k ps = Some v /\ serialize n h v = Ok (Some j).
Proof.
  intros H Hk. pose proof (related_lookup (member_doc n h) k ps M H) as HR.
  rewrite Hk in HR. destruct (lookup_prop k ps) as [v|]; [|contradiction].
  exists v. split; [reflexivity|exact HR].
Qed.

(** A replaced member is the entry at some index. *)
Lemma replace_prop_at {A B} (R : A -> B -> Prop) (k : string)
    (ps : list (string * A)) (M : list (string * B)) :
  Forall2 (related R) ps M ->
  forall v, lookup_prop k ps = Some v ->
    exists i,
      ps !! i = Some (k, v)
      /\ (forall v', replace_prop k v' ps = <[i := (k, v')]> ps)
      /\ (forall j', replace_prop k j' M = <[i := (k, j')]> M).
Proof.
  induction 1 as [|[k1 a] [k2 b] ps M [Hk Hab] _ IH]; simpl in *; [discriminate|].
  subst k2. intros v Hv. destruct (String.eqb_spec k k1) as [->|Hne].
  - inversion Hv; subst. exists 0%nat. repeat split.
  - destruct (IH v Hv) as (i & Hi & H1 & H2). exists (S i). repeat split.
    + exact Hi.
    + intros v'. simpl. rewrite H1. reflexivity.
    + intros j'. simpl. rewrite H2. reflexivity.
Qed.

(** ** The parts of an array or an object when one part changes *)

Section Children.

Context {A B : Type}.
Variable val : A -> value.
Variable R : nat -> heap -> A -> B -> Prop.
Variables (h h' : heap) (n m : nat).

Hypothesis Rframe : forall x y, R n h x y ->
  (forall c, c ∈ reach n h (val x) -> h' !! c = h !! c) ->
  R m h' x y /\ reach m h' (val x) = reach n h (val x).
Hypothesis Rvalid : forall x y c,
  R n h x y -> c ∈ reach n h (val x) -> (c < length h)%nat.

Lemma children_same (xs : list A) (ys : list B) :
  Forall2 (R n h) xs ys ->
  (forall c, c ∈ flat_map (fun x => reach n h (val x)) xs -> h' !! c = h !! c) ->
  Forall2 (R m h') xs ys
  /\ flat_map (fun x => reach m h' (val x)) xs
     = flat_map (fun x => reach n h (val x)) xs.
Proof.
  induction 1 as [|x y xs ys Hxy _ IH]; simpl; intros Hsame;
    [split; [constructor|reflexivity]|].
  destruct (Rframe x y Hxy) as [H1 H2].
  { intros c Hc. apply Hsame, elem_of_app. left. exact Hc. }
  destruct IH as [H3 H4].
  { intros c Hc. apply Hsame, elem_of_app. right. exact Hc. }
  split; [constructor; assumption|]. rewrite H2, H4. reflexivity.
Qed.

Lemma children_valid (xs : list A) (ys : list B) (c : loc) :
  Forall2 (R n h) xs ys ->
  c ∈ flat_map (fun x => reach n h (val x)) xs -> (c < length h)%nat.
Proof.
  induction 1 as [|x y xs ys Hxy _ IH]; simpl; intros Hc; [inversion Hc|].
  apply elem_of_app in Hc as [Hc|Hc]; eauto.
Qed.

Lemma children_change (xs : list A) (ys : list B) :
  Forall2 (R n h) xs ys ->
  NoDup (flat_map (fun x => reach n h (val x)) xs) ->
  forall i xold x' y',
    xs !! i = Some xold ->
    (forall c, c ∈ flat_map (fun x => reach n h (val x)) xs ->
               c ∉ reach n h (val xold) -> h' !! c = h !! c) ->
    R m h' x' y' ->
    NoDup (reach m h' (val x')) ->
    (forall c, c ∈ reach m h' (val x') ->
               c ∈ reach n h (val xold) \/ (length h <= c)%nat) ->
    Forall2 (R m h') (<[i := x']> xs) (<[i := y']> ys)
    /\ NoDup (flat_map (fun x => reach m h' (val x)) (<[i := x']> xs))
    /\ forall c, c ∈ flat_map (fun x => reach m h' (val x)) (<[i := x']> xs) ->
         c ∈ flat_map (fun x => reach n h (val x)) xs \/ c ∈ reach m h' (val x').
Proof.
  induction 1 as [|x y xs ys Hxy Hrest IH];
    intros Hnd i xold x' y' Hi Hsame Hx' Hnd' Hincl; [discriminate|].
  simpl in Hnd. apply NoDup_app in Hnd as (Hnd1 & Hdisj & Hnd2).
  destruct i as [|i]; simpl in Hi |- *.
  - inversion Hi; subst xold.
    destruct (children_same xs ys Hrest) as [H3 H4].
    { intros c Hc. apply Hsame.
      - simpl. apply elem_of_app. right. exact Hc.
      - intros Hin. eapply Hdisj; eassumption. }
    split; [constructor; assumption|]. rewrite H4. split.
    + apply NoDup_app. split; [exact Hnd'|]. split; [|exact Hnd2].
      intros c Hc Hc2. destruct (Hincl c Hc) as [Ho|Hf].
      * eapply Hdisj; eassumption.
      * pose proof (children_valid xs ys c Hrest Hc2). lia.
    + intros c Hc. apply elem_of_app in Hc as [Hc|Hc].
      * right. exact Hc.
      * left. apply elem_of_app. right. exact Hc.
  - destruct (Rframe x y Hxy) as [H1 H2].
    { intros c Hc. apply Hsame.
      - simpl. apply elem_of_app. left. exact Hc.
      - intros Hin. eapply Hdisj; [exact Hc|]. apply elem_of_flat_map.
        exists xold. split; [eapply list_elem_of_lookup_2, Hi|exact Hin]. }
    destruct (IH Hnd2 i xold x' y' Hi) as (H3 & H4 & H5); try assumption.
    { intros c Hc Hn. apply Hsame; [|exact Hn]. simpl. apply elem_of_app.
      right. exact Hc. }
    split; [constructor; assumption|]. rewrite H2. split.
    + apply NoDup_app. split; [exact Hnd1|]. split; [|exact H4].
      intros c Hc Hc2. destruct (H5 c Hc2) as [Ho|Hn].
      * eapply Hdisj; eassumption.
      * destruct (Hincl c Hn) as [Ho|Hf].
        -- eapply Hdisj; [exact Hc|]. apply elem_of_flat_map.
           exists xold. split; [eapply list_elem_of_lookup_2, Hi|exact Ho].
        -- pose proof (Rvalid x y c Hxy Hc). lia.
    + intros c Hc. apply elem_of_app in Hc as [Hc|Hc].
      * left. apply elem_of_app. left. exact Hc.
      * destruct (H5 c Hc); [left; apply elem_of_app; right|right]; assumption.
Qed.

End Children.

Lemma elem_doc_frame (h h' : heap) (n m : nat) (x : value) (y : json) :
  (n <= m)%nat ->
  elem_doc n h x y ->
  (forall c, c ∈ reach n h x -> h' !! c = h !! c) ->
  elem_doc m h' x y /\ reach m h' x = reach n h x.
Proof.
  intros Hnm (r & Hr & ->) Hsame.
  destruct (serialize_frame n h h' x r m Hr Hsame Hnm) as [H1 H2].
  split; [exists r; auto|exact H2].
Qed.

Lemma elem_doc_valid (h : heap) (n : nat) (x : value) (y : json) (c : loc) :
  elem_doc n h x y -> c ∈ reach n h x -> (c < length h)%nat.
Proof. intros (r & Hr & _). eapply reach_valid, Hr. Qed.

Lemma member_doc_frame (h h' : heap) (n m : nat) (x : string * value)
    (y : string * json) :
  (n <= m)%nat ->
  related (member_doc n h) x y ->
  (forall c, c ∈ reach n h (snd x) -> h' !! c = h !! c) ->
  related (member_doc m h') x y /\ reach m h' (snd x) = reach n h (snd x).
Proof.
  intros Hnm [Hk Hr] Hsame.
  destruct (serialize_frame n h h' (snd x) _ m Hr Hsame Hnm) as [H1 H2].
  split; [split; assumption|exact H2].
Qed.

Lemma member_doc_valid (h : heap) (n : nat) (x : string * value) (y : string * json)
    (c : loc) :
  related (member_doc n h) x y -> c ∈ reach n h (snd x) -> (c < length h)%nat.
Proof. intros [_ Hr]. eapply reach_valid, Hr. Qed.

(** ** One level of the tree *)

Lemma renewed_array (h h' : heap) (n m : nat) (N : list loc) (l l' : loc)
    (es es' : list value) (p p' : list (string * value)) (js' : list json) :
  h !! l = Some (Obj (Some es) p) ->
  h' !! l' = Some (Obj (Some es') p') ->
  l' = l \/ l' ∈ N ->
  Forall2 (elem_doc m h') es' js' ->
  NoDup (flat_map (fun e => reach m h' e) es') ->
  l' ∉ flat_map (fun e => reach m h' e) es' ->
  (forall c, c ∈ flat_map (fun e => reach m h' e) es' ->
             c ∈ flat_map (fun e => reach n h e) es \/ c ∈ N) ->
  renewed h (S n) (VRef l) h' (S m) (VRef l') (JArr js') N.
Proof.
  intros Hl Hl' Hwhere Hdocs Hnd Hout Hincl. unfold renewed. split; [|split].
  - eapply serialize_array_intro; eassumption.
  - simpl. rewrite Hl'. apply NoDup_cons. split; assumption.
  - simpl. rewrite Hl, Hl'. intros c Hc. apply elem_of_cons in Hc as [->|Hc].
    + destruct Hwhere as [->|Hf]; [left; constructor|right; exact Hf].
    + destruct (Hincl c Hc) as [Ho|Hf]; [left; right; exact Ho|right; exact Hf].
Qed.

Lemma renewed_object (h h' : heap) (n m : nat) (N : list loc) (l l' : loc)
    (ps ps' : list (string * value)) (M' : list (string * json)) :
  h !! l = Some (Obj None ps) ->
  h' !! l' = Some (Obj None ps') ->
  l' = l \/ l' ∈ N ->
  Forall2 (related (member_doc m h')) ps' M' ->
  NoDup (flat_map (fun kv => reach m h' (snd kv)) ps') ->
  l' ∉ flat_map (fun kv => reach m h' (snd kv)) ps' ->
  (forall c, c ∈ flat_map (fun kv => reach m h' (snd kv)) ps' ->
             c ∈ flat_map (fun kv => reach n h (snd kv)) ps \/ c ∈ N) ->
  renewed h (S n) (VRef l) h' (S m) (VRef l') (JObj M') N.
Proof.
  intros Hl Hl' Hwhere Hdocs Hnd Hout Hincl. unfold renewed. split; [|split].
  - eapply serialize_object_intro; eassumption.
  - simpl. rewrite Hl'. apply NoDup_cons. split; assumption.
  - simpl. rewrite Hl, Hl'. intros c Hc. apply elem_of_cons in Hc as [->|Hc].
    + destruct Hwhere as [->|Hf]; [left; constructor|right; exact Hf].
    + destruct (Hincl c Hc) as [Ho|Hf]; [left; right; exact Ho|right; exact Hf].
Qed.

(** An object one of whose members has changed. *)
Lemma member_renewed (h h' : heap) (n m : nat) (N : list loc) (l : loc)
    (ps : list (string * value)) (M : list (string * json))
    (k : string) (vold v' : value) (j' : json) :
  (n <= m)%nat ->
  (forall c, c ∈ N -> (length h <= c)%nat) ->
  h !! l = Some (Obj None ps) ->
  Forall2 (related (member_doc n h)) ps M ->
  NoDup (l :: flat_map (fun kv => reach n h (snd kv)) ps) ->
  lookup_prop k ps = Some vold ->
  h' !! l = Some (Obj None (replace_prop k v' ps)) ->
  (forall c, c ∈ flat_map (fun kv => reach n h (snd kv)) ps ->
             c ∉ reach n h vold -> h' !! c = h !! c) ->
  renewed h n vold h' m v' j' N ->
  renewed h (S n) (VRef l) h' (S m) (VRef l) (JObj (replace_prop k j' M)) N.
Proof.
  intros Hnm HN Hl Hdocs Hnd Hk Hl' Hsame (Hser & Hnd' & Hincl).
  apply NoDup_cons in Hnd as [Hout Hnd].
  destruct (replace_prop_at _ k ps M Hdocs vold Hk) as (i & Hi & E1 & E2).
  rewrite E1 in Hl'. rewrite E2.
  destruct (children_change snd (fun n h => related (member_doc n h)) h h' n m
              (fun x y => member_doc_frame h h' n m x y Hnm)
              (member_doc_valid h n) ps M Hdocs Hnd i (k, vold) (k, v') (k, j') Hi)
    as (H1 & H2 & H3); try assumption.
  { split; [reflexivity|exact Hser]. }
  { intros c Hc. destruct (Hincl c Hc) as [Ho|Hf]; [left; exact Ho|right; auto]. }
  assert (Hold : forall c, c ∈ reach n h vold ->
                   c ∈ flat_map (fun kv => reach n h (snd kv)) ps).
  { intros c Hc. apply elem_of_flat_map. exists (k, vold).
    split; [eapply list_elem_of_lookup_2, Hi|exact Hc]. }
  eapply renewed_object; try eassumption; [left; reflexivity| |].
  - intros Hin. destruct (H3 l Hin) as [Ho|Hn]; [contradiction|].
    destruct (Hincl l Hn) as [Ho|Hf]; [apply Hout, Hold, Ho|].
    apply HN in Hf. apply lookup_lt_Some in Hl. lia.
  - intros c Hc. destruct (H3 c Hc) as [Ho|Hn]; [left; exact Ho|].
    destruct (Hincl c Hn) as [Ho|Hf]; [left; apply Hold, Ho|right; exact Hf].
Qed.

(** An array one of whose elements has changed; the array may be a new
    one, with the same elements otherwise. *)
Lemma element_renewed (h h' : heap) (n m : nat) (N N' : list loc) (l l' : loc)
    (es : list value) (p p' : list (string * value)) (js : list json)
    (i : nat) (eold e' : value) (j' : json) :
  (n <= m)%nat ->
  (forall c, c ∈ N' -> (length h <= c)%nat) ->
  (forall c, c ∈ N -> c ∈ N') ->
  h !! l = Some (Obj (Some es) p) ->
  Forall2 (elem_doc n h) es js ->
  NoDup (l :: flat_map (fun e => reach n h e) es) ->
  es !! i = Some eold ->
  h' !! l' = Some (Obj (Some (<[i := e']> es)) p') ->
  l' = l \/ (l' ∈ N' /\ l' ∉ N) ->
  (forall c, c ∈ flat_map (fun e => reach n h e) es ->
             c ∉ reach n h eold -> h' !! c = h !! c) ->
  renewed h n eold h' m e' j' N ->
  renewed h (S n) (VRef l) h' (S m) (VRef l') (JArr (<[i := j']> js)) N'.
Proof.
  intros Hnm HN' Hsub Hl Hdocs Hnd Hi Hl' Hwhere Hsame (Hser & Hnd' & Hincl).
  apply NoDup_cons in Hnd as [Hout Hnd].
  destruct (children_change (fun e => e) elem_doc h h' n m
              (fun x y => elem_doc_frame h h' n m x y Hnm)
              (elem_doc_valid h n) es js Hdocs Hnd i eold e' j' Hi)
    as (H1 & H2 & H3); try assumption.
  { exists (Some j'). split; [exact Hser|reflexivity]. }
  { intros c Hc. destruct (Hincl c Hc) as [Ho|Hf]; [left; exact Ho|right; auto]. }
  assert (Hold : forall c, c ∈ reach n h eold ->
                   c ∈ flat_map (fun e => reach n h e) es).
  { intros c Hc. apply elem_of_flat_map. exists eold.
    split; [eapply list_elem_of_lookup_2, Hi|exact Hc]. }
  assert (Hvalid : forall c, c ∈ flat_map (fun e => reach n h e) es ->
                     (c < length h)%nat).
  { intros c Hc. eapply (children_valid (fun e => e) elem_doc h n (elem_doc_valid h n));
      eassumption. }
  eapply renewed_array; try eassumption.
  - destruct Hwhere as [->|[Hf _]]; [left; reflexivity|right; exact Hf].
  - intros Hin. destruct (H3 l' Hin) as [Ho|Hn].
    + destruct Hwhere as [->|[Hf _]]; [contradiction|]. apply Hvalid in Ho.
      apply HN' in Hf. lia.
    + destruct (Hincl l' Hn) as [Ho|Hf].
      * destruct Hwhere as [->|[Hf _]]; [apply Hout, Hold, Ho|].
        apply Hold, Hvalid in Ho. apply HN' in Hf. lia.
      * destruct Hwhere as [->|[_ Hf']]; [|contradiction].
        apply Hsub, HN' in Hf. apply lookup_lt_Some in Hl. lia.
  - intros c Hc. destruct (H3 c Hc) as [Ho|Hn]; [left; exact Ho|].
    destruct (Hincl c Hn) as [Ho|Hf]; [left; apply Hold, Ho|right; auto].
Qed.

(** An array some of whose elements are replaced by values that are no
    objects; the array may be a new one. *)
Lemma array_rebuilt (h h' : heap) (n m : nat) (N : list loc) (l l' : loc)
    (es pre gone post mid : list value) (p p' : list (string * value))
    (js : list json) :
  es = pre ++ gone ++ post ->
  (n <= m)%nat ->
  (forall c, c ∈ N -> (length h <= c)%nat) ->
  h !! l = Some (Obj (Some es) p) ->
  Forall2 (elem_doc n h) es js ->
  NoDup (l :: flat_map (fun e => reach n h e) es) ->
  h' !! l' = Some (Obj (Some (pre ++ mid ++ post)) p') ->
  l' = l \/ l' ∈ N ->
  (forall c, c ∈ flat_map (fun e => reach n h e) es -> h' !! c = h !! c) ->
  Forall (fun v => forall c, v <> VRef c) mid ->
  renewed h (S n) (VRef l) h' (S m) (VRef l')
    (JArr (take (length pre) js ++ map (fun v => default JNull (prim_doc v)) mid
           ++ drop (length pre + length gone) js)) N.
Proof.
  intros -> Hnm HN Hl Hdocs Hnd Hl' Hwhere Hsame Hmid.
  apply NoDup_cons in Hnd as [Hout Hnd].
  destruct (children_same (fun e => e) elem_doc h h' n m
              (fun x y => elem_doc_frame h h' n m x y Hnm) _ _ Hdocs Hsame)
    as [H1 H2].
  apply Forall2_app_inv_l in H1 as (j1 & j23 & H1 & H23 & ->).
  apply Forall2_app_inv_l in H23 as (j2 & j3 & Hg & H3 & ->).
  pose proof (Forall2_length _ _ _ H1) as E1.
  pose proof (Forall2_length _ _ _ Hg) as E2.
  rewrite E1, take_app_length.
  replace (length j1 + length gone)%nat with (length (j1 ++ j2))
    by (rewrite length_app; lia).
  rewrite (app_assoc j1 j2 j3), drop_app_length.
  assert (Hflat : flat_map (fun e => reach m h' e) mid = []).
  { clear - Hmid. induction Hmid as [|v mid Hv _ IH]; simpl; [reflexivity|].
    rewrite (reach_flat _ _ _ Hv), IH. reflexivity. }
  assert (Hsub : forall c, c ∈ flat_map (fun e => reach m h' e) (pre ++ mid ++ post) ->
                   c ∈ flat_map (fun e => reach n h e) (pre ++ gone ++ post)).
  { intros c. rewrite <- H2, !flat_map_app, Hflat, !elem_of_app. simpl.
    intros [Hc|[Hc|Hc]]; auto. inversion Hc. }
  eapply renewed_array; try eassumption.
  - apply Forall2_app; [exact H1|]. apply Forall2_app; [|exact H3].
    clear - Hmid. induction Hmid as [|v mid Hv _ IH]; simpl; constructor; [|exact IH].
    exists (prim_doc v). split; [apply serialize_flat, Hv|reflexivity].
  - rewrite <- H2 in Hnd. rewrite !flat_map_app in Hnd |- *. rewrite Hflat. simpl.
    apply NoDup_app in Hnd as (Ha & Hd & Hb').
    apply NoDup_app in Hb' as (_ & _ & Hb').
    apply NoDup_app. split; [exact Ha|]. split; [|exact Hb'].
    intros c Hc Hc2. eapply Hd; [exact Hc|]. apply elem_of_app. right. exact Hc2.
  - intros Hin. apply Hsub in Hin. destruct Hwhere as [->|Hf]; [contradiction|].
    pose proof (children_valid (fun e => e) elem_doc h n (elem_doc_valid h n)
                  _ _ l' Hdocs Hin). apply HN in Hf. lia.
  - intros c Hc. left. apply Hsub, Hc.
Qed.

(** ** Down the tree, from the document *)

Lemma NoDup_flat_map_elem {A B} (f : A -> list B) (l : list A) (x : A) :
  NoDup (flat_map f l) -> x ∈ l -> NoDup (f x).
Proof.
  induction l as [|a l IH]; simpl; intros Hnd Hx; [inversion Hx|].
  apply NoDup_app in Hnd as (Ha & _ & Hl).
  apply elem_of_cons in Hx as [->|Hx]; auto.
Qed.

Lemma array_view (n : nat) (h : heap) (v : value) (js : list json) :
  serialize n h v = Ok (Some (JArr js)) ->
  NoDup (reach n h v) ->
  exists n' l es p,
    n = S n' /\ v = VRef l /\ h !! l = Some (Obj (Some es) p)
    /\ Forall2 (elem_doc n' h) es js
    /\ NoDup (l :: flat_map (fun e => reach n' h e) es).
Proof.
  intros Hser Hnd.
  destruct (serialize_JArr_inv _ _ _ _ Hser) as (n' & l & es & p & -> & -> & Hl & Hdocs).
  exists n', l, es, p. repeat split; try assumption.
  simpl in Hnd. rewrite Hl in Hnd. exact Hnd.
Qed.

Lemma object_view (n : nat) (h : heap) (v : value) (M : list (string * json)) :
  defined_props h = true ->
  serialize n h v = Ok (Some (JObj M)) ->
  NoDup (reach n h v) ->
  exists n' l ps,
    n = S n' /\ v = VRef l /\ h !! l = Some (Obj None ps)
    /\ Forall2 (related (member_doc n' h)) ps M
    /\ NoDup (l :: flat_map (fun kv => reach n' h (snd kv)) ps).
Proof.
  intros Hd Hser Hnd.
  destruct (serialize_JObj_inv _ _ _ _ Hd Hser) as (n' & l & ps & -> & -> & Hl & Hdocs).
  exists n', l, ps. repeat split; try assumption.
  simpl in Hnd. rewrite Hl in Hnd. exact Hnd.
Qed.

Lemma elem_view (n : nat) (h : heap) (es : list value) (js : list json)
    (i : nat) (j : json) :
  Forall2 (elem_doc n h) es js ->
  NoDup (flat_map (fun e => reach n h e) es) ->
  js !! i = Some j -> j <> JNull ->
  exists e, es !! i = Some e /\ serialize n h e = Ok (Some j) /\ NoDup (reach n h e).
Proof.
  intros Hdocs Hnd Hi Hj.
  destruct (elem_doc_inv _ _ _ _ _ _ Hdocs Hi Hj) as (e & He & Hser).
  exists e. repeat split; try assumption.
  eapply (NoDup_flat_map_elem (fun e => reach n h e)); [exact Hnd|].
  eapply list_elem_of_lookup_2, He.
Qed.

Lemma lookup_prop_elem {A} (k : string) (ps : list (string * A)) (v : A) :
  lookup_prop k ps = Some v -> (k, v) ∈ ps.
Proof.
  induction ps as [|[k' v'] ps IH]; simpl; [discriminate|].
  destruct (String.eqb_spec k k') as [->|Hne]; intros H.
  - inversion H. constructor.
  - right. auto.
Qed.

Lemma member_view (n : nat) (h : heap) (ps : list (string * value))
    (M : list (string * json)) (k : string) (j : json) :
  Forall2 (related (member_doc n h)) ps M ->
  NoDup (flat_map (fun kv => reach n h (snd kv)) ps) ->
  lookup_prop k M = Some j ->
  exists v, lookup_prop k ps = Some v /\ serialize n h v = Ok (Some j)
            /\ NoDup (reach n h v).
Proof.
  intros Hdocs Hnd Hk.
  destruct (member_doc_inv _ _ _ _ _ _ Hdocs Hk) as (v & Hv & Hser).
  exists v. repeat split; try assumption.
  apply (NoDup_flat_map_elem (fun kv => reach n h (snd kv)) ps (k, v) Hnd).
  apply lookup_prop_elem, Hv.
Qed.

Lemma collection_view (s : state) (T : list json) :
  tidy s = true ->
  snapshot s = Ok (Some (JArr T)) ->
  exists n L recs pm,
    length (store s) = S n /\ items s = VRef L
    /\ store s !! L = Some (Obj (Some recs) pm)
    /\ Forall2 (elem_doc n (store s)) recs T
    /\ NoDup (L :: flat_map (fun e => reach n (store s) e) recs)
    /\ defined_props (store s) = true.
Proof.
  unfold tidy, unshared, snapshot. intros Ht Hsnap.
  apply andb_true_iff in Ht as [Hu Hd]. apply distinct_NoDup in Hu.
  destruct (array_view _ _ _ _ Hsnap Hu) as (n & L & recs & pm & E & Hi & Hl & Hdocs & Hnd).
  exists n, L, recs, pm. repeat split; assumption.
Qed.

(** ** Up to the collection *)

Lemma defined_props_insert (h : heap) (l : loc) (o : object) :
  defined_props h = true ->
  forallb (fun kv => negb (is_undef (snd kv))) (props o) = true ->
  defined_props (<[l := o]> h) = true.
Proof.
  unfold defined_props. intros H Ho. apply forallb_forall. intros x Hx.
  rewrite forallb_forall in H.
  apply list_elem_of_In, list_elem_of_lookup in Hx as [i Hi].
  destruct (decide (i = l)) as [->|Hne].
  - destruct (decide (l < length h)%nat) as [Hlt|Hge].
    + rewrite list_lookup_insert_eq in Hi by exact Hlt. inversion Hi; subst. exact Ho.
    + rewrite list_insert_ge in Hi by lia. apply H, list_elem_of_In.
      eapply list_elem_of_lookup_2, Hi.
  - rewrite list_lookup_insert_ne in Hi by auto. apply H, list_elem_of_In.
    eapply list_elem_of_lookup_2, Hi.
Qed.

Lemma defined_props_snoc (h : heap) (o : object) :
  defined_props h = true ->
  forallb (fun kv => negb (is_undef (snd kv))) (props o) = true ->
  defined_props (h ++ [o]) = true.
Proof.
  unfold defined_props. rewrite forallb_app. intros -> Ho. simpl. rewrite Ho.
  reflexivity.
Qed.

Lemma defined_put_prop (k : string) (x : value) (ps : list (string * value)) :
  is_undef x = false ->
  forallb (fun kv => negb (is_undef (snd kv))) ps = true ->
  forallb (fun kv => negb (is_undef (snd kv))) (put_prop k x ps) = true.
Proof.
  intros Hx Hps. apply forallb_Forall. apply forallb_Forall in Hps.
  apply (Forall_put_prop (fun v => negb (is_undef v) = true)); [|exact Hps].
  rewrite Hx. reflexivity.
Qed.

Lemma defined_replace_prop (k : string) (x : value) (ps : list (string * value)) :
  is_undef x = false ->
  forallb (fun kv => negb (is_undef (snd kv))) ps = true ->
  forallb (fun kv => negb (is_undef (snd kv))) (replace_prop k x ps) = true.
Proof.
  intros Hx Hps. apply forallb_Forall. apply forallb_Forall in Hps.
  apply (Forall_replace_prop (fun v => negb (is_undef v) = true)); [|exact Hps].
  rewrite Hx. reflexivity.
Qed.

(** The record [r] of the collection has changed, and nothing else of
    the collection. *)
Lemma collection_renewed (s : state) (h' : heap) (n m : nat) (N : list loc)
    (L r : loc)
    (recs : list value) (pm : list (string * value)) (T : list json)
    (i : nat) (J' : json) :
  length (store s) = S n ->
  items s = VRef L ->
  store s !! L = Some (Obj (Some recs) pm) ->
  Forall2 (elem_doc n (store s)) recs T ->
  NoDup (L :: flat_map (fun e => reach n (store s) e) recs) ->
  recs !! i = Some (VRef r) ->
  length h' = S m ->
  (n <= m)%nat ->
  h' !! L = Some (Obj (Some recs) pm) ->
  (forall c, c ∈ flat_map (fun e => reach n (store s) e) recs ->
             c ∉ reach n (store s) (VRef r) -> h' !! c = store s !! c) ->
  (forall c, c ∈ N -> (length (store s) <= c)%nat) ->
  renewed (store s) n (VRef r) h' m (VRef r) J' N ->
  defined_props h' = true ->
  snapshot (set_store h' s) = Ok (Some (JArr (<[i := J']> T)))
  /\ tidy (set_store h' s) = true.
Proof.
  intros Hlen Hitems Hcoll Hdocs Hnd Hrec Hlen' Hnm Hcoll' Hsame Hb Hren Hd.
  assert (Hroot : renewed (store s) (S n) (VRef L) h' (S m) (VRef L)
                    (JArr (<[i := J']> T)) N).
  { eapply (element_renewed (store s) h' n m N N); try eassumption.
    - auto.
    - rewrite list_insert_id by exact Hrec. exact Hcoll'.
    - left. reflexivity. }
  destruct Hroot as (Hser & Hnd' & _).
  unfold snapshot, tidy, unshared.
  destruct s as [st its sl cur tos fls ro cfg pks svs]; simpl in *. subst its.
  rewrite Hlen'. split; [exact Hser|].
  apply andb_true_iff. split; [apply distinct_NoDup, Hnd'|exact Hd].
Qed.

Lemma flat_map_insert_index {A B} (G : A -> list B) (n : nat) (k : string) (x : A)
    (ps : list (string * A)) :
  G x = [] ->
  flat_map (fun kv => G (snd kv)) (insert_index n k x ps)
  = flat_map (fun kv => G (snd kv)) ps.
Proof.
  intros Hx. induction ps as [|[k' v'] ps IH]; simpl.
  - rewrite Hx. reflexivity.
  - destruct (index_of_key k') as [n'|]; [destruct (n' <? n)%nat|]; simpl.
    + rewrite IH. reflexivity.
    + rewrite Hx. reflexivity.
    + rewrite Hx. reflexivity.
Qed.

(** A member that is no object is set on an object. *)
Lemma member_set (h h' : heap) (n : nat) (l : loc)
    (ps : list (string * value)) (M : list (string * json))
    (k : string) (x : value) (jx : json) :
  h !! l = Some (Obj None ps) ->
  Forall2 (related (member_doc n h)) ps M ->
  NoDup (l :: flat_map (fun kv => reach n h (snd kv)) ps) ->
  prim_doc x = Some jx ->
  h' = <[l := Obj None (put_prop k x ps)]> h ->
  renewed h (S n) (VRef l) h' (S n) (VRef l) (JObj (put_prop k jx M)) [].
Proof.
  intros Hl Hdocs Hnd Hx Hh'.
  pose proof (lookup_lt_Some _ _ _ Hl) as Hlt.
  assert (Hl' : h' !! l = Some (Obj None (put_prop k x ps))).
  { subst h'. apply list_lookup_insert_eq, Hlt. }
  assert (Hother : forall c, c ∈ flat_map (fun kv => reach n h (snd kv)) ps ->
              h' !! c = h !! c).
  { intros c Hc. subst h'. apply list_lookup_insert_ne. intros ->.
    apply NoDup_cons in Hnd as [Hout _]. contradiction. }
  clear Hh'.
  destruct (serialize_prim n h' x jx Hx) as [Hsx Hrx].
  pose proof (related_lookup (member_doc n h) k ps M Hdocs) as Hrel.
  unfold put_prop in Hl' |- *.
  destruct (lookup_prop k ps) as [vold|] eqn:Hk.
  - destruct (lookup_prop k M) as [jold|] eqn:HkM; [|contradiction].
    eapply member_renewed; try eassumption; [lia|intros c Hc; inversion Hc| |].
    + intros c Hc _. apply Hother, Hc.
    + split; [exact Hsx|]. rewrite Hrx. split; [constructor|].
      intros c Hc. inversion Hc.
  - destruct (lookup_prop k M) as [jold|] eqn:HkM; [contradiction|].
    apply NoDup_cons in Hnd as [Hout Hnd].
    destruct (children_same snd (fun n h => related (member_doc n h)) h h' n n
                (fun a b => member_doc_frame h h' n n a b (le_n n)) ps M Hdocs Hother)
      as [H1 H2].
    assert (Hfm : flat_map (fun kv => reach n h' (snd kv))
                    (match index_of_key k with
                     | Some q => insert_index q k x ps
                     | None => ps ++ [(k, x)]
                     end)
                  = flat_map (fun kv => reach n h (snd kv)) ps).
    { rewrite <- H2. destruct (index_of_key k) as [q|].
      - apply (flat_map_insert_index (reach n h')). exact Hrx.
      - rewrite flat_map_app. simpl. rewrite Hrx, !app_nil_r. reflexivity. }
    eapply renewed_object; try eassumption.
    + left. reflexivity.
    + apply (related_put (member_doc n h') k x jx ps M Hsx) in H1.
      unfold put_prop in H1. rewrite Hk, HkM in H1. exact H1.
    + rewrite Hfm. exact Hnd.
    + rewrite Hfm. exact Hout.
    + rewrite Hfm. intros c Hc. left. exact Hc.
Qed.

(** X21.  [updateField] with a value that is no object, on a member the
    selected record has, changes that member in the document that a
    save writes and nothing else: the member keeps its place, every
    other member and every other record is written as before.  The
    collection stays a tree. *)
Theorem updateField_document (s : state) (T : list json) (sel : Z)
    (M : list (string * json)) (field : string) (x : value) (jx old : json) :
  tidy s = true ->
  snapshot s = Ok (Some (JArr T)) ->
  selectedItem s = Some sel ->
  0 <= sel < 4294967295 ->
  T !! Z.to_nat sel = Some (JObj M) ->
  lookup_prop field M = Some old ->
  prim_doc x = Some jx ->
  exists s',
    updateField field x s = (Ok tt, s')
    /\ snapshot s' = Ok (Some (JArr (<[Z.to_nat sel := JObj (replace_prop field jx M)]> T)))
    /\ tidy s' = true.
Proof.
  intros Ht Hsnap Hsel Hrange HT Hold Hx.
  destruct (collection_view s T Ht Hsnap)
    as (n & L & recs & pm & Hlen & Hitems & Hcoll & Hdocs & Hnd & Hd).
  pose proof (proj2 (proj1 (NoDup_cons _ _) Hnd)) as Hnd0.
  destruct (elem_view _ _ _ _ _ _ Hdocs Hnd0 HT) as (e & Hrec & Hser & Hnde);
    [discriminate|].
  destruct (object_view _ _ _ _ Hd Hser Hnde)
    as (n' & r & ps & -> & -> & Hcell & Hms & Hndr).
  pose proof (related_lookup (member_doc n' (store s)) field ps M Hms) as Hrel.
  rewrite Hold in Hrel.
  destruct (lookup_prop field ps) as [vold|] eqn:Hps; [clear Hrel|contradiction].
  assert (Hput : put_prop field x ps = replace_prop field x ps)
    by (unfold put_prop; rewrite Hps; reflexivity).
  assert (HputM : put_prop field jx M = replace_prop field jx M)
    by (unfold put_prop; rewrite Hold; reflexivity).
  rewrite <- HputM.
  exists (set_store (<[r := Obj None (put_prop field x ps)]> (store s)) s).
  split.
  { rewrite Hput. unfold updateField, bind, read, update_store. rewrite Hsel.
    rewrite (selected_record_at_cell s L r sel recs pm Hitems Hcoll Hrange Hrec).
    rewrite (h_set_own _ _ _ _ _ _ Hcell Hps). reflexivity. }
  assert (Hr : r ∈ flat_map (fun e => reach (S n') (store s) e) recs).
  { apply elem_of_flat_map. exists (VRef r).
    split; [eapply list_elem_of_lookup_2, Hrec|]. simpl. left. }
  eapply (collection_renewed s _ (S n') (S n') []); try eassumption.
  - rewrite length_insert. exact Hlen.
  - lia.
  - rewrite list_lookup_insert_ne; [exact Hcoll|]. intros ->.
    apply NoDup_cons in Hnd as [Hout _]. contradiction.
  - intros c _ Hc. apply list_lookup_insert_ne. intros ->. apply Hc. simpl. left.
  - intros c Hc. inversion Hc.
  - eapply member_set; try eassumption. reflexivity.
  - apply defined_props_insert; [exact Hd|]. simpl. apply defined_put_prop.
    + destruct x; try reflexivity; discriminate.
    + apply (defined_props_lookup _ _ _ Hd Hcell).
Qed.

Lemma take_mid_drop {A} (from count : nat) (l : list A) :
  l = take from l ++ take count (drop from l) ++ drop (from + count) l.
Proof.
  rewrite <- (drop_drop l count from), (take_drop count), (take_drop from).
  reflexivity.
Qed.

(** The three list functions at once: the elements from [from], [count]
    of them, give way to the values [mid], which are no objects. *)
Lemma list_edit_document (s : state) (T : list json) (sel : Z)
    (M : list (string * json)) (field : string) (js : list json)
    (change : heap -> value -> outcome heap) (g : list value -> list value)
    (from count : nat) (mid : list value) :
  tidy s = true ->
  snapshot s = Ok (Some (JArr T)) ->
  selectedItem s = Some sel ->
  0 <= sel < 4294967295 ->
  T !! Z.to_nat sel = Some (JObj M) ->
  lookup_prop field M = Some (JArr js) ->
  (forall h l xs p, h !! l = Some (Obj (Some xs) p) ->
     change h (VRef l) = Ok (<[l := Obj (Some (g xs)) p]> h)) ->
  (forall xs, length xs = length js ->
     g xs = take from xs ++ mid ++ drop (from + count) xs) ->
  (from + count <= length js)%nat ->
  Forall (fun v => forall c, v <> VRef c) mid ->
  exists s',
    edit_copy field change s = (Ok tt, s')
    /\ snapshot s'
       = Ok (Some (JArr (<[Z.to_nat sel :=
                            JObj (replace_prop field
                                    (JArr (take from js
                                           ++ map (fun v => default JNull (prim_doc v)) mid
                                           ++ drop (from + count) js)) M)]> T)))
    /\ tidy s' = true.
Proof.
  intros Ht Hsnap Hsel Hrange HT Hfield Hchange Hg Hbound Hmid.
  destruct (collection_view s T Ht Hsnap)
    as (n & L & recs & pm & Hlen & Hitems & Hcoll & Hdocs & Hnd & Hd).
  pose proof (proj2 (proj1 (NoDup_cons _ _) Hnd)) as Hnd0.
  destruct (elem_view _ _ _ _ _ _ Hdocs Hnd0 HT) as (e & Hrec & Hser & Hnde);
    [discriminate|].
  destruct (object_view _ _ _ _ Hd Hser Hnde)
    as (n1 & r & ps & -> & -> & Hcell & Hms & Hndr).
  pose proof (proj2 (proj1 (NoDup_cons _ _) Hndr)) as Hndr0.
  destruct (member_view _ _ _ _ _ _ Hms Hndr0 Hfield) as (v & Hv & Hserv & Hndv).
  destruct (array_view _ _ _ _ Hserv Hndv)
    as (n2 & a & es & pa & -> & -> & Hlist & Hes & Hnda).
  set (h := store s) in *.
  set (h' := <[r := Obj None (replace_prop field (VRef (length h)) ps)]>
               (h ++ [Obj (Some (g es)) []])).
  exists (set_store h' s). split.
  { apply (edit_copy_result s L r a sel field recs es pm pa ps Hitems Hcoll Hsel Hrange
             Hrec Hcell Hv Hlist change g Hchange). }
  pose proof (lookup_lt_Some _ _ _ Hcell) as Hr.
  pose proof (Forall2_length _ _ _ Hes) as Hlen_es.
  assert (Hr_rec : r ∈ flat_map (fun e => reach (S (S n2)) h e) recs).
  { apply elem_of_flat_map. exists (VRef r).
    split; [eapply list_elem_of_lookup_2, Hrec|]. simpl. left. }
  assert (Hold : forall c, (c < length h)%nat -> c <> r -> h' !! c = h !! c).
  { intros c Hc Hne. unfold h'. rewrite list_lookup_insert_ne by auto.
    apply lookup_app_l, Hc. }
  assert (Ha_in : forall c, c ∈ reach (S n2) h (VRef a) ->
                    c ∈ flat_map (fun kv => reach (S n2) h (snd kv)) ps).
  { intros c Hc. apply elem_of_flat_map. exists (field, VRef a).
    split; [apply lookup_prop_elem, Hv|exact Hc]. }
  assert (HN : forall c, c ∈ [length h] -> (length h <= c)%nat).
  { intros c Hc. apply list_elem_of_singleton in Hc. subst. apply le_n. }
  eapply (collection_renewed s h' (S (S n2)) (S (S (S n2))) [length h]);
    try eassumption.
  - unfold h'. rewrite length_insert, length_app. simpl. fold h in Hlen. rewrite Hlen.
    rewrite Nat.add_1_r. reflexivity.
  - lia.
  - rewrite Hold; [exact Hcoll|eapply lookup_lt_Some, Hcoll|]. intros ->.
    apply NoDup_cons in Hnd as [Hout _]. contradiction.
  - intros c Hc Hn. apply Hold.
    + eapply (children_valid (fun e => e) elem_doc h (S (S n2))
                (elem_doc_valid h (S (S n2)))); eassumption.
    + intros ->. apply Hn. simpl. left.
  - eapply member_renewed; try eassumption; [lia| | |].
    + unfold h'. apply list_lookup_insert_eq. rewrite length_app. lia.
    + intros c Hc Hn. apply Hold.
      * eapply (children_valid snd (fun n h => related (member_doc n h)) h (S n2)
                  (member_doc_valid h (S n2))); eassumption.
      * intros ->. apply NoDup_cons in Hndr as [Hout _]. contradiction.
    + assert (E1 : length (take from es) = from) by (rewrite length_take; lia).
      assert (E2 : length (take count (drop from es)) = count)
        by (rewrite length_take, length_drop; lia).
      rewrite <- E1 at 1. rewrite <- E1 at 2. rewrite <- E2.
      eapply (array_rebuilt h h' n2 (S n2) [length h] a (length h) es (take from es)
                (take count (drop from es)) (drop (from + count) es) mid);
        try eassumption.
      * apply take_mid_drop.
      * lia.
      * unfold h'. rewrite list_lookup_insert_ne by lia.
        rewrite lookup_snoc_new, (Hg es Hlen_es). reflexivity.
      * right. left.
      * intros c Hc. apply Hold.
        -- eapply (children_valid (fun e => e) elem_doc h n2 (elem_doc_valid h n2));
             eassumption.
        -- intros ->. apply NoDup_cons in Hndr as [Hout _]. apply Hout, Ha_in.
           simpl. rewrite Hlist. right. exact Hc.
  - unfold h'. apply defined_props_insert.
    + apply defined_props_snoc; [exact Hd|reflexivity].
    + simpl. apply defined_replace_prop; [reflexivity|].
      apply (defined_props_lookup _ _ _ Hd Hcell).
Qed.

Lemma prim_flat (x : value) (jx : json) :
  prim_doc x = Some jx -> forall c, x <> VRef c.
Proof. intros H c ->. discriminate. Qed.

(** X22.  The list functions in the document that a save writes, for
    elements that are no objects: [addArrayItem] appends to the list of
    the field, [removeArrayItem] takes out the element at the index, and
    [updateArrayItem] replaces it; every other member, element and
    record is written as before.  The collection stays a tree. *)
Theorem list_edits_document (s : state) (T : list json) (sel : Z)
    (M : list (string * json)) (field : string) (js : list json) :
  tidy s = true ->
  snapshot s = Ok (Some (JArr T)) ->
  selectedItem s = Some sel ->
  0 <= sel < 4294967295 ->
  T !! Z.to_nat sel = Some (JObj M) ->
  lookup_prop field M = Some (JArr js) ->
  (forall x jx, prim_doc x = Some jx ->
     exists s', addArrayItem field x s = (Ok tt, s')
                /\ list_saved s' T sel M field (js ++ [jx]))
  /\ (forall index, 0 <= index < Z.of_nat (length js) ->
        exists s', removeArrayItem field index s = (Ok tt, s')
                   /\ list_saved s' T sel M field
                        (take (Z.to_nat index) js ++ drop (S (Z.to_nat index)) js))
  /\ (forall index x jx,
        0 <= index < Z.of_nat (length js) -> index < 4294967295 ->
        prim_doc x = Some jx ->
        exists s', updateArrayItem field index x s = (Ok tt, s')
                   /\ list_saved s' T sel M field (<[Z.to_nat index := jx]> js)).
Proof.
  intros Ht Hsnap Hsel Hrange HT Hfield. unfold list_saved. split; [|split].
  - intros x jx Hx.
    change (addArrayItem field x) with (edit_copy field (fun h c => h_push h c x)).
    destruct (list_edit_document s T sel M field js (fun h c => h_push h c x)
                (fun xs => xs ++ [x]) (length js) 0 [x] Ht Hsnap Hsel Hrange HT Hfield)
      as (s' & Hrun & Hdoc & Ht').
    + intros h l xs p Hl. unfold h_push. rewrite Hl. reflexivity.
    + intros xs Hlen. rewrite <- Hlen, Nat.add_0_r, take_ge, drop_ge by lia.
      reflexivity.
    + lia.
    + constructor; [eapply prim_flat, Hx|constructor].
    + exists s'. split; [exact Hrun|]. split; [|exact Ht'].
      rewrite Hdoc, Nat.add_0_r, take_ge, drop_ge by lia. simpl. rewrite Hx.
      reflexivity.
  - intros index Hi.
    change (removeArrayItem field index)
      with (edit_copy field (fun h c => h_splice h c index)).
    destruct (list_edit_document s T sel M field js (fun h c => h_splice h c index)
                (splice1 index) (Z.to_nat index) 1 [] Ht Hsnap Hsel Hrange HT Hfield)
      as (s' & Hrun & Hdoc & Ht').
    + intros h l xs p Hl. unfold h_splice. rewrite Hl. reflexivity.
    + intros xs Hlen. rewrite splice1_inside by lia.
      destruct (Z.ltb_spec index 0); [lia|]. rewrite Nat.add_1_r. reflexivity.
    + lia.
    + constructor.
    + exists s'. split; [exact Hrun|]. split; [|exact Ht'].
      rewrite Hdoc, Nat.add_1_r. reflexivity.
  - intros index x jx Hi Hmax Hx.
    change (updateArrayItem field index x)
      with (edit_copy field (fun h c => h_set h c (key_of_number index) x)).
    destruct (list_edit_document s T sel M field js
                (fun h c => h_set h c (key_of_number index) x)
                (put_elem (Z.to_nat index) x) (Z.to_nat index) 1 [x]
                Ht Hsnap Hsel Hrange HT Hfield)
      as (s' & Hrun & Hdoc & Ht').
    + intros h l xs p Hl. unfold h_set. rewrite Hl, index_of_key_number by lia.
      reflexivity.
    + intros xs Hlen. unfold put_elem.
      destruct (Nat.ltb_spec (Z.to_nat index) (length xs)); [|lia].
      rewrite insert_take_drop, Nat.add_1_r by assumption. reflexivity.
    + lia.
    + constructor; [eapply prim_flat, Hx|constructor].
    + exists s'. split; [exact Hrun|]. split; [|exact Ht'].
      rewrite Hdoc, (insert_take_drop js), Nat.add_1_r by lia. simpl. rewrite Hx.
      reflexivity.
Qed.

(** ** The bullet points of a setup detail *)

Section BulletsDocument.

Variable s : state.
Variables (n4 : nat) (L r a e b : loc).
Variables (recs sds bps : list value) (pm ps pa me pb : list (string * value)).
Variables (T SD B : list json) (M ME : list (string * json)) (i k : nat).

Hypothesis Hlen : length (store s) = S (S (S (S (S n4)))).
Hypothesis Hitems : items s = VRef L.
Hypothesis Hcoll : store s !! L = Some (Obj (Some recs) pm).
Hypothesis Hrecs : Forall2 (elem_doc (S (S (S (S n4)))) (store s)) recs T.
Hypothesis HndL :
  NoDup (L :: flat_map (fun x => reach (S (S (S (S n4)))) (store s) x) recs).
Hypothesis Hrec : recs !! i = Some (VRef r).
Hypothesis Hcell : store s !! r = Some (Obj None ps).
Hypothesis Hps : Forall2 (related (member_doc (S (S (S n4))) (store s))) ps M.
Hypothesis Hndr :
  NoDup (r :: flat_map (fun kv => reach (S (S (S n4))) (store s) (snd kv)) ps).
Hypothesis Hsetups : lookup_prop "SetupDetails" ps = Some (VRef a).
Hypothesis Hlist : store s !! a = Some (Obj (Some sds) pa).
Hypothesis Hsds : Forall2 (elem_doc (S (S n4)) (store s)) sds SD.
Hypothesis Hnda : NoDup (a :: flat_map (fun x => reach (S (S n4)) (store s) x) sds).
Hypothesis Hentry : sds !! k = Some (VRef e).
Hypothesis Hdetail : store s !! e = Some (Obj None me).
Hypothesis Hme : Forall2 (related (member_doc (S n4) (store s))) me ME.
Hypothesis Hnde :
  NoDup (e :: flat_map (fun kv => reach (S n4) (store s) (snd kv)) me).
Hypothesis Hpoints : lookup_prop "BulletPoints" me = Some (VRef b).
Hypothesis Hbullets : store s !! b = Some (Obj (Some bps) pb).
Hypothesis Hbps : Forall2 (elem_doc n4 (store s)) bps B.
Hypothesis Hndb : NoDup (b :: flat_map (fun x => reach n4 (store s) x) bps).

Lemma bullets_in_entry (c : loc) :
  c ∈ reach (S n4) (store s) (VRef b) ->
  c ∈ flat_map (fun kv => reach (S n4) (store s) (snd kv)) me.
Proof.
  intros Hc. apply elem_of_flat_map. exists ("BulletPoints", VRef b).
  split; [apply lookup_prop_elem, Hpoints|exact Hc].
Qed.

Lemma entry_in_setups (c : loc) :
  c ∈ reach (S (S n4)) (store s) (VRef e) ->
  c ∈ flat_map (fun x => reach (S (S n4)) (store s) x) sds.
Proof.
  intros Hc. apply elem_of_flat_map. exists (VRef e).
  split; [eapply list_elem_of_lookup_2, Hentry|exact Hc].
Qed.

Lemma setups_in_record (c : loc) :
  c ∈ reach (S (S (S n4))) (store s) (VRef a) ->
  c ∈ flat_map (fun kv => reach (S (S (S n4))) (store s) (snd kv)) ps.
Proof.
  intros Hc. apply elem_of_flat_map. exists ("SetupDetails", VRef a).
  split; [apply lookup_prop_elem, Hsetups|exact Hc].
Qed.

Lemma record_in_collection (c : loc) :
  c ∈ reach (S (S (S (S n4)))) (store s) (VRef r) ->
  c ∈ flat_map (fun x => reach (S (S (S (S n4)))) (store s) x) recs.
Proof.
  intros Hc. apply elem_of_flat_map. exists (VRef r).
  split; [eapply list_elem_of_lookup_2, Hrec|exact Hc].
Qed.

Lemma reach_entry :
  reach (S (S n4)) (store s) (VRef e)
  = e :: flat_map (fun kv => reach (S n4) (store s) (snd kv)) me.
Proof. simpl. rewrite Hdetail. reflexivity. Qed.

Lemma reach_setups :
  reach (S (S (S n4))) (store s) (VRef a)
  = a :: flat_map (fun x => reach (S (S n4)) (store s) x) sds.
Proof. simpl. rewrite Hlist. reflexivity. Qed.

Lemma reach_record :
  reach (S (S (S (S n4)))) (store s) (VRef r)
  = r :: flat_map (fun kv => reach (S (S (S n4))) (store s) (snd kv)) ps.
Proof. simpl. rewrite Hcell. reflexivity. Qed.

Lemma reach_bullets :
  reach (S n4) (store s) (VRef b) = b :: flat_map (fun x => reach n4 (store s) x) bps.
Proof. simpl. rewrite Hbullets. reflexivity. Qed.

(** The cells on the way to the bullet points are different cells. *)
Lemma bullets_path :
  r <> e /\ r <> b /\ e <> b /\ L <> r /\ L <> e /\ L <> b /\ r <> a /\ a <> e /\ a <> b.
Proof.
  pose proof (proj1 (proj1 (NoDup_cons _ _) HndL)) as HL.
  pose proof (proj1 (proj1 (NoDup_cons _ _) Hndr)) as Hr.
  pose proof (proj1 (proj1 (NoDup_cons _ _) Hnda)) as Ha.
  pose proof (proj1 (proj1 (NoDup_cons _ _) Hnde)) as He.
  assert (Hb_e : b ∈ flat_map (fun kv => reach (S n4) (store s) (snd kv)) me).
  { apply bullets_in_entry. rewrite reach_bullets. left. }
  assert (He_a : forall c, c ∈ flat_map (fun kv => reach (S n4) (store s) (snd kv)) me ->
                   c ∈ flat_map (fun x => reach (S (S n4)) (store s) x) sds).
  { intros c Hc. apply entry_in_setups. rewrite reach_entry. right. exact Hc. }
  assert (Ha_r : forall c, c ∈ flat_map (fun x => reach (S (S n4)) (store s) x) sds ->
                   c ∈ flat_map (fun kv => reach (S (S (S n4))) (store s) (snd kv)) ps).
  { intros c Hc. apply setups_in_record. rewrite reach_setups. right. exact Hc. }
  assert (Hr_L : forall c,
             c ∈ flat_map (fun kv => reach (S (S (S n4))) (store s) (snd kv)) ps ->
             c ∈ flat_map (fun x => reach (S (S (S (S n4)))) (store s) x) recs).
  { intros c Hc. apply record_in_collection. rewrite reach_record. right. exact Hc. }
  assert (He_in : e ∈ flat_map (fun x => reach (S (S n4)) (store s) x) sds).
  { apply entry_in_setups. rewrite reach_entry. left. }
  assert (Ha_in : a ∈ flat_map (fun kv => reach (S (S (S n4))) (store s) (snd kv)) ps).
  { apply setups_in_record. rewrite reach_setups. left. }
  assert (Hr_in : r ∈ flat_map (fun x => reach (S (S (S (S n4)))) (store s) x) recs).
  { apply record_in_collection. rewrite reach_record. left. }
  repeat split; intros E; subst.
  - apply Hr, Ha_r, He_in.
  - apply Hr, Ha_r, He_a, Hb_e.
  - apply He, Hb_e.
  - apply HL, Hr_in.
  - apply HL, Hr_L, Ha_r, He_in.
  - apply HL, Hr_L, Ha_r, He_a, Hb_e.
  - apply Hr, Ha_in.
  - apply Ha, He_in.
  - apply Ha, He_a, Hb_e.
Qed.

(** The store after an edit of the bullet points: the record has a copy
    of the list of setup details, and the bullet points of the entry
    [k], in the old list or in a new one, are those of before with
    [count] of them, from [from], replaced by [mid]. *)
Lemma bullets_renewed (h' : heap) (m4 : nat) (b' : loc) (pb' : list (string * value))
    (from count : nat) (mid : list value) :
  (n4 <= m4)%nat ->
  length h' = S (S (S (S (S m4)))) ->
  h' !! r = Some (Obj None (replace_prop "SetupDetails" (VRef (length (store s))) ps)) ->
  h' !! length (store s) = Some (Obj (Some sds) []) ->
  h' !! e = Some (Obj None (replace_prop "BulletPoints" (VRef b') me)) ->
  h' !! b' = Some (Obj (Some (take from bps ++ mid ++ drop (from + count) bps)) pb') ->
  b' = b \/ b' = S (length (store s)) ->
  (forall c, (c < length (store s))%nat -> c <> r -> c <> e -> c <> b ->
             h' !! c = store s !! c) ->
  (from + count <= length B)%nat ->
  Forall (fun v => forall c, v <> VRef c) mid ->
  defined_props h' = true ->
  snapshot (set_store h' s)
  = Ok (Some (JArr (<[i :=
       JObj (replace_prop "SetupDetails"
               (JArr (<[k :=
                  JObj (replace_prop "BulletPoints"
                          (JArr (take from B
                                 ++ map (fun v => default JNull (prim_doc v)) mid
                                 ++ drop (from + count) B)) ME)]> SD)) M)]> T)))
  /\ tidy (set_store h' s) = true.
Proof.
  intros Hnm Hlen' Hr' Hn0 He' Hb' Hwhere Hold Hbound Hmid Hd.
  assert (HN1 : forall c, c ∈ [S (length (store s))] -> (length (store s) <= c)%nat).
  { intros c Hc. apply list_elem_of_singleton in Hc. lia. }
  assert (HN2 : forall c, c ∈ [length (store s); S (length (store s))] ->
                  (length (store s) <= c)%nat).
  { intros c Hc. apply elem_of_cons in Hc as [->|Hc]; [lia|]. apply HN1, Hc. }
  destruct bullets_path as (Hre & Hrb & Heb & HLr & HLe & HLb & Hra & Hae & Hab).
  pose proof (proj1 (proj1 (NoDup_cons _ _) Hndr)) as Hr_out.
  pose proof (proj1 (proj1 (NoDup_cons _ _) Hnde)) as He_out.
  pose proof (proj1 (proj1 (NoDup_cons _ _) Hndb)) as Hb_out.
  pose proof (Forall2_length _ _ _ Hbps) as Hlen_b.
  assert (Vb : forall c, c ∈ flat_map (fun x => reach n4 (store s) x) bps ->
                 (c < length (store s))%nat).
  { intros c Hc. eapply (children_valid (fun x => x) elem_doc (store s) n4
                           (elem_doc_valid (store s) n4)); eassumption. }
  assert (Ve : forall c, c ∈ flat_map (fun kv => reach (S n4) (store s) (snd kv)) me ->
                 (c < length (store s))%nat).
  { intros c Hc.
    eapply (children_valid snd (fun n h => related (member_doc n h)) (store s) (S n4)
              (member_doc_valid (store s) (S n4))); eassumption. }
  assert (Va : forall c, c ∈ flat_map (fun x => reach (S (S n4)) (store s) x) sds ->
                 (c < length (store s))%nat).
  { intros c Hc. eapply (children_valid (fun x => x) elem_doc (store s) (S (S n4))
                           (elem_doc_valid (store s) (S (S n4)))); eassumption. }
  assert (Vr : forall c,
             c ∈ flat_map (fun kv => reach (S (S (S n4))) (store s) (snd kv)) ps ->
             (c < length (store s))%nat).
  { intros c Hc.
    eapply (children_valid snd (fun n h => related (member_doc n h)) (store s)
              (S (S (S n4))) (member_doc_valid (store s) (S (S (S n4))))); eassumption. }
  assert (VL : forall c,
             c ∈ flat_map (fun x => reach (S (S (S (S n4)))) (store s) x) recs ->
             (c < length (store s))%nat).
  { intros c Hc. eapply (children_valid (fun x => x) elem_doc (store s) (S (S (S (S n4))))
                           (elem_doc_valid (store s) (S (S (S (S n4)))))); eassumption. }
  assert (Ib : forall c, c ∈ flat_map (fun x => reach n4 (store s) x) bps ->
                 c ∈ reach (S n4) (store s) (VRef b)).
  { intros c Hc. rewrite reach_bullets. right. exact Hc. }
  assert (Ie : forall c, c ∈ flat_map (fun kv => reach (S n4) (store s) (snd kv)) me ->
                 c ∈ reach (S (S n4)) (store s) (VRef e)).
  { intros c Hc. rewrite reach_entry. right. exact Hc. }
  assert (Ia : forall c, c ∈ flat_map (fun x => reach (S (S n4)) (store s) x) sds ->
                 c ∈ reach (S (S (S n4))) (store s) (VRef a)).
  { intros c Hc. rewrite reach_setups. right. exact Hc. }
  assert (Ir : forall c,
             c ∈ flat_map (fun kv => reach (S (S (S n4))) (store s) (snd kv)) ps ->
             c ∈ reach (S (S (S (S n4)))) (store s) (VRef r)).
  { intros c Hc. rewrite reach_record. right. exact Hc. }
  assert (Rb : renewed (store s) (S n4) (VRef b) h' (S m4) (VRef b')
                 (JArr (take from B ++ map (fun v => default JNull (prim_doc v)) mid
                        ++ drop (from + count) B)) [S (length (store s))]).
  { assert (E1 : length (take from bps) = from) by (rewrite length_take; lia).
    assert (E2 : length (take count (drop from bps)) = count)
      by (rewrite length_take, length_drop; lia).
    rewrite <- E1 at 1. rewrite <- E1 at 2. rewrite <- E2.
    eapply (array_rebuilt (store s) h' n4 m4 [S (length (store s))] b b' bps
              (take from bps) (take count (drop from bps)) (drop (from + count) bps) mid);
      try eassumption.
    - apply take_mid_drop.
    - destruct Hwhere as [-> | ->]; [left; reflexivity|right; left].
    - intros c Hc. apply Hold; [apply Vb, Hc| | |].
      + intros ->. apply Hr_out, setups_in_record, Ia, entry_in_setups, Ie,
          bullets_in_entry, Ib, Hc.
      + intros ->. apply He_out, bullets_in_entry, Ib, Hc.
      + intros ->. apply Hb_out, Hc. }
  assert (Re : renewed (store s) (S (S n4)) (VRef e) h' (S (S m4)) (VRef e)
                 (JObj (replace_prop "BulletPoints"
                          (JArr (take from B
                                 ++ map (fun v => default JNull (prim_doc v)) mid
                                 ++ drop (from + count) B)) ME))
                 [S (length (store s))]).
  { eapply member_renewed; try eassumption; [lia|].
    intros c Hc Hn. apply Hold; [apply Ve, Hc| | |].
    - intros ->. apply Hr_out, setups_in_record, Ia, entry_in_setups, Ie, Hc.
    - intros ->. apply He_out, Hc.
    - intros ->. apply Hn. rewrite reach_bullets. left. }
  assert (Ra : renewed (store s) (S (S (S n4))) (VRef a) h' (S (S (S m4)))
                 (VRef (length (store s)))
                 (JArr (<[k :=
                    JObj (replace_prop "BulletPoints"
                            (JArr (take from B
                                   ++ map (fun v => default JNull (prim_doc v)) mid
                                   ++ drop (from + count) B)) ME)]> SD))
                 [length (store s); S (length (store s))]).
  { eapply (element_renewed (store s) h' (S (S n4)) (S (S m4)) [S (length (store s))]
              [length (store s); S (length (store s))] a (length (store s)) sds pa []);
      try eassumption; try lia.
    - intros c Hc. right. exact Hc.
    - rewrite list_insert_id by exact Hentry. exact Hn0.
    - right. split; [left|]. intros Hc. apply list_elem_of_singleton in Hc. lia.
    - intros c Hc Hn. apply Hold; [apply Va, Hc| | |].
      + intros ->. apply Hr_out, setups_in_record, Ia, Hc.
      + intros ->. apply Hn. rewrite reach_entry. left.
      + intros ->. apply Hn, Ie, bullets_in_entry. rewrite reach_bullets. left. }
  assert (Rr : renewed (store s) (S (S (S (S n4)))) (VRef r) h' (S (S (S (S m4))))
                 (VRef r)
                 (JObj (replace_prop "SetupDetails"
                    (JArr (<[k :=
                       JObj (replace_prop "BulletPoints"
                               (JArr (take from B
                                      ++ map (fun v => default JNull (prim_doc v)) mid
                                      ++ drop (from + count) B)) ME)]> SD)) M))
                 [length (store s); S (length (store s))]).
  { eapply member_renewed; try eassumption; [lia|].
    intros c Hc Hn. apply Hold; [apply Vr, Hc| | |].
    - intros ->. apply Hr_out, Hc.
    - intros ->. apply Hn, Ia, entry_in_setups. rewrite reach_entry. left.
    - intros ->. apply Hn, Ia, entry_in_setups, Ie, bullets_in_entry.
      rewrite reach_bullets. left. }
  eapply (collection_renewed s h' (S (S (S (S n4)))) (S (S (S (S m4))))
            [length (store s); S (length (store s))]); try eassumption; try lia.
  - rewrite Hold; [exact Hcoll|eapply lookup_lt_Some, Hcoll| | |]; assumption.
  - intros c Hc Hn. apply Hold; [apply VL, Hc| | |].
    + intros ->. apply Hn. rewrite reach_record. left.
    + intros ->. apply Hn, Ir, setups_in_record, Ia, entry_in_setups.
      rewrite reach_entry. left.
    + intros ->. apply Hn, Ir, setups_in_record, Ia, entry_in_setups, Ie,
        bullets_in_entry. rewrite reach_bullets. left.
Qed.

End BulletsDocument.

Lemma bullets_view (s : state) (T : list json) (i k : nat)
    (M ME : list (string * json)) (SD B : list json) :
  tidy s = true ->
  snapshot s = Ok (Some (JArr T)) ->
  T !! i = Some (JObj M) ->
  lookup_prop "SetupDetails" M = Some (JArr SD) ->
  SD !! k = Some (JObj ME) ->
  lookup_prop "BulletPoints" ME = Some (JArr B) ->
  exists n4 L r a e b recs sds bps pm ps pa me pb,
    length (store s) = S (S (S (S (S n4))))
    /\ items s = VRef L
    /\ store s !! L = Some (Obj (Some recs) pm)
    /\ Forall2 (elem_doc (S (S (S (S n4)))) (store s)) recs T
    /\ NoDup (L :: flat_map (fun x => reach (S (S (S (S n4)))) (store s) x) recs)
    /\ recs !! i = Some (VRef r)
    /\ store s !! r = Some (Obj None ps)
    /\ Forall2 (related (member_doc (S (S (S n4))) (store s))) ps M
    /\ NoDup (r :: flat_map (fun kv => reach (S (S (S n4))) (store s) (snd kv)) ps)
    /\ lookup_prop "SetupDetails" ps = Some (VRef a)
    /\ store s !! a = Some (Obj (Some sds) pa)
    /\ Forall2 (elem_doc (S (S n4)) (store s)) sds SD
    /\ NoDup (a :: flat_map (fun x => reach (S (S n4)) (store s) x) sds)
    /\ sds !! k = Some (VRef e)
    /\ store s !! e = Some (Obj None me)
    /\ Forall2 (related (member_doc (S n4) (store s))) me ME
    /\ NoDup (e :: flat_map (fun kv => reach (S n4) (store s) (snd kv)) me)
    /\ lookup_prop "BulletPoints" me = Some (VRef b)
    /\ store s !! b = Some (Obj (Some bps) pb)
    /\ Forall2 (elem_doc n4 (store s)) bps B
    /\ NoDup (b :: flat_map (fun x => reach n4 (store s) x) bps)
    /\ defined_props (store s) = true.
Proof.
  intros Ht Hsnap HT HSD Hk HB.
  destruct (collection_view s T Ht Hsnap)
    as (n & L & recs & pm & Hlen & Hitems & Hcoll & Hdocs & Hnd & Hd).
  pose proof (proj2 (proj1 (NoDup_cons _ _) Hnd)) as Hnd0.
  destruct (elem_view _ _ _ _ _ _ Hdocs Hnd0 HT) as (e0 & Hrec & Hser & Hnde0);
    [discriminate|].
  destruct (object_view _ _ _ _ Hd Hser Hnde0)
    as (n1 & r & ps & -> & -> & Hcell & Hms & Hndr).
  pose proof (proj2 (proj1 (NoDup_cons _ _) Hndr)) as Hndr0.
  destruct (member_view _ _ _ _ _ _ Hms Hndr0 HSD) as (v & Hv & Hserv & Hndv).
  destruct (array_view _ _ _ _ Hserv Hndv)
    as (n2 & a & sds & pa & -> & -> & Hlist & Hsds & Hnda).
  pose proof (proj2 (proj1 (NoDup_cons _ _) Hnda)) as Hnda0.
  destruct (elem_view _ _ _ _ _ _ Hsds Hnda0 Hk) as (e1 & Hentry & Hsere & Hnde1);
    [discriminate|].
  destruct (object_view _ _ _ _ Hd Hsere Hnde1)
    as (n3 & e & me & -> & -> & Hdetail & Hme & Hnde).
  pose proof (proj2 (proj1 (NoDup_cons _ _) Hnde)) as Hnde2.
  destruct (member_view _ _ _ _ _ _ Hme Hnde2 HB) as (w & Hw & Hserw & Hndw).
  destruct (array_view _ _ _ _ Hserw Hndw)
    as (n4 & b & bps & pb & -> & -> & Hbullets & Hbps & Hndb).
  exists n4, L, r, a, e, b, recs, sds, bps, pm, ps, pa, me, pb.
  repeat split; assumption.
Qed.

Lemma replace_prop_same {A} (k : string) (v : A) (m : list (string * A)) :
  lookup_prop k m = Some v -> replace_prop k v m = m.
Proof.
  induction m as [|[k' v'] m IH]; simpl; [reflexivity|].
  destruct (String.eqb_spec k k') as [->|Hne]; intros H.
  - inversion H. reflexivity.
  - rewrite IH by exact H. reflexivity.
Qed.

(** X23.  The bullet point functions in the document that a save writes.
    [addBulletPoint] appends an empty string to the bullet points of the
    setup detail, [removeBulletPoint] takes out the one at the index and
    [updateBulletPoint] replaces it; every other bullet point, setup
    detail, member and record is written as before.  The collection
    stays a tree. *)
Theorem bullet_edits_document (s : state) (T : list json) (sel si : Z)
    (M ME : list (string * json)) (SD B : list json) :
  tidy s = true ->
  snapshot s = Ok (Some (JArr T)) ->
  selectedItem s = Some sel ->
  0 <= sel < 4294967295 ->
  0 <= si < 4294967295 ->
  T !! Z.to_nat sel = Some (JObj M) ->
  lookup_prop "SetupDetails" M = Some (JArr SD) ->
  SD !! Z.to_nat si = Some (JObj ME) ->
  lookup_prop "BulletPoints" ME = Some (JArr B) ->
  (exists s', addBulletPoint si s = (Ok tt, s')
              /\ bullets_saved s' T sel M SD si ME (B ++ [JStr ""]))
  /\ (forall bi, 0 <= bi < Z.of_nat (length B) ->
        exists s', removeBulletPoint si bi s = (Ok tt, s')
                   /\ bullets_saved s' T sel M SD si ME
                        (take (Z.to_nat bi) B ++ drop (S (Z.to_nat bi)) B))
  /\ (forall bi v, 0 <= bi < Z.of_nat (length B) -> bi < 4294967295 ->
        exists s', updateBulletPoint si bi v s = (Ok tt, s')
                   /\ bullets_saved s' T sel M SD si ME (<[Z.to_nat bi := JStr v]> B)).
Proof.
  intros Ht Hsnap Hsel Hrange Hsi HT HSD Hk HB.
  destruct (bullets_view s T _ _ M ME SD B Ht Hsnap HT HSD Hk HB)
    as (n4 & L & r & a & e & b & recs & sds & bps & pm & ps & pa & me & pb
        & Hlen & Hitems & Hcoll & Hrecs & HndL & Hrec & Hcell & Hps & Hndr & Hsetups
        & Hlist & Hsds & Hnda & Hentry & Hdetail & Hme & Hnde & Hpoints & Hbullets
        & Hbps & Hndb & Hd).
  destruct (bullets_path s n4 L r a e b recs sds bps pm ps pa me pb
              (Z.to_nat sel) (Z.to_nat si))
    as (Hre & Hrb & Heb & HLr & HLe & HLb & Hra & Hae & Hab); try eassumption.
  pose proof (lookup_lt_Some _ _ _ Hcell) as Vr.
  pose proof (lookup_lt_Some _ _ _ Hdetail) as Ve.
  pose proof (lookup_lt_Some _ _ _ Hbullets) as Vb.
  pose proof (Forall2_length _ _ _ Hbps) as Hlen_b.
  pose proof (defined_props_lookup _ _ _ Hd Hcell) as Hdr.
  pose proof (defined_props_lookup _ _ _ Hd Hdetail) as Hde.
  unfold bullets_saved.
  assert (Hinplace : forall g from count mid,
            g bps = take from bps ++ mid ++ drop (from + count) bps ->
            (from + count <= length B)%nat ->
            Forall (fun v => forall c, v <> VRef c) mid ->
            let h' := <[r := Obj None (replace_prop "SetupDetails"
                                         (VRef (length (store s))) ps)]>
                        (<[b := Obj (Some (g bps)) pb]>
                           (store s ++ [Obj (Some sds) []])) in
            snapshot (set_store h' s)
            = Ok (Some (JArr (<[Z.to_nat sel :=
                 JObj (replace_prop "SetupDetails"
                         (JArr (<[Z.to_nat si :=
                            JObj (replace_prop "BulletPoints"
                                    (JArr (take from B
                                           ++ map (fun v => default JNull (prim_doc v)) mid
                                           ++ drop (from + count) B)) ME)]> SD)) M)]> T)))
            /\ tidy (set_store h' s) = true).
  { intros g from count mid Hg Hbound Hmid h'.
    eapply (bullets_renewed s n4 L r a e b recs sds bps pm ps pa me pb T SD B M ME
              (Z.to_nat sel) (Z.to_nat si) Hlen Hitems Hcoll Hrecs HndL Hrec Hcell Hps
              Hndr Hsetups Hlist Hsds Hnda Hentry Hdetail Hme Hnde Hpoints Hbullets
              Hbps Hndb h' (S n4) b pb from count mid); try assumption.
    - lia.
    - unfold h'. rewrite length_insert, length_insert, length_app, Hlen. simpl. lia.
    - unfold h'. apply list_lookup_insert_eq.
      rewrite length_insert, length_app. lia.
    - unfold h'. rewrite !list_lookup_insert_ne by lia. apply lookup_snoc_new.
    - unfold h'. rewrite !list_lookup_insert_ne by auto.
      rewrite (replace_prop_same _ _ _ Hpoints). apply lookup_snoc_old, Hdetail.
    - unfold h'. rewrite list_lookup_insert_ne by auto.
      rewrite list_lookup_insert_eq by (rewrite length_app; lia).
      rewrite Hg. reflexivity.
    - left. reflexivity.
    - intros c Hc Hcr Hce Hcb. unfold h'. rewrite !list_lookup_insert_ne by auto.
      apply lookup_app_l, Hc.
    - unfold h'. apply defined_props_insert; [apply defined_props_insert|].
      + apply defined_props_snoc; [exact Hd|reflexivity].
      + apply (defined_props_lookup _ _ _ Hd Hbullets).
      + simpl. apply defined_replace_prop; [reflexivity|exact Hdr]. }
  split; [|split].
  - eexists. split.
    + eapply (addBulletPoint_store s L r a e b sel si recs sds bps pm pa pb ps me);
        eassumption.
    + destruct (Hinplace (fun xs => xs ++ [VStr ""]) (length B) 0%nat [VStr ""])
        as [Hdoc Ht'].
      * rewrite <- Hlen_b, Nat.add_0_r, take_ge, drop_ge by lia. reflexivity.
      * lia.
      * repeat constructor; discriminate.
      * split; [|exact Ht']. rewrite Hdoc, Nat.add_0_r, take_ge, drop_ge by lia.
        reflexivity.
  - intros bi Hbi. eexists. split.
    + eapply (removeBulletPoint_store s L r a e b sel si recs sds bps pm pa pb ps me);
        eassumption.
    + destruct (Hinplace (splice1 bi) (Z.to_nat bi) 1%nat []) as [Hdoc Ht'].
      * rewrite splice1_inside by lia. destruct (Z.ltb_spec bi 0); [lia|].
        rewrite Nat.add_1_r. reflexivity.
      * lia.
      * constructor.
      * split; [|exact Ht']. rewrite Hdoc, Nat.add_1_r. reflexivity.
  - intros bi v Hbi Hmax. eexists. split.
    + eapply (updateBulletPoint_store s L r a e b sel si recs sds bps pm pa pb ps me);
        try eassumption. lia.
    + set (h' := <[r := _]> _).
      assert (Hput : put_elem (Z.to_nat bi) (VStr v) bps
                     = take (Z.to_nat bi) bps ++ [VStr v]
                       ++ drop (Z.to_nat bi + 1) bps).
      { unfold put_elem. destruct (Nat.ltb_spec (Z.to_nat bi) (length bps)); [|lia].
        rewrite insert_take_drop, Nat.add_1_r by assumption. reflexivity. }
      destruct (bullets_renewed s n4 L r a e b recs sds bps pm ps pa me pb T SD B M ME
                  (Z.to_nat sel) (Z.to_nat si) Hlen Hitems Hcoll Hrecs HndL Hrec Hcell
                  Hps Hndr Hsetups Hlist Hsds Hnda Hentry Hdetail Hme Hnde Hpoints
                  Hbullets Hbps Hndb h' (S (S n4)) (S (length (store s))) []
                  (Z.to_nat bi) 1%nat [VStr v]) as [Hdoc Ht'].
      * lia.
      * unfold h'. rewrite !length_insert, !length_app, Hlen. simpl. lia.
      * unfold h'. apply list_lookup_insert_eq.
        rewrite !length_insert, !length_app. simpl. lia.
      * unfold h'. rewrite !list_lookup_insert_ne by lia.
        apply lookup_snoc_old, lookup_snoc_new.
      * unfold h'. rewrite list_lookup_insert_ne by auto.
        apply list_lookup_insert_eq. rewrite !length_insert, !length_app. simpl. lia.
      * unfold h'. rewrite !list_lookup_insert_ne by lia.
        rewrite list_lookup_insert_eq by (rewrite !length_app; simpl; lia).
        rewrite Hput. reflexivity.
      * right. reflexivity.
      * intros c Hc Hcr Hce Hcb. unfold h'. rewrite !list_lookup_insert_ne by lia.
        rewrite lookup_app_l by (rewrite length_app; lia). apply lookup_app_l, Hc.
      * lia.
      * repeat constructor; discriminate.
      * unfold h'. repeat apply defined_props_insert;
          try (repeat apply defined_props_snoc; try exact Hd; reflexivity);
          try reflexivity; simpl; apply defined_replace_prop;
          try reflexivity; assumption.
      * split; [|exact Ht'].
        rewrite Hdoc, (insert_take_drop B), Nat.add_1_r by lia. reflexivity.
Qed.

(** * A loaded collection is a tree *)

Section PutCells.

Context {A : Type}.
Variable G : A -> list loc.

Lemma flat_map_replace_elem (k : string) (v : A) (acc : list (string * A)) (c : loc) :
  c ∈ flat_map (fun kv => G (snd kv)) (replace_prop k v acc) ->
  c ∈ G v \/ c ∈ flat_map (fun kv => G (snd kv)) acc.
Proof.
  induction acc as [|[k' v'] acc IH]; simpl; [intros H; inversion H|].
  destruct (String.eqb k k'); simpl; rewrite !elem_of_app.
  - intros [H|H]; auto.
  - intros [H|H]; auto. destruct (IH H); auto.
Qed.

Lemma flat_map_insert_elem (n : nat) (k : string) (v : A) (acc : list (string * A))
    (c : loc) :
  c ∈ flat_map (fun kv => G (snd kv)) (insert_index n k v acc) ->
  c ∈ G v \/ c ∈ flat_map (fun kv => G (snd kv)) acc.
Proof.
  induction acc as [|[k' v'] acc IH]; simpl.
  - rewrite app_nil_r. auto.
  - destruct (index_of_key k') as [n'|]; [destruct (n' <? n)%nat|]; simpl;
      rewrite !elem_of_app; tauto.
Qed.

Lemma flat_map_put_elem (k : string) (v : A) (acc : list (string * A)) (c : loc) :
  c ∈ flat_map (fun kv => G (snd kv)) (put_prop k v acc) ->
  c ∈ G v \/ c ∈ flat_map (fun kv => G (snd kv)) acc.
Proof.
  unfold put_prop. destruct (lookup_prop k acc); [apply flat_map_replace_elem|].
  destruct (index_of_key k); [apply flat_map_insert_elem|].
  rewrite flat_map_app, elem_of_app. simpl. rewrite app_nil_r. tauto.
Qed.

Lemma NoDup_put_prop (k : string) (v : A) (acc : list (string * A)) :
  NoDup (G v) ->
  NoDup (flat_map (fun kv => G (snd kv)) acc) ->
  (forall c, c ∈ G v -> c ∉ flat_map (fun kv => G (snd kv)) acc) ->
  NoDup (flat_map (fun kv => G (snd kv)) (put_prop k v acc)).
Proof.
  intros Hv Hacc Hdisj. unfold put_prop.
  destruct (lookup_prop k acc) as [_x|]; [|destruct (index_of_key k) as [n|]].
  - clear _x. induction acc as [|[k' v'] acc IH]; simpl in *; [constructor|].
    apply NoDup_app in Hacc as (H1 & H2 & H3).
    destruct (String.eqb k k'); simpl; apply NoDup_app.
    + split; [exact Hv|]. split; [|exact H3].
      intros c Hc Hc'. apply (Hdisj c Hc), elem_of_app. right. exact Hc'.
    + split; [exact H1|]. split.
      * intros c Hc Hc'. apply flat_map_replace_elem in Hc' as [Hc'|Hc'].
        -- apply (Hdisj c Hc'), elem_of_app. left. exact Hc.
        -- apply (H2 c Hc Hc').
      * apply IH; [exact H3|]. intros c Hc Hc'. apply (Hdisj c Hc), elem_of_app.
        right. exact Hc'.
  - induction acc as [|[k' v'] acc IH]; simpl in *.
    + rewrite app_nil_r. exact Hv.
    + apply NoDup_app in Hacc as (H1 & H2 & H3).
      assert (Hnew : NoDup (G v ++ G v' ++ flat_map (fun kv => G (snd kv)) acc)).
      { apply NoDup_app. split; [exact Hv|]. split; [exact Hdisj|].
        apply NoDup_app. auto. }
      destruct (index_of_key k') as [n'|]; [destruct (n' <? n)%nat|]; simpl;
        try exact Hnew.
      apply NoDup_app. split; [exact H1|]. split.
      * intros c Hc Hc'. apply flat_map_insert_elem in Hc' as [Hc'|Hc'].
        -- apply (Hdisj c Hc'), elem_of_app. left. exact Hc.
        -- apply (H2 c Hc Hc').
      * apply IH; [exact H3|]. intros c Hc Hc'. apply (Hdisj c Hc), elem_of_app.
        right. exact Hc'.
  - rewrite flat_map_app. simpl. rewrite app_nil_r. apply NoDup_app.
    split; [exact Hacc|]. split; [|exact Hv].
    intros c Hc Hc'. apply (Hdisj c Hc' Hc).
Qed.

Lemma put_all_cells (kvs : list (string * A)) :
  NoDup (flat_map (fun kv => G (snd kv)) kvs) ->
  NoDup (flat_map (fun kv => G (snd kv)) (put_all kvs))
  /\ forall c, c ∈ flat_map (fun kv => G (snd kv)) (put_all kvs) ->
               c ∈ flat_map (fun kv => G (snd kv)) kvs.
Proof.
  unfold put_all. intros Hnd.
  assert (Hgen : forall kvs acc,
             NoDup (flat_map (fun kv => G (snd kv)) acc
                    ++ flat_map (fun kv => G (snd kv)) kvs) ->
             NoDup (flat_map (fun kv => G (snd kv))
                      (fold_left (fun acc kv => put_prop (fst kv) (snd kv) acc) kvs acc))
             /\ forall c,
                  c ∈ flat_map (fun kv => G (snd kv))
                        (fold_left (fun acc kv => put_prop (fst kv) (snd kv) acc) kvs acc) ->
                  c ∈ flat_map (fun kv => G (snd kv)) acc
                  \/ c ∈ flat_map (fun kv => G (snd kv)) kvs).
  { clear. induction kvs as [|[k v] kvs IH]; simpl; intros acc H.
    - rewrite app_nil_r in H. split; [exact H|]. auto.
    - apply NoDup_app in H as (H1 & H2 & H3).
      apply NoDup_app in H3 as (H4 & H5 & H6).
      destruct (IH (put_prop k v acc)) as [IH1 IH2].
      + apply NoDup_app. split; [|split; [|exact H6]].
        * apply NoDup_put_prop; [exact H4|exact H1|].
          intros c Hc Hc'. apply (H2 c Hc'), elem_of_app. left. exact Hc.
        * intros c Hc Hc'. apply flat_map_put_elem in Hc as [Hc|Hc].
          -- apply (H5 c Hc Hc').
          -- apply (H2 c Hc), elem_of_app. right. exact Hc'.
      + split; [exact IH1|]. intros c Hc. rewrite elem_of_app.
        destruct (IH2 c Hc) as [Hc'|Hc']; [|auto].
        apply flat_map_put_elem in Hc' as [Hc'|Hc']; auto. }
  destruct (Hgen kvs []) as [H1 H2]; [exact Hnd|].
  split; [exact H1|]. intros c Hc. destruct (H2 c Hc) as [Hc'|Hc']; [inversion Hc'|].
  exact Hc'.
Qed.

End PutCells.

(** ** The cells of a parsed document *)

Lemma build_list_tree (l : list json) :
  Forall (fun j => forall base pre post n, length pre = base ->
            NoDup (reach n (pre ++ snd (build base j) ++ post) (fst (build base j)))
            /\ forall c,
                 c ∈ reach n (pre ++ snd (build base j) ++ post) (fst (build base j)) ->
                 (base <= c < base + length (snd (build base j)))%nat) l ->
  forall base pre post n, length pre = base ->
    NoDup (flat_map (fun e => reach n (pre ++ snd (build_list build base l) ++ post) e)
             (fst (build_list build base l)))
    /\ forall c,
         c ∈ flat_map (fun e => reach n (pre ++ snd (build_list build base l) ++ post) e)
               (fst (build_list build base l)) ->
         (base <= c < base + length (snd (build_list build base l)))%nat.
Proof.
  induction 1 as [|x l Hx _ IH]; intros base pre post n Hpre; simpl.
  - split; [constructor|]. intros c Hc. inversion Hc.
  - specialize (Hx base pre). destruct (build base x) as [v b1]. simpl in Hx.
    specialize (IH (base + length b1)%nat (pre ++ b1)).
    destruct (build_list build (base + length b1) l) as [vs b2]. simpl in *.
    destruct (Hx (b2 ++ post) n Hpre) as [H1 H2].
    destruct (IH post n) as [H3 H4]; [rewrite length_app; lia|].
    rewrite <- !app_assoc in *. split.
    + apply NoDup_app. split; [exact H1|]. split; [|exact H3].
      intros c Hc Hc'. apply H2 in Hc. apply H4 in Hc'. lia.
    + intros c Hc. rewrite length_app.
      apply elem_of_app in Hc as [Hc|Hc]; [apply H2 in Hc|apply H4 in Hc]; lia.
Qed.

Lemma build_members_tree (m : list (string * json)) :
  Forall (fun kv => forall base pre post n, length pre = base ->
            NoDup (reach n (pre ++ snd (build base (snd kv)) ++ post)
                     (fst (build base (snd kv))))
            /\ forall c,
                 c ∈ reach n (pre ++ snd (build base (snd kv)) ++ post)
                       (fst (build base (snd kv))) ->
                 (base <= c < base + length (snd (build base (snd kv))))%nat) m ->
  forall base pre post n, length pre = base ->
    NoDup (flat_map (fun kv => reach n (pre ++ snd (build_members build base m) ++ post)
                                 (snd kv))
             (fst (build_members build base m)))
    /\ forall c,
         c ∈ flat_map (fun kv => reach n (pre ++ snd (build_members build base m) ++ post)
                                   (snd kv))
               (fst (build_members build base m)) ->
         (base <= c < base + length (snd (build_members build base m)))%nat.
Proof.
  induction 1 as [|[k x] m Hx _ IH]; intros base pre post n Hpre; simpl.
  - split; [constructor|]. intros c Hc. inversion Hc.
  - simpl in Hx. specialize (Hx base pre). destruct (build base x) as [v b1].
    simpl in Hx.
    specialize (IH (base + length b1)%nat (pre ++ b1)).
    destruct (build_members build (base + length b1) m) as [kvs b2]. simpl in *.
    destruct (Hx (b2 ++ post) n Hpre) as [H1 H2].
    destruct (IH post n) as [H3 H4]; [rewrite length_app; lia|].
    rewrite <- !app_assoc in *. split.
    + apply NoDup_app. split; [exact H1|]. split; [|exact H3].
      intros c Hc Hc'. apply H2 in Hc. apply H4 in Hc'. lia.
    + intros c Hc. rewrite length_app.
      apply elem_of_app in Hc as [Hc|Hc]; [apply H2 in Hc|apply H4 in Hc]; lia.
Qed.

(** The cells of a parsed value are those of its block, each used
    once. *)
Lemma build_tree (j : json) :
  forall base pre post n, length pre = base ->
    NoDup (reach n (pre ++ snd (build base j) ++ post) (fst (build base j)))
    /\ forall c, c ∈ reach n (pre ++ snd (build base j) ++ post) (fst (build base j)) ->
         (base <= c < base + length (snd (build base j)))%nat.
Proof.
  induction j as [|b|z|s|l IH|m IH] using json_ind; intros base pre post n Hpre;
    try (destruct n; simpl; (split; [constructor|intros c Hc; inversion Hc])).
  - pose proof (build_list_tree l IH base pre
                  ([Obj (Some (fst (build_list build base l))) []] ++ post)) as Hl.
    simpl. destruct (build_list build base l) as [vs blk]. simpl in *.
    destruct n as [|n]; simpl; [split; [constructor|intros c Hc; inversion Hc]|].
    destruct (Hl n Hpre) as [H1 H2].
    rewrite <- app_assoc.
    replace ((pre ++ blk ++ [Obj (Some vs) []] ++ post) !! (base + length blk)%nat)
      with (Some (Obj (Some vs) []))
      by (symmetry; rewrite app_assoc; apply list_lookup_middle;
          rewrite length_app; lia).
    split.
    + apply NoDup_cons. split; [|exact H1]. intros Hc. apply H2 in Hc. lia.
    + intros c Hc. rewrite length_app. simpl.
      apply elem_of_cons in Hc as [->|Hc]; [lia|]. apply H2 in Hc. lia.
  - pose proof (build_members_tree m IH base pre
      ([Obj None (put_all (fst (build_members build base m)))] ++ post)) as Hm.
    simpl. destruct (build_members build base m) as [kvs blk]. simpl in *.
    destruct n as [|n]; simpl; [split; [constructor|intros c Hc; inversion Hc]|].
    destruct (Hm n Hpre) as [H1 H2].
    rewrite <- app_assoc.
    replace ((pre ++ blk ++ [Obj None (put_all kvs)] ++ post) !! (base + length blk)%nat)
      with (Some (Obj None (put_all kvs)))
      by (symmetry; rewrite app_assoc; apply list_lookup_middle;
          rewrite length_app; lia).
    destruct (put_all_cells
                (reach n (pre ++ blk ++ [Obj None (put_all kvs)] ++ post)) kvs H1)
      as [H3 H4].
    split.
    + apply NoDup_cons. split; [|exact H3]. intros Hc. apply H4, H2 in Hc. lia.
    + intros c Hc. rewrite length_app. simpl.
      apply elem_of_cons in Hc as [->|Hc]; [lia|]. apply H4, H2 in Hc. lia.
Qed.

(** ... and so are those of a record after the callback of [forEach]. *)
Lemma record_tree (j : json) (base : nat) (pre post : list object) (n : nat) :
  length pre = base ->
  NoDup (reach n (pre ++ backfilled_cells (snd (build base j)) ++ post)
           (fst (build base j)))
  /\ forall c,
       c ∈ reach n (pre ++ backfilled_cells (snd (build base j)) ++ post)
             (fst (build base j)) ->
       (base <= c < base + length (snd (build base j)))%nat.
Proof.
  intros Hpre.
  destruct j as [|b|z|s|l|m];
    try (destruct n; simpl; (split; [constructor|intros c Hc; inversion Hc])).
  - assert (IH : Forall (fun j => forall base pre post n, length pre = base ->
               NoDup (reach n (pre ++ snd (build base j) ++ post) (fst (build base j)))
               /\ forall c,
                    c ∈ reach n (pre ++ snd (build base j) ++ post) (fst (build base j)) ->
                    (base <= c < base + length (snd (build base j)))%nat) l).
    { apply List.Forall_forall. intros j _. apply build_tree. }
    pose proof (build_list_tree l IH base pre
                  ([with_devonly (Obj (Some (fst (build_list build base l))) [])]
                   ++ post)) as Hl.
    simpl. destruct (build_list build base l) as [vs blk]. simpl in *.
    rewrite backfilled_cells_snoc.
    destruct n as [|n]; simpl; [split; [constructor|intros c Hc; inversion Hc]|].
    destruct (Hl n Hpre) as [H1 H2].
    rewrite <- app_assoc.
    replace ((pre ++ blk ++ [with_devonly (Obj (Some vs) [])] ++ post)
               !! (base + length blk)%nat)
      with (Some (with_devonly (Obj (Some vs) [])))
      by (symmetry; rewrite app_assoc; apply list_lookup_middle;
          rewrite length_app; lia).
    simpl. split.
    + apply NoDup_cons. split; [|exact H1]. intros Hc. apply H2 in Hc. lia.
    + intros c Hc. rewrite length_app. simpl.
      apply elem_of_cons in Hc as [->|Hc]; [lia|]. apply H2 in Hc. lia.
  - assert (IH : Forall (fun kv => forall base pre post n, length pre = base ->
               NoDup (reach n (pre ++ snd (build base (snd kv)) ++ post)
                        (fst (build base (snd kv))))
               /\ forall c,
                    c ∈ reach n (pre ++ snd (build base (snd kv)) ++ post)
                          (fst (build base (snd kv))) ->
                    (base <= c < base + length (snd (build base (snd kv))))%nat) m).
    { apply List.Forall_forall. intros kv _. apply build_tree. }
    pose proof (build_members_tree m IH base pre
      ([with_devonly (Obj None (put_all (fst (build_members build base m))))] ++ post))
      as Hm.
    simpl. destruct (build_members build base m) as [kvs blk]. simpl in *.
    rewrite backfilled_cells_snoc.
    destruct n as [|n]; simpl; [split; [constructor|intros c Hc; inversion Hc]|].
    destruct (Hm n Hpre) as [H1 H2].
    rewrite <- app_assoc.
    replace ((pre ++ blk ++ [with_devonly (Obj None (put_all kvs))] ++ post)
               !! (base + length blk)%nat)
      with (Some (with_devonly (Obj None (put_all kvs))))
      by (symmetry; rewrite app_assoc; apply list_lookup_middle;
          rewrite length_app; lia).
    destruct (put_all_cells
                (reach n (pre ++ blk ++ [with_devonly (Obj None (put_all kvs))] ++ post))
                kvs H1) as [H3 H4].
    assert (E : match with_devonly (Obj None (put_all kvs)) with
                | Obj (Some es) _ =>
                    flat_map (reach n (pre ++ blk
                                       ++ [with_devonly (Obj None (put_all kvs))] ++ post))
                      es
                | Obj None m0 =>
                    flat_map (fun kv => reach n (pre ++ blk
                                       ++ [with_devonly (Obj None (put_all kvs))] ++ post)
                                          (snd kv)) m0
                end
                = flat_map (fun kv => reach n (pre ++ blk
                                       ++ [with_devonly (Obj None (put_all kvs))] ++ post)
                                        (snd kv)) (put_all kvs)).
    { unfold with_devonly at 1. simpl.
      destruct (lookup_prop "DevOnly" (put_all kvs)); [reflexivity|].
      rewrite flat_map_app. simpl. destruct n; simpl; rewrite app_nil_r; reflexivity. }
    rewrite E. split.
    + apply NoDup_cons. split; [|exact H3]. intros Hc. apply H4, H2 in Hc. lia.
    + intros c Hc. rewrite length_app. simpl.
      apply elem_of_cons in Hc as [->|Hc]; [lia|]. apply H4, H2 in Hc. lia.
Qed.

(** ** No property of a parsed document is undefined *)

Lemma defined_props_app (h1 h2 : heap) :
  defined_props (h1 ++ h2) = defined_props h1 && defined_props h2.
Proof. unfold defined_props. apply forallb_app. Qed.

Lemma build_list_defined_props (l : list json) :
  Forall (fun j => forall base, defined_props (snd (build base j)) = true) l ->
  forall base, defined_props (snd (build_list build base l)) = true.
Proof.
  induction 1 as [|x l Hx _ IH]; intros base; simpl; [reflexivity|].
  specialize (Hx base). destruct (build base x) as [v b1]. simpl in Hx.
  specialize (IH (base + length b1)%nat).
  destruct (build_list build (base + length b1) l) as [vs b2]. simpl in *.
  rewrite defined_props_app, Hx, IH. reflexivity.
Qed.

Lemma build_members_defined_props (m : list (string * json)) :
  Forall (fun kv => forall base, defined_props (snd (build base (snd kv))) = true) m ->
  forall base,
    defined_props (snd (build_members build base m)) = true
    /\ Forall (fun kv => negb (is_undef (snd kv)) = true)
              (fst (build_members build base m)).
Proof.
  induction 1 as [|[k x] m Hx _ IH]; intros base; simpl; [split; [reflexivity|constructor]|].
  simpl in Hx. specialize (Hx base). pose proof (build_defined x base) as Hv.
  destruct (build base x) as [v b1]. simpl in Hx, Hv.
  specialize (IH (base + length b1)%nat).
  destruct (build_members build (base + length b1) m) as [kvs b2]. simpl in *.
  destruct IH as [IH1 IH2]. rewrite defined_props_app, Hx, IH1. split; [reflexivity|].
  constructor; [|exact IH2]. simpl. destruct v; try reflexivity. contradiction.
Qed.

Lemma build_defined_props (j : json) :
  forall base, defined_props (snd (build base j)) = true.
Proof.
  induction j as [|b|z|s|l IH|m IH] using json_ind; intros base; try reflexivity.
  - pose proof (build_list_defined_props l IH base) as Hl.
    simpl. destruct (build_list build base l) as [vs blk]. simpl in *.
    rewrite defined_props_app, Hl. reflexivity.
  - pose proof (build_members_defined_props m IH base) as [Hm Hv].
    simpl. destruct (build_members build base m) as [kvs blk]. simpl in *.
    rewrite defined_props_app, Hm. unfold defined_props. simpl.
    rewrite andb_true_r. apply forallb_Forall.
    apply (Forall_put_all (fun v => negb (is_undef v) = true)), Hv.
Qed.

Lemma backfilled_cells_defined (blk : list object) :
  defined_props blk = true -> defined_props (backfilled_cells blk) = true.
Proof.
  intros H. destruct (rev blk) as [|o before] eqn:E; unfold backfilled_cells; rewrite E;
    [reflexivity|].
  apply (f_equal (@rev _)) in E. rewrite rev_involutive in E. subst blk. simpl in H.
  rewrite defined_props_app in *. apply andb_true_iff in H as [H1 H2]. rewrite H1.
  unfold defined_props in *. simpl in *. rewrite andb_true_r in *.
  unfold with_devonly. destruct (lookup_prop "DevOnly" (props o)); [exact H2|].
  simpl. rewrite forallb_app, H2. reflexivity.
Qed.

Lemma build_list_values_defined (l : list json) (base : nat) :
  Forall (fun v => v <> VUndef) (fst (build_list build base l)).
Proof.
  revert base. induction l as [|x l IH]; intros base; simpl; [constructor|].
  pose proof (build_defined x base) as Hv. destruct (build base x) as [v b1].
  specialize (IH (base + length b1)%nat).
  destruct (build_list build (base + length b1) l) as [vs b2]. simpl in *.
  constructor; assumption.
Qed.

(** ** The records after the callback has run on each *)

Lemma backfill_records_tree (recs : list json) :
  forall base pre post s s',
    length pre = base ->
    store s = pre ++ snd (build_list build base recs) ++ post ->
    for_each each_record (fst (build_list build base recs)) s = (Ok tt, s') ->
    exists blk',
      length blk' = length (snd (build_list build base recs))
      /\ s' = set_store (pre ++ blk' ++ post) s
      /\ defined_props blk' = true
      /\ forall post' n,
           NoDup (flat_map (fun e => reach n (pre ++ blk' ++ post') e)
                    (fst (build_list build base recs)))
           /\ forall c,
                c ∈ flat_map (fun e => reach n (pre ++ blk' ++ post') e)
                      (fst (build_list build base recs)) ->
                (base <= c < base + length blk')%nat.
Proof.
  induction recs as [|x recs IH]; intros base pre post s s' Hpre Hstore Hrun.
  - simpl in *. inversion Hrun; subst s'. exists []. simpl.
    split; [reflexivity|]. split; [rewrite <- Hstore, set_store_same; reflexivity|].
    split; [reflexivity|]. intros post' n. split; [constructor|].
    intros c Hc. inversion Hc.
  - simpl in *.
    pose proof (backfill_record x base pre
                  (snd (build_list build (base + length (snd (build base x))) recs) ++ post)
                  s Hpre) as Hx.
    pose proof (each_record_built x base) as Hw.
    pose proof (record_tree x base pre) as Htree.
    pose proof (build_defined_props x base) as Hdx.
    destruct (build base x) as [v b1]. simpl in *.
    specialize (IH (base + length b1)%nat (pre ++ backfilled_cells b1) post).
    destruct (build_list build (base + length b1) recs) as [vs b2]. simpl in *.
    rewrite <- app_assoc in Hstore. specialize (Hx Hstore).
    unfold bind in Hrun. rewrite Hw in Hrun.
    destruct (backfilled (normalize x)) as [b|e].
    2: { rewrite Hx in Hrun. discriminate. }
    destruct Hx as (_ & Hrun1 & _). rewrite Hrun1 in Hrun.
    destruct (IH (set_store (pre ++ backfilled_cells b1 ++ b2 ++ post) s) s')
      as (blk2 & Hlen & Hs' & Hd2 & Hall).
    { rewrite length_app, length_backfilled_cells. lia. }
    { simpl. rewrite <- app_assoc. reflexivity. }
    { exact Hrun. }
    exists (backfilled_cells b1 ++ blk2). split; [|split; [|split]].
    + rewrite !length_app, length_backfilled_cells. lia.
    + rewrite Hs', set_store_twice, <- !app_assoc. reflexivity.
    + rewrite defined_props_app, Hd2, (backfilled_cells_defined _ Hdx). reflexivity.
    + intros post' n. destruct (Htree (blk2 ++ post') n Hpre) as [H1 H2].
      destruct (Hall post' n) as [H3 H4].
      rewrite <- !app_assoc in *. rewrite length_app, length_backfilled_cells. split.
      * apply NoDup_app. split; [exact H1|]. split; [|exact H3].
        intros c Hc Hc'. apply H2 in Hc. apply H4 in Hc'. lia.
      * intros c Hc.
        apply elem_of_app in Hc as [Hc|Hc]; [apply H2 in Hc|apply H4 in Hc]; lia.
Qed.

Lemma load_steps_tidy (lc : string -> string -> comparison)
    (s s1 s' : state) (t p : string) (doc : json) :
  resolve_source s = (Ok (Some (t, p)), s1) ->
  JSON_parse t = Ok doc ->
  load_steps lc s = (Ok tt, s') ->
  defined_props (store s) = true ->
  tidy s' = true.
Proof.
  intros Hres Hparse Hrun Hd.
  destruct (resolve_source_path _ _ _ _ Hres) as [Hp _].
  pose proof (resolve_source_state _ _ _ Hres) as Hs1.
  assert (Harr : exists recs, doc = JArr recs).
  { destruct doc as [|b|z|str|l|m]; try (eexists; reflexivity); exfalso;
      (destruct (load_steps_not_an_array lc s s1 t p _ Hres Hparse) as [s2 H2];
       [intros l'; discriminate|rewrite Hrun in H2; discriminate]). }
  destruct Harr as [recs ->].
  unfold load_steps, load_steps_on, bind at 1 in Hrun. rewrite Hres in Hrun. unfold bind at 1 in Hrun.
  rewrite (remember_path_result p s1 Hp) in Hrun.
  set (s2 := if mem (configPath s1) (readonly s1) then _ else _) in Hrun.
  assert (Hs2 : store s2 = store s).
  { subst s2. destruct (mem (configPath s1) (readonly s1)); rewrite Hs1; reflexivity. }
  clearbody s2.
  unfold bind at 1 in Hrun. rewrite parse_into_store_result, Hparse in Hrun.
  rewrite <- Hs2 in Hd. set (h := store s2) in *.
  pose proof (backfill_records_tree recs (length h) h
                [Obj (Some (fst (build_list build (length h) recs))) []]) as Hloop.
  pose proof (build_list_values_defined recs (length h)) as Hdef.
  simpl in Hrun. destruct (build_list build (length h) recs) as [vs blk]. simpl in *.
  set (s3 := set_store _ s2) in Hrun.
  assert (Hs3 : store s3 = h ++ blk ++ [Obj (Some vs) []]) by reflexivity.
  unfold bind at 1, array_forEach, bind at 1, on_store in Hrun.
  rewrite Hs3 in Hrun at 1.
  rewrite lookup_block_end in Hrun by reflexivity.
  change (for_each _ vs s3) with (for_each each_record vs s3) in Hrun.
  destruct (for_each each_record vs s3) as [[[]|e] s4] eqn:Hfor; [|discriminate].
  destruct (Hloop s3 s4 eq_refl Hs3 Hfor) as (blk' & Hlen & -> & Hdb & Htree).
  destruct (filter_defined vs Hdef) as [Hf1 Hf2].
  unfold bind at 1, update_store, array_sort, array_sort_on in Hrun.
  cbn [store set_store] in Hrun.
  rewrite lookup_block_end in Hrun by lia.
  rewrite Hf1, Hf2 in Hrun.
  destruct (sort_by (compare_names lc (h ++ blk' ++ [Obj (Some vs) []])) vs)
    as [sorted|e] eqn:Hsort; simpl in Hrun; [|discriminate].
  rewrite insert_block_end in Hrun by lia.
  inversion Hrun; subst s'; clear Hrun.
  apply sort_by_Permutation in Hsort.
  unfold tidy, unshared. cbn [store items set_store set_items set_toasts].
  apply andb_true_iff. split.
  - apply distinct_NoDup. rewrite !length_app. simpl.
    replace (length h + (length blk' + 1))%nat with (S (length h + length blk)) by lia.
    simpl. rewrite lookup_block_end by lia. rewrite app_nil_r.
    destruct (Htree [Obj (Some (sorted ++ [])) []] (length h + length blk)%nat)
      as [H1 H2].
    rewrite app_nil_r in H1, H2.
    assert (Hperm : Permutation
              (flat_map (fun e => reach (length h + length blk)
                                    (h ++ blk' ++ [Obj (Some sorted) []]) e) vs)
              (flat_map (fun e => reach (length h + length blk)
                                    (h ++ blk' ++ [Obj (Some sorted) []]) e) sorted)).
    { apply Permutation_flat_map, Hsort. }
    apply NoDup_cons. split.
    + intros Hc. apply list_elem_of_In in Hc.
      apply (Permutation_in _ (Permutation_sym Hperm)), list_elem_of_In, H2 in Hc. lia.
    + change (NoDup (flat_map (fun e => reach (length h + length blk)
                                       (h ++ blk' ++ [Obj (Some sorted) []]) e) sorted)).
      rewrite <- Hperm. exact H1.
  - rewrite !defined_props_app, Hd, Hdb. reflexivity.
Qed.

(** X24.  After a load that shows the success message the collection is
    a tree: no object or array is in two places of it, and no property
    holds [undefined].  (No property of the store before the load holds
    [undefined].) *)
Theorem load_gives_a_tree (lc : string -> string -> comparison)
    (s s' : state) (r : outcome unit) :
  loadJsonData lc s = (r, s') ->
  toasts s' = toasts s ++ [load_succeeded] ->
  defined_props (store s) = true ->
  tidy s' = true.
Proof.
  intros Hload Htoast Hd.
  destruct (load_success_inv lc s s' r Hload Htoast)
    as (t & p & s1 & doc & T & Hres & Hparse & _).
  destruct (load_steps lc s) as [[[]|e] s2] eqn:Hrun.
  - assert (s' = s2).
    { unfold loadJsonData, try_catch in Hload. rewrite Hrun in Hload.
      inversion Hload. reflexivity. }
    subst s2. eapply load_steps_tidy; eassumption.
  - exfalso. pose proof (load_steps_outcome _ _ _ _ Hrun) as (_ & _ & Ht & _).
    unfold loadJsonData, try_catch in Hload. rewrite Hrun in Hload.
    destruct e; inversion Hload; subst; simpl in Htoast;
      try (rewrite Ht in Htoast; apply app_inj_tail in Htoast as [_ Hx];
           discriminate Hx).
    rewrite Ht in Htoast. eapply toasts_not_extended, Htoast.
Qed.

(** * The sample record, edited and saved *)

Ltac settle := first [lia | run].

Lemma updateField_document_sample :
  exists s',
    updateField "OverallStatus" (VNum 3) sample_selected = (Ok tt, s')
    /\ snapshot s'
       = Ok (Some (JArr (<[Z.to_nat 1 :=
                            JObj (replace_prop "OverallStatus" (JNum 3) banana)]>
                           sample_records)))
    /\ tidy s' = true.
Proof.
  apply (updateField_document sample_selected sample_records 1 banana
           "OverallStatus" (VNum 3) (JNum 3) (JNum 1)); settle.
Defined.

Lemma list_edits_document_sample :
  (forall x jx, prim_doc x = Some jx ->
     exists s', addArrayItem "FeaturesNotEmulated" x sample_selected = (Ok tt, s')
                /\ list_saved s' sample_records 1 banana "FeaturesNotEmulated"
                     ([JStr "p"; JStr "q"] ++ [jx]))
  /\ (forall index, 0 <= index < Z.of_nat (length [JStr "p"; JStr "q"]) ->
        exists s', removeArrayItem "FeaturesNotEmulated" index sample_selected
                   = (Ok tt, s')
                   /\ list_saved s' sample_records 1 banana "FeaturesNotEmulated"
                        (take (Z.to_nat index) [JStr "p"; JStr "q"]
                         ++ drop (S (Z.to_nat index)) [JStr "p"; JStr "q"]))
  /\ (forall index x jx,
        0 <= index < Z.of_nat (length [JStr "p"; JStr "q"]) -> index < 4294967295 ->
        prim_doc x = Some jx ->
        exists s', updateArrayItem "FeaturesNotEmulated" index x sample_selected
                   = (Ok tt, s')
                   /\ list_saved s' sample_records 1 banana "FeaturesNotEmulated"
                        (<[Z.to_nat index := jx]> [JStr "p"; JStr "q"])).
Proof.
  apply (list_edits_document sample_selected sample_records 1 banana
           "FeaturesNotEmulated" [JStr "p"; JStr "q"]); settle.
Defined.

Lemma bullet_edits_document_sample :
  (exists s', addBulletPoint 0 sample_selected = (Ok tt, s')
              /\ bullets_saved s' sample_records 1 banana banana_setups 0
                   banana_first_setup ([JStr "one"] ++ [JStr ""]))
  /\ (forall bi, 0 <= bi < Z.of_nat (length [JStr "one"]) ->
        exists s', removeBulletPoint 0 bi sample_selected = (Ok tt, s')
                   /\ bullets_saved s' sample_records 1 banana banana_setups 0
                        banana_first_setup
                        (take (Z.to_nat bi) [JStr "one"]
                         ++ drop (S (Z.to_nat bi)) [JStr "one"]))
  /\ (forall bi v, 0 <= bi < Z.of_nat (length [JStr "one"]) -> bi < 4294967295 ->
        exists s', updateBulletPoint 0 bi v sample_selected = (Ok tt, s')
                   /\ bullets_saved s' sample_records 1 banana banana_setups 0
                        banana_first_setup (<[Z.to_nat bi := JStr v]> [JStr "one"])).
Proof.
  apply (bullet_edits_document sample_selected sample_records 1 0 banana
           banana_first_setup banana_setups [JStr "one"]); settle.
Defined.

Lemma load_gives_a_tree_sample : tidy sample = true.
Proof.
  apply (load_gives_a_tree ascii_collate sample_host sample (Ok tt)); settle.
Defined.

(** * The handlers of the template, in the saved document *)

Lemma list_view (s : state) (T : list json) (i : nat)
    (M : list (string * json)) (field : string) (SD : list json) :
  tidy s = true ->
  snapshot s = Ok (Some (JArr T)) ->
  T !! i = Some (JObj M) ->
  lookup_prop field M = Some (JArr SD) ->
  exists n2 L r a recs es pm ps pa,
    length (store s) = S (S (S n2))
    /\ items s = VRef L
    /\ store s !! L = Some (Obj (Some recs) pm)
    /\ Forall2 (elem_doc (S (S n2)) (store s)) recs T
    /\ NoDup (L :: flat_map (fun x => reach (S (S n2)) (store s) x) recs)
    /\ recs !! i = Some (VRef r)
    /\ store s !! r = Some (Obj None ps)
    /\ Forall2 (related (member_doc (S n2) (store s))) ps M
    /\ NoDup (r :: flat_map (fun kv => reach (S n2) (store s) (snd kv)) ps)
    /\ lookup_prop field ps = Some (VRef a)
    /\ store s !! a = Some (Obj (Some es) pa)
    /\ Forall2 (elem_doc n2 (store s)) es SD
    /\ NoDup (a :: flat_map (fun x => reach n2 (store s) x) es)
    /\ defined_props (store s) = true.
Proof.
  intros Ht Hsnap HT HSD.
  destruct (collection_view s T Ht Hsnap)
    as (n & L & recs & pm & Hlen & Hitems & Hcoll & Hdocs & Hnd & Hd).
  pose proof (proj2 (proj1 (NoDup_cons _ _) Hnd)) as Hnd0.
  destruct (elem_view _ _ _ _ _ _ Hdocs Hnd0 HT) as (e0 & Hrec & Hser & Hnde0);
    [discriminate|].
  destruct (object_view _ _ _ _ Hd Hser Hnde0)
    as (n1 & r & ps & -> & -> & Hcell & Hms & Hndr).
  pose proof (proj2 (proj1 (NoDup_cons _ _) Hndr)) as Hndr0.
  destruct (member_view _ _ _ _ _ _ Hms Hndr0 HSD) as (v & Hv & Hserv & Hndv).
  destruct (array_view _ _ _ _ Hserv Hndv)
    as (n2 & a & es & pa & -> & -> & Hlist & Hes & Hnda).
  exists n2, L, r, a, recs, es, pm, ps, pa. repeat split; assumption.
Qed.

Section ListOfRecord.

Variable s : state.
Variables (n2 : nat) (L r a : loc) (sel : Z).
Variables (recs es : list value) (pm ps pa : list (string * value)).
Variables (T SD : list json) (M : list (string * json)) (field : string).

Hypothesis Hlen : length (store s) = S (S (S n2)).
Hypothesis Hitems : items s = VRef L.
Hypothesis Hcoll : store s !! L = Some (Obj (Some recs) pm).
Hypothesis Hsel : selectedItem s = Some sel.
Hypothesis Hrange : 0 <= sel < 4294967295.
Hypothesis Hrecs : Forall2 (elem_doc (S (S n2)) (store s)) recs T.
Hypothesis HndL : NoDup (L :: flat_map (fun x => reach (S (S n2)) (store s) x) recs).
Hypothesis Hrec : recs !! Z.to_nat sel = Some (VRef r).
Hypothesis Hcell : store s !! r = Some (Obj None ps).
Hypothesis Hps : Forall2 (related (member_doc (S n2) (store s))) ps M.
Hypothesis Hndr : NoDup (r :: flat_map (fun kv => reach (S n2) (store s) (snd kv)) ps).
Hypothesis Hfield : lookup_prop field ps = Some (VRef a).
Hypothesis Hlist : store s !! a = Some (Obj (Some es) pa).
Hypothesis Hes : Forall2 (elem_doc n2 (store s)) es SD.
Hypothesis Hnda : NoDup (a :: flat_map (fun x => reach n2 (store s) x) es).
Hypothesis Hd : defined_props (store s) = true.

(** The record has a new list in [field], and nothing else of the
    collection has changed. *)
Lemma list_renewed (h' : heap) (m2 : nat) (N : list loc) (l' : loc) (J' : json) :
  (n2 <= m2)%nat ->
  length h' = S (S (S m2)) ->
  (forall c, c ∈ N -> (length (store s) <= c)%nat) ->
  h' !! r = Some (Obj None (replace_prop field (VRef l') ps)) ->
  (forall c, (c < length (store s))%nat -> c <> r -> h' !! c = store s !! c) ->
  renewed (store s) (S n2) (VRef a) h' (S m2) (VRef l') J' N ->
  defined_props h' = true ->
  snapshot (set_store h' s)
  = Ok (Some (JArr (<[Z.to_nat sel := JObj (replace_prop field J' M)]> T)))
  /\ tidy (set_store h' s) = true.
Proof.
  intros Hnm Hlen' HN Hr' Hold Hren Hd'.
  pose proof (proj1 (proj1 (NoDup_cons _ _) HndL)) as HL_out.
  pose proof (proj1 (proj1 (NoDup_cons _ _) Hndr)) as Hr_out.
  assert (Hr_in : r ∈ flat_map (fun x => reach (S (S n2)) (store s) x) recs).
  { apply elem_of_flat_map. exists (VRef r).
    split; [eapply list_elem_of_lookup_2, Hrec|]. simpl. left. }
  eapply (collection_renewed s h' (S (S n2)) (S (S m2)) N); try eassumption.
  - lia.
  - rewrite Hold; [exact Hcoll|eapply lookup_lt_Some, Hcoll|]. intros ->.
    contradiction.
  - intros c Hc Hn. apply Hold.
    + eapply (children_valid (fun x => x) elem_doc (store s) (S (S n2))
                (elem_doc_valid (store s) (S (S n2)))); eassumption.
    + intros ->. apply Hn. simpl. left.
  - eapply member_renewed; try eassumption; [lia|].
    intros c Hc Hn. apply Hold.
    + eapply (children_valid snd (fun n h => related (member_doc n h)) (store s) (S n2)
                (member_doc_valid (store s) (S n2))); eassumption.
    + intros ->. contradiction.
Qed.

(** The cells below the list are not the record. *)
Lemma below_list (c : loc) :
  c ∈ flat_map (fun x => reach n2 (store s) x) es ->
  (c < length (store s))%nat /\ c <> r.
Proof.
  intros Hc. split.
  - eapply (children_valid (fun x => x) elem_doc (store s) n2
              (elem_doc_valid (store s) n2)); eassumption.
  - intros ->. apply (proj1 (proj1 (NoDup_cons _ _) Hndr)).
    apply elem_of_flat_map. exists (field, VRef a).
    split; [apply lookup_prop_elem, Hfield|]. simpl. rewrite Hlist. right. exact Hc.
Qed.

(** [addArrayItem] with a template made for the call. *)
Lemma template_added (cells : nat -> list object) (j' : json) :
  (1 <= length (cells (length (store s))))%nat ->
  defined_props (cells (length (store s))) = true ->
  (forall h' m,
     (forall q o, cells (length (store s)) !! q = Some o ->
                  h' !! (length (store s) + q)%nat = Some o) ->
     (2 <= m)%nat ->
     serialize m h' (VRef (length (store s))) = Ok (Some j')
     /\ reach m h' (VRef (length (store s)))
        = seq (length (store s)) (length (cells (length (store s))))) ->
  exists s',
    add_template field cells s = (Ok tt, s')
    /\ snapshot s'
       = Ok (Some (JArr (<[Z.to_nat sel :=
                            JObj (replace_prop field (JArr (SD ++ [j'])) M)]> T)))
    /\ tidy s' = true.
Proof.
  intros Hone Hdc Htpl.
  set (h := store s) in *. set (t := length h) in *.
  set (blk := cells t) in *.
  set (s1 := set_store (h ++ blk) s).
  set (h' := <[r := Obj None (replace_prop field (VRef (length (h ++ blk))) ps)]>
               ((h ++ blk) ++ [Obj (Some (es ++ [VRef t])) []])).
  pose proof (lookup_lt_Some _ _ _ Hcell) as Vr.
  assert (Hrun : add_template field cells s = (Ok tt, set_store h' s)).
  { unfold add_template, bind, alloc_store.
    change (addArrayItem field (VRef t) s1 = (Ok tt, set_store h' s)).
    change (addArrayItem field (VRef t))
      with (edit_copy field (fun h c => h_push h c (VRef t))).
    rewrite (edit_copy_result s1 L r a sel field recs es pm pa ps Hitems
               (lookup_app_l_Some _ _ _ _ Hcoll) Hsel Hrange Hrec
               (lookup_app_l_Some _ _ _ _ Hcell) Hfield
               (lookup_app_l_Some _ _ _ _ Hlist)
               (fun h c => h_push h c (VRef t)) (fun xs => xs ++ [VRef t])).
    - reflexivity.
    - intros h0 l xs p Hl. unfold h_push. rewrite Hl. reflexivity. }
  exists (set_store h' s). split; [exact Hrun|].
  assert (Hlen' : length h' = S (S (S (n2 + length blk + 1)))).
  { unfold h'. rewrite length_insert, !length_app. simpl. (cbv delta [t h] in *; lia). }
  assert (Hold : forall c, (c < length h)%nat -> c <> r -> h' !! c = h !! c).
  { intros c Hc Hne. unfold h'. rewrite list_lookup_insert_ne by auto.
    rewrite lookup_app_l by (rewrite length_app; (cbv delta [t h] in *; lia)). apply lookup_app_l, Hc. }
  assert (Hcells : forall q o, blk !! q = Some o -> h' !! (t + q)%nat = Some o).
  { intros q o Hq. pose proof (lookup_lt_Some _ _ _ Hq) as Vq. unfold h'.
    rewrite list_lookup_insert_ne by (cbv delta [t h] in *; lia).
    rewrite lookup_app_l by (rewrite length_app; (cbv delta [t h] in *; lia)).
    rewrite lookup_app_r by (cbv delta [t h] in *; lia).
    replace (t + q - length h)%nat with q by (cbv delta [t h] in *; lia). exact Hq. }
  destruct (Htpl h' (n2 + length blk + 1)%nat Hcells) as [Hst Hrt]; [(cbv delta [t h] in *; lia)|].
  set (N := seq t (length blk + 1)).
  assert (HN : forall c, c ∈ N -> (length h <= c)%nat).
  { intros c Hc. apply list_elem_of_In, in_seq in Hc. (cbv delta [t h] in *; lia). }
  assert (Hnm : (n2 <= n2 + length blk + 1)%nat) by (cbv delta [t h] in *; lia).
  destruct (children_same (fun e => e) elem_doc h h' n2 (n2 + length blk + 1)
              (fun x y => elem_doc_frame h h' n2 _ x y Hnm) es SD Hes)
    as [H1 H2].
  { intros c Hc. destruct (below_list c Hc). apply Hold; assumption. }
  eapply (list_renewed h' (n2 + length blk + 1) N (length (h ++ blk))
            (JArr (SD ++ [j']))); try eassumption.
  - unfold h'. apply list_lookup_insert_eq. rewrite !length_app. (cbv delta [t h] in *; lia).
  - eapply (renewed_array h h' n2 (n2 + length blk + 1) N a (length (h ++ blk)) es
              (es ++ [VRef t]) pa []).
    + exact Hlist.
    + unfold h'. rewrite list_lookup_insert_ne by (rewrite length_app; (cbv delta [t h] in *; lia)).
      apply lookup_snoc_new.
    + right. apply list_elem_of_In, in_seq. rewrite length_app. (cbv delta [t h] in *; lia).
    + apply Forall2_app; [exact H1|]. constructor; [|constructor].
      exists (Some j'). split; [exact Hst|reflexivity].
    + rewrite flat_map_app. simpl. rewrite app_nil_r, H2, Hrt.
      apply NoDup_app. split; [apply (proj2 (proj1 (NoDup_cons _ _) Hnda))|].
      split; [|apply NoDup_ListNoDup, seq_NoDup].
      intros c Hc Hc'. destruct (below_list c Hc) as [Vc _].
      apply list_elem_of_In, in_seq in Hc'. (cbv delta [t h] in *; lia).
    + rewrite flat_map_app. simpl. rewrite app_nil_r, H2, Hrt.
      rewrite elem_of_app. intros [Hc|Hc].
      * destruct (below_list _ Hc) as [Vc _]. rewrite length_app in Vc. (cbv delta [t h] in *; lia).
      * apply list_elem_of_In, in_seq in Hc. rewrite length_app in Hc. (cbv delta [t h] in *; lia).
    + rewrite flat_map_app. simpl. rewrite app_nil_r, H2, Hrt.
      intros c Hc. apply elem_of_app in Hc as [Hc|Hc]; [left; exact Hc|right].
      apply list_elem_of_In, in_seq. apply list_elem_of_In, in_seq in Hc. (cbv delta [t h] in *; lia).
  - unfold h'. apply defined_props_insert.
    + apply defined_props_snoc; [|reflexivity]. rewrite defined_props_app.
      fold h in Hd. rewrite Hd. exact Hdc.
    + simpl. apply defined_replace_prop; [reflexivity|].
      apply (defined_props_lookup _ _ _ Hd Hcell).
Qed.

End ListOfRecord.

Lemma setup_template_built (t : nat) (h' : heap) (m : nat) :
  (forall q o, setup_template t !! q = Some o -> h' !! (t + q)%nat = Some o) ->
  (2 <= m)%nat ->
  serialize m h' (VRef t) = Ok (Some setup_template_doc)
  /\ reach m h' (VRef t) = seq t (length (setup_template t)).
Proof.
  intros Hcells Hm. destruct m as [|[|m]]; try lia.
  pose proof (Hcells 0%nat _ eq_refl) as H0. pose proof (Hcells 1%nat _ eq_refl) as H1.
  rewrite Nat.add_0_r in H0. rewrite Nat.add_1_r in H1.
  simpl. rewrite H0. simpl. rewrite H1. simpl.
  split; [reflexivity|]. destruct m; reflexivity.
Qed.

Lemma issue_template_built (t : nat) (h' : heap) (m : nat) :
  (forall q o, issue_template !! q = Some o -> h' !! (t + q)%nat = Some o) ->
  (2 <= m)%nat ->
  serialize m h' (VRef t) = Ok (Some issue_template_doc)
  /\ reach m h' (VRef t) = seq t (length issue_template).
Proof.
  intros Hcells Hm. destruct m as [|m]; try lia.
  pose proof (Hcells 0%nat _ eq_refl) as H0. rewrite Nat.add_0_r in H0.
  simpl. rewrite H0. simpl. split; [destruct m; reflexivity|].
  destruct m; reflexivity.
Qed.

(** X25.  The buttons "Add Setup Detail" and "Add Issue" in the
    document that a save writes: the list gets one more entry, at its
    end, with empty texts (and, for a setup detail, no bullet points);
    every other entry, member and record is written as before.  The
    new entry is made of new objects, and the collection stays a tree. *)
Theorem add_entry_document (s : state) (T : list json) (sel : Z)
    (M : list (string * json)) :
  tidy s = true ->
  snapshot s = Ok (Some (JArr T)) ->
  selectedItem s = Some sel ->
  0 <= sel < 4294967295 ->
  T !! Z.to_nat sel = Some (JObj M) ->
  (forall SD, lookup_prop "SetupDetails" M = Some (JArr SD) ->
     exists s', addSetupDetail s = (Ok tt, s')
                /\ list_saved s' T sel M "SetupDetails" (SD ++ [setup_template_doc]))
  /\ (forall CI, lookup_prop "CommonIssues" M = Some (JArr CI) ->
        exists s', addIssue s = (Ok tt, s')
                   /\ list_saved s' T sel M "CommonIssues" (CI ++ [issue_template_doc])).
Proof.
  intros Ht Hsnap Hsel Hrange HT. unfold list_saved. split.
  - intros SD HSD.
    destruct (list_view s T _ M "SetupDetails" SD Ht Hsnap HT HSD)
      as (n2 & L & r & a & recs & es & pm & ps & pa & Hlen & Hitems & Hcoll & Hrecs
          & HndL & Hrec & Hcell & Hps & Hndr & Hfield & Hlist & Hes & Hnda & Hd).
    apply (template_added s n2 L r a sel recs es pm ps pa T SD M "SetupDetails"
             Hlen Hitems Hcoll Hsel Hrange Hrecs HndL Hrec Hcell Hps Hndr Hfield Hlist
             Hes Hnda Hd setup_template setup_template_doc).
    + simpl. lia.
    + reflexivity.
    + intros h' m. apply setup_template_built.
  - intros CI HCI.
    destruct (list_view s T _ M "CommonIssues" CI Ht Hsnap HT HCI)
      as (n2 & L & r & a & recs & es & pm & ps & pa & Hlen & Hitems & Hcoll & Hrecs
          & HndL & Hrec & Hcell & Hps & Hndr & Hfield & Hlist & Hes & Hnda & Hd).
    apply (template_added s n2 L r a sel recs es pm ps pa T CI M "CommonIssues"
             Hlen Hitems Hcoll Hsel Hrange Hrecs HndL Hrec Hcell Hps Hndr Hfield Hlist
             Hes Hnda Hd (fun _ => issue_template) issue_template_doc).
    + simpl. lia.
    + reflexivity.
    + intros h' m. apply issue_template_built.
Qed.

(** ** The texts of an entry *)

Section EntryOfList.

Variable s : state.
Variables (n3 : nat) (L r a e : loc) (sel index : Z).
Variables (recs es : list value) (pm ps pa me : list (string * value)).
Variables (T SD : list json) (M ME : list (string * json)) (field : string).

Hypothesis Hlen : length (store s) = S (S (S (S n3))).
Hypothesis Hitems : items s = VRef L.
Hypothesis Hcoll : store s !! L = Some (Obj (Some recs) pm).
Hypothesis Hsel : selectedItem s = Some sel.
Hypothesis Hrange : 0 <= sel < 4294967295.
Hypothesis Hrecs : Forall2 (elem_doc (S (S (S n3))) (store s)) recs T.
Hypothesis HndL :
  NoDup (L :: flat_map (fun x => reach (S (S (S n3))) (store s) x) recs).
Hypothesis Hrec : recs !! Z.to_nat sel = Some (VRef r).
Hypothesis Hcell : store s !! r = Some (Obj None ps).
Hypothesis Hps : Forall2 (related (member_doc (S (S n3)) (store s))) ps M.
Hypothesis Hndr :
  NoDup (r :: flat_map (fun kv => reach (S (S n3)) (store s) (snd kv)) ps).
Hypothesis Hfield : lookup_prop field ps = Some (VRef a).
Hypothesis Hlist : store s !! a = Some (Obj (Some es) pa).
Hypothesis Hes : Forall2 (elem_doc (S n3) (store s)) es SD.
Hypothesis Hnda : NoDup (a :: flat_map (fun x => reach (S n3) (store s) x) es).
Hypothesis Hd : defined_props (store s) = true.
Hypothesis Hindex : 0 <= index < 4294967295.
Hypothesis Hentry : es !! Z.to_nat index = Some (VRef e).
Hypothesis Hdetail : store s !! e = Some (Obj None me).
Hypothesis Hme : Forall2 (related (member_doc n3 (store s))) me ME.
Hypothesis Hnde : NoDup (e :: flat_map (fun kv => reach n3 (store s) (snd kv)) me).

Lemma setEntryMember_store (member text : string) :
  mem member object_members = false ->
  setEntryMember field index member text s
  = (Ok tt,
     set_store
       (<[r := Obj None (replace_prop field (VRef (S (length (store s)))) ps)]>
          ((store s ++ [Obj None (put_prop member (VStr text) (put_all me))])
           ++ [Obj (Some (<[Z.to_nat index := VRef (length (store s))]> es)) []])) s).
Proof.
  intros Hmem.
  pose proof (lookup_lt_Some _ _ _ Hentry) as Vk.
  unfold setEntryMember, bind at 1, read. rewrite Hsel. unfold bind at 1.
  rewrite (selected_record_at_cell s L r sel recs pm Hitems Hcoll Hrange Hrec).
  unfold bind at 1, on_store. rewrite (h_get_own _ _ _ _ _ Hcell Hfield).
  unfold bind at 1. rewrite (h_get_element _ _ _ _ _ Hlist Hindex), Hentry.
  cbn [default from_option]. unfold bind at 1, alloc_store, h_copy_object.
  unfold id. rewrite Hdetail. unfold bind at 1, update_store. cbn [store set_store].
  rewrite (h_set_plain _ _ _ _ _ (lookup_snoc_new _ _) Hmem), insert_snoc.
  set (s2 := set_store _ _).
  change (updateArrayItem field index (VRef (length (store s))))
    with (edit_copy field
            (fun h c => h_set h c (key_of_number index) (VRef (length (store s))))).
  rewrite (edit_copy_result s2 L r a sel field recs es pm pa ps Hitems
             (lookup_snoc_old _ _ _ _ Hcoll) Hsel Hrange Hrec
             (lookup_snoc_old _ _ _ _ Hcell) Hfield
             (lookup_snoc_old _ _ _ _ Hlist)
             (fun h c => h_set h c (key_of_number index) (VRef (length (store s))))
             (put_elem (Z.to_nat index) (VRef (length (store s))))).
  - unfold s2. cbn [store set_store]. rewrite length_app. simpl.
    rewrite Nat.add_1_r. unfold put_elem.
    destruct (Nat.ltb_spec (Z.to_nat index) (length es)); [reflexivity|lia].
  - intros h0 l xs p Hl. unfold h_set. rewrite Hl, index_of_key_number by exact Hindex.
    reflexivity.
Qed.

Lemma entry_member_document (member text : string) :
  mem member object_members = false ->
  exists s',
    setEntryMember field index member text s = (Ok tt, s')
    /\ snapshot s'
       = Ok (Some (JArr (<[Z.to_nat sel :=
            JObj (replace_prop field
                    (JArr (<[Z.to_nat index :=
                       JObj (put_prop member (JStr text) (put_all ME))]> SD)) M)]> T)))
    /\ tidy s' = true.
Proof.
  intros Hmem. eexists. split; [apply setEntryMember_store, Hmem|].
  set (h := store s) in *.
  set (h' := <[r := _]> _).
  pose proof (lookup_lt_Some _ _ _ Hcell) as Vr.
  pose proof (lookup_lt_Some _ _ _ Hentry) as Vk.
  pose proof (proj1 (proj1 (NoDup_cons _ _) Hndr)) as Hr_out.
  pose proof (proj2 (proj1 (NoDup_cons _ _) Hnde)) as Hnde0.
  assert (Hold : forall c, (c < length h)%nat -> c <> r -> h' !! c = h !! c).
  { intros c Hc Hne. unfold h'. rewrite list_lookup_insert_ne by auto.
    rewrite lookup_app_l by (rewrite length_app; lia). apply lookup_app_l, Hc. }
  assert (Hlen' : length h' = S (S (S (S (S (S n3)))))).
  { unfold h'. rewrite length_insert, !length_app. simpl. lia. }
  assert (He_in : forall c, c ∈ reach (S n3) h (VRef e) ->
                    c ∈ flat_map (fun x => reach (S n3) h x) es).
  { intros c Hc. apply elem_of_flat_map. exists (VRef e).
    split; [eapply list_elem_of_lookup_2, Hentry|exact Hc]. }
  assert (Hbelow : forall c, c ∈ flat_map (fun x => reach (S n3) h x) es ->
                     (c < length h)%nat /\ c <> r).
  { intros c Hc.
    apply (below_list s (S n3) r a es ps pa SD field Hndr Hfield Hlist Hes c Hc). }
  assert (Hme_in : forall c, c ∈ flat_map (fun kv => reach n3 h (snd kv)) me ->
                     c ∈ reach (S n3) h (VRef e)).
  { intros c Hc. simpl. rewrite Hdetail. right. exact Hc. }
  assert (HN1 : forall c, c ∈ [length h] -> (length h <= c)%nat).
  { intros c Hc. apply list_elem_of_singleton in Hc. subst. apply le_n. }
  assert (HN2 : forall c, c ∈ [length h; S (length h)] -> (length h <= c)%nat).
  { intros c Hc. apply elem_of_cons in Hc as [->|Hc]; [apply le_n|].
    apply list_elem_of_singleton in Hc. subst. apply Nat.le_succ_diag_r. }
  (* the new entry *)
  destruct (children_same snd (fun n h => related (member_doc n h)) h h' n3 (S (S n3))
              (fun x y => member_doc_frame h h' n3 (S (S n3)) x y
                            (Nat.le_trans _ _ _ (Nat.le_succ_diag_r _)
                               (Nat.le_succ_diag_r _))) me ME Hme) as [H1 H2].
  { intros c Hc. destruct (Hbelow c (He_in c (Hme_in c Hc))). apply Hold; assumption. }
  destruct (serialize_prim (S (S n3)) h' (VStr text) (JStr text) eq_refl) as [Hsx Hrx].
  assert (Hnd_all : NoDup (flat_map (fun kv => reach (S (S n3)) h' (snd kv)) (put_all me))
                    /\ forall c,
                         c ∈ flat_map (fun kv => reach (S (S n3)) h' (snd kv)) (put_all me) ->
                         c ∈ flat_map (fun kv => reach n3 h (snd kv)) me).
  { destruct (put_all_cells (reach (S (S n3)) h') me) as [Ha Hb].
    - rewrite H2. exact Hnde0.
    - split; [exact Ha|]. intros c Hc. rewrite <- H2. apply Hb, Hc. }
  destruct Hnd_all as [Hnd_all Hin_all].
  assert (Re : renewed h (S n3) (VRef e) h' (S (S (S n3))) (VRef (length h))
                 (JObj (put_prop member (JStr text) (put_all ME))) [length h]).
  { eapply (renewed_object h h' n3 (S (S n3)) [length h] e (length h) me
              (put_prop member (VStr text) (put_all me))).
    - exact Hdetail.
    - unfold h'. rewrite list_lookup_insert_ne by lia.
      rewrite lookup_app_l by (rewrite length_app; simpl; lia). apply lookup_snoc_new.
    - right. left.
    - apply related_put; [exact Hsx|]. apply related_put_all, H1.
    - apply NoDup_put_prop; [rewrite Hrx; constructor|exact Hnd_all|].
      rewrite Hrx. intros c Hc. inversion Hc.
    - intros Hc. apply flat_map_put_elem in Hc as [Hc|Hc];
        [rewrite Hrx in Hc; inversion Hc|].
      apply Hin_all, Hme_in, He_in, Hbelow in Hc. lia.
    - intros c Hc. left. apply flat_map_put_elem in Hc as [Hc|Hc];
        [rewrite Hrx in Hc; inversion Hc|]. apply Hin_all, Hc. }
  (* the new list *)
  assert (Ra : renewed h (S (S n3)) (VRef a) h' (S (S (S (S n3)))) (VRef (S (length h)))
                 (JArr (<[Z.to_nat index :=
                          JObj (put_prop member (JStr text) (put_all ME))]> SD))
                 [length h; S (length h)]).
  { eapply (element_renewed h h' (S n3) (S (S (S n3))) [length h]
              [length h; S (length h)] a (S (length h)) es pa []);
      try eassumption.
    - lia.
    - intros c Hc. apply list_elem_of_singleton in Hc. subst. left.
    - unfold h'. rewrite list_lookup_insert_ne by lia.
      replace (S (length h)) with (length (h ++ [Obj None (put_prop member (VStr text)
                                                             (put_all me))]))
        by (rewrite length_app; simpl; lia).
      apply lookup_snoc_new.
    - right. split; [right; left|]. intros Hc. apply list_elem_of_singleton in Hc. lia.
    - intros c Hc _. destruct (Hbelow c Hc). apply Hold; assumption. }
  eapply (list_renewed s (S n3) L r a sel recs pm ps T M field Hlen Hitems Hcoll
            Hrecs HndL Hrec Hcell Hps Hndr Hfield h' (S (S (S n3)))
            [length h; S (length h)] (S (length h))); try eassumption.
  - lia.
  - unfold h'. apply list_lookup_insert_eq. rewrite !length_app. simpl. lia.
  - unfold h'. apply defined_props_insert.
    + apply defined_props_snoc; [|reflexivity].
      apply defined_props_snoc; [exact Hd|]. simpl.
      apply defined_put_prop; [reflexivity|].
      apply forallb_Forall.
      apply (Forall_put_all (fun v => negb (is_undef v) = true)).
      apply forallb_Forall, (defined_props_lookup _ _ _ Hd Hdetail).
    + simpl. apply defined_replace_prop; [reflexivity|].
      apply (defined_props_lookup _ _ _ Hd Hcell).
Qed.

End EntryOfList.

(** X26.  Typing in the Category or Details box of a setup detail, or
    in the Question or Answer box of a common issue, in the document
    that a save writes: the entry at that place gets the text as that
    member (replaced where it was, added at the end otherwise) and keeps
    its other members in their order; every other entry of the list,
    every other member and every other record is written as before.
    The entry and the list are new objects, and the collection stays a
    tree. *)
Theorem entry_text_document (s : state) (T : list json) (sel index : Z)
    (M ME : list (string * json)) (field member text : string) (SD : list json) :
  tidy s = true ->
  snapshot s = Ok (Some (JArr T)) ->
  selectedItem s = Some sel ->
  0 <= sel < 4294967295 ->
  0 <= index < 4294967295 ->
  T !! Z.to_nat sel = Some (JObj M) ->
  lookup_prop field M = Some (JArr SD) ->
  SD !! Z.to_nat index = Some (JObj ME) ->
  mem member object_members = false ->
  exists s',
    setEntryMember field index member text s = (Ok tt, s')
    /\ list_saved s' T sel M field
         (<[Z.to_nat index := JObj (put_prop member (JStr text) (put_all ME))]> SD).
Proof.
  intros Ht Hsnap Hsel Hrange Hindex HT HSD HME Hmem. unfold list_saved.
  destruct (list_view s T _ M field SD Ht Hsnap HT HSD)
    as (n2 & L & r & a & recs & es & pm & ps & pa & Hlen & Hitems & Hcoll & Hrecs
        & HndL & Hrec & Hcell & Hps & Hndr & Hfield & Hlist & Hes & Hnda & Hd).
  destruct (elem_view _ _ _ _ _ _ Hes (proj2 (proj1 (NoDup_cons _ _) Hnda)) HME
              ltac:(discriminate)) as (ve & Hentry & Hser & Hnde).
  destruct (object_view _ _ _ _ Hd Hser Hnde)
    as (n3 & e & me & -> & -> & Hdetail & Hme & Hnde').
  eapply entry_member_document; eassumption.
Qed.

(** * The entries of the sample records, added and edited *)

Lemma add_entry_document_sample :
  (exists s', addSetupDetail sample_selected = (Ok tt, s')
              /\ list_saved s' sample_records 1 banana "SetupDetails"
                   (banana_setups ++ [setup_template_doc]))
  /\ (exists s', addIssue issues_selected = (Ok tt, s')
                 /\ list_saved s' [JObj cherry] 0 cherry "CommonIssues"
                      ([JObj cherry_issue] ++ [issue_template_doc])).
Proof.
  split.
  - refine (proj1 (add_entry_document sample_selected sample_records 1 banana
                     _ _ _ _ _) banana_setups _); settle.
  - refine (proj2 (add_entry_document issues_selected [JObj cherry] 0 cherry
                     _ _ _ _ _) [JObj cherry_issue] _); settle.
Defined.

Lemma entry_text_document_sample :
  (exists s', setEntryMember "SetupDetails" 0 "Details" "read me" sample_selected
              = (Ok tt, s')
              /\ list_saved s' sample_records 1 banana "SetupDetails"
                   (<[Z.to_nat 0 :=
                        JObj (put_prop "Details" (JStr "read me")
                                (put_all banana_first_setup))]> banana_setups))
  /\ (exists s', setEntryMember "CommonIssues" 0 "Answer" "because" issues_selected
                 = (Ok tt, s')
                 /\ list_saved s' [JObj cherry] 0 cherry "CommonIssues"
                      (<[Z.to_nat 0 :=
                           JObj (put_prop "Answer" (JStr "because")
                                   (put_all cherry_issue))]> [JObj cherry_issue])).
Proof.
  split.
  - apply (entry_text_document sample_selected sample_records 1 0 banana
             banana_first_setup "SetupDetails" "Details" "read me" banana_setups);
      settle.
  - apply (entry_text_document issues_selected [JObj cherry] 0 0 cherry
             cherry_issue "CommonIssues" "Answer" "because" [JObj cherry_issue]);
      settle.
Defined.

(** * The path a failed load leaves, and the save that follows *)

(** With a current path, [saveJsonData] is [saveToCurrentPath]. *)
Lemma saveJsonData_current (s : state) (p : string) :
  currentFilePath s = Some p -> p <> "" -> saveJsonData s = saveToCurrentPath s.
Proof.
  intros Hcur Hp. apply String.eqb_neq in Hp.
  unfold saveJsonData, bind at 1, read. rewrite Hcur, Hp. reflexivity.
Qed.

(** C9.  The path is remembered before the text is parsed: after a load
    whose text is not JSON, or is the text of a document that is no
    array, the failure message is shown, the current path is the new
    one and the configuration file names it (when that file can be
    written), while the collection and the selection are the old ones.
    The save that follows writes the old collection, as
    [JSON.stringify(items, null, 2)] gives it, to the new path. *)
Theorem parse_error_changes_path (lc : string -> string -> comparison)
    (s s1 : state) (t p : string) :
  resolve_source s = (Ok (Some (t, p)), s1) ->
  (JSON_parse t = Err SyntaxError
   \/ exists doc, JSON_parse t = Ok doc /\ forall l, doc <> JArr l) ->
  exists s2,
    loadJsonData lc s = (Ok tt, s2)
    /\ toasts s2 = toasts s ++ [load_failed]
    /\ currentFilePath s2 = Some p
    /\ (mem (configPath s) (readonly s) = false ->
        lookup_prop (configPath s) (files s2)
        = Some (JSON_stringify (JObj [("lastUsedPath", JStr p)])))
    /\ collection_kept s s2
    /\ (forall J,
          snapshot s = Ok (Some J) ->
          mem p (readonly s) = false ->
          exists s3,
            saveJsonData s2 = (Ok tt, s3)
            /\ saveToCurrentPath s2 = (Ok tt, s3)
            /\ lookup_prop p (files s3) = Some (JSON_stringify J)
            /\ toasts s3 = toasts s2 ++ [save_succeeded]
            /\ same_collection s2 s3).
Proof.
  intros Hres Hfail.
  destruct (resolve_source_path _ _ _ _ Hres) as [Hp _].
  pose proof (resolve_source_state _ _ _ Hres) as Hs1.
  assert (Hsteps : exists e sf, load_steps lc s = (Err e, sf) /\ e <> Unmodelled).
  { destruct Hfail as [Ht|(doc & Ht & Hdoc)].
    - eexists _, _. split; [apply (load_steps_syntax_error lc _ _ _ _ Hres Ht)|].
      discriminate.
    - destruct (load_steps_not_an_array lc _ _ _ _ _ Hres Ht Hdoc) as (sf & H).
      eexists _, _. split; [exact H|]. discriminate. }
  destruct Hsteps as (e & sf & Hsteps & He).
  destruct (load_exception lc s sf e Hsteps He) as (Hload & Hkept & Htoast).
  set (s2 := set_toasts (toasts sf ++ [load_failed]) sf) in *.
  destruct (load_host lc s s1 s2 t p (Ok tt) Hres Hload)
    as (Hf & Hro & Hc & _ & _ & Hcur).
  exists s2. split; [exact Hload|].
  split; [unfold s2; cbn [toasts set_toasts]; rewrite Htoast; reflexivity|].
  split; [exact Hcur|]. split; [|split; [exact Hkept|]].
  - intros Hw. rewrite Hf, (remember_path_result p s1 Hp). cbn [snd].
    rewrite Hs1. cbn [configPath readonly set_picks]. rewrite Hw.
    apply lookup_write_file.
  - intros J HJ Hw.
    pose proof (snapshot_kept s s2 (Some J) Hkept HJ) as HJ2.
    assert (Hw2 : mem p (readonly s2) = false) by (rewrite Hro; exact Hw).
    pose proof (save_result s2 p J Hcur Hp HJ2 Hw2) as Hsave.
    eexists. split; [exact Hsave|].
    split; [rewrite <- (saveJsonData_current s2 p Hcur Hp); exact Hsave|].
    split; [cbn [files set_toasts set_files]; apply lookup_write_file|].
    split; [reflexivity|]. repeat split.
Qed.

(** The sample session, with the second record selected, when the user
    has chosen a file that is no JSON, and when the file holds an
    object. *)
Lemma parse_error_changes_path_sample :
  (exists s2,
     loadJsonData ascii_collate sample_before_broken = (Ok tt, s2)
     /\ toasts s2 = toasts sample_before_broken ++ [load_failed]
     /\ currentFilePath s2 = Some "/data/broken.json"
     /\ (mem (configPath sample_before_broken) (readonly sample_before_broken) = false ->
         lookup_prop (configPath sample_before_broken) (files s2)
         = Some (JSON_stringify (JObj [("lastUsedPath", JStr "/data/broken.json")])))
     /\ collection_kept sample_before_broken s2
     /\ (forall J,
           snapshot sample_before_broken = Ok (Some J) ->
           mem "/data/broken.json" (readonly sample_before_broken) = false ->
           exists s3,
             saveJsonData s2 = (Ok tt, s3)
             /\ saveToCurrentPath s2 = (Ok tt, s3)
             /\ lookup_prop "/data/broken.json" (files s3) = Some (JSON_stringify J)
             /\ toasts s3 = toasts s2 ++ [save_succeeded]
             /\ same_collection s2 s3))
  /\ (exists s2,
        loadJsonData ascii_collate sample_before_object = (Ok tt, s2)
        /\ toasts s2 = toasts sample_before_object ++ [load_failed]
        /\ currentFilePath s2 = Some "/data/object.json"
        /\ (mem (configPath sample_before_object) (readonly sample_before_object) = false ->
            lookup_prop (configPath sample_before_object) (files s2)
            = Some (JSON_stringify (JObj [("lastUsedPath", JStr "/data/object.json")])))
        /\ collection_kept sample_before_object s2
        /\ (forall J,
              snapshot sample_before_object = Ok (Some J) ->
              mem "/data/object.json" (readonly sample_before_object) = false ->
              exists s3,
                saveJsonData s2 = (Ok tt, s3)
                /\ saveToCurrentPath s2 = (Ok tt, s3)
                /\ lookup_prop "/data/object.json" (files s3) = Some (JSON_stringify J)
                /\ toasts s3 = toasts s2 ++ [save_succeeded]
                /\ same_collection s2 s3))
  /\ snapshot sample_before_broken = Ok (Some (JArr sample_records))
  /\ snapshot sample_before_object = Ok (Some (JArr sample_records)).
Proof.
  split; [|split; [|split; vm_compute; reflexivity]].
  - apply (parse_error_changes_path ascii_collate sample_before_broken
             (snd (resolve_source sample_before_broken)) "[{oops" "/data/broken.json").
    + vm_compute. reflexivity.
    + left. vm_compute. reflexivity.
  - apply (parse_error_changes_path ascii_collate sample_before_object
             (snd (resolve_source sample_before_object))
             (requote "{'Name':'x'}") "/data/object.json").
    + vm_compute. reflexivity.
    + right. exists (JObj [("Name", JStr "x")]).
      split; [vm_compute; reflexivity|discriminate].
Defined.

(** * The list edits of the sample record, out of bounds *)

Lemma list_edits_out_of_bounds_sample :
  (exists s',
     removeArrayItem "FeaturesNotEmulated" 99 sample_selected = (Ok tt, s')
     /\ list_of s' 1 "FeaturesNotEmulated" = Ok [VStr "p"; VStr "q"]
     /\ field_of s' 1 "FeaturesNotEmulated" = Ok (VRef (length (store sample_selected)))
     /\ store s' !! length (store sample_selected)
        = Some (Obj (Some [VStr "p"; VStr "q"]) [])
     /\ field_edited sample_selected s' 1 "FeaturesNotEmulated" 9%nat
     /\ store s' !! 6%nat = Some (Obj (Some [VStr "p"; VStr "q"]) []))
  /\ (exists s',
        removeArrayItem "FeaturesNotEmulated" (-5) sample_selected = (Ok tt, s')
        /\ list_of s' 1 "FeaturesNotEmulated" = Ok [VStr "q"]
        /\ field_edited sample_selected s' 1 "FeaturesNotEmulated" 9%nat
        /\ store s' !! 6%nat = Some (Obj (Some [VStr "p"; VStr "q"]) []))
  /\ (exists s',
        updateArrayItem "FeaturesNotEmulated" 3 (VStr "z") sample_selected = (Ok tt, s')
        /\ list_of s' 1 "FeaturesNotEmulated"
           = Ok [VStr "p"; VStr "q"; VUndef; VStr "z"]
        /\ field_edited sample_selected s' 1 "FeaturesNotEmulated" 9%nat
        /\ store s' !! 6%nat = Some (Obj (Some [VStr "p"; VStr "q"]) [])).
Proof.
  split; [|split].
  - refine (proj1 (list_edits_out_of_bounds sample_selected 12%nat 9%nat 6%nat 1
                     "FeaturesNotEmulated"
                     [VRef 10%nat; VRef 9%nat; VRef 11%nat] [VStr "p"; VStr "q"]
                     [] [] (props_at sample_selected 9) _ _ _ _ _ _ _ _ 99 VNull) _);
      try evaluate; simpl; lia.
  - refine (proj1 (proj2 (list_edits_out_of_bounds sample_selected 12%nat 9%nat 6%nat 1
                     "FeaturesNotEmulated"
                     [VRef 10%nat; VRef 9%nat; VRef 11%nat] [VStr "p"; VStr "q"]
                     [] [] (props_at sample_selected 9) _ _ _ _ _ _ _ _ (-5) VNull)) _);
      try evaluate; simpl; lia.
  - refine (proj2 (proj2 (list_edits_out_of_bounds sample_selected 12%nat 9%nat 6%nat 1
                     "FeaturesNotEmulated"
                     [VRef 10%nat; VRef 9%nat; VRef 11%nat] [VStr "p"; VStr "q"]
                     [] [] (props_at sample_selected 9) _ _ _ _ _ _ _ _ 3 (VStr "z"))) _);
      try evaluate; simpl; lia.
Defined.

(** * A collation that is not the order of the character codes *)


